(** * Maxxit trade execution and position lifecycle: a shallow embedding

    The development follows the TypeScript sources of the trade execution
    subsystem:

    - [SafeModuleService] (lib/safe-module-service.ts): nonce coordinator and
      on-chain execution gateway;
    - [TradeExecutor] (lib/trade-executor.ts): pre-trade validation, opening
      and closing of spot positions;
    - the admin endpoint [handler] (pages/api/admin/execute-trade-once.ts);
    - [monitorPositions] (workers/position-monitor-v2.ts);
    - the relational store of the Prisma migration (table [positions] and its
      unique index on [(deployment_id, signal_id)]).

    Conventions of the embedding.

    - A JavaScript [number] that holds a price, a balance or a percentage is
      an exact rational ([Q]); [null]/[undefined] are [None], and [NaN] (which
      only arises here from arithmetic on [undefined]) is [None] as well.  On
      the decimal inputs used below the binary64 results of the source's
      expressions order the same way as the exact ones.
    - On-chain amounts (BigNumber, decimal strings of wei) and nonces are [Z].
    - Asynchronous code is a state-and-exception monad over a [World]: the
      relational store, the static nonce cache and lock table of
      [SafeModuleService], and the log of transactions handed to the chain.
      Everything the code reads from outside the process (RPC reads, receipts,
      adapter results, the clock, environment variables) comes from an
      [Env]; an oracle of [Env] is indexed by the number of external
      interactions performed so far, so two reads of the same quantity may
      differ.
    - Message strings assembled from templates are kept as a template
      constructor applied to its arguments ([Message]).
    - A value written to a column declared [DECIMAL(20,8)] in the migration
      ([qty], [entry_price], [exit_price], [pnl] of a position, [amount] of a
      billing event) is stored rounded to 8 places, and the statement fails
      with a numeric overflow when the rounded value does not fit
      ([toDecimal]).
    - [SafeWalletService.validateSafe] is not among the sources; it is
      modelled after section 4.5 of the specification (see [validateSafe]).
    - For invocations that run concurrently, the open is written a second
      time as a program cut at its awaits ([Resumable]), which the event
      loop resumes in any order ([race]); run without interruption such a
      program is the monadic code it was cut from. *)

From Stdlib Require Import ZArith QArith Qround Qabs Lqa String List Bool Lia Sorted.
From stdpp Require Import gmap strings.
Import ListNotations.

Set Implicit Arguments.
Unset Strict Implicit.

Open Scope string_scope.
Open Scope Z_scope.
Open Scope list_scope.

(** ** Data model (prisma/migrations: enums and tables) *)

Inductive Venue := SPOT | GMX | HYPERLIQUID.

Inductive agent_status_t := DRAFT | ACTIVE | PAUSED.

Definition venue_eqb (a b : Venue) : bool :=
  match a, b with
  | SPOT, SPOT | GMX, GMX | HYPERLIQUID, HYPERLIQUID => true
  | _, _ => false
  end.

Definition status_eqb (a b : agent_status_t) : bool :=
  match a, b with
  | DRAFT, DRAFT | ACTIVE, ACTIVE | PAUSED, PAUSED => true
  | _, _ => false
  end.

(** Primary keys ([gen_random_uuid()]) are abstracted to naturals. *)
Definition Id := nat.

(** Milliseconds since the epoch ([Date], [Date.now()]). *)
Definition Timestamp := Z.

(** [signal.sizeModel] (JSONB): [{ type, value, baseSize? }]. *)
Record SizeModel := {
  sm_type : option string;
  sm_value : option Q;
  sm_baseSize : option Q;
}.

(** [signal.riskModel] (JSONB): [{ stopLoss?, takeProfit? }]. *)
Record RiskModel := {
  rm_stopLoss : option Q;
  rm_takeProfit : option Q;
}.

(** [position.trailingParams] (JSONB):
    [{ enabled, trailingPercent, highestPrice, lowestPrice? }]. *)
Record TrailingParams := {
  enabled : bool;
  trailingPercent : option Q;
  highestPrice : option Q;
  lowestPrice : option Q;
}.

Record Agent := {
  agent_id : Id;
  agent_status : agent_status_t;
  creatorWallet : string;
  profitReceiverAddress : string;
}.

Record AgentDeployment := {
  dep_id : Id;
  dep_agentId : Id;
  userWallet : string;
  safeWallet : string;
  moduleAddress : option string;
  moduleEnabled : bool;
  dep_status : agent_status_t;
  subActive : bool;
  subStartedAt : Timestamp;
}.

Record Signal := {
  sig_id : Id;
  sig_agentId : Id;
  sig_tokenSymbol : string;
  sig_venue : Venue;
  sig_side : string;
  sizeModel : SizeModel;
  riskModel : RiskModel;
  skippedReason : option string;
  signalHash : option string;
  creatorAddress : option string;
  proofOfIntentTxHash : option string;
}.

Record Position := {
  pos_id : Id;
  deploymentId : Id;
  signalId : Id;
  pos_venue : Venue;
  pos_tokenSymbol : string;
  pos_side : string;
  qty : Q;
  entryPrice : Q;
  entryTxHash : option string;
  stopLoss : option Q;
  takeProfit : option Q;
  trailingParams : option TrailingParams;
  openedAt : Timestamp;
  closedAt : option Timestamp;
  exitPrice : option Q;
  exitTxHash : option string;
  pnl : option Q;
  source : string;
  manualTradeId : option Id;
}.

Record VenueStatus := {
  vs_venue : Venue;
  vs_tokenSymbol : string;
  minSize : option Q;
}.

Record TokenRegistry := {
  tr_chain : string;
  tr_tokenSymbol : string;
  tokenAddress : string;
  decimals : option Z;
}.

(** [billingEvent.create] of the close path: a PROFIT_SHARE charge. *)
Record BillingEvent := {
  be_positionId : Id;
  be_deploymentId : Id;
  be_kind : string;
  be_amount : Q;
  be_asset : string;
  be_status : string;
  be_txHash : string;
  be_profitShareBps : Z;
  be_recipient : string;
}.

(** The relational store.  [nextPositionId] stands for the generator of
    fresh primary keys of [positions]. *)
Record Store := {
  agents : list Agent;
  deployments : list AgentDeployment;
  signals : list Signal;
  positions : list Position;
  venueStatuses : list VenueStatus;
  tokenRegistry : list TokenRegistry;
  billingEvents : list BillingEvent;
  nextPositionId : Id;
}.

(** ** Messages *)

(** The [error]/[reason] strings of the sources.  [Text] is a literal or a
    message received from outside; the other constructors are the template
    literals of the code with their interpolated arguments. *)
Inductive Message :=
| Text (s : string)
| SafeValidationFailed (e : option string)
    (* `Safe wallet validation failed: ${validation.error}` *)
| NotAvailableOn (sym : string) (v : Venue)
    (* `${actualTokenSymbol} not available on ${signal.venue}` *)
| NotInRegistryFor (sym chain : string)
    (* `Token ${actualTokenSymbol} not found in registry for ${chain}` *)
| NotInRegistry (sym : string)
    (* `Token ${actualTokenSymbol} not found in registry` *)
| SizeTooSmall (size : Q)
    (* `Position size too small: ${positionSize.toFixed(2)} USDC (min: 0.1 USDC)` *)
| InsufficientBalance (need have : Q)
    (* `Insufficient balance: Need ${positionSize} USDC, have ${usdcBalance.toFixed(2)} USDC` *)
| RouterNotConfigured (chainId : Z)
    (* `Router not configured for chain ${chainId}` *)
| AlreadyClosedAt (t : Timestamp)
    (* `Position already closed at ${position.closedAt.toISOString()}` *)
| ClosingNotImplemented (v : Venue)
    (* `Position closing not implemented for ${position.venue}` *)
| NoBalanceToClose (sym : string)
    (* `No ${position.tokenSymbol} balance in Safe to close` *)
| TokenApprovalFailed (e : Message) (sym : string)
    (* `Token approval failed: ${approvalResult.error}. Please approve ${position.tokenSymbol} manually.` *)
| UniqueConstraintFailed (fields : list string)
    (* Prisma P2002: unique constraint failed on the given fields *)
| RecordNotFound (table : string)
    (* Prisma P2025: record to update not found *)
| ModuleNotEnabledOnAny (activeDeployments : nat)
    (* `${allDeployments.length} active deployments found, but module is not
       enabled on any. Users must enable the trading module on their Safe first.` *)
| TypeError (what : string).
    (* property access on null/undefined *)

(** ** The monad of asynchronous code *)

(** What an awaited computation does: it returns, it throws, or it never
    settles (only the wait on a nonce lock that nobody releases does). *)
Inductive outcome (A : Type) :=
| Ok (a : A)
| Throw (e : Message)
| Hang.
Arguments Throw {A} e.
Arguments Hang {A}.

(** What an external call answers. *)
Inductive reply (A : Type) :=
| Returns (a : A)
| Raises (e : Message).
Arguments Raises {A} e.

(** ** The chain as the gateway sees it *)

(** Calldata passed to [executeFromModule]. *)
Inductive CallData :=
| Approve (spender : string) (amount : Z)   (* ERC20.approve(spender, amount) *)
| Raw (bytes : string).

(** One constructor per function of [MODULE_ABI] that the service calls with
    a transaction, with the arguments in ABI order. *)
Inductive ModuleCall :=
| InitializeCapital (safe : string)
| ExecuteFromModule (safe to : string) (value : Z) (data : CallData)
| ExecuteTrade (safe tokenIn tokenOut : string) (amountIn minAmountOut : Z)
               (poolFee : Z) (profitReceiver : string)
| ExecuteTradeWithIntent (safe signalHash creatorAddress tokenIn tokenOut : string)
               (amountIn minAmountOut : Z) (poolFee : Z)
| ClosePosition (safe tokenIn tokenOut : string) (amountIn minAmountOut : Z)
               (poolFee : Z) (agentOwner : string) (entryValueUSDC : Z)
| SetTokenWhitelist (safe token : string) (status : bool).

(** The transaction overrides [{ gasLimit, nonce }]. *)
Record Submission := {
  call : ModuleCall;
  gasLimit : option Z;
  nonce : option Z;
}.

Inductive Event :=
| TradeExecuted (amountOut : Z)
| ProofOfIntent (signalHash creator : string) (timestamp : Z)
| OtherEvent (name : string).

Record Receipt := {
  status : Z;
  transactionHash : string;
  events : list Event;
}.

(** [module.getSafeStats]: only [initialized] is consulted by the callers. *)
Record SafeStats := {
  initialized : bool;
}.

(** [safeWallet.validateSafe()]. *)
Record SafeValidation := {
  valid : bool;
  sv_error : option string;
}.

(** [adapter.getExecutionSummary()]. *)
Record ExecutionSummary := {
  es_canExecute : bool;
  es_reason : option string;
  es_usdcBalance : option Q;
}.

(** [ModuleConfig] *)
Record ModuleConfig := {
  cfg_moduleAddress : option string;
  cfg_chainId : Z;
  cfg_executorPrivateKey : string;
}.

(** Everything outside the process.  The sources of [SafeWalletService]
    ([validateSafe], [getUSDCBalance], [getChainIdForVenue]) and of
    [SpotAdapter] are not part of the modelled files: their results are
    taken from here, as are RPC reads and receipts.  [isModuleEnabled] is
    the Safe's view function of that name, read over RPC; [safeReadiness]
    stands for what [validateSafe] requires of a Safe besides the module. *)
Record Env := {
  (* process.env *)
  EXECUTOR_PRIVATE_KEY : option string;
  TRADING_MODULE_ADDRESS : option string;
  MODULE_ADDRESS : option string;
  (* lib/safe-wallet *)
  getChainIdForVenue : Venue -> Z;
  safeReadiness : nat -> string -> Z -> reply SafeValidation;
  getUSDCBalance : nat -> string -> Z -> reply Q;
  (* lib/adapters/spot-adapter *)
  getRouterAddress : Z -> option string;
  getExecutionSummary : nat -> Signal -> string -> reply ExecutionSummary;
  getQuote : nat -> string -> string -> Z -> reply Z;
  calculateMinAmountOut : Z -> Z -> reply Z;
  buildApprovalTx : nat -> string -> Z -> reply string;
  buildSwapTx : nat -> string -> string -> Z -> Z -> Z -> string -> reply string;
  buildCloseSwapTx : nat -> string -> string -> Z -> Z -> string -> Z -> reply string;
  (* ethers: wallet of a key, RPC reads, transactions awaited to inclusion *)
  connect : ModuleConfig -> reply string;
  getTransactionCount : nat -> string -> reply Z;
  transact : nat -> string -> Submission -> reply Receipt;
  readSafeStats : nat -> string -> reply SafeStats;
  isTokenWhitelisted : nat -> string -> string -> reply bool;
  allowance : nat -> string -> string -> string -> reply Z;
  balanceOf : nat -> string -> string -> reply Z;
  isModuleEnabled : nat -> string -> string -> bool;
  proofOfIntentHash : string -> string -> string -> Z -> Timestamp -> reply string;
  (* lib/price-oracle, lib/adapters/gmx-reader *)
  getTokenPriceUSD : nat -> string -> option Q;
  getMarketPrice : nat -> string -> reply (option Q);
  (* Date.now() *)
  now : nat -> Timestamp;
}.

(** The mutable state of the process and of its collaborators. *)
Record World := {
  db : Store;
  nonceTracker : gmap string Z;      (* SafeModuleService.nonceTracker *)
  nonceLocks : gset string;          (* keys of SafeModuleService.nonceLocks *)
  chainLog : list (string * Submission * reply Receipt);
                                     (* (sender, transaction, what came back), oldest first *)
  clock : nat;                       (* external interactions so far *)
}.

Definition M (A : Type) : Type := World -> outcome A * World.

Definition ret {A} (a : A) : M A := fun w => (Ok a, w).

Definition throw {A} (e : Message) : M A := fun w => (Throw e, w).

Definition bind {A B} (m : M A) (k : A -> M B) : M B :=
  fun w =>
    match m w with
    | (Ok a, w') => k a w'
    | (Throw e, w') => (Throw e, w')
    | (Hang, w') => (Hang, w')
    end.

Notation "x <- m ;; k" := (bind m (fun x => k))
  (at level 100, m at next level, right associativity).
Notation "m ;;; k" := (bind m (fun _ => k))
  (at level 100, right associativity).

(** [try { m } catch (error) { h error }] *)
Definition tryCatch {A} (m : M A) (h : Message -> M A) : M A :=
  fun w =>
    match m w with
    | (Throw e, w') => h e w'
    | r => r
    end.

(** [try { m } finally { f }], for a [finally] block that completes normally. *)
Definition tryFinally {A} (m : M A) (f : World -> World) : M A :=
  fun w =>
    match m w with
    | (Hang, w') => (Hang, w')
    | (r, w') => (r, f w')
    end.

Definition ofReply {A} (r : reply A) : outcome A :=
  match r with
  | Returns a => Ok a
  | Raises e => Throw e
  end.

Definition tick (w : World) : World :=
  {| db := db w; nonceTracker := nonceTracker w; nonceLocks := nonceLocks w;
     chainLog := chainLog w; clock := S (clock w) |}.

(** An awaited external call: the oracle answers for the current instant. *)
Definition ask {A} (oracle : nat -> reply A) : M A :=
  fun w => (ofReply (oracle (clock w)), tick w).

(** A synchronous read of the outside world that cannot fail. *)
Definition observe {A} (oracle : nat -> A) : M A :=
  fun w => (Ok (oracle (clock w)), tick w).

Definition liftReply {A} (r : reply A) : M A :=
  fun w => (ofReply r, w).

Definition getStore : M Store := fun w => (Ok (db w), w).

Definition setStore (s : Store) : M unit :=
  fun w => (Ok tt,
            {| db := s; nonceTracker := nonceTracker w; nonceLocks := nonceLocks w;
               chainLog := chainLog w; clock := clock w |}).

(** ** Nonce coordinator and execution gateway (SafeModuleService) *)

Module SafeModuleService.
Section WithEnv.

Variable env : Env.

(** An instance: the module contract it talks to and its executor wallet. *)
Record Service := {
  svc_module : option string;
  svc_chainId : Z;
  executor : string;                (* this.executor.address *)
}.

(** [new SafeModuleService(config)] *)
Definition newSafeModuleService (config : ModuleConfig) : M Service :=
  address <- liftReply (connect env config) ;;
  ret {| svc_module := cfg_moduleAddress config;
         svc_chainId := cfg_chainId config;
         executor := address |}.

Definition lock (address : string) (w : World) : World :=
  {| db := db w; nonceTracker := nonceTracker w;
     nonceLocks := {[ address ]} ∪ nonceLocks w;
     chainLog := chainLog w; clock := clock w |}.

Definition unlock (address : string) (w : World) : World :=
  {| db := db w; nonceTracker := nonceTracker w;
     nonceLocks := nonceLocks w ∖ {[ address ]};
     chainLog := chainLog w; clock := clock w |}.

Definition cacheNonce (address : string) (n : Z) : M unit :=
  fun w => (Ok tt,
            {| db := db w; nonceTracker := <[ address := n ]> (nonceTracker w);
               nonceLocks := nonceLocks w;
               chainLog := chainLog w; clock := clock w |}).

(** [getNextNonce].  The caller first waits while a lock for the address is
    present; with nobody else running, a lock that is present is never
    released, so the wait does not end. *)
Definition getNextNonce (svc : Service) : M Z :=
  let address := executor svc in
  fun w =>
    if decide (address ∈ nonceLocks w) then (Hang, w)
    else
      tryFinally
        (fun w1 =>
           (n <- match nonceTracker w1 !! address with
                 | None =>
                     (* first time: fetch from network *)
                     ask (fun t => getTransactionCount env t address)
                 | Some cached =>
                     let incremented := cached + 1 in
                     networkNonce <- ask (fun t => getTransactionCount env t address) ;;
                     ret (if networkNonce >? incremented then networkNonce
                          else incremented)
                 end ;;
            cacheNonce address n ;;;
            ret n) w1)
        (unlock address)
        (lock address w).

(** JavaScript truthiness of an optional string. *)
Definition truthy (s : option string) : bool :=
  match s with
  | Some "" | None => false
  | Some _ => true
  end.

(** [SafeModuleService.resetNonceTracker(address?)]; an empty string is
    falsy and clears everything, like no argument. *)
Definition resetNonceTracker (address : option string) (w : World) : World :=
  {| db := db w;
     nonceTracker := if truthy address
                     then delete (default "" address) (nonceTracker w)
                     else ∅;
     nonceLocks := nonceLocks w;
     chainLog := chainLog w; clock := clock w |}.

(** [TradeParams] *)
Record TradeParams := {
  tp_safeAddress : string;
  fromToken : string;
  toToken : string;
  tp_amountIn : Z;
  dexRouter : string;
  swapData : string;
  tp_minAmountOut : Z;
  tp_profitReceiver : string;
  tp_signalHash : option string;
  tp_creatorAddress : option string;
}.

(** [TradeResult] *)
Record TradeResult := {
  tr_success : bool;
  tr_txHash : option string;
  tr_amountOut : option Z;
  feeCharged : option Z;
  tr_error : option Message;
}.

(** The result shape [{ success, txHash?, error? }] of the setup calls. *)
Record TxResult := {
  tx_success : bool;
  tx_txHash : option string;
  tx_error : option Message;
}.

(** Parameters of [closePosition]. *)
Record CloseParams := {
  cp_safeAddress : string;
  cp_tokenIn : string;
  cp_tokenOut : string;
  cp_amountIn : Z;
  cp_minAmountOut : Z;
  cp_profitReceiver : string;
  cp_entryValueUSDC : Z;
}.

(** [error.message || fallback] *)
Definition messageOr (e : Message) (fallback : string) : Message :=
  match e with
  | Text "" => Text fallback
  | _ => e
  end.

(** [await this.module.f(args, overrides)] followed by [await tx.wait()]:
    the transaction is handed to the chain and the call settles with the
    receipt or throws. *)
Definition send (svc : Service) (c : ModuleCall) (gas nonce : option Z) : M Receipt :=
  fun w =>
    let tx := {| call := c; gasLimit := gas; nonce := nonce |} in
    let answer := transact env (clock w) (executor svc) tx in
    (ofReply answer,
     tick {| db := db w; nonceTracker := nonceTracker w; nonceLocks := nonceLocks w;
             chainLog := chainLog w ++ [(executor svc, tx, answer)];
             clock := clock w |}).

Definition txFailed (e : Message) : TxResult :=
  {| tx_success := false; tx_txHash := None; tx_error := Some e |}.

Definition txDone (receipt : Receipt) : TxResult :=
  {| tx_success := true; tx_txHash := Some (transactionHash receipt); tx_error := None |}.

(** [initializeCapital] *)
Definition initializeCapital (svc : Service) (safeAddress : string) : M TxResult :=
  tryCatch
    (receipt <- send svc (InitializeCapital safeAddress) None None ;;
     ret (txDone receipt))
    (fun error => ret (txFailed (messageOr error "Failed to initialize capital"))).

(** [executeFromModule] *)
Definition executeFromModule (svc : Service) (safeAddress to : string)
    (value : Z) (data : CallData) : M TxResult :=
  tryCatch
    (nonce <- getNextNonce svc ;;
     receipt <- send svc (ExecuteFromModule safeAddress to value data)
                     (Some 1500000) (Some nonce) ;;
     if status receipt =? 0
     then ret (txFailed (Text "Transaction reverted"))
     else ret (txDone receipt))
    (fun error => ret (txFailed error)).

Definition tradeFailed (e : Message) : TradeResult :=
  {| tr_success := false; tr_txHash := None; tr_amountOut := None;
     feeCharged := None; tr_error := Some e |}.

(** [receipt.events?.find(e => e.event === 'TradeExecuted')] and its
    [args.amountOut]. *)
Fixpoint tradeEventAmount (evs : list Event) : option Z :=
  match evs with
  | [] => None
  | TradeExecuted amountOut :: _ => Some amountOut
  | _ :: rest => tradeEventAmount rest
  end.

(** [executeTradeWithIntent] *)
Definition executeTradeWithIntent (svc : Service) (params : TradeParams) : M TradeResult :=
  tryCatch
    (let poolFee := 3000 in
     nonce <- getNextNonce svc ;;
     receipt <- send svc
       (ExecuteTradeWithIntent
          (tp_safeAddress params)
          (default "" (tp_signalHash params))
          (default "" (tp_creatorAddress params))
          (fromToken params)
          (toToken params)
          (tp_amountIn params)
          (tp_minAmountOut params)
          poolFee)
       (Some 1000000) (Some nonce) ;;
     ret {| tr_success := true;
            tr_txHash := Some (transactionHash receipt);
            tr_amountOut := tradeEventAmount (events receipt);
            feeCharged := Some 200000;
            tr_error := None |})
    (fun error => ret (tradeFailed (messageOr error "Trade with intent execution failed"))).

(** [executeTrade] *)
Definition executeTrade (svc : Service) (params : TradeParams) : M TradeResult :=
  if truthy (tp_signalHash params) && truthy (tp_creatorAddress params)
  then executeTradeWithIntent svc params
  else
    tryCatch
      (let poolFee := 3000 in
       nonce <- getNextNonce svc ;;
       receipt <- send svc
         (ExecuteTrade
            (tp_safeAddress params)
            (fromToken params)
            (toToken params)
            (tp_amountIn params)
            (tp_minAmountOut params)
            poolFee
            (tp_profitReceiver params))
         (Some 1000000) (Some nonce) ;;
       ret {| tr_success := true;
              tr_txHash := Some (transactionHash receipt);
              tr_amountOut := tradeEventAmount (events receipt);
              feeCharged := Some 200000;
              tr_error := None |})
      (fun error => ret (tradeFailed (messageOr error "Trade execution failed"))).

(** [closePosition] *)
Definition closePosition (svc : Service) (params : CloseParams) : M TradeResult :=
  tryCatch
    (let poolFee := 3000 in
     nonce <- getNextNonce svc ;;
     receipt <- send svc
       (ClosePosition
          (cp_safeAddress params)
          (cp_tokenIn params)
          (cp_tokenOut params)
          (cp_amountIn params)
          (cp_minAmountOut params)
          poolFee
          (cp_profitReceiver params)
          (cp_entryValueUSDC params))
       (Some 1000000) (Some nonce) ;;
     ret {| tr_success := true;
            tr_txHash := Some (transactionHash receipt);
            tr_amountOut := None;
            feeCharged := None;
            tr_error := None |})
    (fun error => ret (tradeFailed (messageOr error "Close position failed"))).

(** [getSafeStats]: rethrows. *)
Definition getSafeStats (svc : Service) (safeAddress : string) : M SafeStats :=
  ask (fun t => readSafeStats env t safeAddress).

(** [checkTokenApproval]: allowance above 100k tokens of 18 decimals. *)
Definition checkTokenApproval (svc : Service)
    (safeAddress tokenAddress spender : string) : M bool :=
  tryCatch
    (a <- ask (fun t => allowance env t tokenAddress safeAddress spender) ;;
     ret (a >? 100000 * 10 ^ 18))
    (fun _ => ret false).

Definition MaxUint256 : Z := 2 ^ 256 - 1.

(** [approveTokenForDex] *)
Definition approveTokenForDex (svc : Service)
    (safeAddress tokenAddress dexRouter : string) : M TxResult :=
  tryCatch
    (let approveData := Approve dexRouter MaxUint256 in
     nonce <- getNextNonce svc ;;
     receipt <- send svc (ExecuteFromModule safeAddress tokenAddress 0 approveData)
                     (Some 300000) (Some nonce) ;;
     if status receipt =? 1
     then ret (txDone receipt)
     else ret (txFailed (Text "Approval transaction reverted")))
    (fun error => ret (txFailed (messageOr error "Approval failed"))).

(** [checkTokenWhitelist] *)
Definition checkTokenWhitelist (svc : Service) (safeAddress tokenAddress : string) : M bool :=
  tryCatch
    (ask (fun t => isTokenWhitelisted env t safeAddress tokenAddress))
    (fun _ => ret false).

(** [setTokenWhitelist] *)
Definition setTokenWhitelist (svc : Service)
    (safeAddress tokenAddress : string) (st : bool) : M TxResult :=
  tryCatch
    (nonce <- getNextNonce svc ;;
     receipt <- send svc (SetTokenWhitelist safeAddress tokenAddress st)
                     (Some 300000) (Some nonce) ;;
     ret (txDone receipt))
    (fun error => ret (txFailed (messageOr error "Failed to set token whitelist"))).

(** [createSafeModuleService] *)
Definition createSafeModuleService (moduleAddress : option string) (chainId : Z)
    (executorPrivateKey : option string) : M Service :=
  let privateKey := if truthy executorPrivateKey then executorPrivateKey
                    else EXECUTOR_PRIVATE_KEY env in
  match privateKey with
  | Some key =>
      if truthy privateKey
      then newSafeModuleService {| cfg_moduleAddress := moduleAddress;
                                   cfg_chainId := chainId;
                                   cfg_executorPrivateKey := key |}
      else throw (Text "EXECUTOR_PRIVATE_KEY is required")
  | None => throw (Text "EXECUTOR_PRIVATE_KEY is required")
  end.

End WithEnv.
End SafeModuleService.

Import SafeModuleService.

(** ** The store (Prisma client over the migration's tables) *)

Definition pow10 (d : Z) : Q := inject_Z (10 ^ d).

(** Nearest integer, ties away from zero (the rounding of [toFixed] and of
    PostgreSQL's [numeric]). *)
Definition roundHalfAway (x : Q) : Z :=
  if Qle_bool 0 x then Qfloor (x + (1 # 2)) else (- Qfloor (- x + (1 # 2)))%Z.

(** A number written to a [DECIMAL(20,8)] column ([qty], [entry_price],
    [exit_price], [pnl], [amount]): it is rounded to 8 decimal places, and a
    rounded value of 10^12 or more in absolute value makes the statement fail
    with a numeric field overflow. *)
Definition toDecimal (x : Q) : reply Q :=
  let units := roundHalfAway (x * pow10 8) in
  if 10 ^ 20 <=? Z.abs units
  then Raises (Text "numeric field overflow")
  else Returns (inject_Z units / pow10 8)%Q.
Arguments toDecimal : simpl never.

(** The same for a nullable column. *)
Definition toDecimalOrNull (x : option Q) : reply (option Q) :=
  match x with
  | None => Returns None
  | Some v => match toDecimal v with
              | Returns d => Returns (Some d)
              | Raises e => Raises e
              end
  end.

Section StoreQueries.

Variable s : Store.

Definition findAgent (id : Id) : option Agent :=
  find (fun a => Nat.eqb (agent_id a) id) (agents s).

Definition findDeployment (id : Id) : option AgentDeployment :=
  find (fun d => Nat.eqb (dep_id d) id) (deployments s).

Definition findSignal (id : Id) : option Signal :=
  find (fun x => Nat.eqb (sig_id x) id) (signals s).

Definition findPosition (id : Id) : option Position :=
  find (fun p => Nat.eqb (pos_id p) id) (positions s).

(** [position.findUnique({ where: { deploymentId_signalId } })] *)
Definition findPositionFor (d sg : Id) : option Position :=
  find (fun p => Nat.eqb (deploymentId p) d && Nat.eqb (signalId p) sg) (positions s).

(** [venueStatus.findUnique({ where: { venue_tokenSymbol } })] *)
Definition findVenueStatus (v : Venue) (sym : string) : option VenueStatus :=
  find (fun x => venue_eqb (vs_venue x) v && String.eqb (vs_tokenSymbol x) sym)
       (venueStatuses s).

(** [tokenRegistry.findUnique({ where: { chain_tokenSymbol } })] *)
Definition findToken (chain sym : string) : option TokenRegistry :=
  find (fun x => String.eqb (tr_chain x) chain && String.eqb (tr_tokenSymbol x) sym)
       (tokenRegistry s).

End StoreQueries.

Definition withPositions (s : Store) (ps : list Position) (next : Id) : Store :=
  {| agents := agents s; deployments := deployments s; signals := signals s;
     positions := ps; venueStatuses := venueStatuses s;
     tokenRegistry := tokenRegistry s; billingEvents := billingEvents s;
     nextPositionId := next |}.

Definition withSignals (s : Store) (sgs : list Signal) : Store :=
  {| agents := agents s; deployments := deployments s; signals := sgs;
     positions := positions s; venueStatuses := venueStatuses s;
     tokenRegistry := tokenRegistry s; billingEvents := billingEvents s;
     nextPositionId := nextPositionId s |}.

Definition withBillingEvents (s : Store) (bs : list BillingEvent) : Store :=
  {| agents := agents s; deployments := deployments s; signals := signals s;
     positions := positions s; venueStatuses := venueStatuses s;
     tokenRegistry := tokenRegistry s; billingEvents := bs;
     nextPositionId := nextPositionId s |}.

(** The [data] of [position.create] in [executeSpotTrade]; the remaining
    columns take the defaults of the table. *)
Record PositionCreate := {
  pc_deploymentId : Id;
  pc_signalId : Id;
  pc_venue : Venue;
  pc_tokenSymbol : string;
  pc_side : string;
  pc_entryPrice : Q;
  pc_qty : Q;
  pc_entryTxHash : option string;
  pc_trailingParams : TrailingParams;
}.

(** [INSERT INTO positions]: [qty] and [entry_price] are coerced to
    [DECIMAL(20,8)] when the row is formed; the foreign keys to
    [agent_deployments] and [signals] and the unique index
    [positions_deployment_id_signal_id_key] are checked; the row gets a fresh
    primary key and [opened_at = CURRENT_TIMESTAMP]. *)
Definition insertPosition (data : PositionCreate) (at_ : Timestamp) (s : Store)
    : reply (Position * Store) :=
  match toDecimal (pc_qty data), toDecimal (pc_entryPrice data) with
  | Raises e, _ => Raises e
  | _, Raises e => Raises e
  | Returns storedQty, Returns storedEntryPrice =>
  match findDeployment s (pc_deploymentId data), findSignal s (pc_signalId data) with
  | Some _, Some _ =>
      match findPositionFor s (pc_deploymentId data) (pc_signalId data) with
      | Some _ => Raises (UniqueConstraintFailed ["deployment_id"; "signal_id"])
      | None =>
          let row :=
            {| pos_id := nextPositionId s;
               deploymentId := pc_deploymentId data;
               signalId := pc_signalId data;
               pos_venue := pc_venue data;
               pos_tokenSymbol := pc_tokenSymbol data;
               pos_side := pc_side data;
               qty := storedQty;
               entryPrice := storedEntryPrice;
               entryTxHash := pc_entryTxHash data;
               stopLoss := None;
               takeProfit := None;
               trailingParams := Some (pc_trailingParams data);
               openedAt := at_;
               closedAt := None;
               exitPrice := None;
               exitTxHash := None;
               pnl := None;
               source := "auto";
               manualTradeId := None |} in
          Returns (row, withPositions s (positions s ++ [row]) (S (nextPositionId s)))
      end
  | _, _ => Raises (Text "Foreign key constraint failed")
  end
  end.

(** [UPDATE ... WHERE id = ?] over a table: the row with the key is
    replaced by its image. *)
Definition updateRow {A} (key : A -> Id) (id : Id) (f : A -> A) (rows : list A) : list A :=
  map (fun r => if Nat.eqb (key r) id then f r else r) rows.

(** [signal.update({ where: { id }, data: { signalHash, creatorAddress,
    proofOfIntentTxHash } })] *)
Definition setProofOfIntent (hash creator : string) (txHash : option string)
    (x : Signal) : Signal :=
  {| sig_id := sig_id x; sig_agentId := sig_agentId x;
     sig_tokenSymbol := sig_tokenSymbol x; sig_venue := sig_venue x;
     sig_side := sig_side x; sizeModel := sizeModel x; riskModel := riskModel x;
     skippedReason := skippedReason x;
     signalHash := Some hash;
     creatorAddress := Some creator;
     proofOfIntentTxHash := txHash |}.

Definition updateSignal (id : Id) (f : Signal -> Signal) (s : Store) : reply Store :=
  match findSignal s id with
  | Some _ => Returns (withSignals s (updateRow sig_id id f (signals s)))
  | None => Raises (RecordNotFound "Signal")
  end.

Definition updatePosition (id : Id) (f : Position -> Position) (s : Store) : reply Store :=
  match findPosition s id with
  | Some _ => Returns (withPositions s (updateRow pos_id id f (positions s)) (nextPositionId s))
  | None => Raises (RecordNotFound "Position")
  end.

(** [data: { trailingParams: { ...trailingParams, highestPrice } }] and the
    like: the only column written is [trailing_params]. *)
Definition setTrailingParams (tp : TrailingParams) (p : Position) : Position :=
  {| pos_id := pos_id p; deploymentId := deploymentId p; signalId := signalId p;
     pos_venue := pos_venue p; pos_tokenSymbol := pos_tokenSymbol p;
     pos_side := pos_side p; qty := qty p; entryPrice := entryPrice p;
     entryTxHash := entryTxHash p; stopLoss := stopLoss p; takeProfit := takeProfit p;
     trailingParams := Some tp;
     openedAt := openedAt p; closedAt := closedAt p; exitPrice := exitPrice p;
     exitTxHash := exitTxHash p; pnl := pnl p; source := source p;
     manualTradeId := manualTradeId p |}.

(** [data: { closedAt, exitPrice, exitTxHash, qty, pnl }] of the close path. *)
Definition setClosed (at_ : Timestamp) (exit : option Q) (txHash : option string)
    (actualQty : Q) (profit : Q) (p : Position) : Position :=
  {| pos_id := pos_id p; deploymentId := deploymentId p; signalId := signalId p;
     pos_venue := pos_venue p; pos_tokenSymbol := pos_tokenSymbol p;
     pos_side := pos_side p;
     qty := actualQty;
     entryPrice := entryPrice p;
     entryTxHash := entryTxHash p; stopLoss := stopLoss p; takeProfit := takeProfit p;
     trailingParams := trailingParams p;
     openedAt := openedAt p;
     closedAt := Some at_;
     exitPrice := exit;
     exitTxHash := txHash;
     pnl := Some profit;
     source := source p;
     manualTradeId := manualTradeId p |}.

(** [position.update({ where: { id }, data: { closedAt, exitPrice,
    exitTxHash, qty, pnl } })]: the three numbers are coerced to
    [DECIMAL(20,8)]. *)
Definition closeRow (id : Id) (at_ : Timestamp) (exit : option Q)
    (txHash : option string) (actualQty profit : Q) (s : Store) : reply Store :=
  match toDecimalOrNull exit, toDecimal actualQty, toDecimal profit with
  | Returns storedExit, Returns storedQty, Returns storedPnl =>
      updatePosition id (setClosed at_ storedExit txHash storedQty storedPnl) s
  | Raises e, _, _ => Raises e
  | _, Raises e, _ => Raises e
  | _, _, Raises e => Raises e
  end.

(** Store statements as monadic actions. *)
Definition dbWrite (f : Store -> reply Store) : M unit :=
  st <- getStore ;;
  st' <- liftReply (f st) ;;
  setStore st'.

(** ** Numbers crossing the chain boundary *)

(** [parseFloat(ethers.utils.formatUnits(v, d))] *)
Definition formatUnits (v : Z) (d : Z) : Q := inject_Z v / pow10 d.

(** [ethers.utils.parseUnits(x.toFixed(6), 6)]: from 1e21 on [toFixed]
    answers in exponent notation, which [parseUnits] rejects. *)
Definition parseUnits6 (x : Q) : reply Z :=
  if Qle_bool (pow10 21) (Qabs x)
  then Raises (Text "invalid decimal value")
  else Returns (roundHalfAway (x * pow10 6)).

(** [s.split('_MANUAL_')[0]]: the part before the first occurrence. *)
Fixpoint beforeManual (s : string) : string :=
  if String.prefix "_MANUAL_" s then EmptyString
  else match s with
       | EmptyString => EmptyString
       | String c rest => String c (beforeManual rest)
       end.

(** [chainId === 42161 ? 'arbitrum' : chainId === 8453 ? 'base' : 'sepolia'] *)
Definition chainName (chainId : Z) : string :=
  if chainId =? 42161 then "arbitrum"
  else if chainId =? 8453 then "base"
  else "sepolia".

(** [USDC_ADDRESSES[chainId]]; a chain without entry gives [undefined],
    written as the empty string. *)
Definition USDC_ADDRESSES (chainId : Z) : string :=
  if chainId =? 11155111 then "0x1c7D4B196Cb0C7B01d743Fbc6116a902379C7238"
  else if chainId =? 42161 then "0xaf88d065e77c8cC2239327C5EDb3A432268e5831"
  else if chainId =? 8453 then "0x833589fCD6eDb6E08f4c7C32D4f71b54bdA02913"
  else "".

(** [x || d] on a number: [0], [NaN] and [undefined] give [d]. *)
Definition numberOr (x : option Q) (d : Q) : Q :=
  match x with
  | Some v => if Qeq_bool v 0 then d else v
  | None => d
  end.

(** ** Trade execution coordinator (TradeExecutor) *)

(** The result of [preTradeValidation]. *)
Record PreCheck := {
  canExecute : bool;
  pc_reason : option Message;
  pc_usdcBalance : option Q;
  tokenAvailable : option bool;
}.

Inductive Summary :=
| PreCheckSummary (p : PreCheck)
| AdapterSummary (e : ExecutionSummary).

(** [ExecutionResult] *)
Record ExecutionResult := {
  success : bool;
  txHash : option string;
  positionId : option Id;
  error : option Message;
  reason : option Message;
  executionSummary : option Summary;
}.

(** [ExecutionContext]; [agent] is [ctx.signal.agent], and the Safe wallet
    service is determined by [deployment.safeWallet] and the venue's chain. *)
Record ExecutionContext := {
  signal : Signal;
  agent : Agent;
  deployment : AgentDeployment;
}.

(** [{ success: false, error }] *)
Definition failure (e : Message) : ExecutionResult :=
  {| success := false; txHash := None; positionId := None;
     error := Some e; reason := None; executionSummary := None |}.

(** [{ success: false, error, reason, executionSummary? }] *)
Definition rejection (e : Message) (r : option Message) (sm : option Summary)
    : ExecutionResult :=
  {| success := false; txHash := None; positionId := None;
     error := Some e; reason := r; executionSummary := sm |}.

Definition firstTruthy (a b : option string) (c : string) : string :=
  if truthy a then default c a else if truthy b then default c b else c.

(** [process.env.TRADING_MODULE_ADDRESS || process.env.MODULE_ADDRESS ||
    '0x74437d894C8E8A5ACf371E10919c688ae79E89FA']: the module the executor
    trades through. *)
Definition tradingModuleAddress (env : Env) : string :=
  firstTruthy (TRADING_MODULE_ADDRESS env) (MODULE_ADDRESS env)
              "0x74437d894C8E8A5ACf371E10919c688ae79E89FA".

(** Modelled from the spec: [SafeWalletService.validateSafe]
    (lib/safe-wallet.ts), whose source is not under src/.  Section 4.5 has
    the open "validate Safe readiness (module enabled, on-chain)": the
    validation reads the chain, and it is valid only if at that instant the
    trading module is enabled on the Safe.  What else the validation
    requires, and the error it reports, are those of [safeReadiness]. *)
Definition validateSafe (env : Env) (t : nat) (safeAddress : string) (chainId : Z)
    : reply SafeValidation :=
  match safeReadiness env t safeAddress chainId with
  | Returns readiness =>
      Returns {| valid := valid readiness
                          && isModuleEnabled env t safeAddress (tradingModuleAddress env);
                 sv_error := sv_error readiness |}
  | Raises e => Raises e
  end.

Module TradeExecutor.
Section WithEnv.

Variable env : Env.

(** [preTradeValidation] *)
Definition preTradeValidation (sg : Signal) (dep : AgentDeployment) : M PreCheck :=
  tryCatch
    (let actualTokenSymbol := beforeManual (sig_tokenSymbol sg) in
     (* 1. Check venue availability *)
     st <- getStore ;;
     match findVenueStatus st (sig_venue sg) actualTokenSymbol with
     | None =>
         ret {| canExecute := false;
                pc_reason := Some (NotAvailableOn actualTokenSymbol (sig_venue sg));
                pc_usdcBalance := None;
                tokenAvailable := Some false |}
     | Some _ =>
         (* 2. Check USDC balance *)
         usdcBalance <- ask (fun t => getUSDCBalance env t (safeWallet dep)
                                        (getChainIdForVenue env (sig_venue sg))) ;;
         if Qeq_bool usdcBalance 0 then
           ret {| canExecute := false;
                  pc_reason := Some (Text "No USDC balance in Safe wallet");
                  pc_usdcBalance := Some usdcBalance;
                  tokenAvailable := Some true |}
         else
           (* 3. Check position size requirements *)
           let requiredCollateral :=
             option_map (fun value => usdcBalance * value / 100)%Q
                        (sm_value (sizeModel sg)) in
           if match requiredCollateral with
              | Some c => Qeq_bool c 0
              | None => false
              end
           then
             ret {| canExecute := false;
                    pc_reason := Some (Text "Position size too small");
                    pc_usdcBalance := Some usdcBalance;
                    tokenAvailable := Some true |}
           else
             (* 4. For SPOT, check token registry *)
             let passed := {| canExecute := true;
                              pc_reason := None;
                              pc_usdcBalance := Some usdcBalance;
                              tokenAvailable := Some true |} in
             match sig_venue sg with
             | SPOT =>
                 let chain := chainName (getChainIdForVenue env (sig_venue sg)) in
                 st' <- getStore ;;
                 match findToken st' chain actualTokenSymbol with
                 | None =>
                     ret {| canExecute := false;
                            pc_reason := Some (NotInRegistryFor actualTokenSymbol chain);
                            pc_usdcBalance := Some usdcBalance;
                            tokenAvailable := Some false |}
                 | Some _ => ret passed
                 end
             | _ => ret passed
             end
     end)
    (fun error =>
       ret {| canExecute := false; pc_reason := Some error;
              pc_usdcBalance := None; tokenAvailable := None |}).

(** The sizing block of [executeSpotTrade]: the position size requested by
    the size model, or the early return. *)
Definition positionSizing (sm : SizeModel) (usdcBalance : Q) : Q + ExecutionResult :=
  let fixed := match sm_type sm with
               | Some t => String.eqb t "fixed-usdc"
               | None => false
               end in
  let positionSize :=
    if fixed
    then numberOr (sm_value sm) 0
    else (let percentageToUse := numberOr (sm_value sm) 5 in
          usdcBalance * percentageToUse / 100)%Q in
  (* Minimum position size check (0.1 USDC minimum) *)
  if negb (Qle_bool (1 # 10) positionSize) then
    inr (rejection (SizeTooSmall positionSize)
           (Some (Text "Insufficient balance for minimum trade size")) None)
  (* Check if user has enough balance for manual trade *)
  else if fixed && negb (Qle_bool positionSize usdcBalance) then
    inr (rejection (InsufficientBalance positionSize usdcBalance)
           (Some (Text "Requested amount exceeds wallet balance")) None)
  else inl positionSize.

(** AUTO-SETUP of [executeSpotTrade], steps 1 to 3. *)
Definition autoSetup (svc : Service) (safe token usdcAddress routerAddress : string)
    : M unit :=
  (* Step 1: Initialize capital tracking (if not already done) *)
  tryCatch
    (stats <- getSafeStats env svc safe ;;
     if negb (initialized stats)
     then (initializeCapital env svc safe ;;; ret tt)
     else ret tt)
    (fun _ => ret tt) ;;;
  (* Step 2: Ensure token is whitelisted *)
  tryCatch
    (isWhitelisted <- checkTokenWhitelist env svc safe token ;;
     if negb isWhitelisted
     then (setTokenWhitelist env svc safe token true ;;; ret tt)
     else ret tt)
    (fun _ => ret tt) ;;;
  (* Step 3: Ensure USDC is approved to router *)
  approveTokenForDex env svc safe usdcAddress routerAddress ;;;
  ret tt.

(** [prisma.signal.update] with the Proof of Intent data. *)
Definition recordProofOfIntent (ctx : ExecutionContext) (hash : string)
    (result : TradeResult) : M unit :=
  dbWrite (updateSignal (sig_id (signal ctx))
             (setProofOfIntent hash (creatorWallet (agent ctx)) (tr_txHash result))).

(** [prisma.position.create] with the real transaction hash. *)
Definition createPosition (data : PositionCreate) : M Position :=
  at_ <- observe (now env) ;;
  st <- getStore ;;
  created <- liftReply (insertPosition data at_ st) ;;
  setStore (snd created) ;;;
  ret (fst created).

Definition positionData (ctx : ExecutionContext) (actualTokenSymbol : string)
    (actualEntryPrice actualAmountOut : Q) (result : TradeResult) : PositionCreate :=
  {| pc_deploymentId := dep_id (deployment ctx);
     pc_signalId := sig_id (signal ctx);
     pc_venue := sig_venue (signal ctx);
     pc_tokenSymbol := actualTokenSymbol;
     pc_side := sig_side (signal ctx);
     pc_entryPrice := actualEntryPrice;
     pc_qty := actualAmountOut;
     pc_entryTxHash := tr_txHash result;
     pc_trailingParams :=
       {| enabled := true;
          trailingPercent := Some 1%Q;   (* 1% trailing stop *)
          highestPrice := None;           (* will be set on first monitor check *)
          lowestPrice := None |} |}.

(** What [executeSpotTrade] does once the trade result is at hand. *)
Definition settleTrade (ctx : ExecutionContext) (actualTokenSymbol hash : string)
    (positionSize : Q) (result : TradeResult) : M ExecutionResult :=
  if negb (tr_success result) then
    ret (failure (match tr_error result with
                  | Some e => messageOr e "Transaction submission failed"
                  | None => Text "Transaction submission failed"
                  end))
  else
    (* Parse actual amounts from result *)
    let actualAmountOut :=
      match tr_amountOut result with
      | Some out => formatUnits out 18
      | None => 0%Q
      end in
    let actualEntryPrice :=
      if negb (Qle_bool actualAmountOut 0)
      then (positionSize / actualAmountOut)%Q
      else 0%Q in
    recordProofOfIntent ctx hash result ;;;
    position <- createPosition
      (positionData ctx actualTokenSymbol actualEntryPrice actualAmountOut result) ;;
    ret {| success := true;
           txHash := tr_txHash result;
           positionId := Some (pos_id position);
           error := None; reason := None; executionSummary := None |}.

(** [executeSpotTrade] *)
Definition executeSpotTrade (ctx : ExecutionContext) : M ExecutionResult :=
  tryCatch
    (let chainId := getChainIdForVenue env (sig_venue (signal ctx)) in
     let safe := safeWallet (deployment ctx) in
     (* Get execution summary *)
     summary <- ask (fun t => getExecutionSummary env t (signal ctx) safe) ;;
     if negb (es_canExecute summary) then
       ret (rejection (Text "Cannot execute SPOT trade")
              (option_map Text (es_reason summary))
              (Some (AdapterSummary summary)))
     else
       (* Get token addresses *)
       let actualTokenSymbol := beforeManual (sig_tokenSymbol (signal ctx)) in
       let chain := chainName chainId in
       st <- getStore ;;
       match findToken st chain actualTokenSymbol with
       | None => ret (failure (NotInRegistry actualTokenSymbol))
       | Some token =>
           (* Calculate amounts based on size model type *)
           let usdcBalance := numberOr (es_usdcBalance summary) 0 in
           match positionSizing (sizeModel (signal ctx)) usdcBalance with
           | inr early => ret early
           | inl positionSize =>
               amountIn <- liftReply (parseUnits6 positionSize) ;;
               let usdcAddress := USDC_ADDRESSES chainId in
               (* Get quote *)
               quote <- ask (fun t => getQuote env t usdcAddress (tokenAddress token) amountIn) ;;
               minAmountOut <- liftReply (calculateMinAmountOut env quote 5000) ;;
               (* Build transactions *)
               approvalTx <- ask (fun t => buildApprovalTx env t usdcAddress amountIn) ;;
               time <- observe (now env) ;;
               swapTx <- ask (fun t => buildSwapTx env t usdcAddress (tokenAddress token)
                                         amountIn minAmountOut (time / 1000 + 1200) safe) ;;
               let moduleAddr :=
                 firstTruthy (TRADING_MODULE_ADDRESS env) (MODULE_ADDRESS env)
                             "0x74437d894C8E8A5ACf371E10919c688ae79E89FA" in
               if negb (truthy (EXECUTOR_PRIVATE_KEY env)) then
                 ret (failure (Text "EXECUTOR_PRIVATE_KEY not configured"))
               else
                 moduleService <- newSafeModuleService env
                   {| cfg_moduleAddress := Some moduleAddr;
                      cfg_chainId := chainId;
                      cfg_executorPrivateKey := default "" (EXECUTOR_PRIVATE_KEY env) |} ;;
                 match getRouterAddress env chainId with
                 | None => ret (failure (RouterNotConfigured chainId))
                 | Some routerAddress =>
                     if negb (truthy (Some routerAddress)) then
                       ret (failure (RouterNotConfigured chainId))
                     else
                       autoSetup moduleService safe (tokenAddress token)
                                 usdcAddress routerAddress ;;;
                       (* Calculate Proof of Intent hash *)
                       stamp <- observe (now env) ;;
                       hash <- liftReply
                         (proofOfIntentHash env (sig_side (signal ctx))
                            (sig_tokenSymbol (signal ctx))
                            (creatorWallet (agent ctx)) amountIn stamp) ;;
                       (* Execute trade through module with Proof of Intent *)
                       result <- executeTrade env moduleService
                         {| tp_safeAddress := safe;
                            fromToken := usdcAddress;
                            toToken := tokenAddress token;
                            tp_amountIn := amountIn;
                            dexRouter := routerAddress;
                            swapData := swapTx;
                            tp_minAmountOut := minAmountOut;
                            tp_profitReceiver := profitReceiverAddress (agent ctx);
                            tp_signalHash := Some hash;
                            tp_creatorAddress := Some (creatorWallet (agent ctx)) |} ;;
                       settleTrade ctx actualTokenSymbol hash positionSize result
                 end
           end
       end)
    (fun error => ret (failure error)).

(** [routeToVenue] *)
Definition routeToVenue (ctx : ExecutionContext) : M ExecutionResult :=
  match sig_venue (signal ctx) with
  | SPOT => executeSpotTrade ctx
  | GMX =>
      ret (failure (Text "GMX perpetuals coming soon on Base! Stay tuned for updates."))
  | HYPERLIQUID =>
      ret (failure (Text "Hyperliquid perpetuals coming soon on Base! Stay tuned for updates."))
  end.

(** [executeSignalInternal], for [signal.agent.deployments[0] = deployment ctx]. *)
Definition executeSignalInternal (ctx : ExecutionContext) : M ExecutionResult :=
  tryCatch
    (let chainId := getChainIdForVenue env (sig_venue (signal ctx)) in
     (* Validate Safe wallet *)
     validation <- ask (fun t => validateSafe env t (safeWallet (deployment ctx)) chainId) ;;
     if negb (valid validation) then
       ret (failure (SafeValidationFailed (sv_error validation)))
     else
       (* Pre-trade validations *)
       preCheck <- preTradeValidation (signal ctx) (deployment ctx) ;;
       if negb (canExecute preCheck) then
         ret (rejection (Text "Pre-trade validation failed") (pc_reason preCheck)
                (Some (PreCheckSummary preCheck)))
       else
         (* Route to appropriate venue *)
         routeToVenue ctx)
    (fun error => ret (failure error)).

(** [executeSignalForDeployment]: the [open] of one signal on one
    deployment.  The agent of a stored signal exists by the foreign key
    [signals_agent_id_fkey]. *)
Definition executeSignalForDeployment (signalId_ deploymentId_ : Id) : M ExecutionResult :=
  tryCatch
    (st <- getStore ;;
     match findSignal st signalId_ with
     | None => ret (failure (Text "Signal not found"))
     | Some sg =>
         st' <- getStore ;;
         match findDeployment st' deploymentId_ with
         | None => ret (failure (Text "Deployment not found"))
         | Some dep =>
             match findAgent st (sig_agentId sg) with
             | None => throw (TypeError "signal.agent")
             | Some ag =>
                 executeSignalInternal
                   {| signal := sg; agent := ag; deployment := dep |}
             end
         end
     end)
    (fun error => ret (failure error)).

(** [{ success: true, txHash, positionId }] *)
Definition closed (txh : option string) (id : Id) : ExecutionResult :=
  {| success := true; txHash := txh; positionId := Some id;
     error := None; reason := None; executionSummary := None |}.

(** [billingEvent.create] mirroring the on-chain profit share (20%). *)
Definition recordProfitShare (position : Position) (ag : Agent)
    (profit : Q) (txh : string) : M unit :=
  let profitShareBps := 2000 in
  let profitShare := (profit * inject_Z profitShareBps / 10000)%Q in
  st <- getStore ;;
  amount <- liftReply (toDecimal profitShare) ;;
  setStore (withBillingEvents st
              (billingEvents st ++
                 [{| be_positionId := pos_id position;
                     be_deploymentId := deploymentId position;
                     be_kind := "PROFIT_SHARE";
                     be_amount := amount;
                     be_asset := "USDC";
                     be_status := "CHARGED";
                     be_txHash := txh;
                     be_profitShareBps := profitShareBps;
                     be_recipient := profitReceiverAddress ag |}])).

(** [closeSpotPosition] (swap the token back to USDC) *)
Definition closeSpotPosition (position : Position) (dep : AgentDeployment)
    (ag : Agent) (chainId : Z) : M ExecutionResult :=
  tryCatch
    ((* Get token address *)
     let chain := if chainId =? 42161 then "arbitrum" else "base" in
     st <- getStore ;;
     match findToken st chain (pos_tokenSymbol position) with
     | None => ret (failure (Text "Token not found in registry"))
     | Some token =>
         let usdcAddress := USDC_ADDRESSES chainId in
         (* Check actual token balance in Safe (not DB qty) *)
         let tokenDecimals :=
           match decimals token with
           | Some d => if d =? 0 then 18 else d
           | None => 18
           end in
         actualBalance <- ask (fun t => balanceOf env t (tokenAddress token) (safeWallet dep)) ;;
         if actualBalance =? 0 then
           ret (failure (NoBalanceToClose (pos_tokenSymbol position)))
         else
           (* Use actual balance instead of DB qty *)
           let tokenAmountWei := actualBalance in
           let actualQty := formatUnits actualBalance tokenDecimals in
           (* Build swap back to USDC *)
           time <- observe (now env) ;;
           swapTx <- ask (fun t => buildCloseSwapTx env t (tokenAddress token) usdcAddress
                                     tokenAmountWei 0 (safeWallet dep)
                                     (time / 1000 + 1200)) ;;
           (* Execute through module (same as opening positions) *)
           if negb (truthy (EXECUTOR_PRIVATE_KEY env)) then
             ret (failure (Text "EXECUTOR_PRIVATE_KEY not configured"))
           else
             moduleService <- createSafeModuleService env (moduleAddress dep) chainId
                                (EXECUTOR_PRIVATE_KEY env) ;;
             match getRouterAddress env chainId with
             | None => ret (failure (RouterNotConfigured chainId))
             | Some routerAddress =>
                 if negb (truthy (Some routerAddress)) then
                   ret (failure (RouterNotConfigured chainId))
                 else
                   (* Approve the token to the router before swapping *)
                   approvalResult <- approveTokenForDex env moduleService
                     (safeWallet dep) (tokenAddress token) routerAddress ;;
                   proceed <-
                     (if negb (tx_success approvalResult) then
                        (* If approval failed, check if it's already approved *)
                        checkTokenApproval env moduleService
                          (safeWallet dep) (tokenAddress token) routerAddress
                      else ret true) ;;
                   if negb proceed then
                     ret (failure (TokenApprovalFailed
                                     (default (Text "undefined") (tx_error approvalResult))
                                     (pos_tokenSymbol position)))
                   else
                     (* Calculate total entry value in USDC (entryPrice * actualQty) *)
                     let totalEntryValueUSD := (entryPrice position * actualQty)%Q in
                     entryValueUSDC <- liftReply (parseUnits6 totalEntryValueUSD) ;;
                     (* Get current price for exit price recording *)
                     exit <- observe (fun t => getTokenPriceUSD env t (pos_tokenSymbol position)) ;;
                     (* Calculate PnL; a null price counts as 0 in the arithmetic *)
                     let exitNumber := default 0%Q exit in
                     let profit :=
                       if String.eqb (pos_side position) "LONG"
                       then ((exitNumber - entryPrice position) * actualQty)%Q
                       else ((entryPrice position - exitNumber) * actualQty)%Q in
                     (* Execute close position through module (with profit sharing) *)
                     result <- SafeModuleService.closePosition env moduleService
                       {| cp_safeAddress := safeWallet dep;
                          cp_tokenIn := tokenAddress token;
                          cp_tokenOut := usdcAddress;
                          cp_amountIn := tokenAmountWei;
                          cp_minAmountOut := 0;
                          cp_profitReceiver := profitReceiverAddress ag;
                          cp_entryValueUSDC := entryValueUSDC |} ;;
                     if negb (tr_success result) then
                       ret (failure (match tr_error result with
                                     | Some e => messageOr e "Close transaction failed"
                                     | None => Text "Close transaction failed"
                                     end))
                     else
                       (* Update position as closed with actual exit price and PnL *)
                       closedTime <- observe (now env) ;;
                       dbWrite (closeRow (pos_id position) closedTime exit
                                         (tr_txHash result) actualQty profit) ;;;
                       (if negb (Qle_bool profit 0) && truthy (tr_txHash result) then
                          tryCatch
                            (recordProfitShare position ag profit
                               (default "" (tr_txHash result)))
                            (fun _ => ret tt)
                        else ret tt) ;;;
                       ret (closed (tr_txHash result) (pos_id position))
             end
     end)
    (fun error => ret (failure error)).

(** [TradeExecutor.closePosition]: the [close] of one position.  The
    deployment of a stored position and its agent exist by the foreign
    keys. *)
Definition closePosition (positionId_ : Id) : M ExecutionResult :=
  tryCatch
    (st <- getStore ;;
     match findPosition st positionId_ with
     | None => ret (failure (Text "Position not found"))
     | Some position =>
         match closedAt position with
         | Some at_ => ret (failure (AlreadyClosedAt at_))
         | None =>
             let chainId := getChainIdForVenue env (pos_venue position) in
             match findDeployment st (deploymentId position) with
             | None => throw (TypeError "position.deployment")
             | Some dep =>
                 match findAgent st (dep_agentId dep) with
                 | None => throw (TypeError "position.deployment.agent")
                 | Some ag =>
                     (* Route to appropriate venue for closing *)
                     match pos_venue position with
                     | SPOT => closeSpotPosition position dep ag chainId
                     | v => ret (failure (ClosingNotImplemented v))
                     end
                 end
             end
         end
     end)
    (fun error => ret (failure error)).

End WithEnv.
End TradeExecutor.

Import TradeExecutor.

(** ** Admin endpoint: execute a trade for a given signal (handler) *)

Module ExecuteTradeOnce.
Section WithEnv.

Variable env : Env.

Record Request := {
  method : string;
  query_signalId : option Id;
}.

(** An entry of [errors]. *)
Record DeploymentError := {
  de_deploymentId : Id;
  de_error : Message;
  de_reason : option Message;
  de_summary : option Summary;
}.

Inductive Body :=
| ErrorOnly (e : Message)
    (* { error } *)
| NothingToDo (e : Message)
    (* { success: false, error, positionsCreated: 0 } *)
| Report (ok : bool) (created : list Position) (errors : list DeploymentError)
    (* { success, message, positionsCreated, positions, errors } *)
| ServerError (e : Message).
    (* { success: false, error } *)

Record Response := {
  statusCode : Z;
  body : Body;
}.

(** [agentDeployment.findMany({ where: { agentId, status: 'ACTIVE',
    subActive: true } })] *)
Definition activeDeployments (st : Store) (agentId : Id) : list AgentDeployment :=
  List.filter (fun d => Nat.eqb (dep_agentId d) agentId
                   && status_eqb (dep_status d) ACTIVE
                   && Bool.eqb (subActive d) true)
         (deployments st).

(** The same query with [moduleEnabled: true]. *)
Definition enabledDeployments (st : Store) (agentId : Id) : list AgentDeployment :=
  List.filter (fun d => Nat.eqb (dep_agentId d) agentId
                   && status_eqb (dep_status d) ACTIVE
                   && Bool.eqb (subActive d) true
                   && Bool.eqb (moduleEnabled d) true)
         (deployments st).

(** The loop [for (const deployment of deployments)]. *)
Fixpoint executeOnDeployments (sg : Signal) (ds : list AgentDeployment)
    (positionsCreated : list Position) (errors : list DeploymentError)
    : M (list Position * list DeploymentError) :=
  match ds with
  | [] => ret (positionsCreated, errors)
  | dep :: rest =>
      (* Check for duplicate position (same deployment + signal) *)
      st <- getStore ;;
      match findPositionFor st (dep_id dep) (sig_id sg) with
      | Some _ => executeOnDeployments sg rest positionsCreated errors
      | None =>
          result <- TradeExecutor.executeSignalForDeployment env (sig_id sg) (dep_id dep) ;;
          match success result, positionId result with
          | true, Some id =>
              (* Get the created position *)
              st' <- getStore ;;
              match findPosition st' id with
              | Some position =>
                  executeOnDeployments sg rest (positionsCreated ++ [position]) errors
              | None => executeOnDeployments sg rest positionsCreated errors
              end
          | _, _ =>
              let errorMsg :=
                match error result, reason result with
                | Some e, _ => e
                | None, Some r => r
                | None, None => Text "Unknown error"
                end in
              executeOnDeployments sg rest positionsCreated
                (errors ++ [{| de_deploymentId := dep_id dep;
                               de_error := errorMsg;
                               de_reason := reason result;
                               de_summary := executionSummary result |}])
          end
      end
  end.

(** [handler] *)
Definition handler (req : Request) : M Response :=
  if negb (String.eqb (method req) "POST") then
    ret {| statusCode := 405; body := ErrorOnly (Text "Method not allowed") |}
  else
    tryCatch
      (match query_signalId req with
       | None =>
           ret {| statusCode := 400;
                  body := ErrorOnly (Text "signalId query param required") |}
       | Some signalId_ =>
           (* Get signal *)
           st <- getStore ;;
           match findSignal st signalId_ with
           | None => ret {| statusCode := 404; body := ErrorOnly (Text "Signal not found") |}
           | Some sg =>
               (* Check total active deployments (for logging) *)
               let allDeployments := activeDeployments st (sig_agentId sg) in
               (* Find ACTIVE deployments for this agent with module enabled *)
               let deployments_ := enabledDeployments st (sig_agentId sg) in
               match deployments_ with
               | [] =>
                   let message :=
                     match allDeployments with
                     | [] => Text "No active deployments found for this agent"
                     | _ => ModuleNotEnabledOnAny (length allDeployments)
                     end in
                   ret {| statusCode := 200; body := NothingToDo message |}
               | _ =>
                   (* Check venue status for min size/slippage *)
                   let venueStatus :=
                     findVenueStatus st (sig_venue sg) (sig_tokenSymbol sg) in
                   let qty_ := numberOr (sm_baseSize (sizeModel sg)) 100 in
                   if match venueStatus with
                      | Some vs =>
                          match minSize vs with
                          | Some m => negb (Qle_bool m qty_)
                          | None => false
                          end
                      | None => false
                      end
                   then
                     ret {| statusCode := 400;
                            body := ErrorOnly (Text "Position size below venue minimum") |}
                   else
                     outcome_ <- executeOnDeployments sg deployments_ [] [] ;;
                     let positionsCreated := fst outcome_ in
                     let ok := negb (Nat.eqb (length positionsCreated) 0) in
                     ret {| statusCode := if ok then 200 else 400;
                            body := Report ok positionsCreated (snd outcome_) |}
               end
           end
       end)
      (fun error =>
         ret {| statusCode := 500;
                body := ServerError (messageOr error "Internal server error") |}).

End WithEnv.
End ExecuteTradeOnce.

Import ExecuteTradeOnce.

(** ** Position monitor (monitorPositions) *)

Module PositionMonitor.
Section WithEnv.

Variable env : Env.

(** [Math.max] and [Math.min] on two numbers. *)
Definition Math_max (a b : Q) : Q := if Qle_bool a b then b else a.
Definition Math_min (a b : Q) : Q := if Qle_bool a b then a else b.

(** [side === 'BUY' || side === 'LONG'] *)
Definition isLong (side : string) : bool :=
  String.eqb side "BUY" || String.eqb side "LONG".

(** [!x] for a number or null. *)
Definition falsy (x : option Q) : bool :=
  match x with
  | Some v => Qeq_bool v 0
  | None => true
  end.

(** The trailing-stop block: persists a new high-water mark and says
    whether the stop triggered ([shouldClose], [closeReason]). *)
Definition checkTrailingStop (position : Position) (entry currentPrice : Q)
    : M (bool * string) :=
  match trailingParams position with
  | Some tp =>
      if enabled tp then
        let trailingPercent_ := numberOr (trailingPercent tp) 1 in
        if isLong (pos_side position) then
          (* For LONG positions *)
          let activationThreshold := (entry * 1.03)%Q in   (* need 3% gain to activate *)
          let highest := numberOr (highestPrice tp) entry in
          let newHighest := Math_max highest currentPrice in
          (if negb (Qle_bool newHighest highest) then
             (* Update highest price in DB *)
             dbWrite (updatePosition (pos_id position)
                        (setTrailingParams
                           {| enabled := enabled tp;
                              trailingPercent := trailingPercent tp;
                              highestPrice := Some newHighest;
                              lowestPrice := lowestPrice tp |}))
           else ret tt) ;;;
          (* Only activate trailing stop if price has reached activation threshold *)
          if Qle_bool activationThreshold newHighest then
            let trailingStopPrice := (newHighest * (1 - trailingPercent_ / 100))%Q in
            if Qle_bool currentPrice trailingStopPrice
            then ret (true, "TRAILING_STOP")
            else ret (false, "")
          else ret (false, "")
        else
          (* For SHORT positions *)
          let activationThreshold := (entry * 0.97)%Q in   (* need 3% drop to activate *)
          let lowest := numberOr (lowestPrice tp) entry in
          let newLowest := Math_min lowest currentPrice in
          (if negb (Qle_bool lowest newLowest) then
             (* Update lowest price in DB *)
             dbWrite (updatePosition (pos_id position)
                        (setTrailingParams
                           {| enabled := enabled tp;
                              trailingPercent := trailingPercent tp;
                              highestPrice := highestPrice tp;
                              lowestPrice := Some newLowest |}))
           else ret tt) ;;;
          if Qle_bool newLowest activationThreshold then
            let trailingStopPrice := (newLowest * (1 + trailingPercent_ / 100))%Q in
            if Qle_bool trailingStopPrice currentPrice
            then ret (true, "TRAILING_STOP")
            else ret (false, "")
          else ret (false, "")
      else ret (false, "")
  | None => ret (false, "")
  end.

(** The take profit to check: the position's, else the signal's. *)
Definition resolveTakeProfit (position : Position) (rm : RiskModel) : option Q :=
  if falsy (takeProfit position) && negb (falsy (rm_takeProfit rm))
  then rm_takeProfit rm
  else takeProfit position.

(** The take-profit block, after the trailing stop ([shouldClose],
    [closeReason] so far). *)
Definition checkTakeProfit (side : string) (takeProfit_ : option Q) (currentPrice : Q)
    (sofar : bool * string) : bool * string :=
  if negb (fst sofar) && negb (falsy takeProfit_) then
    let tp := default 0%Q takeProfit_ in
    if isLong side then
      if Qle_bool tp currentPrice then (true, "TAKE_PROFIT") else sofar
    else
      if Qle_bool currentPrice tp then (true, "TAKE_PROFIT") else sofar
  else sofar.

(** The decision of one cycle for one position at a given price. *)
Definition evaluate (position : Position) (rm : RiskModel) (currentPrice : Q)
    : M (bool * string) :=
  trailing <- checkTrailingStop position (entryPrice position) currentPrice ;;
  ret (checkTakeProfit (pos_side position) (resolveTakeProfit position rm)
                       currentPrice trailing).

(** What the loop body did with a position. *)
Inductive Verdict :=
| Skipped                       (* entry price not set, or price unavailable *)
| Healthy
| Triggered (closeReason : string) (result : ExecutionResult)
| Errored (e : Message).

(** The current price for the venue of the position. *)
Definition currentPriceFor (position : Position) : M (option Q) :=
  match pos_venue position with
  | GMX =>
      tryCatch (ask (fun t => getMarketPrice env t (pos_tokenSymbol position)))
               (fun _ => ret None)
  | _ => observe (fun t => getTokenPriceUSD env t (pos_tokenSymbol position))
  end.

(** The body of [for (const position of openPositions)]. *)
Definition monitorPosition (position : Position) : M Verdict :=
  tryCatch
    (if Qeq_bool (entryPrice position) 0 then ret Skipped
     else
       (* Get current price based on venue *)
       price <- currentPriceFor position ;;
       if falsy price then ret Skipped
       else
         let currentPrice := default 0%Q price in
         (* Get stop loss and take profit from signal risk model *)
         st <- getStore ;;
         match findSignal st (signalId position) with
         | None => throw (TypeError "position.signal")
         | Some sg =>
             decision <- evaluate position (riskModel sg) currentPrice ;;
             (* Close position if triggered *)
             if fst decision then
               result <- TradeExecutor.closePosition env (pos_id position) ;;
               ret (Triggered (snd decision) result)
             else ret Healthy
         end)
    (fun error => ret (Errored error)).

Fixpoint monitorAll (open : list Position) : M (list Verdict) :=
  match open with
  | [] => ret []
  | position :: rest =>
      v <- monitorPosition position ;;
      vs <- monitorAll rest ;;
      ret (v :: vs)
  end.

Definition closedOk (v : Verdict) : bool :=
  match v with
  | Triggered _ result => success result
  | _ => false
  end.

Record MonitorResult := {
  mr_success : bool;
  monitored : nat;
  closedCount : nat;
  mr_error : option Message;
}.

(** [monitorPositions]: one cycle over the positions with [closedAt: null]. *)
Definition monitorPositions : M MonitorResult :=
  tryCatch
    (st <- getStore ;;
     let openPositions :=
       List.filter (fun p => match closedAt p with None => true | Some _ => false end)
              (positions st) in
     verdicts <- monitorAll openPositions ;;
     ret {| mr_success := true;
            monitored := length openPositions;
            closedCount := length (List.filter closedOk verdicts);
            mr_error := None |})
    (fun error =>
       ret {| mr_success := false; monitored := 0%nat; closedCount := 0%nat;
              mr_error := Some error |}).

End WithEnv.
End PositionMonitor.

Import PositionMonitor.

(** ** Judgements on monadic code *)

(** A relation between the world before and after holds whatever the
    computation does.  For a preorder this is compositional. *)
Definition preserves {A} (R : World -> World -> Prop) (m : M A) : Prop :=
  forall w, R w (snd (m w)).

(** The computation settles (returns or throws) when no nonce lock is held,
    and leaves none behind. *)
Definition settles {A} (m : M A) : Prop :=
  forall w, nonceLocks w = ∅ ->
    fst (m w) <> Hang /\ nonceLocks (snd (m w)) = ∅.

(** The computation returns a value when no nonce lock is held. *)
Definition returns {A} (m : M A) : Prop :=
  forall w, nonceLocks w = ∅ ->
    (exists a, fst (m w) = Ok a) /\ nonceLocks (snd (m w)) = ∅.

(** The store is left as it was. *)
Definition sameStore (w w' : World) : Prop := db w' = db w.

(** The chain log only grows, and every new entry satisfies [P]. *)
Definition logGrows (P : string * Submission * reply Receipt -> Prop)
    (w w' : World) : Prop :=
  exists new, chainLog w' = chainLog w ++ new /\ Forall P new.

(** ** Harness: serialized acquisitions *)

(** [n] calls of [getNextNonce], one after the other, on one service
    instance; the outcomes in call order. *)
Fixpoint acquireSerially (env : Env) (svc : Service) (n : nat) (w : World)
    : list (outcome Z) * World :=
  match n with
  | O => ([], w)
  | S k =>
      let first := getNextNonce env svc w in
      let others := acquireSerially env svc k (snd first) in
      (fst first :: fst others, snd others)
  end.

(** The nonces handed out among the outcomes. *)
Fixpoint issued (rs : list (outcome Z)) : list Z :=
  match rs with
  | [] => []
  | Ok n :: rest => n :: issued rest
  | _ :: rest => issued rest
  end.

Definition settled {A} (r : outcome A) : Prop := r <> Hang.

(** ** Sample configuration used to run the model *)

(** An environment in which every collaborator answers: a Safe on Base
    holding 1000 USDC, WETH at 2000 USDC, a chain that confirms every
    transaction and reports a swap output of 0.025 WETH. *)
Definition sampleEnv : Env :=
  {| EXECUTOR_PRIVATE_KEY := Some "0xEXECUTORKEY";
     TRADING_MODULE_ADDRESS := None;
     MODULE_ADDRESS := None;
     getChainIdForVenue := fun _ => 8453;
     safeReadiness := fun _ _ _ => Returns {| valid := true; sv_error := None |};
     getUSDCBalance := fun _ _ _ => Returns 1000%Q;
     getRouterAddress := fun _ => Some "0xROUTER";
     getExecutionSummary := fun _ _ _ =>
       Returns {| es_canExecute := true; es_reason := None;
                  es_usdcBalance := Some 1000%Q |};
     getQuote := fun _ _ _ _ => Returns 25000000000000000;
     calculateMinAmountOut := fun out bps => Returns (out * (10000 - bps) / 10000);
     buildApprovalTx := fun _ _ _ => Returns "0xapprove";
     buildSwapTx := fun _ _ _ _ _ _ _ => Returns "0xswap";
     buildCloseSwapTx := fun _ _ _ _ _ _ _ => Returns "0xcloseswap";
     connect := fun _ => Returns "0xEXECUTOR";
     getTransactionCount := fun t _ => Returns 7;
     transact := fun t _ _ =>
       Returns {| status := 1; transactionHash := "0xTX";
                  events := [TradeExecuted 25000000000000000] |};
     readSafeStats := fun _ _ => Returns {| initialized := true |};
     isTokenWhitelisted := fun _ _ _ => Returns true;
     allowance := fun _ _ _ _ => Returns 0;
     balanceOf := fun _ _ _ => Returns 25000000000000000;
     isModuleEnabled := fun _ _ _ => true;
     proofOfIntentHash := fun _ _ _ _ _ => Returns "0xINTENT";
     getTokenPriceUSD := fun _ _ => Some 2000%Q;
     getMarketPrice := fun _ _ => Returns (Some 2000%Q);
     now := fun t => 1700000000000 + Z.of_nat t |}.

Definition sampleAgent : Agent :=
  {| agent_id := 1%nat; agent_status := ACTIVE;
     creatorWallet := "0xCREATOR"; profitReceiverAddress := "0xRECEIVER" |}.

Definition sampleDeployment : AgentDeployment :=
  {| dep_id := 1%nat; dep_agentId := 1%nat;
     userWallet := "0xUSER"; safeWallet := "0xSAFE";
     moduleAddress := Some "0xMODULE"; moduleEnabled := true;
     dep_status := ACTIVE; subActive := true; subStartedAt := 0 |}.

(** signal{token=WETH, venue=SPOT, size={balance-percentage,5}} *)
Definition sampleSignal : Signal :=
  {| sig_id := 1%nat; sig_agentId := 1%nat;
     sig_tokenSymbol := "WETH"; sig_venue := SPOT; sig_side := "LONG";
     sizeModel := {| sm_type := Some "balance-percentage";
                     sm_value := Some 5%Q; sm_baseSize := None |};
     riskModel := {| rm_stopLoss := None; rm_takeProfit := None |};
     skippedReason := None; signalHash := None; creatorAddress := None;
     proofOfIntentTxHash := None |}.

Definition sampleStore : Store :=
  {| agents := [sampleAgent];
     deployments := [sampleDeployment];
     signals := [sampleSignal];
     positions := [];
     venueStatuses := [{| vs_venue := SPOT; vs_tokenSymbol := "WETH"; minSize := None |}];
     tokenRegistry := [{| tr_chain := "base"; tr_tokenSymbol := "WETH";
                          tokenAddress := "0x4200000000000000000000000000000000000006";
                          decimals := Some 18 |}];
     billingEvents := [];
     nextPositionId := 1%nat |}.

(** A process that has just started: empty nonce cache, no lock, nothing
    sent yet. *)
Definition sampleWorld : World :=
  {| db := sampleStore; nonceTracker := ∅; nonceLocks := ∅;
     chainLog := []; clock := 0%nat |}.

Definition sampleService : Service :=
  {| svc_module := Some "0xMODULE"; svc_chainId := 8453; executor := "0xEXECUTOR" |}.

(** ** Swap calls and their fee tier *)

(** The [poolFee] argument of a call that swaps. *)
Definition poolFeeOf (c : ModuleCall) : option Z :=
  match c with
  | ExecuteTrade _ _ _ _ _ poolFee _ => Some poolFee
  | ExecuteTradeWithIntent _ _ _ _ _ _ _ poolFee => Some poolFee
  | ClosePosition _ _ _ _ _ poolFee _ _ => Some poolFee
  | _ => None
  end.

(** A logged transaction that, if it swaps, swaps on the 0.3% tier. *)
Definition onDefaultTier (entry : string * Submission * reply Receipt) : Prop :=
  forall fee, poolFeeOf (call (snd (fst entry))) = Some fee -> fee = 3000.

(** The swap call that [executeTrade] builds from its parameters. *)
Definition openCall (params : TradeParams) : ModuleCall :=
  if truthy (tp_signalHash params) && truthy (tp_creatorAddress params)
  then ExecuteTradeWithIntent (tp_safeAddress params)
         (default "" (tp_signalHash params)) (default "" (tp_creatorAddress params))
         (fromToken params) (toToken params)
         (tp_amountIn params) (tp_minAmountOut params) 3000
  else ExecuteTrade (tp_safeAddress params) (fromToken params) (toToken params)
         (tp_amountIn params) (tp_minAmountOut params) 3000 (tp_profitReceiver params).

(** The swap call that the gateway's [closePosition] builds. *)
Definition closeCall (params : CloseParams) : ModuleCall :=
  ClosePosition (cp_safeAddress params) (cp_tokenIn params) (cp_tokenOut params)
    (cp_amountIn params) (cp_minAmountOut params) 3000
    (cp_profitReceiver params) (cp_entryValueUSDC params).

(** The log entries added between two worlds. *)
Definition newEntries (w w' : World) : list (string * Submission * reply Receipt) :=
  skipn (length (chainLog w)) (chainLog w').

Definition sampleTradeParams : TradeParams :=
  {| tp_safeAddress := "0xSAFE";
     fromToken := "0x833589fCD6eDb6E08f4c7C32D4f71b54bdA02913";
     toToken := "0x4200000000000000000000000000000000000006";
     tp_amountIn := 50000000;
     dexRouter := "0xROUTER";
     swapData := "0xswap";
     tp_minAmountOut := 12500000000000000;
     tp_profitReceiver := "0xRECEIVER";
     tp_signalHash := None;
     tp_creatorAddress := None |}.

Definition sampleCloseParams : CloseParams :=
  {| cp_safeAddress := "0xSAFE";
     cp_tokenIn := "0x4200000000000000000000000000000000000006";
     cp_tokenOut := "0x833589fCD6eDb6E08f4c7C32D4f71b54bdA02913";
     cp_amountIn := 25000000000000000;
     cp_minAmountOut := 0;
     cp_profitReceiver := "0xRECEIVER";
     cp_entryValueUSDC := 50000000 |}.

(** ** Size models of the sizing examples *)

Definition balancePercentage (value : Q) : SizeModel :=
  {| sm_type := Some "balance-percentage"; sm_value := Some value; sm_baseSize := None |}.

Definition fixedUsdc (value : Q) : SizeModel :=
  {| sm_type := Some "fixed-usdc"; sm_value := Some value; sm_baseSize := None |}.

Definition withSizeModel (sg : Signal) (sm : SizeModel) : Signal :=
  {| sig_id := sig_id sg; sig_agentId := sig_agentId sg;
     sig_tokenSymbol := sig_tokenSymbol sg; sig_venue := sig_venue sg;
     sig_side := sig_side sg; sizeModel := sm; riskModel := riskModel sg;
     skippedReason := skippedReason sg; signalHash := signalHash sg;
     creatorAddress := creatorAddress sg;
     proofOfIntentTxHash := proofOfIntentTxHash sg |}.

Definition sampleContext (sm : SizeModel) : ExecutionContext :=
  {| signal := withSizeModel sampleSignal sm;
     agent := sampleAgent;
     deployment := sampleDeployment |}.

(** The [amountIn] of the swaps among the logged transactions. *)
Definition amountInOf (c : ModuleCall) : option Z :=
  match c with
  | ExecuteTrade _ _ _ amountIn _ _ _ => Some amountIn
  | ExecuteTradeWithIntent _ _ _ _ _ amountIn _ _ => Some amountIn
  | _ => None
  end.

Definition swapAmounts (log : list (string * Submission * reply Receipt)) : list Z :=
  omap (fun e => amountInOf (call (snd (fst e)))) log.

(** ** Harness: the monitor along a price path *)

(** The loop body of the monitor applied to one position in [cycles]
    successive cycles; each cycle sees the row as it is stored then, as
    [findMany] would deliver it, and a closed position is not visited
    again. *)
Fixpoint watch (env : Env) (id : Id) (cycles : nat) (w : World) : list Verdict :=
  match cycles with
  | O => []
  | S k =>
      match findPosition (db w) id with
      | Some position =>
          match closedAt position with
          | Some _ => []
          | None =>
              let out := monitorPosition env position w in
              match fst out with
              | Ok v => v :: watch env id k (snd out)
              | _ => []
              end
          end
      | None => []
      end
  end.

Definition withPriceFeed (env : Env) (feed : nat -> string -> option Q) : Env :=
  {| EXECUTOR_PRIVATE_KEY := EXECUTOR_PRIVATE_KEY env;
     TRADING_MODULE_ADDRESS := TRADING_MODULE_ADDRESS env;
     MODULE_ADDRESS := MODULE_ADDRESS env;
     getChainIdForVenue := getChainIdForVenue env;
     safeReadiness := safeReadiness env;
     getUSDCBalance := getUSDCBalance env;
     getRouterAddress := getRouterAddress env;
     getExecutionSummary := getExecutionSummary env;
     getQuote := getQuote env;
     calculateMinAmountOut := calculateMinAmountOut env;
     buildApprovalTx := buildApprovalTx env;
     buildSwapTx := buildSwapTx env;
     buildCloseSwapTx := buildCloseSwapTx env;
     connect := connect env;
     getTransactionCount := getTransactionCount env;
     transact := transact env;
     readSafeStats := readSafeStats env;
     isTokenWhitelisted := isTokenWhitelisted env;
     allowance := allowance env;
     balanceOf := balanceOf env;
     isModuleEnabled := isModuleEnabled env;
     proofOfIntentHash := proofOfIntentHash env;
     getTokenPriceUSD := feed;
     getMarketPrice := fun t sym => Returns (feed t sym);
     now := now env |}.

(** The sample environment with price sources that answer the [t]-th
    read with the [t]-th price of the path, and the last price from then
    on. *)
Definition alongPath (path : list Q) : Env :=
  withPriceFeed sampleEnv (fun t _ => Some (nth t path (List.last path 0%Q))).

(** A long WETH position opened at [entry], with the trailing stop as
    [executeSpotTrade] creates it (enabled, 1%, no high-water mark yet) and
    the given take-profit price. *)
Definition longPosition (entry : Q) (tp : option Q) : Position :=
  {| pos_id := 1%nat; deploymentId := 1%nat; signalId := 1%nat;
     pos_venue := SPOT; pos_tokenSymbol := "WETH"; pos_side := "LONG";
     qty := (1 # 2)%Q; entryPrice := entry; entryTxHash := Some "0xENTRY";
     stopLoss := None; takeProfit := tp;
     trailingParams := Some {| enabled := true; trailingPercent := Some 1%Q;
                               highestPrice := None; lowestPrice := None |};
     openedAt := 1700000000000; closedAt := None; exitPrice := None;
     exitTxHash := None; pnl := None; source := "auto"; manualTradeId := None |}.

Definition holding (p : Position) : World :=
  {| db := withPositions sampleStore [p] 2%nat;
     nonceTracker := ∅; nonceLocks := ∅; chainLog := []; clock := 0%nat |}.

Definition isTriggered (v : Verdict) : bool :=
  match v with
  | Triggered _ _ => true
  | _ => false
  end.

(** The number of [ClosePosition] transactions among log entries. *)
Definition isCloseCall (entry : string * Submission * reply Receipt) : bool :=
  match call (snd (fst entry)) with
  | ClosePosition _ _ _ _ _ _ _ _ => true
  | _ => false
  end.

Definition closeAttempts (w w' : World) : nat :=
  length (List.filter isCloseCall (newEntries w w')).

(** A long position opened at 100 that has no take profit and whose
    high-water mark, if any, is below [limit]. *)
Definition quietLong (limit : Q) (st : Store) (p : Position) : Prop :=
  isLong (pos_side p) = true
  /\ (entryPrice p == 100)%Q
  /\ (forall tp h, trailingParams p = Some tp -> highestPrice tp = Some h -> (h < limit)%Q)
  /\ falsy (takeProfit p) = true
  /\ (forall sg, findSignal st (signalId p) = Some sg ->
                 falsy (rm_takeProfit (riskModel sg)) = true).

(** Every price that the sources deliver is below [limit]. *)
Definition pricesBelow (limit : Q) (env : Env) : Prop :=
  (forall t sym price, getTokenPriceUSD env t sym = Some price -> (price < limit)%Q)
  /\ (forall t sym price, getMarketPrice env t sym = Returns (Some price) -> (price < limit)%Q).

(** The chain log only grows, by at most [n] [ClosePosition] transactions. *)
Definition closesAtMost (n : nat) (w w' : World) : Prop :=
  exists new, chainLog w' = chainLog w ++ new
              /\ (length (List.filter isCloseCall new) <= n)%nat.

(** The position with the high-water mark [h] already stored. *)
Definition withHighWater (h : Q) (p : Position) : Position :=
  setTrailingParams {| enabled := true; trailingPercent := Some 1%Q;
                       highestPrice := Some h; lowestPrice := None |} p.

(** Partial correctness: from a world satisfying [P], if the computation
    returns [a] in world [w'] then [Q a w']. *)
Definition hoare {A} (P : World -> Prop) (m : M A) (Q : A -> World -> Prop) : Prop :=
  forall w, P w -> forall a w', m w = (Ok a, w') -> Q a w'.

(** The realized PnL of the close path; a price of [null] counts as 0 in
    the arithmetic. *)
Definition realizedPnl (position : Position) (exit : option Q) (actualQty : Q) : Q :=
  let exitNumber := default 0%Q exit in
  if String.eqb (pos_side position) "LONG"
  then ((exitNumber - entryPrice position) * actualQty)%Q
  else ((entryPrice position - exitNumber) * actualQty)%Q.

(** The clock of external interactions only advances. *)
Definition later (w w' : World) : Prop := (clock w <= clock w')%nat.

(** The close that ran from [w0] to [w] has stored the position [before]
    as closed: the row is the old one with [closedAt], the exit transaction
    of the result, the exit price that the price oracle answered during the
    close ([null] when it had none), the quantity found in the Safe and the
    PnL computed from these, each number as [DECIMAL(20,8)]. *)
Definition closedWith (env : Env) (before : Position) (r : ExecutionResult)
    (w0 w : World) : Prop :=
  exists t asked actualQty storedExit storedQty storedPnl,
    (clock w0 <= asked < clock w)%nat
    /\ toDecimalOrNull (getTokenPriceUSD env asked (pos_tokenSymbol before))
       = Returns storedExit
    /\ toDecimal actualQty = Returns storedQty
    /\ toDecimal (realizedPnl before
                    (getTokenPriceUSD env asked (pos_tokenSymbol before)) actualQty)
       = Returns storedPnl
    /\ findPosition (db w) (pos_id before)
       = Some (setClosed t storedExit (txHash r) storedQty storedPnl before).

(** ** Opening: what counts as submitted *)

(** A logged open-trade transaction that came back with a receipt. *)
Definition isConfirmedOpen (entry : string * Submission * reply Receipt) : bool :=
  match entry with
  | (_, tx, Returns _) =>
      match call tx with
      | ExecuteTrade _ _ _ _ _ _ _ => true
      | ExecuteTradeWithIntent _ _ _ _ _ _ _ _ => true
      | _ => false
      end
  | _ => false
  end.

(** Between the two worlds an open trade was confirmed on chain. *)
Definition openConfirmed (w w' : World) : Prop :=
  existsb isConfirmedOpen (newEntries w w') = true.

Definition logExtends (w w' : World) : Prop :=
  exists new, chainLog w' = chainLog w ++ new.

(** The log only grows, and the store is untouched unless an open trade
    was confirmed. *)
Definition cleanUntilOpen (w w' : World) : Prop :=
  logExtends w w' /\ (db w' = db w \/ openConfirmed w w').

(** The result of an open agrees with the chain: a success has a confirmed
    open trade behind it, and a failure says why. *)
Definition accounted (w0 : World) (r : ExecutionResult) (w : World) : Prop :=
  (success r = true -> openConfirmed w0 w)
  /\ (success r = false -> error r <> None).

Definition withTransact (env : Env)
    (chain : nat -> string -> Submission -> reply Receipt) : Env :=
  {| EXECUTOR_PRIVATE_KEY := EXECUTOR_PRIVATE_KEY env;
     TRADING_MODULE_ADDRESS := TRADING_MODULE_ADDRESS env;
     MODULE_ADDRESS := MODULE_ADDRESS env;
     getChainIdForVenue := getChainIdForVenue env;
     safeReadiness := safeReadiness env;
     getUSDCBalance := getUSDCBalance env;
     getRouterAddress := getRouterAddress env;
     getExecutionSummary := getExecutionSummary env;
     getQuote := getQuote env;
     calculateMinAmountOut := calculateMinAmountOut env;
     buildApprovalTx := buildApprovalTx env;
     buildSwapTx := buildSwapTx env;
     buildCloseSwapTx := buildCloseSwapTx env;
     connect := connect env;
     getTransactionCount := getTransactionCount env;
     transact := chain;
     readSafeStats := readSafeStats env;
     isTokenWhitelisted := isTokenWhitelisted env;
     allowance := allowance env;
     balanceOf := balanceOf env;
     isModuleEnabled := isModuleEnabled env;
     proofOfIntentHash := proofOfIntentHash env;
     getTokenPriceUSD := getTokenPriceUSD env;
     getMarketPrice := getMarketPrice env;
     now := now env |}.

(** The sample environment with a chain that rejects every open trade and
    confirms everything else. *)
Definition rejectingOpens : Env :=
  withTransact sampleEnv
    (fun t sender tx =>
       match call tx with
       | ExecuteTrade _ _ _ _ _ _ _
       | ExecuteTradeWithIntent _ _ _ _ _ _ _ _ => Raises (Text "execution reverted")
       | _ => transact sampleEnv t sender tx
       end).

(** ** Uniqueness of positions per deployment and signal *)

Definition pairOf (p : Position) : Id * Id := (deploymentId p, signalId p).

(** No two stored positions share (deployment, signal). *)
Definition uniquePairs (st : Store) : Prop := NoDup (map pairOf (positions st)).

(** A property of the store, once true, stays true. *)
Definition keeps (I : Store -> Prop) (w w' : World) : Prop := I (db w) -> I (db w').

Definition forPair (d sg : Id) (p : Position) : bool :=
  Nat.eqb (deploymentId p) d && Nat.eqb (signalId p) sg.

(** The stored positions of a deployment for a signal. *)
Definition positionsFor (st : Store) (d sg : Id) : list Position :=
  List.filter (forPair d sg) (positions st).

(** ** The gate of the execution path *)

(** The stored row passes the filter of the endpoint's query. *)
Definition gateOpen (dep : AgentDeployment) : Prop :=
  dep_status dep = ACTIVE /\ subActive dep = true /\ moduleEnabled dep = true.

(** The Safe whose funds an open trade moves. *)
Definition openSafe (c : ModuleCall) : option string :=
  match c with
  | ExecuteTrade safe _ _ _ _ _ _ => Some safe
  | ExecuteTradeWithIntent safe _ _ _ _ _ _ _ => Some safe
  | _ => None
  end.

(** A logged transaction that, if it opens a trade, does so on a Safe
    satisfying [P]. *)
Definition opensOnlyFor (P : string -> Prop)
    (entry : string * Submission * reply Receipt) : Prop :=
  forall safe, openSafe (call (snd (fst entry))) = Some safe -> P safe.

(** The Safe belongs to a deployment among [ds] whose stored row passes the
    gate. *)
Definition gatedSafe (ds : list AgentDeployment) (safe : string) : Prop :=
  exists dep, In dep ds /\ safeWallet dep = safe /\ gateOpen dep.

Definition sameDeployments (w w' : World) : Prop :=
  deployments (db w') = deployments (db w).

(** [POST /api/admin/execute-trade-once?signalId=id] *)
Definition postSignal (id : Id) : Request :=
  {| method := "POST"; query_signalId := Some id |}.

(** ** Closing: what counts as submitted *)

(** A logged close transaction that came back with a receipt. *)
Definition isConfirmedClose (entry : string * Submission * reply Receipt) : bool :=
  match entry with
  | (_, tx, Returns _) =>
      match call tx with
      | ClosePosition _ _ _ _ _ _ _ _ => true
      | _ => false
      end
  | _ => false
  end.

(** Between the two worlds a close was confirmed on chain. *)
Definition closeConfirmed (w w' : World) : Prop :=
  existsb isConfirmedClose (newEntries w w') = true.

(** The log only grows, and the store is untouched unless a close was
    confirmed. *)
Definition cleanUntilClose (w w' : World) : Prop :=
  logExtends w w' /\ (db w' = db w \/ closeConfirmed w w').

(** The result of a close agrees with the chain. *)
Definition closeAccounted (w0 : World) (r : ExecutionResult) (w : World) : Prop :=
  (success r = true -> closeConfirmed w0 w)
  /\ (success r = false -> error r <> None).

(** The sample environment with a chain that rejects every close and
    confirms everything else. *)
Definition rejectingCloses : Env :=
  withTransact sampleEnv
    (fun t sender tx =>
       match call tx with
       | ClosePosition _ _ _ _ _ _ _ _ => Raises (Text "execution reverted")
       | _ => transact sampleEnv t sender tx
       end).

(** ** Billing of the profit share *)

(** The PROFIT_SHARE charge that mirrors the on-chain distribution of 20% of
    a profit. *)
Definition profitShareEvent (p : Position) (amount : Q) (txh recipient : string)
    : BillingEvent :=
  {| be_positionId := pos_id p;
     be_deploymentId := deploymentId p;
     be_kind := "PROFIT_SHARE";
     be_amount := amount;
     be_asset := "USDC";
     be_status := "CHARGED";
     be_txHash := txh;
     be_profitShareBps := 2000;
     be_recipient := recipient |}.

(** After a close of position [id] with result [r], relative to the store
    [st0] before: the position carries the PnL [gain] that the close
    computed, as [DECIMAL(20,8)], and the billing events have grown by the
    profit share over 20% of [gain] exactly when [gain] is positive and the
    close has a transaction hash (and the share fits its column). *)
Definition billed (st0 : Store) (id : Id) (recipient : string)
    (r : ExecutionResult) (w : World) : Prop :=
  exists p gain stored,
    findPosition (db w) id = Some p
    /\ toDecimal gain = Returns stored
    /\ pnl p = Some stored
    /\ billingEvents (db w)
       = billingEvents st0
         ++ (if negb (Qle_bool gain 0) && truthy (txHash r)
             then match toDecimal (gain * inject_Z 2000 / 10000) with
                  | Returns amount =>
                      [profitShareEvent p amount (default "" (txHash r)) recipient]
                  | Raises _ => []
                  end
             else []).

(** ** What a close sends *)

(** A transaction of the close path for the Safe [safe]: the unlimited
    approval of a token through the module, or the close itself, swapping
    into [usdc] with no minimum output and naming [receiver] for the profit
    share.  Nothing else. *)
Definition closeTraffic (safe usdc receiver : string)
    (entry : string * Submission * reply Receipt) : Prop :=
  match call (snd (fst entry)) with
  | ClosePosition s _ tokenOut _ minAmountOut _ agentOwner _ =>
      s = safe /\ tokenOut = usdc /\ minAmountOut = 0 /\ agentOwner = receiver
  | ExecuteFromModule s _ value (Approve _ amount) =>
      s = safe /\ value = 0 /\ amount = MaxUint256
  | _ => False
  end.

(** A short WETH position opened at [entry], trailing stop enabled at 1%,
    with the low-water mark [low]. *)
Definition shortPosition (entry : Q) (low : option Q) : Position :=
  {| pos_id := 1%nat; deploymentId := 1%nat; signalId := 1%nat;
     pos_venue := SPOT; pos_tokenSymbol := "WETH"; pos_side := "SHORT";
     qty := (1 # 2)%Q; entryPrice := entry; entryTxHash := Some "0xENTRY";
     stopLoss := None; takeProfit := None;
     trailingParams := Some {| enabled := true; trailingPercent := Some 1%Q;
                               highestPrice := None; lowestPrice := low |};
     openedAt := 1700000000000; closedAt := None; exitPrice := None;
     exitTxHash := None; pnl := None; source := "auto"; manualTradeId := None |}.

(** ** What a successful open leaves behind *)

(** Relative to the store [st0] before: exactly one position was added, for
    the deployment [did] and the signal [sid], open, with the trailing stop
    enabled at 1% and no marks yet, carrying the transaction hash of the
    result; and the signal carries that hash as its Proof of Intent
    transaction. *)
Definition opened (st0 : Store) (sid did : Id) (r : ExecutionResult) (w : World) : Prop :=
  exists p sg,
    positions (db w) = positions st0 ++ [p]
    /\ positionId r = Some (pos_id p)
    /\ pos_id p = nextPositionId st0
    /\ deploymentId p = did
    /\ signalId p = sid
    /\ closedAt p = None
    /\ entryTxHash p = txHash r
    /\ trailingParams p = Some {| enabled := true; trailingPercent := Some 1%Q;
                                  highestPrice := None; lowestPrice := None |}
    /\ findSignal (db w) sid = Some sg
    /\ proofOfIntentTxHash sg = txHash r
    /\ signalHash sg <> None.

(** The computation never waits for a lock, whatever the state. *)
Definition neverWaits {A} (m : M A) : Prop := forall w, fst (m w) <> Hang.

(** The sample environment without [EXECUTOR_PRIVATE_KEY]. *)
Definition keyless : Env :=
  {| EXECUTOR_PRIVATE_KEY := None;
     TRADING_MODULE_ADDRESS := TRADING_MODULE_ADDRESS sampleEnv;
     MODULE_ADDRESS := MODULE_ADDRESS sampleEnv;
     getChainIdForVenue := getChainIdForVenue sampleEnv;
     safeReadiness := safeReadiness sampleEnv;
     getUSDCBalance := getUSDCBalance sampleEnv;
     getRouterAddress := getRouterAddress sampleEnv;
     getExecutionSummary := getExecutionSummary sampleEnv;
     getQuote := getQuote sampleEnv;
     calculateMinAmountOut := calculateMinAmountOut sampleEnv;
     buildApprovalTx := buildApprovalTx sampleEnv;
     buildSwapTx := buildSwapTx sampleEnv;
     buildCloseSwapTx := buildCloseSwapTx sampleEnv;
     connect := connect sampleEnv;
     getTransactionCount := getTransactionCount sampleEnv;
     transact := transact sampleEnv;
     readSafeStats := readSafeStats sampleEnv;
     isTokenWhitelisted := isTokenWhitelisted sampleEnv;
     allowance := allowance sampleEnv;
     balanceOf := balanceOf sampleEnv;
     isModuleEnabled := isModuleEnabled sampleEnv;
     proofOfIntentHash := proofOfIntentHash sampleEnv;
     getTokenPriceUSD := getTokenPriceUSD sampleEnv;
     getMarketPrice := getMarketPrice sampleEnv;
     now := now sampleEnv |}.

(** The sample store with the sample signal routed to GMX. *)
Definition gmxWorld : World :=
  {| db := withSignals sampleStore
             [{| sig_id := 1%nat; sig_agentId := 1%nat;
                 sig_tokenSymbol := "WETH"; sig_venue := GMX;
                 sig_side := "LONG"; sizeModel := balancePercentage 5;
                 riskModel := {| rm_stopLoss := None; rm_takeProfit := None |};
                 skippedReason := None; signalHash := None;
                 creatorAddress := None; proofOfIntentTxHash := None |}];
     nonceTracker := ∅; nonceLocks := ∅; chainLog := []; clock := 0%nat |}.

(** A logged transaction that, if it opens a trade, spends at least [least]
    units of the input token. *)
Definition spendsAtLeast (least : Z) (entry : string * Submission * reply Receipt) : Prop :=
  forall amountIn, amountInOf (call (snd (fst entry))) = Some amountIn -> least <= amountIn.

(** The store and the clock of the start, kept along code that only reads
    the store. *)
Definition since (w0 w : World) : Prop := sameStore w0 w /\ later w0 w.

(** Every open trade handed to the chain between [w] and [w'] comes after a
    reading of the chain, within that span, that found the trading module
    enabled on the trade's Safe. *)
Definition verifiedOnChain (env : Env) (w w' : World) : Prop :=
  logExtends w w' /\ later w w'
  /\ forall entry safe,
       In entry (newEntries w w') ->
       openSafe (call (snd (fst entry))) = Some safe ->
       exists t, (clock w <= t < clock w')%nat
                 /\ isModuleEnabled env t safe (tradingModuleAddress env) = true.

(** The sample store with the deployment paused, its subscription lapsed
    and its cached module flag cleared. *)
Definition pausedStore : Store :=
  {| agents := agents sampleStore;
     deployments :=
       [ {| dep_id := dep_id sampleDeployment;
            dep_agentId := dep_agentId sampleDeployment;
            userWallet := userWallet sampleDeployment;
            safeWallet := safeWallet sampleDeployment;
            moduleAddress := moduleAddress sampleDeployment;
            moduleEnabled := false;
            dep_status := PAUSED;
            subActive := false;
            subStartedAt := subStartedAt sampleDeployment |} ];
     signals := signals sampleStore;
     positions := positions sampleStore;
     venueStatuses := venueStatuses sampleStore;
     tokenRegistry := tokenRegistry sampleStore;
     billingEvents := billingEvents sampleStore;
     nextPositionId := nextPositionId sampleStore |}.

Definition pausedWorld : World :=
  {| db := pausedStore; nonceTracker := ∅; nonceLocks := ∅; chainLog := [];
     clock := 0%nat |}.

(** ** Invocations that interleave at their awaits *)

(** An asynchronous function as a program that can be suspended: [Await]
    is one awaited statement, which runs to its end without being
    interrupted; the event loop may switch to another invocation between
    any two of them. *)
Inductive Prog (A : Type) : Type :=
| Ret (a : A)
| Raise (e : Message)
| Await (act : M A)
| Bind (X : Type) (p : Prog X) (k : X -> Prog A)
| Try (p : Prog A) (h : Message -> Prog A)
| Finally (p : Prog A) (f : World -> World).
Arguments Ret {A} a.
Arguments Raise {A} e.
Arguments Await {A} act.
Arguments Bind {A X} p k.
Arguments Try {A} p h.
Arguments Finally {A} p f.

Declare Scope prog_scope.
Delimit Scope prog_scope with prog.
Notation "x <~ p ;; k" := (Bind p (fun x => k))
  (at level 100, p at next level, right associativity) : prog_scope.
Notation "p ~;; k" := (Bind p (fun _ => k))
  (at level 100, right associativity) : prog_scope.

(** Run without interruption, a program is the computation it was cut
    from. *)
Fixpoint run {A} (p : Prog A) : M A :=
  match p with
  | Ret a => ret a
  | Raise e => throw e
  | Await act => act
  | Bind q k => bind (run q) (fun x => run (k x))
  | Try q h => tryCatch (run q) (fun e => run (h e))
  | Finally q f => tryFinally (run q) f
  end.

(** The invocation is resumed and runs up to its next suspension: it
    performs the awaited statement it was suspended at (staying suspended
    if that statement has to wait), or passes a value or an exception on to
    the code around it. *)
Fixpoint step {A} (p : Prog A) (w : World) : Prog A * World :=
  match p with
  | Ret _ | Raise _ => (p, w)
  | Await act =>
      match act w with
      | (Ok a, w') => (Ret a, w')
      | (Throw e, w') => (Raise e, w')
      | (Hang, _) => (p, w)
      end
  | Bind q k =>
      match q with
      | Ret x => (k x, w)
      | Raise e => (Raise e, w)
      | _ => let (q', w') := step q w in (Bind q' k, w')
      end
  | Try q h =>
      match q with
      | Ret a => (Ret a, w)
      | Raise e => (h e, w)
      | _ => let (q', w') := step q w in (Try q' h, w')
      end
  | Finally q f =>
      match q with
      | Ret a => (Ret a, f w)
      | Raise e => (Raise e, f w)
      | _ => let (q', w') := step q w in (Finally q' f, w')
      end
  end.

(** The event loop resumes the invocations in the order of the schedule. *)
Fixpoint race {A} (schedule : list nat) (tasks : list (Prog A)) (w : World)
    : list (Prog A) * World :=
  match schedule with
  | [] => (tasks, w)
  | i :: rest =>
      match tasks !! i with
      | Some t => let next := step t w in
                  race rest (<[ i := fst next ]> tasks) (snd next)
      | None => race rest tasks w
      end
  end.

(** The result an invocation has settled with. *)
Definition settledWith {A} (p : Prog A) : option (A + Message) :=
  match p with
  | Ret a => Some (inl a)
  | Raise e => Some (inr e)
  | _ => None
  end.

(** ** The open, cut at its awaits *)

(** The functions on the path of [executeSignalForDeployment] once more,
    statement by statement as above, with every awaited call (and every
    synchronous statement that reads the outside world or may throw) as an
    [Await] of its own: the cut is at least as fine as the awaits of the
    source, except that the two awaits of a transaction (its submission and
    its receipt) are one statement, [send], which touches the log of the
    chain and nothing of the store.  [getNextNonce] takes its lock when it
    finds it free and waits otherwise. *)
Module Resumable.
Section WithEnv.

Variable env : Env.

Local Open Scope prog_scope.

(** [while (nonceLocks.has(address)) await ...; nonceLocks.set(address, ...)] *)
Definition acquire (address : string) : M unit :=
  fun w => if decide (address ∈ nonceLocks w) then (Hang, w)
           else (Ok tt, lock address w).

(** [nonceTracker.get(address)] *)
Definition cachedNonce (address : string) : M (option Z) :=
  fun w => (Ok (nonceTracker w !! address), w).

Definition getNextNonce (svc : Service) : Prog Z :=
  let address := executor svc in
  Await (acquire address) ~;;
  Finally
    (cached <~ Await (cachedNonce address) ;;
     n <~ match cached with
          | None =>
              Await (ask (fun t => getTransactionCount env t address))
          | Some cached =>
              let incremented := cached + 1 in
              networkNonce <~ Await (ask (fun t => getTransactionCount env t address)) ;;
              Ret (if networkNonce >? incremented then networkNonce
                   else incremented)
          end ;;
     Await (cacheNonce address n) ~;;
     Ret n)
    (unlock address).

Definition newSafeModuleService (config : ModuleConfig) : Prog Service :=
  address <~ Await (liftReply (connect env config)) ;;
  Ret {| svc_module := cfg_moduleAddress config;
         svc_chainId := cfg_chainId config;
         executor := address |}.

Definition initializeCapital (svc : Service) (safeAddress : string) : Prog TxResult :=
  Try
    (receipt <~ Await (send env svc (InitializeCapital safeAddress) None None) ;;
     Ret (txDone receipt))
    (fun error => Ret (txFailed (messageOr error "Failed to initialize capital"))).

Definition executeTradeWithIntent (svc : Service) (params : TradeParams)
    : Prog TradeResult :=
  Try
    (let poolFee := 3000 in
     nonce <~ getNextNonce svc ;;
     receipt <~ Await (send env svc
       (ExecuteTradeWithIntent
          (tp_safeAddress params)
          (default "" (tp_signalHash params))
          (default "" (tp_creatorAddress params))
          (fromToken params)
          (toToken params)
          (tp_amountIn params)
          (tp_minAmountOut params)
          poolFee)
       (Some 1000000) (Some nonce)) ;;
     Ret {| tr_success := true;
            tr_txHash := Some (transactionHash receipt);
            tr_amountOut := tradeEventAmount (events receipt);
            feeCharged := Some 200000;
            tr_error := None |})
    (fun error => Ret (tradeFailed (messageOr error "Trade with intent execution failed"))).

Definition executeTrade (svc : Service) (params : TradeParams) : Prog TradeResult :=
  if truthy (tp_signalHash params) && truthy (tp_creatorAddress params)
  then executeTradeWithIntent svc params
  else
    Try
      (let poolFee := 3000 in
       nonce <~ getNextNonce svc ;;
       receipt <~ Await (send env svc
         (ExecuteTrade
            (tp_safeAddress params)
            (fromToken params)
            (toToken params)
            (tp_amountIn params)
            (tp_minAmountOut params)
            poolFee
            (tp_profitReceiver params))
         (Some 1000000) (Some nonce)) ;;
       Ret {| tr_success := true;
              tr_txHash := Some (transactionHash receipt);
              tr_amountOut := tradeEventAmount (events receipt);
              feeCharged := Some 200000;
              tr_error := None |})
      (fun error => Ret (tradeFailed (messageOr error "Trade execution failed"))).

Definition getSafeStats (svc : Service) (safeAddress : string) : Prog SafeStats :=
  Await (ask (fun t => readSafeStats env t safeAddress)).

Definition approveTokenForDex (svc : Service)
    (safeAddress tokenAddress dexRouter : string) : Prog TxResult :=
  Try
    (let approveData := Approve dexRouter MaxUint256 in
     nonce <~ getNextNonce svc ;;
     receipt <~ Await (send env svc
                         (ExecuteFromModule safeAddress tokenAddress 0 approveData)
                         (Some 300000) (Some nonce)) ;;
     if status receipt =? 1
     then Ret (txDone receipt)
     else Ret (txFailed (Text "Approval transaction reverted")))
    (fun error => Ret (txFailed (messageOr error "Approval failed"))).

Definition checkTokenWhitelist (svc : Service) (safeAddress tokenAddress : string)
    : Prog bool :=
  Try
    (Await (ask (fun t => isTokenWhitelisted env t safeAddress tokenAddress)))
    (fun _ => Ret false).

Definition setTokenWhitelist (svc : Service)
    (safeAddress tokenAddress : string) (st : bool) : Prog TxResult :=
  Try
    (nonce <~ getNextNonce svc ;;
     receipt <~ Await (send env svc (SetTokenWhitelist safeAddress tokenAddress st)
                         (Some 300000) (Some nonce)) ;;
     Ret (txDone receipt))
    (fun error => Ret (txFailed (messageOr error "Failed to set token whitelist"))).

Definition preTradeValidation (sg : Signal) (dep : AgentDeployment) : Prog PreCheck :=
  Try
    (let actualTokenSymbol := beforeManual (sig_tokenSymbol sg) in
     st <~ Await getStore ;;
     match findVenueStatus st (sig_venue sg) actualTokenSymbol with
     | None =>
         Ret {| canExecute := false;
                pc_reason := Some (NotAvailableOn actualTokenSymbol (sig_venue sg));
                pc_usdcBalance := None;
                tokenAvailable := Some false |}
     | Some _ =>
         usdcBalance <~ Await (ask (fun t => getUSDCBalance env t (safeWallet dep)
                                               (getChainIdForVenue env (sig_venue sg)))) ;;
         if Qeq_bool usdcBalance 0 then
           Ret {| canExecute := false;
                  pc_reason := Some (Text "No USDC balance in Safe wallet");
                  pc_usdcBalance := Some usdcBalance;
                  tokenAvailable := Some true |}
         else
           let requiredCollateral :=
             option_map (fun value => usdcBalance * value / 100)%Q
                        (sm_value (sizeModel sg)) in
           if match requiredCollateral with
              | Some c => Qeq_bool c 0
              | None => false
              end
           then
             Ret {| canExecute := false;
                    pc_reason := Some (Text "Position size too small");
                    pc_usdcBalance := Some usdcBalance;
                    tokenAvailable := Some true |}
           else
             let passed := {| canExecute := true;
                              pc_reason := None;
                              pc_usdcBalance := Some usdcBalance;
                              tokenAvailable := Some true |} in
             match sig_venue sg with
             | SPOT =>
                 let chain := chainName (getChainIdForVenue env (sig_venue sg)) in
                 st' <~ Await getStore ;;
                 match findToken st' chain actualTokenSymbol with
                 | None =>
                     Ret {| canExecute := false;
                            pc_reason := Some (NotInRegistryFor actualTokenSymbol chain);
                            pc_usdcBalance := Some usdcBalance;
                            tokenAvailable := Some false |}
                 | Some _ => Ret passed
                 end
             | _ => Ret passed
             end
     end)
    (fun error =>
       Ret {| canExecute := false; pc_reason := Some error;
              pc_usdcBalance := None; tokenAvailable := None |}).

Definition autoSetup (svc : Service) (safe token usdcAddress routerAddress : string)
    : Prog unit :=
  Try
    (stats <~ getSafeStats svc safe ;;
     if negb (initialized stats)
     then (initializeCapital svc safe ~;; Ret tt)
     else Ret tt)
    (fun _ => Ret tt) ~;;
  Try
    (isWhitelisted <~ checkTokenWhitelist svc safe token ;;
     if negb isWhitelisted
     then (setTokenWhitelist svc safe token true ~;; Ret tt)
     else Ret tt)
    (fun _ => Ret tt) ~;;
  approveTokenForDex svc safe usdcAddress routerAddress ~;;
  Ret tt.

Definition settleTrade (ctx : ExecutionContext) (actualTokenSymbol hash : string)
    (positionSize : Q) (result : TradeResult) : Prog ExecutionResult :=
  if negb (tr_success result) then
    Ret (failure (match tr_error result with
                  | Some e => messageOr e "Transaction submission failed"
                  | None => Text "Transaction submission failed"
                  end))
  else
    let actualAmountOut :=
      match tr_amountOut result with
      | Some out => formatUnits out 18
      | None => 0%Q
      end in
    let actualEntryPrice :=
      if negb (Qle_bool actualAmountOut 0)
      then (positionSize / actualAmountOut)%Q
      else 0%Q in
    Await (recordProofOfIntent ctx hash result) ~;;
    position <~ Await (createPosition env
      (positionData ctx actualTokenSymbol actualEntryPrice actualAmountOut result)) ;;
    Ret {| success := true;
           txHash := tr_txHash result;
           positionId := Some (pos_id position);
           error := None; reason := None; executionSummary := None |}.

Definition executeSpotTrade (ctx : ExecutionContext) : Prog ExecutionResult :=
  Try
    (let chainId := getChainIdForVenue env (sig_venue (signal ctx)) in
     let safe := safeWallet (deployment ctx) in
     summary <~ Await (ask (fun t => getExecutionSummary env t (signal ctx) safe)) ;;
     if negb (es_canExecute summary) then
       Ret (rejection (Text "Cannot execute SPOT trade")
              (option_map Text (es_reason summary))
              (Some (AdapterSummary summary)))
     else
       let actualTokenSymbol := beforeManual (sig_tokenSymbol (signal ctx)) in
       let chain := chainName chainId in
       st <~ Await getStore ;;
       match findToken st chain actualTokenSymbol with
       | None => Ret (failure (NotInRegistry actualTokenSymbol))
       | Some token =>
           let usdcBalance := numberOr (es_usdcBalance summary) 0 in
           match positionSizing (sizeModel (signal ctx)) usdcBalance with
           | inr early => Ret early
           | inl positionSize =>
               amountIn <~ Await (liftReply (parseUnits6 positionSize)) ;;
               let usdcAddress := USDC_ADDRESSES chainId in
               quote <~ Await (ask (fun t => getQuote env t usdcAddress
                                               (tokenAddress token) amountIn)) ;;
               minAmountOut <~ Await (liftReply (calculateMinAmountOut env quote 5000)) ;;
               approvalTx <~ Await (ask (fun t => buildApprovalTx env t usdcAddress amountIn)) ;;
               time <~ Await (observe (now env)) ;;
               swapTx <~ Await (ask (fun t => buildSwapTx env t usdcAddress
                                                (tokenAddress token)
                                                amountIn minAmountOut
                                                (time / 1000 + 1200) safe)) ;;
               let moduleAddr :=
                 firstTruthy (TRADING_MODULE_ADDRESS env) (MODULE_ADDRESS env)
                             "0x74437d894C8E8A5ACf371E10919c688ae79E89FA" in
               if negb (truthy (EXECUTOR_PRIVATE_KEY env)) then
                 Ret (failure (Text "EXECUTOR_PRIVATE_KEY not configured"))
               else
                 moduleService <~ newSafeModuleService
                   {| cfg_moduleAddress := Some moduleAddr;
                      cfg_chainId := chainId;
                      cfg_executorPrivateKey := default "" (EXECUTOR_PRIVATE_KEY env) |} ;;
                 match getRouterAddress env chainId with
                 | None => Ret (failure (RouterNotConfigured chainId))
                 | Some routerAddress =>
                     if negb (truthy (Some routerAddress)) then
                       Ret (failure (RouterNotConfigured chainId))
                     else
                       autoSetup moduleService safe (tokenAddress token)
                                 usdcAddress routerAddress ~;;
                       stamp <~ Await (observe (now env)) ;;
                       hash <~ Await (liftReply
                         (proofOfIntentHash env (sig_side (signal ctx))
                            (sig_tokenSymbol (signal ctx))
                            (creatorWallet (agent ctx)) amountIn stamp)) ;;
                       result <~ executeTrade moduleService
                         {| tp_safeAddress := safe;
                            fromToken := usdcAddress;
                            toToken := tokenAddress token;
                            tp_amountIn := amountIn;
                            dexRouter := routerAddress;
                            swapData := swapTx;
                            tp_minAmountOut := minAmountOut;
                            tp_profitReceiver := profitReceiverAddress (agent ctx);
                            tp_signalHash := Some hash;
                            tp_creatorAddress := Some (creatorWallet (agent ctx)) |} ;;
                       settleTrade ctx actualTokenSymbol hash positionSize result
                 end
           end
       end)
    (fun error => Ret (failure error)).

Definition routeToVenue (ctx : ExecutionContext) : Prog ExecutionResult :=
  match sig_venue (signal ctx) with
  | SPOT => executeSpotTrade ctx
  | GMX =>
      Ret (failure (Text "GMX perpetuals coming soon on Base! Stay tuned for updates."))
  | HYPERLIQUID =>
      Ret (failure (Text "Hyperliquid perpetuals coming soon on Base! Stay tuned for updates."))
  end.

Definition executeSignalInternal (ctx : ExecutionContext) : Prog ExecutionResult :=
  Try
    (let chainId := getChainIdForVenue env (sig_venue (signal ctx)) in
     validation <~ Await (ask (fun t => validateSafe env t
                                          (safeWallet (deployment ctx)) chainId)) ;;
     if negb (valid validation) then
       Ret (failure (SafeValidationFailed (sv_error validation)))
     else
       preCheck <~ preTradeValidation (signal ctx) (deployment ctx) ;;
       if negb (canExecute preCheck) then
         Ret (rejection (Text "Pre-trade validation failed") (pc_reason preCheck)
                (Some (PreCheckSummary preCheck)))
       else
         routeToVenue ctx)
    (fun error => Ret (failure error)).

Definition executeSignalForDeployment (signalId_ deploymentId_ : Id)
    : Prog ExecutionResult :=
  Try
    (st <~ Await getStore ;;
     match findSignal st signalId_ with
     | None => Ret (failure (Text "Signal not found"))
     | Some sg =>
         st' <~ Await getStore ;;
         match findDeployment st' deploymentId_ with
         | None => Ret (failure (Text "Deployment not found"))
         | Some dep =>
             match findAgent st (sig_agentId sg) with
             | None => Raise (TypeError "signal.agent")
             | Some ag =>
                 executeSignalInternal
                   {| signal := sg; agent := ag; deployment := dep |}
             end
         end
     end)
    (fun error => Ret (failure error)).

End WithEnv.
End Resumable.


(** Every awaited statement and every [finally] block of the program is in
    the relation [R]. *)
Fixpoint Every (R : World -> World -> Prop) {A} (p : Prog A) : Prop :=
  match p with
  | Ret _ | Raise _ => True
  | Await act => preserves R act
  | Bind q k => Every R q /\ forall x, Every R (k x)
  | Try q h => Every R q /\ forall e, Every R (h e)
  | Finally q f => Every R q /\ forall w, R w (f w)
  end.

(** The invocation, resumed [n] times in a row. *)
Fixpoint steps {A} (n : nat) (p : Prog A) (w : World) : Prog A * World :=
  match n with
  | O => (p, w)
  | S n => let next := step p w in steps n (fst next) (snd next)
  end.


(** One program reaches another by being resumed a number of times. *)
Definition reaches {A} (p : Prog A) (w : World) (p' : Prog A) (w' : World) : Prop :=
  exists n, steps n p w = (p', w').

(** *** A logic of interleaved invocations *)

(** What is already decided about how the program ends, when no awaited
    statement and no [finally] block is left to run. *)
Fixpoint pureResult {A} (p : Prog A) : option (A + Message) :=
  match p with
  | Ret a => Some (inl a)
  | Raise e => Some (inr e)
  | Await _ => None
  | Bind q k =>
      match pureResult q with
      | Some (inl x) => pureResult (k x)
      | Some (inr e) => Some (inr e)
      | None => None
      end
  | Try q h =>
      match pureResult q with
      | Some (inl a) => Some (inl a)
      | Some (inr e) => pureResult (h e)
      | None => None
      end
  | Finally _ _ => None
  end.

Section Logic.

(** [Inv] holds of the world whenever an invocation is resumed; a statement
    after which the invocation still has something to run is [Quiet]. *)
Variable Inv : World -> Prop.
Variable Quiet : World -> World -> Prop.

(** A postcondition relates how the program ends to the worlds before and
    after the statement that decided it. *)
Definition Post (A : Type) : Type := A + Message -> World -> World -> Prop.

(** [WP p Q u1 u2]: the program [p], whose last statement took the world
    from [u1] to [u2], ends as [Q] says, whatever the other invocations do
    in between, as long as they keep [Inv]. *)
Fixpoint WP {A} (p : Prog A) (Q : Post A) (u1 u2 : World) : Prop :=
  match p with
  | Ret a => Q (inl a) u1 u2
  | Raise e => Q (inr e) u1 u2
  | Await act =>
      Quiet u1 u2
      /\ forall w, Inv w ->
           match act w with
           | (Ok a, w') => Inv w' /\ Q (inl a) w w'
           | (Throw e, w') => Inv w' /\ Q (inr e) w w'
           | (Hang, _) => True
           end
  | Bind q k =>
      WP q (fun o v1 v2 => match o with
                           | inl x => WP (k x) Q v1 v2
                           | inr e => Q (inr e) v1 v2
                           end) u1 u2
  | Try q h =>
      WP q (fun o v1 v2 => match o with
                           | inl a => Q (inl a) v1 v2
                           | inr e => WP (h e) Q v1 v2
                           end) u1 u2
  | Finally q f =>
      WP q (fun o v1 v2 => Quiet v1 v2
                           /\ forall w, Inv w -> Inv (f w) /\ Q o w (f w)) u1 u2
  end.

End Logic.


(** ** Racing opens for one deployment and signal *)

(** The table of positions is as it was. *)
Definition positionsKept (w w' : World) : Prop := positions (db w') = positions (db w).

(** The unique index on (deployment_id, signal_id) holds. *)
Definition pairsDistinct (w : World) : Prop := uniquePairs (db w).

(** How an open for the deployment [d] and the signal [sg] ends: it returns
    (it does not throw); with a success when its last statement has added
    exactly one row to the positions, for this deployment and signal, whose
    id the result carries; otherwise with a failure that has an error
    message, after a statement that has left the positions as they were. *)
Definition openPost (d sg : Id) : Post ExecutionResult :=
  fun o u1 u2 =>
    match o with
    | inl r =>
        if success r
        then exists row, positions (db u2) = positions (db u1) ++ [row]
                         /\ pairOf row = (d, sg)
                         /\ positionId r = Some (pos_id row)
        else positions (db u2) = positions (db u1) /\ error r <> None
    | inr _ => False
    end.

(** The same under the [catch] blocks of the open, which turn an exception
    into a failure with its message. *)
Definition caughtPost (d sg : Id) : Post ExecutionResult :=
  fun o => openPost d sg (inl match o with
                              | inl r => r
                              | inr e => failure e
                              end).

(** The part of an open under its [catch] blocks ends as [caughtPost] says,
    wherever it is resumed from. *)
Definition safeOpen (d sg : Id) (p : Prog ExecutionResult) : Prop :=
  forall u1 u2, positionsKept u1 u2 ->
                WP pairsDistinct positionsKept p (caughtPost d sg) u1 u2.

(** The invocation has its success in hand: nothing is left for it to run
    but to return it. *)
Definition wins (t : Prog ExecutionResult) : bool :=
  match pureResult t with
  | Some (inl r) => success r
  | _ => false
  end.

Fixpoint countWins (tasks : list (Prog ExecutionResult)) : nat :=
  match tasks with
  | [] => 0
  | t :: rest => (if wins t then 1 else 0) + countWins rest
  end.

(** Two computations do the same in every world. *)
Definition agree {A} (m m' : M A) : Prop := forall w, m w = m' w.

(** Where a race of opens for the deployment [d] and the signal [sg] that
    started in [w0] stands: the pairs are distinct, every invocation is an
    open in the sense of [openPost], the positions are those of [w0]
    followed by new rows of this deployment and signal, one for each
    invocation that has its success in hand, and such an invocation
    carries the id of one of them. *)
Definition raceStands (d sg : Id) (w0 : World)
    (tasks : list (Prog ExecutionResult)) (w : World) : Prop :=
  pairsDistinct w
  /\ Forall (fun t => exists u1 u2,
                        WP pairsDistinct positionsKept t (openPost d sg) u1 u2) tasks
  /\ exists new,
       positions (db w) = positions (db w0) ++ new
       /\ Forall (fun row => pairOf row = (d, sg)) new
       /\ length new = countWins tasks
       /\ forall i t r, tasks !! i = Some t -> pureResult t = Some (inl r) ->
                        success r = true ->
                        exists row, In row new /\ positionId r = Some (pos_id row).

(** A schedule that resumes [n] invocations in turn, [rounds] times. *)
Definition roundRobin (n rounds : nat) : list nat := concat (repeat (seq 0 n) rounds).

(** signal{token=WBTC, venue=SPOT, size={balance-percentage,5}}; WBTC is a
    token of 8 decimals. *)
Definition wbtcSignal : Signal :=
  {| sig_id := 1%nat; sig_agentId := 1%nat;
     sig_tokenSymbol := "WBTC"; sig_venue := SPOT; sig_side := "LONG";
     sizeModel := {| sm_type := Some "balance-percentage";
                     sm_value := Some 5%Q; sm_baseSize := None |};
     riskModel := {| rm_stopLoss := None; rm_takeProfit := None |};
     skippedReason := None; signalHash := None; creatorAddress := None;
     proofOfIntentTxHash := None |}.

Definition wbtcStore : Store :=
  {| agents := [sampleAgent];
     deployments := [sampleDeployment];
     signals := [wbtcSignal];
     positions := [];
     venueStatuses := [{| vs_venue := SPOT; vs_tokenSymbol := "WBTC"; minSize := None |}];
     tokenRegistry := [{| tr_chain := "base"; tr_tokenSymbol := "WBTC";
                          tokenAddress := "0x0555E30da8f98308EdB960aa94C0Db47230d2B9c";
                          decimals := Some 8 |}];
     billingEvents := [];
     nextPositionId := 1%nat |}.

Definition wbtcWorld : World :=
  {| db := wbtcStore; nonceTracker := ∅; nonceLocks := ∅;
     chainLog := []; clock := 0%nat |}.

(** The sample environment on a market with WBTC at 60000 USDC: the 50 USDC
    of the signal are quoted 83333 units of WBTC (0.00083333 WBTC), the swap
    is sent with the minimum output 41666, and the chain confirms every
    trade with an output of 83000 units.  The code reads the output with 18
    decimals, as 0.000000000000083 tokens, which makes an entry price of
    about 6 * 10^14: more than the column [entry_price DECIMAL(20,8)]
    holds. *)
Definition wbtcMarket : Env :=
  {| EXECUTOR_PRIVATE_KEY := EXECUTOR_PRIVATE_KEY sampleEnv;
     TRADING_MODULE_ADDRESS := TRADING_MODULE_ADDRESS sampleEnv;
     MODULE_ADDRESS := MODULE_ADDRESS sampleEnv;
     getChainIdForVenue := getChainIdForVenue sampleEnv;
     safeReadiness := safeReadiness sampleEnv;
     getUSDCBalance := getUSDCBalance sampleEnv;
     getRouterAddress := getRouterAddress sampleEnv;
     getExecutionSummary := getExecutionSummary sampleEnv;
     getQuote := fun _ _ _ _ => Returns 83333;
     calculateMinAmountOut := calculateMinAmountOut sampleEnv;
     buildApprovalTx := buildApprovalTx sampleEnv;
     buildSwapTx := buildSwapTx sampleEnv;
     buildCloseSwapTx := buildCloseSwapTx sampleEnv;
     connect := connect sampleEnv;
     getTransactionCount := getTransactionCount sampleEnv;
     transact := fun _ _ tx =>
       Returns {| status := 1; transactionHash := "0xTX";
                  events := match openSafe (call tx) with
                            | Some _ => [TradeExecuted 83000]
                            | None => []
                            end |};
     readSafeStats := readSafeStats sampleEnv;
     isTokenWhitelisted := isTokenWhitelisted sampleEnv;
     allowance := allowance sampleEnv;
     balanceOf := fun _ _ _ => Returns 83000;
     isModuleEnabled := isModuleEnabled sampleEnv;
     proofOfIntentHash := proofOfIntentHash sampleEnv;
     getTokenPriceUSD := fun _ _ => Some 60000%Q;
     getMarketPrice := fun _ _ => Returns (Some 60000%Q);
     now := now sampleEnv |}.

(** The minimum output an open trade was sent with. *)
Definition minimumAsked (entry : string * Submission * reply Receipt) : option Z :=
  match call (snd (fst entry)) with
  | ExecuteTrade _ _ _ _ least _ _ => Some least
  | ExecuteTradeWithIntent _ _ _ _ _ _ least _ => Some least
  | _ => None
  end.

(** What an invocation has returned: success, position id and error. *)
Definition returned (t : Prog ExecutionResult)
    : option (bool * option Id * option Message) :=
  match t with
  | Ret r => Some (success r, positionId r, error r)
  | _ => None
  end.

(** *** Opens whose collaborators all answer *)

(** What an open reads of a signal; the Proof of Intent columns, which an
    open writes, are not among it. *)
Definition order (sg : Signal) : Id * Id * string * Venue * string * SizeModel :=
  (sig_id sg, sig_agentId sg, sig_tokenSymbol sg, sig_venue sg, sig_side sg,
   sizeModel sg).

(** The columns [qty] and [entry_price] accept the amounts that
    [settleTrade] derives from the output of a trade of [size] USDC. *)
Definition rowFits (size : Q) (amountOut : option Z) : Prop :=
  let actualAmountOut :=
    match amountOut with
    | Some out => formatUnits out 18
    | None => 0%Q
    end in
  let actualEntryPrice :=
    if negb (Qle_bool actualAmountOut 0)
    then (size / actualAmountOut)%Q
    else 0%Q in
  (exists stored, toDecimal actualAmountOut = Returns stored)
  /\ (exists stored, toDecimal actualEntryPrice = Returns stored).

(** Everything an open of the signal [sg] on the deployment [dep] asks of
    the outside world is answered, whenever it is asked: the Safe is ready
    and holds USDC, the adapter lets the trade through and the size model
    gives [size] USDC, quote, transactions and hash are built, executor key
    and router are configured, the chain tells its transaction count, and
    it confirms every open trade with an output that the columns of the
    position accept. *)
Record cooperative (env : Env) (sg : Signal) (dep : AgentDeployment) (size : Q)
    : Prop := {
  coop_venue : sig_venue sg = SPOT;
  coop_safe : forall t, exists validation,
      validateSafe env t (safeWallet dep) (getChainIdForVenue env (sig_venue sg))
      = Returns validation
      /\ valid validation = true;
  coop_balance : forall t, exists balance,
      getUSDCBalance env t (safeWallet dep) (getChainIdForVenue env (sig_venue sg))
      = Returns balance
      /\ Qeq_bool balance 0 = false
      /\ forall value, sm_value (sizeModel sg) = Some value ->
                       Qeq_bool (balance * value / 100) 0 = false;
  coop_summary : forall t asked, exists summary,
      getExecutionSummary env t asked (safeWallet dep) = Returns summary
      /\ es_canExecute summary = true
      /\ positionSizing (sizeModel sg) (numberOr (es_usdcBalance summary) 0) = inl size;
  coop_units : exists amountIn, parseUnits6 size = Returns amountIn;
  coop_quote : forall t tokenIn tokenOut amountIn, exists quote,
      getQuote env t tokenIn tokenOut amountIn = Returns quote;
  coop_min : forall quote bps, exists least,
      calculateMinAmountOut env quote bps = Returns least;
  coop_approval : forall t token amount, exists data,
      buildApprovalTx env t token amount = Returns data;
  coop_swap : forall t tokenIn tokenOut amountIn least deadline recipient, exists data,
      buildSwapTx env t tokenIn tokenOut amountIn least deadline recipient = Returns data;
  coop_key : truthy (EXECUTOR_PRIVATE_KEY env) = true;
  coop_connect : forall config, exists address, connect env config = Returns address;
  coop_router : exists router,
      getRouterAddress env (getChainIdForVenue env (sig_venue sg)) = Some router
      /\ truthy (Some router) = true;
  coop_hash : forall side token creator amount stamp, exists hash,
      proofOfIntentHash env side token creator amount stamp = Returns hash;
  coop_count : forall t address, exists count,
      getTransactionCount env t address = Returns count;
  coop_chain : forall t sender tx,
      openSafe (call tx) <> None ->
      exists receipt, transact env t sender tx = Returns receipt
                      /\ rowFits size (tradeEventAmount (events receipt))
}.

(** The store has the rows that the open of [sg] on [dep] reads. *)
Definition ready (env : Env) (sg : Signal) (dep : AgentDeployment) (ag : Agent)
    (st : Store) : Prop :=
  let sym := beforeManual (sig_tokenSymbol sg) in
  let chain := chainName (getChainIdForVenue env (sig_venue sg)) in
  (exists stored, findSignal st (sig_id sg) = Some stored /\ order stored = order sg)
  /\ findDeployment st (dep_id dep) = Some dep
  /\ findAgent st (sig_agentId sg) = Some ag
  /\ findVenueStatus st (sig_venue sg) sym <> None
  /\ findToken st chain sym <> None.

(** The error of an insert that finds the pair (deployment, signal) taken. *)
Definition duplicateKey : Message := UniqueConstraintFailed ["deployment_id"; "signal_id"].

(** A statement that, from a world in [P], returns a value in [G] and
    leaves the store alone, or waits; it does not throw. *)
Definition quietly {X} (P : World -> Prop) (act : M X) (G : X -> Prop) : Prop :=
  forall w, P w ->
    match act w with
    | (Ok a, w') => sameStore w w' /\ G a
    | (Throw _, _) => False
    | (Hang, _) => True
    end.

(** The program ends with a value in [G], after a statement that has left
    the positions as they were. *)
Definition yields {A} (G : A -> Prop) : Post A :=
  fun o v1 v2 =>
    positionsKept v1 v2
    /\ match o with
       | inl a => G a
       | inr _ => False
       end.

(** How an open ends when its collaborators all answer: with a success,
    as in [openPost], or with the failure of the unique index, after an
    insert that found the pair taken and left the positions as they were. *)
Definition racePost (d sg : Id) : Post ExecutionResult :=
  fun o u1 u2 =>
    match o with
    | inl r =>
        if success r
        then exists row, positions (db u2) = positions (db u1) ++ [row]
                         /\ pairOf row = (d, sg)
                         /\ positionId r = Some (pos_id row)
        else positions (db u2) = positions (db u1)
             /\ error r = Some duplicateKey
             /\ findPositionFor (db u1) d sg <> None
    | inr _ => False
    end.

Definition caughtRace (d sg : Id) : Post ExecutionResult :=
  fun o => racePost d sg (inl match o with
                              | inl r => r
                              | inr e => failure e
                              end).

(** The pairs are distinct and the rows the open reads are there. *)
Definition raceReady (env : Env) (sg : Signal) (dep : AgentDeployment) (ag : Agent)
    (w : World) : Prop :=
  pairsDistinct w /\ ready env sg dep ag (db w).

(** Where a race of opens whose collaborators all answer stands: the
    invariant holds, and every invocation ends as [racePost] says, seen
    from a world whose positions are still the first of the present
    ones. *)
Definition raceRuns (Inv : World -> Prop) (d sg : Id)
    (tasks : list (Prog ExecutionResult)) (w : World) : Prop :=
  Inv w
  /\ Forall (fun t => exists u1 u2,
                        WP Inv positionsKept t (racePost d sg) u1 u2
                        /\ exists rest, positions (db w) = positions (db u2) ++ rest)
            tasks.

(** * Properties *)

Unset Implicit Arguments.

(** ** Reasoning about monadic code *)

Section Preservation.

Variable R : World -> World -> Prop.
Hypothesis R_refl : forall w, R w w.
Hypothesis R_trans : forall a b c, R a b -> R b c -> R a c.
Hypothesis R_tick : forall w, R w (tick w).

Lemma preserves_ret A (a : A) : preserves R (ret a).
Proof. intros w; apply R_refl. Qed.

Lemma preserves_throw A e : preserves R (@throw A e).
Proof. intros w; apply R_refl. Qed.

Lemma preserves_bind A B (m : M A) (k : A -> M B) :
  preserves R m -> (forall a, preserves R (k a)) -> preserves R (bind m k).
Proof.
  intros Hm Hk w. unfold bind. specialize (Hm w).
  destruct (m w) as [[a | e |] w1]; simpl in *; auto.
  eapply R_trans; [exact Hm | apply Hk].
Qed.

Lemma preserves_tryCatch A (m : M A) h :
  preserves R m -> (forall e, preserves R (h e)) -> preserves R (tryCatch m h).
Proof.
  intros Hm Hh w. unfold tryCatch. specialize (Hm w).
  destruct (m w) as [[a | e |] w1]; simpl in *; auto.
  eapply R_trans; [exact Hm | apply Hh].
Qed.

Lemma preserves_ask A (o : nat -> reply A) : preserves R (ask o).
Proof. intros w; apply R_tick. Qed.

Lemma preserves_observe A (o : nat -> A) : preserves R (observe o).
Proof. intros w; apply R_tick. Qed.

Lemma preserves_liftReply A (r : reply A) : preserves R (liftReply r).
Proof. intros w; apply R_refl. Qed.

Lemma preserves_getStore : preserves R getStore.
Proof. intros w; apply R_refl. Qed.

End Preservation.

Lemma settles_ret A (a : A) : settles (ret a).
Proof. intros w H; split; [discriminate | exact H]. Qed.

Lemma settles_throw A e : settles (@throw A e).
Proof. intros w H; split; [discriminate | exact H]. Qed.

Lemma settles_bind A B (m : M A) (k : A -> M B) :
  settles m -> (forall a, settles (k a)) -> settles (bind m k).
Proof.
  intros Hm Hk w Hw. unfold bind. destruct (Hm w Hw) as [Hn Hl].
  destruct (m w) as [[a | e |] w1]; simpl in *.
  - apply Hk; exact Hl.
  - split; [discriminate | exact Hl].
  - contradiction.
Qed.

Lemma settles_tryCatch A (m : M A) h :
  settles m -> (forall e, settles (h e)) -> settles (tryCatch m h).
Proof.
  intros Hm Hh w Hw. unfold tryCatch. destruct (Hm w Hw) as [Hn Hl].
  destruct (m w) as [[a | e |] w1]; simpl in *.
  - split; [discriminate | exact Hl].
  - apply Hh; exact Hl.
  - contradiction.
Qed.

Lemma settles_ask A (o : nat -> reply A) : settles (ask o).
Proof.
  intros w H; split; [| exact H].
  unfold ask; simpl. destruct (o (clock w)); discriminate.
Qed.

Lemma settles_observe A (o : nat -> A) : settles (observe o).
Proof. intros w H; split; [discriminate | exact H]. Qed.

Lemma settles_liftReply A (r : reply A) : settles (liftReply r).
Proof. intros w H; split; [destruct r; discriminate | exact H]. Qed.

Lemma settles_getStore : settles getStore.
Proof. intros w H; split; [discriminate | exact H]. Qed.

Lemma settles_setStore s : settles (setStore s).
Proof. intros w H; split; [discriminate | exact H]. Qed.

Lemma settles_dbWrite f : settles (dbWrite f).
Proof.
  unfold dbWrite. apply settles_bind; [apply settles_getStore |].
  intros st. apply settles_bind; [apply settles_liftReply |].
  intros st'. apply settles_setStore.
Qed.

(** A [try]/[catch] whose handler returns, around code that settles,
    returns. *)
Lemma returns_tryCatch A (m : M A) h :
  settles m -> (forall e, returns (h e)) -> returns (tryCatch m h).
Proof.
  intros Hm Hh w Hw. unfold tryCatch. destruct (Hm w Hw) as [Hn Hl].
  destruct (m w) as [[a | e |] w1]; simpl in *.
  - split; [eauto | exact Hl].
  - apply Hh; exact Hl.
  - contradiction.
Qed.

Lemma returns_ret A (a : A) : returns (ret a).
Proof. intros w H; split; [eexists; reflexivity | exact H]. Qed.

Lemma returns_settles A (m : M A) : returns m -> settles m.
Proof.
  intros H w Hw. destruct (H w Hw) as [[a Ha] Hl]. split; [| exact Hl].
  rewrite Ha; discriminate.
Qed.

Lemma sameStore_refl w : sameStore w w.
Proof. reflexivity. Qed.

Lemma sameStore_trans a b c : sameStore a b -> sameStore b c -> sameStore a c.
Proof. unfold sameStore; congruence. Qed.

Lemma sameStore_tick w : sameStore w (tick w).
Proof. reflexivity. Qed.

Lemma logGrows_refl P w : logGrows P w w.
Proof. exists []. split; [symmetry; apply app_nil_r | constructor]. Qed.

Lemma logGrows_trans P a b c : logGrows P a b -> logGrows P b c -> logGrows P a c.
Proof.
  intros (n1 & E1 & F1) (n2 & E2 & F2). exists (n1 ++ n2). split.
  - rewrite E2, E1. symmetry; apply app_assoc.
  - apply Forall_app; auto.
Qed.

Lemma logGrows_tick P w : logGrows P w (tick w).
Proof. exact (logGrows_refl P w). Qed.

Lemma logGrows_weaken (P P' : _ -> Prop) w w' :
  (forall x, P x -> P' x) -> logGrows P w w' -> logGrows P' w w'.
Proof.
  intros H (n & E & F). exists n. split; [exact E |].
  eapply Forall_impl; eauto.
Qed.

(** ** Nonce coordinator *)

Lemma relock_free (a : string) (locks : gset string) :
  a ∉ locks -> ({[a]} ∪ locks) ∖ {[a]} = locks.
Proof.
  intros Ha. apply set_eq. intros x.
  rewrite elem_of_difference, elem_of_union, elem_of_singleton.
  split.
  - intros [[-> | Hx] Hne]; [contradiction Hne; reflexivity | exact Hx].
  - intros Hx. split; [right; exact Hx |]. intros ->. contradiction.
Qed.

(** What one acquisition does when the lock of the executor is free: it
    reads the chain once, answers, and keeps the answer in the cache. *)
Lemma getNextNonce_free env svc w :
  executor svc ∉ nonceLocks w ->
  getNextNonce env svc w =
  match getTransactionCount env (clock w) (executor svc) with
  | Returns c =>
      let n := match nonceTracker w !! executor svc with
               | None => c
               | Some cached => Z.max (cached + 1) c
               end in
      (Ok n, {| db := db w; nonceTracker := <[ executor svc := n ]> (nonceTracker w);
                nonceLocks := nonceLocks w; chainLog := chainLog w;
                clock := S (clock w) |})
  | Raises e =>
      (Throw e, {| db := db w; nonceTracker := nonceTracker w;
                   nonceLocks := nonceLocks w; chainLog := chainLog w;
                   clock := S (clock w) |})
  end.
Proof.
  intros Hfree. unfold getNextNonce.
  destruct (decide (executor svc ∈ nonceLocks w)) as [Hin | _]; [contradiction |].
  pose proof (relock_free _ _ Hfree) as Hl.
  unfold tryFinally, bind, ask, cacheNonce, ret, lock, unlock, tick; simpl.
  destruct (nonceTracker w !! executor svc) as [cached |] eqn:Ht; simpl;
    destruct (getTransactionCount env (clock w) (executor svc)) as [c | e]; simpl;
    rewrite ?Hl; try reflexivity.
  destruct (c >? cached + 1) eqn:Hc.
  - rewrite Z.max_r by lia. reflexivity.
  - rewrite Z.max_l by lia. reflexivity.
Qed.

(** With the lock held by somebody who never releases it, the wait does
    not end and nothing changes. *)
Lemma getNextNonce_locked env svc w :
  executor svc ∈ nonceLocks w -> getNextNonce env svc w = (Hang, w).
Proof.
  intros Hin. unfold getNextNonce.
  destruct (decide (executor svc ∈ nonceLocks w)); [reflexivity | contradiction].
Qed.

Lemma getNextNonce_step env svc w :
  executor svc ∉ nonceLocks w ->
  let out := getNextNonce env svc w in
  settled (fst out)
  /\ nonceLocks (snd out) = nonceLocks w
  /\ db (snd out) = db w
  /\ chainLog (snd out) = chainLog w
  /\ match fst out with
     | Ok n => nonceTracker (snd out) !! executor svc = Some n
               /\ forall cached, nonceTracker w !! executor svc = Some cached -> cached < n
     | _ => nonceTracker (snd out) = nonceTracker w
     end.
Proof.
  intros Hfree out. subst out. rewrite (getNextNonce_free env _ _ Hfree).
  destruct (getTransactionCount env (clock w) (executor svc)) as [c | e]; simpl.
  - repeat split; try discriminate.
    + apply lookup_insert_eq.
    + intros cached Hc. rewrite Hc. lia.
  - repeat split; discriminate.
Qed.

Lemma acquireSerially_above env svc n : forall w,
  executor svc ∉ nonceLocks w ->
  let rs := fst (acquireSerially env svc n w) in
  length rs = n
  /\ Forall settled rs
  /\ StronglySorted Z.lt (issued rs)
  /\ forall cached, nonceTracker w !! executor svc = Some cached ->
                    Forall (Z.lt cached) (issued rs).
Proof.
  induction n as [| n IH]; intros w Hfree; simpl.
  - split; [reflexivity | split; [constructor | split; [constructor |]]].
    intros cached _. constructor.
  - destruct (getNextNonce_step env _ _ Hfree) as (Hs & Hl & _ & _ & Ht).
    assert (Hfree' : executor svc ∉ nonceLocks (snd (getNextNonce env svc w)))
      by (rewrite Hl; exact Hfree).
    destruct (IH _ Hfree') as (Hlen & Hset & Hsorted & Habove).
    destruct (fst (getNextNonce env svc w)) as [m | e |] eqn:Hr; simpl.
    + destruct Ht as [Hcache Hgt].
      split; [| split; [| split]].
      * f_equal; exact Hlen.
      * constructor; [exact Hs | exact Hset].
      * constructor; [exact Hsorted | apply Habove; exact Hcache].
      * intros cached Hc. apply Forall_cons; split; [apply Hgt; exact Hc |].
        eapply Forall_impl; [apply Habove; exact Hcache |].
        intros x Hx. specialize (Hgt _ Hc). simpl in Hx. lia.
    + split; [| split; [| split]].
      * f_equal; exact Hlen.
      * constructor; [exact Hs | exact Hset].
      * exact Hsorted.
      * intros cached Hc. apply Habove. rewrite Ht. exact Hc.
    + exfalso. apply Hs. reflexivity.
Qed.

Lemma StronglySorted_lt_NoDup (l : list Z) : StronglySorted Z.lt l -> NoDup l.
Proof.
  induction 1 as [| x l Hs IH Hall]; constructor; [| exact IH].
  intros Hin. rewrite Forall_forall in Hall.
  specialize (Hall x Hin). lia.
Qed.

(** C4. For serialized acquisitions on one executor identity (no
    acquisition of that identity in progress at the start): the first
    acquisition returns the on-chain transaction count; an acquisition with
    a cached nonce returns the maximum of the cached nonce plus one and the
    freshly read on-chain count; the answer is what the cache holds
    afterwards; and any number of consecutive acquisitions all settle and
    hand out a strictly increasing sequence without duplicates, above any
    nonce cached before. *)
Theorem nonce_acquisition_monotonic (env : Env) (svc : Service) (w : World) (n : nat) :
  executor svc ∉ nonceLocks w ->
  let a := executor svc in
  let one := getNextNonce env svc w in
  let run := fst (acquireSerially env svc n w) in
  (forall c, getTransactionCount env (clock w) a = Returns c ->
     fst one = Ok (match nonceTracker w !! a with
                   | None => c
                   | Some cached => Z.max (cached + 1) c
                   end))
  /\ (forall e, getTransactionCount env (clock w) a = Raises e ->
        fst one = Throw e /\ nonceTracker (snd one) = nonceTracker w)
  /\ (forall m, fst one = Ok m -> nonceTracker (snd one) !! a = Some m)
  /\ length run = n
  /\ Forall settled run
  /\ StronglySorted Z.lt (issued run)
  /\ NoDup (issued run)
  /\ (forall cached, nonceTracker w !! a = Some cached ->
        Forall (Z.lt cached) (issued run)).
Proof.
  intros Hfree a one run. subst a one run.
  destruct (acquireSerially_above env svc n w Hfree) as (Hlen & Hset & Hsorted & Habove).
  pose proof (getNextNonce_step env _ _ Hfree) as (_ & _ & _ & _ & Hcache).
  rewrite (getNextNonce_free env _ _ Hfree) in *.
  split; [| split; [| split; [| split; [| split; [| split; [| split]]]]]].
  - intros c Hc. rewrite Hc. reflexivity.
  - intros e He. rewrite He. split; reflexivity.
  - intros m Hm.
    destruct (getTransactionCount env (clock w) (executor svc)); simpl in *;
      [| discriminate].
    destruct Hcache as [Hcache _]. inversion Hm; subst. exact Hcache.
  - exact Hlen.
  - exact Hset.
  - exact Hsorted.
  - apply StronglySorted_lt_NoDup; exact Hsorted.
  - exact Habove.
Qed.

Lemma nonce_acquisition_monotonic_witness :
  fst (acquireSerially sampleEnv sampleService 3 sampleWorld) = [Ok 7; Ok 8; Ok 9]
  /\ StronglySorted Z.lt
       (issued (fst (acquireSerially sampleEnv sampleService 3 sampleWorld))).
Proof.
  split; [vm_compute; reflexivity |].
  apply (nonce_acquisition_monotonic sampleEnv sampleService sampleWorld 3).
  vm_compute. discriminate.
Defined.

(** ** Execution gateway *)

(** Syntax-directed proof of [preserves R m] for a preorder [R] that the
    clock does not disturb; what is left are the calls to other modelled
    functions. *)
Ltac preserve refl trans tck :=
  repeat first
    [ apply preserves_ret; apply refl
    | apply preserves_throw; apply refl
    | apply preserves_ask; apply tck
    | apply preserves_observe; apply tck
    | apply preserves_liftReply; apply refl
    | apply preserves_getStore; apply refl
    | apply preserves_bind; [apply trans | | intros ?]
    | apply preserves_tryCatch; [apply trans | | intros ?]
    | match goal with
      | |- preserves _ (if ?b then _ else _) => destruct b
      | |- preserves _ (match ?x with _ => _ end) => destruct x
      end
    | progress cbv zeta ].

Lemma getNextNonce_frame env svc w :
  db (snd (getNextNonce env svc w)) = db w
  /\ chainLog (snd (getNextNonce env svc w)) = chainLog w.
Proof.
  destruct (decide (executor svc ∈ nonceLocks w)) as [Hin | Hfree].
  - rewrite (getNextNonce_locked env _ _ Hin). split; reflexivity.
  - destruct (getNextNonce_step env _ _ Hfree) as (_ & _ & Hdb & Hlog & _).
    split; assumption.
Qed.

Lemma getNextNonce_sameStore env svc : preserves sameStore (getNextNonce env svc).
Proof. intros w. apply getNextNonce_frame. Qed.

Lemma getNextNonce_log P env svc : preserves (logGrows P) (getNextNonce env svc).
Proof.
  intros w. exists []. split; [| constructor].
  rewrite app_nil_r. apply getNextNonce_frame.
Qed.

Lemma send_sameStore env svc c g n : preserves sameStore (send env svc c g n).
Proof. intros w. reflexivity. Qed.

Lemma send_log (P : _ -> Prop) env svc c g n :
  (forall sender answer, P (sender, {| call := c; gasLimit := g; nonce := n |}, answer)) ->
  preserves (logGrows P) (send env svc c g n).
Proof.
  intros HP w. eexists. split; [reflexivity |].
  constructor; [apply HP | constructor].
Qed.

Lemma noFee_onDefaultTier c g n :
  poolFeeOf c = None ->
  forall sender answer,
    onDefaultTier (sender, {| call := c; gasLimit := g; nonce := n |}, answer).
Proof. intros H sender answer fee. simpl. rewrite H. discriminate. Qed.

Lemma fee3000_onDefaultTier c g n :
  poolFeeOf c = Some 3000 ->
  forall sender answer,
    onDefaultTier (sender, {| call := c; gasLimit := g; nonce := n |}, answer).
Proof. intros H sender answer fee. simpl. rewrite H. congruence. Qed.

Ltac preserve_log P :=
  preserve (logGrows_refl P) (@logGrows_trans P) (logGrows_tick P);
  try apply getNextNonce_log.

Lemma executeTradeWithIntent_fee env svc params :
  preserves (logGrows onDefaultTier) (executeTradeWithIntent env svc params).
Proof.
  unfold executeTradeWithIntent. preserve_log onDefaultTier.
  apply send_log. apply fee3000_onDefaultTier. reflexivity.
Qed.

Lemma executeTrade_fee env svc params :
  preserves (logGrows onDefaultTier) (executeTrade env svc params).
Proof.
  unfold executeTrade.
  destruct (truthy (tp_signalHash params) && truthy (tp_creatorAddress params)).
  - apply executeTradeWithIntent_fee.
  - preserve_log onDefaultTier.
    apply send_log. apply fee3000_onDefaultTier. reflexivity.
Qed.

Lemma closePosition_fee env svc params :
  preserves (logGrows onDefaultTier) (SafeModuleService.closePosition env svc params).
Proof.
  unfold SafeModuleService.closePosition. preserve_log onDefaultTier.
  apply send_log. apply fee3000_onDefaultTier. reflexivity.
Qed.

Lemma newEntries_app w w' new :
  chainLog w' = chainLog w ++ new -> newEntries w w' = new.
Proof.
  intros H. unfold newEntries. rewrite H.
  rewrite skipn_app, skipn_all, Nat.sub_diag. reflexivity.
Qed.

(** What one swap submission does when the executor's lock is free and the
    chain answers the nonce read. *)
Lemma swap_submission env svc (c : ModuleCall) (A : Type)
    (k : Receipt -> M A) (h : Message -> M A) w count :
  executor svc ∉ nonceLocks w ->
  getTransactionCount env (clock w) (executor svc) = Returns count ->
  (forall receipt, preserves (logGrows (fun _ => False)) (k receipt)) ->
  (forall e, preserves (logGrows (fun _ => False)) (h e)) ->
  exists n answer,
    newEntries w
      (snd (tryCatch (nonce <- getNextNonce env svc ;;
                      receipt <- send env svc c (Some 1000000) (Some nonce) ;;
                      k receipt) h w))
    = [(executor svc, {| call := c; gasLimit := Some 1000000; nonce := Some n |}, answer)].
Proof.
  intros Hfree Hcount Hk Hh.
  unfold tryCatch, bind at 1. rewrite (getNextNonce_free env _ _ Hfree), Hcount. simpl.
  set (n := match nonceTracker w !! executor svc with
            | Some cached => Z.max (cached + 1) count
            | None => count
            end).
  set (w1 := {| db := db w; nonceTracker := <[executor svc:=n]> (nonceTracker w);
                nonceLocks := nonceLocks w; chainLog := chainLog w;
                clock := S (clock w) |}).
  set (tx := {| call := c; gasLimit := Some 1000000; nonce := Some n |}).
  exists n, (transact env (clock w1) (executor svc) tx).
  unfold bind, send. fold tx.
  set (w2 := tick _).
  assert (Hw2 : chainLog w2 = chainLog w ++ [(executor svc, tx, transact env (clock w1) (executor svc) tx)])
    by reflexivity.
  assert (Hany : forall w3, logGrows (fun _ => False) w2 w3 ->
                            newEntries w w3 = [(executor svc, tx, transact env (clock w1) (executor svc) tx)]).
  { intros w3 (new & E & F). destruct new as [| x new]; [| inversion F; contradiction].
    rewrite app_nil_r in E. apply newEntries_app. rewrite E. exact Hw2. }
  destruct (transact env (clock w1) (executor svc) tx) as [receipt | e] eqn:Ht; simpl.
  - specialize (Hk receipt w2). destruct (k receipt w2) as [[a | e |] w3] eqn:Hkr; simpl in *.
    + apply Hany; exact Hk.
    + specialize (Hh e w3). apply Hany.
      eapply logGrows_trans; [exact Hk | exact Hh].
    + apply Hany; exact Hk.
  - apply Hany. apply Hh.
Qed.

Lemma logGrows_newEntries P w w' : logGrows P w w' -> Forall P (newEntries w w').
Proof. intros (new & E & F). rewrite (newEntries_app _ _ _ E). exact F. Qed.

Lemma ret_quiet A (a : A) : preserves (logGrows (fun _ => False)) (ret a).
Proof. intros w. apply logGrows_refl. Qed.

(** C10. Whatever the parameters, the state of the process and the answers
    of the outside world (so whichever fee tier produced a quote), every
    transaction that [executeTrade], [executeTradeWithIntent] and the
    gateway's [closePosition] add to the chain log carries pool fee 3000 if
    it is a swap; and when the executor's nonce lock is free and the nonce
    read succeeds, each of them submits exactly one transaction, the swap
    built from its parameters with pool fee 3000. *)
Theorem swaps_use_pool_fee_3000 (env : Env) (svc : Service) (w : World) :
  (forall params,
      Forall onDefaultTier (newEntries w (snd (executeTrade env svc params w))))
  /\ (forall params,
      Forall onDefaultTier (newEntries w (snd (executeTradeWithIntent env svc params w))))
  /\ (forall params,
      Forall onDefaultTier
        (newEntries w (snd (SafeModuleService.closePosition env svc params w))))
  /\ (executor svc ∉ nonceLocks w ->
      forall count, getTransactionCount env (clock w) (executor svc) = Returns count ->
      (forall params, exists n answer,
          newEntries w (snd (executeTrade env svc params w))
          = [(executor svc,
              {| call := openCall params; gasLimit := Some 1000000; nonce := Some n |},
              answer)])
      /\ (forall params, exists n answer,
          newEntries w (snd (SafeModuleService.closePosition env svc params w))
          = [(executor svc,
              {| call := closeCall params; gasLimit := Some 1000000; nonce := Some n |},
              answer)])).
Proof.
  split; [| split; [| split]].
  - intros params. apply logGrows_newEntries, executeTrade_fee.
  - intros params. apply logGrows_newEntries, executeTradeWithIntent_fee.
  - intros params. apply logGrows_newEntries, closePosition_fee.
  - intros Hfree count Hcount. split; intros params.
    + unfold executeTrade, executeTradeWithIntent, openCall.
      destruct (truthy (tp_signalHash params) && truthy (tp_creatorAddress params));
        apply (swap_submission env svc) with (count := count);
        auto; intros; apply ret_quiet.
    + unfold SafeModuleService.closePosition, closeCall.
      apply (swap_submission env svc) with (count := count);
        auto; intros; apply ret_quiet.
Qed.

Lemma swaps_use_pool_fee_3000_witness :
  map (fun e => poolFeeOf (call (snd (fst e))))
      (newEntries sampleWorld
         (snd (executeTrade sampleEnv sampleService sampleTradeParams sampleWorld)))
  = [Some 3000]
  /\ Forall onDefaultTier
       (newEntries sampleWorld
          (snd (SafeModuleService.closePosition sampleEnv sampleService
                  sampleCloseParams sampleWorld))).
Proof.
  split; [vm_compute; reflexivity |].
  apply (swaps_use_pool_fee_3000 sampleEnv sampleService sampleWorld).
Defined.

(** ** Position sizing *)

Lemma Qle_bool_false_lt (x y : Q) : Qle_bool x y = false -> (y < x)%Q.
Proof.
  intros H. apply Qnot_le_lt. intros Hle.
  apply Qle_bool_iff in Hle. congruence.
Qed.

Lemma Qle_bool_true_le (x y : Q) : Qle_bool x y = true -> (x <= y)%Q.
Proof. apply Qle_bool_iff. Qed.

Lemma Qle_bool_of_le (x y : Q) : (x <= y)%Q -> Qle_bool x y = true.
Proof. apply Qle_bool_iff. Qed.

Lemma Qle_bool_of_lt (x y : Q) : (y < x)%Q -> Qle_bool x y = false.
Proof.
  intros H. destruct (Qle_bool x y) eqn:E; [| reflexivity].
  apply Qle_bool_iff in E. exfalso. eapply Qlt_not_le; eauto.
Qed.

(** A fixed amount within the balance is requested as it is; one above the
    balance is refused, never reduced to the balance. *)
Lemma positionSizing_fixed (value balance : Q) :
  (1 # 10 <= value)%Q ->
  positionSizing (fixedUsdc value) balance =
  if Qle_bool value balance
  then inl value
  else inr (rejection (InsufficientBalance value balance)
              (Some (Text "Requested amount exceeds wallet balance")) None).
Proof.
  intros Hmin. unfold positionSizing, fixedUsdc, numberOr; simpl.
  assert (Hnz : Qeq_bool value 0 = false).
  { destruct (Qeq_bool value 0) eqn:E; [| reflexivity].
    apply Qeq_bool_iff in E. rewrite E in Hmin. exfalso.
    revert Hmin. apply Qlt_not_le. reflexivity. }
  rewrite Hnz. rewrite (Qle_bool_of_le _ _ Hmin). simpl.
  destruct (Qle_bool value balance); reflexivity.
Qed.

(** A percentage is taken of the balance. *)
Lemma positionSizing_percentage (value balance : Q) :
  ~ (value == 0)%Q ->
  (1 # 10 <= balance * value / 100)%Q ->
  positionSizing (balancePercentage value) balance = inl (balance * value / 100)%Q.
Proof.
  intros Hnz Hmin. unfold positionSizing, balancePercentage, numberOr; simpl.
  destruct (Qeq_bool value 0) eqn:E.
  - apply Qeq_bool_iff in E. contradiction.
  - rewrite (Qle_bool_of_le _ _ Hmin). reflexivity.
Qed.

(** C7. Balance 1000 with [{balance-percentage, 5}] requests a notional of
    50, and with [{fixed-usdc, 30}] of 30; in [executeSpotTrade] these are
    the amounts (in units of 1e-6 USDC) of the one swap submitted.  With
    [{fixed-usdc, 2000}] the sizing stops with the insufficient-balance
    failure carrying the requested 2000 and the balance 1000, the open
    returns that failure, no swap is submitted and no position is stored. *)
Theorem position_sizing_examples :
  (exists size, positionSizing (balancePercentage 5) 1000 = inl size /\ (size == 50)%Q)
  /\ (exists size, positionSizing (fixedUsdc 30) 1000 = inl size /\ (size == 30)%Q)
  /\ positionSizing (fixedUsdc 2000) 1000
     = inr (rejection (InsufficientBalance 2000 1000)
              (Some (Text "Requested amount exceeds wallet balance")) None)
  /\ swapAmounts (chainLog (snd (TradeExecutor.executeSpotTrade sampleEnv
                                   (sampleContext (balancePercentage 5)) sampleWorld)))
     = [50000000]
  /\ swapAmounts (chainLog (snd (TradeExecutor.executeSpotTrade sampleEnv
                                   (sampleContext (fixedUsdc 30)) sampleWorld)))
     = [30000000]
  /\ (let out := TradeExecutor.executeSpotTrade sampleEnv
                   (sampleContext (fixedUsdc 2000)) sampleWorld in
      fst out = Ok (rejection (InsufficientBalance 2000 1000)
                      (Some (Text "Requested amount exceeds wallet balance")) None)
      /\ chainLog (snd out) = []
      /\ db (snd out) = db sampleWorld).
Proof.
  split; [| split; [| split; [| split; [| split]]]].
  - eexists. split; [vm_compute; reflexivity | reflexivity].
  - eexists. split; [vm_compute; reflexivity | reflexivity].
  - vm_compute. reflexivity.
  - vm_compute. reflexivity.
  - vm_compute. reflexivity.
  - vm_compute. repeat split; reflexivity.
Qed.

(** ** Pre-trade validation *)

Lemma Qeq_bool_false_neq (x y : Q) : Qeq_bool x y = false -> ~ (x == y)%Q.
Proof. intros H E. apply Qeq_bool_iff in E. congruence. Qed.

Lemma Qeq_bool_true_eq (x y : Q) : Qeq_bool x y = true -> (x == y)%Q.
Proof. apply Qeq_bool_iff. Qed.

Ltac inv_returns :=
  repeat match goal with
  | H : Returns _ = Returns _ |- _ => inversion H; subst; clear H
  | H : Raises _ = Raises _ |- _ => inversion H; subst; clear H
  | H : Raises _ = Returns _ |- _ => discriminate H
  | H : Returns _ = Raises _ |- _ => discriminate H
  | H : Some _ = None |- _ => discriminate H
  | H : None = Some _ |- _ => discriminate H
  | H : SPOT = GMX |- _ => discriminate H
  | H : SPOT = HYPERLIQUID |- _ => discriminate H
  | H : GMX = SPOT |- _ => discriminate H
  | H : HYPERLIQUID = SPOT |- _ => discriminate H
  | H : ?a = ?a -> _ |- _ => specialize (H eq_refl)
  | H : ?x <> ?x |- _ => contradiction H; reflexivity
  end.

Ltac settle_check :=
  first
    [ reflexivity
    | solve [intros; inv_returns; try contradiction; split_and!; reflexivity]
    | solve [intros; inv_returns; try contradiction; congruence]
    | solve [split;
             [ intros; inv_returns; try discriminate;
               split_and!; eauto; try discriminate; intros; inv_returns
             | intros (? & (? & ? & ? & ?) & ?); inv_returns;
               try discriminate; try contradiction; try reflexivity;
               exfalso; eauto ]] ].

(** C8 (as stated) fails: with a balance of 1000 USDC, a size model whose
    value is -5 gives the computed size -50, and a size model without a
    value gives no number at all; neither is above a minimum notional, yet
    the validator answers [canExecute = true] for both, since its third
    check only rejects a size equal to zero. *)
Lemma pre_trade_validation_accepts_size_below_minimum :
  let negative := withSizeModel sampleSignal (balancePercentage (-5)) in
  let missing := withSizeModel sampleSignal
                   {| sm_type := Some "balance-percentage"; sm_value := None;
                      sm_baseSize := None |} in
  getUSDCBalance sampleEnv 0 (safeWallet sampleDeployment)
    (getChainIdForVenue sampleEnv SPOT) = Returns 1000%Q
  /\ (1000 * -5 / 100 == -50)%Q
  /\ (exists check w',
        preTradeValidation sampleEnv negative sampleDeployment sampleWorld = (Ok check, w')
        /\ canExecute check = true /\ pc_reason check = None)
  /\ (exists check w',
        preTradeValidation sampleEnv missing sampleDeployment sampleWorld = (Ok check, w')
        /\ canExecute check = true /\ pc_reason check = None).
Proof.
  split; [reflexivity |]. split; [reflexivity |].
  split; do 2 eexists; (split; [vm_compute; reflexivity | split; reflexivity]).
Qed.

(** C8 (amended). [preTradeValidation] always returns a decision and changes
    neither the store, nor the chain log, nor the nonce state.  Its checks
    come in the order (1) venue and token constraint record, (2) non-zero
    USDC balance, (3) computed size (balance x value / 100) different from
    zero, which a size model without a value passes, (4) for SPOT, the token
    in the registry of the chain; the first failing check gives
    [canExecute = false] with its reason, check (1) failing even before the
    balance is read; and [canExecute = true] exactly when the balance was
    read and all four checks pass. *)
Theorem pre_trade_validation_order (env : Env) (sg : Signal) (dep : AgentDeployment)
    (w : World) :
  let sym := beforeManual (sig_tokenSymbol sg) in
  let chain := chainName (getChainIdForVenue env (sig_venue sg)) in
  let listed := findVenueStatus (db w) (sig_venue sg) sym in
  let balance := getUSDCBalance env (clock w) (safeWallet dep)
                   (getChainIdForVenue env (sig_venue sg)) in
  let sized b := forall v, sm_value (sizeModel sg) = Some v -> ~ (b * v / 100 == 0)%Q in
  let registered := findToken (db w) chain sym in
  exists check w',
    preTradeValidation env sg dep w = (Ok check, w')
    /\ db w' = db w /\ chainLog w' = chainLog w
    /\ nonceTracker w' = nonceTracker w /\ nonceLocks w' = nonceLocks w
    /\ (listed = None ->
        canExecute check = false
        /\ pc_reason check = Some (NotAvailableOn sym (sig_venue sg))
        /\ clock w' = clock w)
    /\ (listed <> None -> forall b, balance = Returns b -> (b == 0)%Q ->
        canExecute check = false
        /\ pc_reason check = Some (Text "No USDC balance in Safe wallet"))
    /\ (listed <> None -> forall e, balance = Raises e ->
        canExecute check = false /\ pc_reason check = Some e)
    /\ (listed <> None -> forall b, balance = Returns b -> ~ (b == 0)%Q ->
        forall v, sm_value (sizeModel sg) = Some v -> (b * v / 100 == 0)%Q ->
        canExecute check = false
        /\ pc_reason check = Some (Text "Position size too small"))
    /\ (listed <> None -> forall b, balance = Returns b -> ~ (b == 0)%Q ->
        sized b -> sig_venue sg = SPOT -> registered = None ->
        canExecute check = false
        /\ pc_reason check = Some (NotInRegistryFor sym chain))
    /\ (canExecute check = true <->
        listed <> None
        /\ (exists b, balance = Returns b /\ ~ (b == 0)%Q /\ sized b)
        /\ (sig_venue sg = SPOT -> registered <> None)).
Proof.
  intros sym chain listed balance sized registered.
  unfold preTradeValidation, tryCatch, bind, getStore, ask, ret, tick.
  fold sym. fold listed. simpl.
  destruct listed as [vs |] eqn:Hlisted; simpl.
  2:{ do 2 eexists. split; [reflexivity |]. simpl. split_and!; settle_check. }
  fold balance.
  destruct balance as [b | e] eqn:Hbal; simpl.
  2:{ do 2 eexists. split; [reflexivity |]. simpl. split_and!; settle_check. }
  destruct (Qeq_bool b 0) eqn:Hz; simpl.
  { apply Qeq_bool_true_eq in Hz.
    do 2 eexists. split; [reflexivity |]. simpl. split_and!; settle_check. }
  apply Qeq_bool_false_neq in Hz.
  destruct (sm_value (sizeModel sg)) as [v |] eqn:Hv; simpl.
  - destruct (Qeq_bool (b * v / 100) 0) eqn:Hc; simpl.
    { apply Qeq_bool_true_eq in Hc.
      assert (Hnot : ~ sized b) by (intros H; exact (H v eq_refl Hc)).
      do 2 eexists. split; [reflexivity |]. simpl. split_and!; settle_check. }
    apply Qeq_bool_false_neq in Hc.
    assert (Hyes : sized b) by (intros v' Hv'; inversion Hv'; subst; exact Hc).
    assert (Hone : forall v', Some v = Some v' -> (b * v' / 100 == 0)%Q -> False)
      by (intros v' Hv'; inversion Hv'; subst; exact Hc).
    destruct (sig_venue sg) eqn:Hvenue; simpl.
    + fold chain. fold sym. fold registered.
      destruct registered as [tk |] eqn:Hreg; simpl.
      * do 2 eexists. split; [reflexivity |]. simpl. split_and!; settle_check.
      * do 2 eexists. split; [reflexivity |]. simpl. split_and!; settle_check.
    + do 2 eexists. split; [reflexivity |]. simpl. split_and!; settle_check.
    + do 2 eexists. split; [reflexivity |]. simpl. split_and!; settle_check.
  - assert (Hyes : sized b) by (intros v' Hv'; discriminate).
    destruct (sig_venue sg) eqn:Hvenue; simpl.
    + fold chain. fold sym. fold registered.
      destruct registered as [tk |] eqn:Hreg; simpl.
      * do 2 eexists. split; [reflexivity |]. simpl. split_and!; settle_check.
      * do 2 eexists. split; [reflexivity |]. simpl. split_and!; settle_check.
    + do 2 eexists. split; [reflexivity |]. simpl. split_and!; settle_check.
    + do 2 eexists. split; [reflexivity |]. simpl. split_and!; settle_check.
Qed.

Lemma pre_trade_validation_order_witness :
  exists check w',
    preTradeValidation sampleEnv sampleSignal sampleDeployment sampleWorld = (Ok check, w')
    /\ db w' = db sampleWorld
    /\ canExecute check = true.
Proof.
  destruct (pre_trade_validation_order sampleEnv sampleSignal sampleDeployment
              sampleWorld)
    as (check & w' & Hrun & Hdb & _ & _ & _ & _ & _ & _ & _ & _ & Hall).
  exists check, w'. split; [exact Hrun |]. split; [exact Hdb |].
  apply Hall. split; [discriminate |]. split.
  - exists 1000%Q. split; [reflexivity |]. split; [discriminate |].
    intros v Hv. vm_compute in Hv. inversion Hv. discriminate.
  - intros _. discriminate.
Defined.

(** ** Position monitor *)

Lemma find_pos_id st id p : findPosition st id = Some p -> pos_id p = id.
Proof.
  unfold findPosition. intros H. apply find_some in H. destruct H as [_ H].
  apply Nat.eqb_eq in H. exact H.
Qed.

Lemma findPosition_updateRow st id f n :
  (forall p, pos_id (f p) = pos_id p) ->
  findPosition (withPositions st (updateRow pos_id id f (positions st)) n) id
  = option_map f (findPosition st id).
Proof.
  intros Hf. unfold findPosition, updateRow. simpl.
  induction (positions st) as [| r rows IH]; simpl; [reflexivity |].
  destruct (Nat.eqb (pos_id r) id) eqn:E.
  - rewrite Hf, E. reflexivity.
  - rewrite E. exact IH.
Qed.

Lemma Math_max_below (a b limit : Q) :
  (a < limit)%Q -> (b < limit)%Q -> (Math_max a b < limit)%Q.
Proof. intros Ha Hb. unfold Math_max. destruct (Qle_bool a b); assumption. Qed.

Lemma numberOr_below (x : option Q) (d limit : Q) :
  (forall h, x = Some h -> (h < limit)%Q) -> (d < limit)%Q ->
  (numberOr x d < limit)%Q.
Proof.
  intros Hx Hd. unfold numberOr. destruct x as [h |]; [| exact Hd].
  destruct (Qeq_bool h 0); [exact Hd | apply Hx; reflexivity].
Qed.

(** Below the activation threshold the trailing-stop block never says
    close, and what it stores is again below the threshold. *)
Lemma checkTrailingStop_below (p : Position) (price : Q) (w : World) :
  quietLong 103 (db w) p ->
  findPosition (db w) (pos_id p) = Some p ->
  (price < 103)%Q ->
  exists w',
    checkTrailingStop p (entryPrice p) price w = (Ok (false, ""), w')
    /\ signals (db w') = signals (db w)
    /\ chainLog w' = chainLog w
    /\ (exists p', findPosition (db w') (pos_id p) = Some p'
                   /\ pos_id p' = pos_id p /\ closedAt p' = closedAt p
                   /\ quietLong 103 (db w') p').
Proof.
  intros (Hlong & Hentry & Hmark & Htp & Hsig) Hfind Hprice.
  assert (Hkeep : exists p', findPosition (db w) (pos_id p) = Some p'
                   /\ pos_id p' = pos_id p /\ closedAt p' = closedAt p
                   /\ quietLong 103 (db w) p').
  { exists p. repeat split; auto. }
  unfold checkTrailingStop.
  destruct (trailingParams p) as [tp |] eqn:Htrail; [| eexists; repeat split; eauto].
  destruct (enabled tp) eqn:Hen; [| eexists; repeat split; eauto].
  rewrite Hlong.
  set (highest := numberOr (highestPrice tp) (entryPrice p)).
  assert (Hhigh : (highest < 103)%Q).
  { apply numberOr_below; [intros h Hh; eapply Hmark; eauto |].
    rewrite Hentry. reflexivity. }
  set (newHighest := Math_max highest price).
  assert (Hnew : (newHighest < 103)%Q) by (apply Math_max_below; assumption).
  assert (Hact : Qle_bool (entryPrice p * 1.03) newHighest = false).
  { apply Qle_bool_of_lt. rewrite Hentry.
    assert (E : (100 * 1.03 == 103)%Q) by reflexivity.
    rewrite E. exact Hnew. }
  unfold bind.
  destruct (negb (Qle_bool newHighest highest)) eqn:Hup.
  - unfold dbWrite, bind, getStore, liftReply, updatePosition. rewrite Hfind. simpl.
    rewrite Hact. eexists. split; [reflexivity |]. simpl.
    split; [reflexivity |]. split; [reflexivity |].
    rewrite findPosition_updateRow by reflexivity. rewrite Hfind. simpl.
    eexists. split; [reflexivity |]. split; [reflexivity |]. split; [reflexivity |].
    unfold quietLong; simpl. repeat split; auto.
    intros tp' h Htp' Hh. inversion Htp'; subst. simpl in Hh. inversion Hh; subst.
    exact Hnew.
  - unfold ret. rewrite Hact. eexists. repeat split; eauto.
Qed.

Lemma currentPriceFor_below env p w limit :
  pricesBelow limit env ->
  exists price,
    currentPriceFor env p w = (Ok price, tick w)
    /\ (forall x, price = Some x -> (x < limit)%Q).
Proof.
  intros [Hspot Hgmx]. unfold currentPriceFor.
  destruct (pos_venue p).
  - eexists. split; [reflexivity |]. intros x Hx. eapply Hspot; eauto.
  - unfold tryCatch, ask, ret.
    destruct (getMarketPrice env (clock w) (pos_tokenSymbol p)) as [price | e] eqn:E; simpl.
    + eexists. split; [reflexivity |]. intros x Hx. subst. eapply Hgmx; eauto.
    + eexists. split; [reflexivity |]. discriminate.
  - eexists. split; [reflexivity |]. intros x Hx. eapply Hspot; eauto.
Qed.

Lemma monitorPosition_quiet env p w :
  pricesBelow 103 env ->
  quietLong 103 (db w) p ->
  findPosition (db w) (pos_id p) = Some p ->
  exists v w',
    monitorPosition env p w = (Ok v, w')
    /\ isTriggered v = false
    /\ chainLog w' = chainLog w
    /\ (exists p', findPosition (db w') (pos_id p) = Some p'
                   /\ pos_id p' = pos_id p /\ closedAt p' = closedAt p
                   /\ quietLong 103 (db w') p').
Proof.
  intros Henv Hq Hfind.
  assert (Hkeep : forall w1, db w1 = db w -> chainLog w1 = chainLog w ->
            chainLog w1 = chainLog w
            /\ exists p', findPosition (db w1) (pos_id p) = Some p'
                   /\ pos_id p' = pos_id p /\ closedAt p' = closedAt p
                   /\ quietLong 103 (db w1) p').
  { intros w1 Hdb Hlog. split; [exact Hlog |]. exists p. rewrite Hdb. auto. }
  unfold monitorPosition, tryCatch.
  destruct (Qeq_bool (entryPrice p) 0) eqn:Hzero.
  { do 2 eexists. split; [reflexivity |]. split; [reflexivity |]. apply Hkeep; reflexivity. }
  unfold bind at 1.
  destruct (currentPriceFor_below env p w 103%Q Henv) as (price & Hprice & Hbelow).
  rewrite Hprice.
  destruct (falsy price) eqn:Hfalsy.
  { do 2 eexists. split; [reflexivity |]. split; [reflexivity |]. apply Hkeep; reflexivity. }
  destruct price as [x |]; [| discriminate]. simpl default.
  specialize (Hbelow x eq_refl).
  unfold bind at 1, getStore. change (db (tick w)) with (db w).
  destruct (findSignal (db w) (signalId p)) as [sg |] eqn:Hsig.
  2:{ unfold throw, ret. do 2 eexists. split; [reflexivity |]. split; [reflexivity |].
      apply Hkeep; reflexivity. }
  assert (Hq1 : quietLong 103 (db (tick w)) p) by exact Hq.
  destruct (checkTrailingStop_below p x (tick w) Hq1 Hfind Hbelow)
    as (w' & Hrun & Hsigs & Hlog & Hp').
  unfold evaluate, bind. rewrite Hrun. unfold ret.
  destruct Hq as (_ & _ & _ & Htp & Hrm).
  unfold checkTakeProfit, resolveTakeProfit. simpl fst.
  rewrite Htp, (Hrm sg Hsig). simpl.
  rewrite Htp. simpl.
  do 2 eexists. split; [reflexivity |]. split; [reflexivity |]. split; [exact Hlog | exact Hp'].
Qed.

(** Watching a quiet long position below the threshold never triggers. *)
Lemma watch_quiet env cycles : forall w p,
  pricesBelow 103 env ->
  quietLong 103 (db w) p ->
  findPosition (db w) (pos_id p) = Some p ->
  Forall (fun v => isTriggered v = false) (watch env (pos_id p) cycles w)
  /\ (closedAt p = None -> length (watch env (pos_id p) cycles w) = cycles).
Proof.
  induction cycles as [| k IH]; intros w p Henv Hq Hfind; simpl.
  - split; [constructor | reflexivity].
  - rewrite Hfind. destruct (closedAt p) eqn:Hclosed; [split; [constructor | discriminate] |].
    destruct (monitorPosition_quiet env p w Henv Hq Hfind)
      as (v & w' & Hrun & Hv & _ & p' & Hfind' & Hid & Hcl & Hq').
    rewrite Hrun. simpl.
    rewrite <- Hid in Hfind' |- *.
    destruct (IH w' p' Henv Hq' Hfind') as [Hall Hlen].
    split; [constructor; [exact Hv | exact Hall] |].
    intros _. f_equal. apply Hlen. congruence.
Qed.

Lemma alongPath_below (path : list Q) (limit : Q) :
  Forall (fun price => (price < limit)%Q) path ->
  (List.last path 0 < limit)%Q ->
  pricesBelow limit (alongPath path).
Proof.
  intros Hall Hlast.
  assert (Hnth : forall t, (nth t path (List.last path 0) < limit)%Q).
  { intros t. destruct (Nat.lt_ge_cases t (length path)) as [Hlt | Hge].
    - rewrite Forall_forall in Hall. apply Hall.
      apply list_elem_of_In. apply nth_In. exact Hlt.
    - rewrite nth_overflow by exact Hge. exact Hlast. }
  split; simpl.
  - intros t sym price H. inversion H; subst. apply Hnth.
  - intros t sym price H. inversion H; subst. apply Hnth.
Qed.

(** C3, as stated, fails at the boundary: on the path [103; 101], whose
    prices never exceed 103, the stop is activated at 103 (the code
    activates at [newHighest >= entryPrice * 1.03]) and triggers at 101,
    below 103 * 0.99 = 101.97. *)
Lemma trailing_stop_path_at_103_triggers :
  Forall (fun price => (price <= 103)%Q) [103; 101]%Q
  /\ watch (alongPath [103; 101]%Q) 1%nat 2 (holding (longPosition 100 None))
     = [Healthy; Triggered "TRAILING_STOP" (closed (Some "0xTX") 1%nat)].
Proof.
  split.
  - apply Forall_cons; split; [discriminate |].
    apply Forall_cons; split; [discriminate | apply Forall_nil; exact I].
  - vm_compute. reflexivity.
Qed.

(** C3 (amended). For the long position with entry price 100, trailing stop
    enabled at 1% and activation at a 3% gain: along the price path
    [100; 104; 106; 105; 104.8] the monitor finds the position healthy four
    times and at 104.8, the first price after the high of 106 that is at or
    below 106 * 0.99 = 104.94, closes it with reason TRAILING_STOP; and for a long position opened at
    100 without take profit, whatever the trailing percentage, along any
    prices that stay strictly below 103 no cycle triggers a close. *)
Theorem trailing_stop_long_side :
  watch (alongPath [100; 104; 106; 105; 104.8]%Q) 1%nat 5 (holding (longPosition 100 None))
  = [Healthy; Healthy; Healthy; Healthy;
     Triggered "TRAILING_STOP" (closed (Some "0xTX") 1%nat)]
  /\ (106 * (1 - 1 / 100) == 104.94)%Q
  /\ ~ (105 <= 104.94)%Q
  /\ (104.8 <= 104.94)%Q
  /\ (forall env w p cycles,
        pricesBelow 103 env ->
        quietLong 103 (db w) p ->
        findPosition (db w) (pos_id p) = Some p ->
        closedAt p = None ->
        length (watch env (pos_id p) cycles w) = cycles
        /\ Forall (fun v => isTriggered v = false) (watch env (pos_id p) cycles w)).
Proof.
  split; [vm_compute; reflexivity |].
  split; [reflexivity |].
  split; [intros H; apply H; reflexivity |].
  split; [discriminate |].
  intros env w p cycles Henv Hq Hfind Hopen.
  destruct (watch_quiet env cycles w p Henv Hq Hfind) as [Hall Hlen].
  split; [apply Hlen; exact Hopen | exact Hall].
Qed.

Lemma trailing_stop_long_side_witness :
  Forall (fun v => isTriggered v = false)
    (watch (alongPath [100; 102; 102.9; 101]%Q) 1%nat 4 (holding (longPosition 100 None))).
Proof.
  destruct trailing_stop_long_side as (_ & _ & _ & _ & Hquiet).
  apply (Hquiet (alongPath [100; 102; 102.9; 101]%Q)
                (holding (longPosition 100 None)) (longPosition 100 None) 4%nat).
  - apply alongPath_below; [| reflexivity].
    repeat (apply Forall_cons; split; [reflexivity |]). apply Forall_nil; exact I.
  - unfold quietLong. simpl. split; [reflexivity |]. split; [reflexivity |].
    split; [intros tp h Htp Hh; inversion Htp; subst; discriminate |].
    split; [reflexivity |].
    intros sg Hsg. vm_compute in Hsg. inversion Hsg. reflexivity.
  - reflexivity.
  - reflexivity.
Defined.

(** *** Counting close transactions *)

Lemma closesAtMost_refl w : closesAtMost 0 w w.
Proof. exists []. split; [symmetry; apply app_nil_r | simpl; lia]. Qed.

Lemma closesAtMost_add a b w1 w2 w3 :
  closesAtMost a w1 w2 -> closesAtMost b w2 w3 -> closesAtMost (a + b) w1 w3.
Proof.
  intros (n1 & E1 & L1) (n2 & E2 & L2). exists (n1 ++ n2). split.
  - rewrite E2, E1. symmetry; apply app_assoc.
  - rewrite List.filter_app, length_app. lia.
Qed.

Lemma closesAtMost_trans w1 w2 w3 :
  closesAtMost 0 w1 w2 -> closesAtMost 0 w2 w3 -> closesAtMost 0 w1 w3.
Proof. apply (closesAtMost_add 0 0). Qed.

Lemma closesAtMost_tick w : closesAtMost 0 w (tick w).
Proof. exact (closesAtMost_refl w). Qed.

Lemma closesAtMost_weaken a b w w' :
  (a <= b)%nat -> closesAtMost a w w' -> closesAtMost b w w'.
Proof. intros Hab (n & E & L). exists n. split; [exact E | lia]. Qed.

Lemma bind_closes a b A B (m : M A) (k : A -> M B) :
  preserves (closesAtMost a) m -> (forall x, preserves (closesAtMost b) (k x)) ->
  preserves (closesAtMost (a + b)) (bind m k).
Proof.
  intros Hm Hk w. unfold bind. specialize (Hm w).
  destruct (m w) as [[x | e |] w1]; simpl in *.
  - eapply closesAtMost_add; [exact Hm | apply Hk].
  - eapply closesAtMost_weaken; [| exact Hm]. lia.
  - eapply closesAtMost_weaken; [| exact Hm]. lia.
Qed.

Lemma tryCatch_closes a A (m : M A) h :
  preserves (closesAtMost a) m -> (forall e, preserves (closesAtMost 0) (h e)) ->
  preserves (closesAtMost a) (tryCatch m h).
Proof.
  intros Hm Hh w. unfold tryCatch. specialize (Hm w).
  destruct (m w) as [[x | e |] w1]; simpl in *; auto.
  replace a with (a + 0)%nat by lia.
  eapply closesAtMost_add; [exact Hm | apply Hh].
Qed.

Lemma setStore_closes s : preserves (closesAtMost 0) (setStore s).
Proof. intros w. exists []. split; [symmetry; apply app_nil_r | simpl; lia]. Qed.

Lemma getNextNonce_closes env svc : preserves (closesAtMost 0) (getNextNonce env svc).
Proof.
  intros w. exists []. split; [| simpl; lia].
  rewrite app_nil_r. apply getNextNonce_frame.
Qed.

Lemma send_closes env svc c g n :
  preserves (closesAtMost 1) (send env svc c g n).
Proof.
  intros w. eexists. split; [reflexivity |].
  simpl. destruct (isCloseCall _); simpl; lia.
Qed.

Lemma send_quiet env svc c g n :
  (forall sender answer,
      isCloseCall (sender, {| call := c; gasLimit := g; nonce := n |}, answer) = false) ->
  preserves (closesAtMost 0) (send env svc c g n).
Proof.
  intros Hc w. eexists. split; [reflexivity |].
  simpl. rewrite Hc. simpl. lia.
Qed.

(** Code without [ClosePosition] submissions. *)
Ltac quiet :=
  preserve closesAtMost_refl closesAtMost_trans closesAtMost_tick;
  try apply getNextNonce_closes;
  try apply setStore_closes;
  try (apply send_quiet; reflexivity).

Lemma dbWrite_closes f : preserves (closesAtMost 0) (dbWrite f).
Proof. unfold dbWrite. quiet. Qed.

Lemma approveTokenForDex_closes env svc safe token router :
  preserves (closesAtMost 0) (approveTokenForDex env svc safe token router).
Proof. unfold approveTokenForDex. quiet. Qed.

Lemma checkTokenApproval_closes env svc safe token spender :
  preserves (closesAtMost 0) (checkTokenApproval env svc safe token spender).
Proof. unfold checkTokenApproval. quiet. Qed.

Lemma createSafeModuleService_closes env m c k :
  preserves (closesAtMost 0) (createSafeModuleService env m c k).
Proof. unfold createSafeModuleService, newSafeModuleService. quiet. Qed.

Lemma recordProfitShare_closes p ag profit txh :
  preserves (closesAtMost 0) (recordProfitShare p ag profit txh).
Proof. unfold recordProfitShare. quiet. Qed.

Lemma gateway_closePosition_closes env svc params :
  preserves (closesAtMost 1) (SafeModuleService.closePosition env svc params).
Proof.
  unfold SafeModuleService.closePosition.
  apply tryCatch_closes; [| intros e; quiet].
  apply (bind_closes 0 1); [apply getNextNonce_closes | intros nonce].
  apply (bind_closes 1 0); [apply send_closes | intros receipt; quiet].
Qed.

Ltac quiet_all :=
  quiet;
  first [ apply dbWrite_closes
        | apply approveTokenForDex_closes
        | apply checkTokenApproval_closes
        | apply createSafeModuleService_closes
        | apply recordProfitShare_closes
        | idtac ].

Lemma ret_closes n A (a : A) : preserves (closesAtMost n) (ret a).
Proof. intros w. apply (closesAtMost_weaken 0); [lia | apply closesAtMost_refl]. Qed.

Lemma throw_closes n A e : preserves (closesAtMost n) (@throw A e).
Proof. intros w. apply (closesAtMost_weaken 0); [lia | apply closesAtMost_refl]. Qed.

(** Code with at most one [ClosePosition] submission, made by the
    gateway's [closePosition]. *)
Ltac one_close :=
  repeat first
    [ apply ret_closes
    | apply throw_closes
    | apply tryCatch_closes; [| intros ?; solve [quiet_all]]
    | apply (bind_closes 0 1); [solve [quiet_all] | intros ?]
    | apply (bind_closes 1 0);
      [apply gateway_closePosition_closes | intros ?; solve [quiet_all]]
    | match goal with
      | |- preserves _ (if ?b then _ else _) => destruct b
      | |- preserves _ (match ?x with _ => _ end) => destruct x
      end ].

Lemma closeSpotPosition_closes env position dep ag chainId :
  preserves (closesAtMost 1) (closeSpotPosition env position dep ag chainId).
Proof. unfold closeSpotPosition. one_close. Qed.

Lemma closePosition_closes env id :
  preserves (closesAtMost 1) (TradeExecutor.closePosition env id).
Proof.
  unfold TradeExecutor.closePosition.
  apply tryCatch_closes; [| intros ?; solve [quiet_all]].
  apply (bind_closes 0 1); [solve [quiet_all] | intros st].
  repeat match goal with
         | |- preserves _ (match ?x with _ => _ end) => destruct x
         end;
    try apply ret_closes; try apply throw_closes; apply closeSpotPosition_closes.
Qed.

Lemma checkTrailingStop_closes p entry price :
  preserves (closesAtMost 0) (checkTrailingStop p entry price).
Proof. unfold checkTrailingStop. quiet_all. Qed.

Lemma evaluate_closes p rm price :
  preserves (closesAtMost 0) (evaluate p rm price).
Proof. unfold evaluate. quiet. apply checkTrailingStop_closes. Qed.

Lemma currentPriceFor_closes env p :
  preserves (closesAtMost 0) (currentPriceFor env p).
Proof. unfold currentPriceFor. quiet. Qed.

(** One visit of the monitor to a position hands at most one close
    transaction to the chain. *)
Lemma monitorPosition_closes env p :
  preserves (closesAtMost 1) (monitorPosition env p).
Proof.
  unfold monitorPosition.
  apply tryCatch_closes; [| intros ?; solve [quiet_all]].
  destruct (Qeq_bool (entryPrice p) 0); [apply ret_closes |].
  apply (bind_closes 0 1); [apply currentPriceFor_closes | intros price].
  destruct (falsy price); [apply ret_closes |].
  apply (bind_closes 0 1); [solve [quiet_all] | intros st].
  destruct (findSignal st (signalId p)); [| apply throw_closes].
  apply (bind_closes 0 1); [apply evaluate_closes | intros decision].
  destruct (fst decision); [| apply ret_closes].
  apply (bind_closes 1 0); [apply closePosition_closes | intros result].
  apply ret_closes.
Qed.

Lemma closesAtMost_attempts n w w' :
  closesAtMost n w w' -> (closeAttempts w w' <= n)%nat.
Proof.
  intros (new & E & L). unfold closeAttempts. rewrite (newEntries_app _ _ _ E). exact L.
Qed.

(** C9. For a long position whose take-profit price [tp] is set: in a cycle
    in which the trailing stop did not trigger, the decision is to close
    with reason TAKE_PROFIT exactly when [tp <= currentPrice], and otherwise
    not to close; in a cycle in which the trailing stop triggered, the
    decision stays that of the trailing stop.  With take profit 120 the
    monitor closes at price 120 with reason TAKE_PROFIT and does not close
    at 119.999; a position whose trailing stop and take profit are both met
    is closed once, with reason TRAILING_STOP; and one visit of the monitor
    to a position never hands more than one close transaction to the
    chain. *)
Theorem take_profit_after_trailing_stop :
  (forall p rm price w tp trailing w',
      isLong (pos_side p) = true ->
      takeProfit p = Some tp ->
      ~ (tp == 0)%Q ->
      checkTrailingStop p (entryPrice p) price w = (Ok trailing, w') ->
      (fst trailing = false ->
       exists decision,
         evaluate p rm price w = (Ok decision, w')
         /\ (decision = (true, "TAKE_PROFIT") <-> (tp <= price)%Q)
         /\ (~ (tp <= price)%Q -> decision = trailing))
      /\ (fst trailing = true -> evaluate p rm price w = (Ok trailing, w')))
  /\ watch (alongPath [120]%Q) 1%nat 1 (holding (longPosition 100 (Some 120%Q)))
     = [Triggered "TAKE_PROFIT" (closed (Some "0xTX") 1%nat)]
  /\ watch (alongPath [119.999]%Q) 1%nat 1 (holding (longPosition 100 (Some 120%Q)))
     = [Healthy]
  /\ (let p := withHighWater 106 (longPosition 100 (Some 104%Q)) in
      let out := monitorPosition (alongPath [104.8]%Q) p (holding p) in
      fst out = Ok (Triggered "TRAILING_STOP" (closed (Some "0xTX") 1%nat))
      /\ closeAttempts (holding p) (snd out) = 1%nat)
  /\ (forall env p w,
        (closeAttempts w (snd (monitorPosition env p w)) <= 1)%nat).
Proof.
  split; [| split; [| split; [| split]]].
  - intros p rm price w tp trailing w' Hlong Htp Hnz Hrun.
    assert (Hres : resolveTakeProfit p rm = Some tp).
    { unfold resolveTakeProfit. rewrite Htp. simpl.
      destruct (Qeq_bool tp 0) eqn:E; [| reflexivity].
      apply Qeq_bool_true_eq in E. contradiction. }
    assert (Hf : falsy (Some tp) = false).
    { simpl. destruct (Qeq_bool tp 0) eqn:E; [| reflexivity].
      apply Qeq_bool_true_eq in E. contradiction. }
    unfold evaluate, bind. rewrite Hrun. unfold ret.
    unfold checkTakeProfit. rewrite Hres, Hf, Hlong. simpl.
    split.
    + intros Hno. rewrite Hno. simpl.
      destruct (Qle_bool tp price) eqn:Hle.
      * eexists. split; [reflexivity |]. split.
        -- split; [intros _; apply Qle_bool_true_le; exact Hle | reflexivity].
        -- intros Hn. exfalso. apply Hn. apply Qle_bool_true_le. exact Hle.
      * eexists. split; [reflexivity |]. split.
        -- split.
           ++ intros Hd. rewrite Hd in Hno. discriminate.
           ++ intros Hp. apply Qle_bool_of_le in Hp. congruence.
        -- intros _. reflexivity.
    + intros Hyes. rewrite Hyes. reflexivity.
  - vm_compute. reflexivity.
  - vm_compute. reflexivity.
  - vm_compute. split; reflexivity.
  - intros env p w. apply closesAtMost_attempts. apply monitorPosition_closes.
Qed.

Lemma take_profit_after_trailing_stop_witness :
  let p := longPosition 100 (Some 120%Q) in
  exists decision,
    evaluate p {| rm_stopLoss := None; rm_takeProfit := None |} 120%Q (holding p)
    = (Ok decision, snd (checkTrailingStop p (entryPrice p) 120%Q (holding p)))
    /\ (decision = (true, "TAKE_PROFIT") <-> (120 <= 120)%Q).
Proof.
  intros p.
  destruct take_profit_after_trailing_stop as (Hdecide & _).
  destruct (Hdecide p {| rm_stopLoss := None; rm_takeProfit := None |} 120%Q (holding p)
              120%Q (false, "")
              (snd (checkTrailingStop p (entryPrice p) 120%Q (holding p))))
    as [Hquiet _].
  - reflexivity.
  - reflexivity.
  - discriminate.
  - vm_compute. reflexivity.
  - destruct (Hquiet eq_refl) as (decision & Hrun & Hiff & _).
    exists decision. split; [exact Hrun | exact Hiff].
Defined.

(** ** Closing a position *)

Lemma hoare_ret A (P : World -> Prop) (Q : A -> World -> Prop) a :
  (forall w, P w -> Q a w) -> hoare P (ret a) Q.
Proof. intros H w Hw a' w' E. inversion E; subst. apply H; exact Hw. Qed.

Lemma hoare_throw A P (Q : A -> World -> Prop) e : hoare P (throw e) Q.
Proof. intros w Hw a' w' E. inversion E. Qed.

Lemma hoare_bind A B P (m : M A) (k : A -> M B) (Q1 : A -> World -> Prop) Q :
  hoare P m Q1 -> (forall a, hoare (Q1 a) (k a) Q) -> hoare P (bind m k) Q.
Proof.
  intros Hm Hk w Hw b w' E. unfold bind in E.
  destruct (m w) as [[a | e |] w1] eqn:Em; try discriminate.
  eapply Hk; [eapply Hm; eauto | exact E].
Qed.

(** The first computation may do anything. *)
Lemma hoare_then A B P (m : M A) (k : A -> M B) Q :
  (forall a, hoare (fun _ => True) (k a) Q) -> hoare P (bind m k) Q.
Proof.
  intros Hk. apply hoare_bind with (Q1 := fun _ _ => True); [| exact Hk].
  intros w _ a w' _. exact I.
Qed.

Lemma hoare_tryCatch A P (m : M A) h Q :
  hoare P m Q -> (forall e, hoare (fun _ => True) (h e) Q) -> hoare P (tryCatch m h) Q.
Proof.
  intros Hm Hh w Hw a w' E. unfold tryCatch in E.
  destruct (m w) as [[x | e |] w1] eqn:Em.
  - inversion E; subst. eapply Hm; eauto.
  - eapply Hh; [exact I | exact E].
  - discriminate.
Qed.

Lemma hoare_weaken A (P P' : World -> Prop) (m : M A) Q :
  (forall w, P' w -> P w) -> hoare P m Q -> hoare P' m Q.
Proof. intros HP H w Hw. apply H. apply HP. exact Hw. Qed.

(** A failure result satisfies every statement about successful results. *)
Lemma hoare_failure P (Q : ExecutionResult -> World -> Prop) e :
  hoare P (ret (failure e)) (fun r w => success r = true -> Q r w).
Proof. apply hoare_ret. intros w _ H. discriminate. Qed.

(** ** Opening a position *)

Lemma logExtends_refl w : logExtends w w.
Proof. exists []. symmetry; apply app_nil_r. Qed.

Lemma logExtends_trans a b c : logExtends a b -> logExtends b c -> logExtends a c.
Proof.
  intros (n1 & E1) (n2 & E2). exists (n1 ++ n2).
  rewrite E2, E1. symmetry; apply app_assoc.
Qed.

Lemma logExtends_tick w : logExtends w (tick w).
Proof. exact (logExtends_refl w). Qed.

Lemma newEntries_trans a b c :
  logExtends a b -> logExtends b c ->
  newEntries a c = newEntries a b ++ newEntries b c.
Proof.
  intros (n1 & E1) (n2 & E2).
  rewrite (newEntries_app a b n1 E1), (newEntries_app b c n2 E2).
  apply newEntries_app. rewrite E2, E1. symmetry; apply app_assoc.
Qed.

Lemma openConfirmed_later a b c :
  logExtends a b -> logExtends b c -> openConfirmed a b -> openConfirmed a c.
Proof.
  intros Hab Hbc H. unfold openConfirmed in *.
  rewrite (newEntries_trans a b c Hab Hbc), existsb_app, H. reflexivity.
Qed.

Lemma openConfirmed_earlier a b c :
  logExtends a b -> logExtends b c -> openConfirmed b c -> openConfirmed a c.
Proof.
  intros Hab Hbc H. unfold openConfirmed in *.
  rewrite (newEntries_trans a b c Hab Hbc), existsb_app, H. apply orb_true_r.
Qed.

Lemma cleanUntilOpen_refl w : cleanUntilOpen w w.
Proof. split; [apply logExtends_refl | left; reflexivity]. Qed.

Lemma cleanUntilOpen_trans a b c :
  cleanUntilOpen a b -> cleanUntilOpen b c -> cleanUntilOpen a c.
Proof.
  intros [Hab [Dab | Oab]] [Hbc [Dbc | Obc]];
    (split; [eapply logExtends_trans; eauto |]).
  - left. congruence.
  - right. eapply openConfirmed_earlier; eauto.
  - right. eapply openConfirmed_later; eauto.
  - right. eapply openConfirmed_later; eauto.
Qed.

Lemma cleanUntilOpen_tick w : cleanUntilOpen w (tick w).
Proof. exact (cleanUntilOpen_refl w). Qed.

(** Code that leaves the store alone and only adds to the log is clean. *)
Lemma clean_of_frame A (m : M A) :
  preserves sameStore m -> preserves logExtends m -> preserves cleanUntilOpen m.
Proof. intros Hs Hl w. split; [apply Hl | left; apply Hs]. Qed.

Lemma getNextNonce_logExtends env svc : preserves logExtends (getNextNonce env svc).
Proof.
  intros w. exists []. rewrite app_nil_r. apply getNextNonce_frame.
Qed.

Lemma send_logExtends env svc c g n : preserves logExtends (send env svc c g n).
Proof. intros w. eexists. reflexivity. Qed.

Lemma setStore_logExtends s : preserves logExtends (setStore s).
Proof. intros w. exists []. symmetry; apply app_nil_r. Qed.

Ltac extends :=
  preserve logExtends_refl logExtends_trans logExtends_tick;
  first [ apply getNextNonce_logExtends
        | apply send_logExtends
        | apply setStore_logExtends
        | idtac ].

Ltac same_store :=
  preserve sameStore_refl sameStore_trans sameStore_tick;
  first [ apply getNextNonce_sameStore
        | apply send_sameStore
        | idtac ].

Lemma getNextNonce_clean env svc : preserves cleanUntilOpen (getNextNonce env svc).
Proof.
  apply clean_of_frame; [apply getNextNonce_sameStore | apply getNextNonce_logExtends].
Qed.

Lemma send_clean env svc c g n : preserves cleanUntilOpen (send env svc c g n).
Proof.
  apply clean_of_frame; [apply send_sameStore | apply send_logExtends].
Qed.

(** Code that reads the store and talks to the chain, without writing to
    the store. *)
Ltac clean :=
  preserve cleanUntilOpen_refl cleanUntilOpen_trans cleanUntilOpen_tick;
  first [ apply getNextNonce_clean
        | apply send_clean
        | idtac ].

Lemma executeTrade_sameStore env svc params :
  preserves sameStore (executeTrade env svc params).
Proof. unfold executeTrade, executeTradeWithIntent. same_store. Qed.

Lemma executeTrade_logExtends env svc params :
  preserves logExtends (executeTrade env svc params).
Proof. unfold executeTrade, executeTradeWithIntent. extends. Qed.

Lemma autoSetup_clean env svc safe token usdc router :
  preserves cleanUntilOpen (autoSetup env svc safe token usdc router).
Proof. unfold autoSetup. clean. Qed.

Lemma newSafeModuleService_clean env config :
  preserves cleanUntilOpen (newSafeModuleService env config).
Proof. unfold newSafeModuleService. clean. Qed.

Lemma preTradeValidation_clean env sg dep :
  preserves cleanUntilOpen (preTradeValidation env sg dep).
Proof. unfold preTradeValidation. clean. Qed.

Lemma executeTrade_confirmed env svc params w result w' :
  executeTrade env svc params w = (Ok result, w') ->
  tr_success result = true ->
  openConfirmed w w'.
Proof.
  assert (Hone : forall c (f : Receipt -> TradeResult) (fallback : string),
             isConfirmedOpen ("", {| call := c; gasLimit := None; nonce := None |},
                              Returns {| status := 0; transactionHash := "";
                                         events := [] |}) = true ->
             tryCatch (nonce <- getNextNonce env svc ;;
                       receipt <- send env svc c (Some 1000000) (Some nonce) ;;
                       ret (f receipt))
                      (fun e => ret (tradeFailed (messageOr e fallback))) w
             = (Ok result, w') ->
             tr_success result = true -> openConfirmed w w').
  { intros c f fallback Hc E Hs. unfold tryCatch, bind in E.
    pose proof (getNextNonce_frame env svc w) as [_ Hlog].
    destruct (getNextNonce env svc w) as [[n | e |] w1]; simpl in Hlog.
    - unfold send, ret in E.
      destruct (transact env (clock w1) (executor svc)
                  {| call := c; gasLimit := Some 1000000; nonce := Some n |})
        as [receipt | e] eqn:Ht; simpl in E.
      + inversion E; subst; clear E.
        unfold openConfirmed.
        erewrite newEntries_app; [| simpl; rewrite Hlog; reflexivity].
        simpl. destruct c; simpl in *; try discriminate; reflexivity.
      + inversion E; subst. discriminate.
    - unfold ret in E. inversion E; subst. discriminate.
    - discriminate. }
  unfold executeTrade, executeTradeWithIntent.
  destruct (truthy (tp_signalHash params) && truthy (tp_creatorAddress params));
    eapply Hone; reflexivity.
Qed.

Lemma settleTrade_logExtends env ctx sym hash size result :
  preserves logExtends (settleTrade env ctx sym hash size result).
Proof.
  unfold settleTrade, recordProofOfIntent, createPosition, dbWrite. extends.
Qed.

(** Submitting the open trade and settling it: the store changes only
    after the trade was confirmed. *)
Lemma submit_and_settle_clean env svc params ctx sym hash size :
  preserves cleanUntilOpen
    (bind (executeTrade env svc params) (settleTrade env ctx sym hash size)).
Proof.
  intros w. unfold bind.
  pose proof (executeTrade_sameStore env svc params w) as Hdb.
  pose proof (executeTrade_logExtends env svc params w) as Hlog.
  destruct (executeTrade env svc params w) as [[result | e |] w1] eqn:E;
    simpl in Hdb, Hlog; simpl;
    try (split; [exact Hlog | left; exact Hdb]).
  pose proof (settleTrade_logExtends env ctx sym hash size result w1) as Hlog2.
  split; [eapply logExtends_trans; eauto |].
  destruct (tr_success result) eqn:Hs.
  - right. eapply openConfirmed_later; eauto.
    eapply executeTrade_confirmed; eauto.
  - left. unfold settleTrade. rewrite Hs. simpl. exact Hdb.
Qed.

Ltac clean_open :=
  repeat first
    [ apply submit_and_settle_clean
    | apply autoSetup_clean
    | apply newSafeModuleService_clean
    | apply preTradeValidation_clean
    | apply preserves_ret; apply cleanUntilOpen_refl
    | apply preserves_throw; apply cleanUntilOpen_refl
    | apply preserves_ask; apply cleanUntilOpen_tick
    | apply preserves_observe; apply cleanUntilOpen_tick
    | apply preserves_liftReply; apply cleanUntilOpen_refl
    | apply preserves_getStore; apply cleanUntilOpen_refl
    | apply preserves_bind; [apply cleanUntilOpen_trans | | intros ?]
    | apply preserves_tryCatch; [apply cleanUntilOpen_trans | | intros ?]
    | match goal with
      | |- preserves _ (if ?b then _ else _) => destruct b
      | |- preserves _ (match ?x with _ => _ end) => destruct x
      end ].

Lemma executeSpotTrade_clean env ctx :
  preserves cleanUntilOpen (executeSpotTrade env ctx).
Proof. unfold executeSpotTrade. clean_open. Qed.

Lemma routeToVenue_clean env ctx :
  preserves cleanUntilOpen (routeToVenue env ctx).
Proof.
  unfold routeToVenue. destruct (sig_venue (signal ctx));
    [apply executeSpotTrade_clean | |];
    apply preserves_ret; apply cleanUntilOpen_refl.
Qed.

Lemma executeSignalInternal_clean env ctx :
  preserves cleanUntilOpen (executeSignalInternal env ctx).
Proof.
  unfold executeSignalInternal.
  repeat first [apply routeToVenue_clean | clean_open].
Qed.

Lemma executeSignalForDeployment_clean env sid did :
  preserves cleanUntilOpen (executeSignalForDeployment env sid did).
Proof.
  unfold executeSignalForDeployment.
  repeat first [apply executeSignalInternal_clean | apply routeToVenue_clean | clean_open].
Qed.

Lemma hoare_preserved (R : World -> World -> Prop) A (m : M A) w0 :
  (forall a b c, R a b -> R b c -> R a c) ->
  preserves R m -> hoare (R w0) m (fun _ => R w0).
Proof.
  intros Htrans Hm w Hw a w' E. specialize (Hm w). rewrite E in Hm.
  eapply Htrans; eauto.
Qed.

Lemma hoare_unsuccessful P w0 r :
  success r = false -> error r <> None ->
  hoare P (ret r) (accounted w0).
Proof.
  intros Hr He. apply hoare_ret. intros w _. split; intros H; congruence.
Qed.

Lemma executeTrade_hoare env svc params w0 :
  hoare (logExtends w0) (executeTrade env svc params)
        (fun result w => logExtends w0 w
                         /\ (tr_success result = true -> openConfirmed w0 w)).
Proof.
  intros w Hw result w' E.
  pose proof (executeTrade_logExtends env svc params w) as Hlog.
  rewrite E in Hlog. simpl in Hlog.
  split; [eapply logExtends_trans; eauto |].
  intros Hs. eapply openConfirmed_earlier; eauto.
  eapply executeTrade_confirmed; eauto.
Qed.

Lemma confirmed_stays A (m : M A) w0 :
  preserves logExtends m ->
  hoare (fun w => logExtends w0 w /\ openConfirmed w0 w) m
        (fun _ w => logExtends w0 w /\ openConfirmed w0 w).
Proof.
  intros Hm w [Hl Ho] a w' E. specialize (Hm w). rewrite E in Hm. simpl in Hm.
  split; [eapply logExtends_trans; eauto |].
  eapply openConfirmed_later; eauto.
Qed.

Lemma settleTrade_hoare env ctx sym hash size result w0 :
  hoare (fun w => logExtends w0 w /\ (tr_success result = true -> openConfirmed w0 w))
        (settleTrade env ctx sym hash size result)
        (accounted w0).
Proof.
  unfold settleTrade. destruct (tr_success result) eqn:Hs; simpl.
  - apply hoare_weaken with (P := fun w => logExtends w0 w /\ openConfirmed w0 w);
      [intros w [Hl Ho]; auto |].
    eapply hoare_bind.
    { apply confirmed_stays. unfold recordProofOfIntent, dbWrite. extends. }
    intros ?. cbv beta. eapply hoare_bind.
    { apply confirmed_stays. unfold createPosition. extends. }
    intros position. apply hoare_ret. intros w [_ Ho].
    split; [intros _; exact Ho | discriminate].
  - apply hoare_unsuccessful; [reflexivity | discriminate].
Qed.

Lemma positionSizing_early sm balance early :
  positionSizing sm balance = inr early ->
  success early = false /\ error early <> None.
Proof.
  unfold positionSizing. intros H.
  repeat match type of H with
         | (if ?b then _ else _) = _ => destruct b
         end; inversion H; (split; [reflexivity | discriminate]).
Qed.

(** Walks through the open path up to the submission of the trade: every
    early exit is a failure that says why. *)
Ltac to_the_submission w0 :=
  repeat first
    [ apply hoare_unsuccessful; [reflexivity | discriminate]
    | apply hoare_unsuccessful; eapply positionSizing_early; eassumption
    | apply hoare_throw
    | match goal with
      | |- hoare _ (if ?b then _ else _) _ => destruct b
      | |- hoare _ (match positionSizing ?a ?b with _ => _ end) _ =>
          destruct (positionSizing a b) eqn:?
      | |- hoare _ (match ?x with _ => _ end) _ => destruct x
      | |- hoare _ (bind (executeTrade _ _ _) _) _ =>
          eapply hoare_bind;
          [apply executeTrade_hoare | intros ?; apply settleTrade_hoare]
      | |- hoare _ (bind _ _) _ =>
          apply hoare_bind with (Q1 := fun _ => logExtends w0);
          [apply hoare_preserved; [apply logExtends_trans | extends] | intros ?]
      end ].

Lemma executeSpotTrade_hoare env ctx w0 :
  hoare (logExtends w0) (executeSpotTrade env ctx) (accounted w0).
Proof.
  unfold executeSpotTrade.
  apply hoare_tryCatch;
    [| intros e; apply hoare_unsuccessful; [reflexivity | discriminate]].
  to_the_submission w0.
Qed.

Lemma executeSignalForDeployment_hoare env sid did w0 :
  hoare (logExtends w0) (executeSignalForDeployment env sid did) (accounted w0).
Proof.
  unfold executeSignalForDeployment, executeSignalInternal, routeToVenue.
  apply hoare_tryCatch;
    [| intros e; apply hoare_unsuccessful; [reflexivity | discriminate]].
  repeat first
    [ apply executeSpotTrade_hoare
    | apply hoare_tryCatch;
        [| intros e; apply hoare_unsuccessful; [reflexivity | discriminate]]
    | progress to_the_submission w0 ].
Qed.

(** *** The open path settles *)

Lemma settles_getNextNonce env svc : settles (getNextNonce env svc).
Proof.
  intros w Hw.
  assert (Hfree : executor svc ∉ nonceLocks w)
    by (rewrite Hw; apply not_elem_of_empty).
  destruct (getNextNonce_step env svc w Hfree) as (Hs & Hl & _).
  split; [exact Hs | rewrite Hl; exact Hw].
Qed.

Lemma settles_send env svc c g n : settles (send env svc c g n).
Proof.
  intros w Hw. split; [| exact Hw].
  unfold send; simpl. destruct (transact env (clock w) (executor svc) _); discriminate.
Qed.

(** Syntax-directed proof that code built from the primitives settles. *)
Ltac settle_step :=
  first
    [ apply settles_getNextNonce
    | apply settles_send
    | apply settles_ret
    | apply settles_throw
    | apply settles_ask
    | apply settles_observe
    | apply settles_liftReply
    | apply settles_getStore
    | apply settles_setStore
    | apply settles_bind; [| intros ?]
    | apply settles_tryCatch; [| intros ?]
    | match goal with
      | |- settles (if ?b then _ else _) => destruct b
      | |- settles (match ?x with _ => _ end) => destruct x
      end
    | progress cbv zeta ].

Ltac settle := repeat settle_step.

Lemma settles_executeTrade env svc params : settles (executeTrade env svc params).
Proof. unfold executeTrade, executeTradeWithIntent. settle. Qed.

Lemma settles_settleTrade env ctx sym hash size result :
  settles (settleTrade env ctx sym hash size result).
Proof.
  unfold settleTrade, recordProofOfIntent, createPosition, dbWrite. settle.
Qed.

Lemma settles_executeSpotTrade env ctx : settles (executeSpotTrade env ctx).
Proof.
  unfold executeSpotTrade.
  repeat first [apply settles_executeTrade | apply settles_settleTrade | settle_step].
Qed.

Lemma settles_preTradeValidation env sg dep : settles (preTradeValidation env sg dep).
Proof. unfold preTradeValidation. settle. Qed.

Lemma settles_routeToVenue env ctx : settles (routeToVenue env ctx).
Proof.
  unfold routeToVenue.
  destruct (sig_venue (signal ctx)); [apply settles_executeSpotTrade | |];
    apply settles_ret.
Qed.

Lemma settles_executeSignalInternal env ctx : settles (executeSignalInternal env ctx).
Proof.
  unfold executeSignalInternal.
  repeat first [ apply settles_preTradeValidation | apply settles_routeToVenue
               | settle_step ].
Qed.

Lemma returns_executeSignalForDeployment env sid did :
  returns (executeSignalForDeployment env sid did).
Proof.
  unfold executeSignalForDeployment.
  apply returns_tryCatch; [| intros e; apply returns_ret].
  repeat first [apply settles_executeSignalInternal | settle_step].
Qed.

(** C6. An open whose trade transaction is not confirmed on chain -- because
    validation, configuration, the quote, the setup or the submission itself
    failed -- returns a result with [success = false] and an error message,
    and leaves the store exactly as it was: no Position row is created and no
    Signal row is changed, so that the same open can be invoked again. *)
Theorem failed_open_persists_nothing (env : Env) (sid did : Id) (w : World) :
  nonceLocks w = ∅ ->
  let out := executeSignalForDeployment env sid did w in
  ~ openConfirmed w (snd out) ->
  exists r, fst out = Ok r
            /\ success r = false
            /\ error r <> None
            /\ db (snd out) = db w.
Proof.
  intros Hlocks out Hno.
  destruct (returns_executeSignalForDeployment env sid did w Hlocks) as [[r Hr] _].
  fold out in Hr.
  pose proof (executeSignalForDeployment_clean env sid did w) as [_ Hclean].
  fold out in Hclean.
  assert (Hdb : db (snd out) = db w) by (destruct Hclean; [assumption | contradiction]).
  assert (Hacc : accounted w r (snd out)).
  { apply (executeSignalForDeployment_hoare env sid did w w (logExtends_refl w)).
    subst out. rewrite <- Hr. apply surjective_pairing. }
  destruct Hacc as [Hyes Hwhy].
  assert (Hfail : success r = false).
  { destruct (success r); [exfalso; apply Hno, Hyes; reflexivity | reflexivity]. }
  exists r. split; [exact Hr |]. split; [exact Hfail |].
  split; [apply Hwhy; exact Hfail | exact Hdb].
Qed.

Lemma failed_open_persists_nothing_witness :
  exists r,
    fst (executeSignalForDeployment rejectingOpens 1%nat 1%nat sampleWorld) = Ok r
    /\ success r = false
    /\ error r <> None
    /\ db (snd (executeSignalForDeployment rejectingOpens 1%nat 1%nat sampleWorld))
       = db sampleWorld.
Proof.
  apply (failed_open_persists_nothing rejectingOpens 1%nat 1%nat sampleWorld).
  - reflexivity.
  - vm_compute. discriminate.
Defined.

(** ** One position per deployment and signal *)

Lemma keeps_refl I w : keeps I w w.
Proof. intros H; exact H. Qed.

Lemma keeps_trans I a b c : keeps I a b -> keeps I b c -> keeps I a c.
Proof. unfold keeps; auto. Qed.

Lemma keeps_tick I w : keeps I w (tick w).
Proof. intros H; exact H. Qed.

Lemma keeps_of_sameStore I A (m : M A) : preserves sameStore m -> preserves (keeps I) m.
Proof. intros H w Hw. rewrite (H w). exact Hw. Qed.

Lemma find_none_filter A (f : A -> bool) (l : list A) :
  find f l = None <-> List.filter f l = [].
Proof.
  induction l as [| x l IH]; simpl; [tauto |].
  destruct (f x); [split; discriminate | exact IH].
Qed.

Lemma findPositionFor_none st d sg :
  findPositionFor st d sg = None <-> positionsFor st d sg = [].
Proof. apply find_none_filter. Qed.

Lemma pair_not_stored st d sg :
  findPositionFor st d sg = None -> ~ In (d, sg) (map pairOf (positions st)).
Proof.
  intros Hnone Hin. apply in_map_iff in Hin as (p & Hp & Hin).
  pose proof (find_none _ _ Hnone p Hin) as Hf. simpl in Hf.
  unfold pairOf in Hp. inversion Hp; subst.
  rewrite !Nat.eqb_refl in Hf. discriminate.
Qed.

(** The insert keeps the pairs distinct: it goes through only when the pair
    is not stored yet. *)
Lemma insertPosition_unique data at_ st row st' :
  insertPosition data at_ st = Returns (row, st') ->
  uniquePairs st -> uniquePairs st'.
Proof.
  unfold insertPosition, uniquePairs. intros H Hst.
  destruct (toDecimal (pc_qty data)); [| discriminate].
  destruct (toDecimal (pc_entryPrice data)); [| discriminate].
  destruct (findDeployment st (pc_deploymentId data)); [| discriminate].
  destruct (findSignal st (pc_signalId data)); [| discriminate].
  destruct (findPositionFor st (pc_deploymentId data) (pc_signalId data)) eqn:Hfor;
    [discriminate |].
  inversion H; subst; clear H. simpl.
  rewrite map_app. simpl. apply NoDup_app. split; [exact Hst |]. split.
  - intros x Hx Hin. apply list_elem_of_singleton in Hin. subst x.
    apply (pair_not_stored _ _ _ Hfor). apply list_elem_of_In. exact Hx.
  - apply NoDup_singleton.
Qed.

(** What an accepted insert has done. *)
Lemma insertPosition_stores data at_ st row st' :
  insertPosition data at_ st = Returns (row, st') ->
  st' = withPositions st (positions st ++ [row]) (S (nextPositionId st))
  /\ pos_id row = nextPositionId st
  /\ pairOf row = (pc_deploymentId data, pc_signalId data)
  /\ toDecimal (pc_qty data) = Returns (qty row)
  /\ toDecimal (pc_entryPrice data) = Returns (entryPrice row)
  /\ closedAt row = None
  /\ findDeployment st (pc_deploymentId data) <> None
  /\ findSignal st (pc_signalId data) <> None
  /\ findPositionFor st (pc_deploymentId data) (pc_signalId data) = None.
Proof.
  unfold insertPosition. intros H.
  destruct (toDecimal (pc_qty data)); [| discriminate].
  destruct (toDecimal (pc_entryPrice data)); [| discriminate].
  destruct (findDeployment st (pc_deploymentId data)); [| discriminate].
  destruct (findSignal st (pc_signalId data)); [| discriminate].
  destruct (findPositionFor st (pc_deploymentId data) (pc_signalId data));
    [discriminate |].
  inversion H; subst; clear H. simpl. repeat split; discriminate.
Qed.

Lemma updateRow_pairs id f (rows : list Position) :
  (forall p, pairOf (f p) = pairOf p) ->
  map pairOf (updateRow pos_id id f rows) = map pairOf rows.
Proof.
  intros Hf. unfold updateRow. rewrite map_map. apply map_ext.
  intros p. destruct (Nat.eqb (pos_id p) id); [apply Hf | reflexivity].
Qed.

Lemma updatePosition_keeps id f :
  (forall p, pairOf (f p) = pairOf p) ->
  preserves (keeps uniquePairs) (dbWrite (updatePosition id f)).
Proof.
  intros Hf w Hw. unfold dbWrite, bind, getStore, liftReply, setStore, updatePosition.
  destruct (findPosition (db w) id); simpl; [| exact Hw].
  unfold uniquePairs; simpl. rewrite (updateRow_pairs _ _ _ Hf). exact Hw.
Qed.

(** The close statement fails on a number that does not fit its column, or
    is the update of the row with the coerced numbers. *)
Lemma closeRow_cases id at_ exit txh actualQty profit s :
  (exists e, closeRow id at_ exit txh actualQty profit s = Raises e)
  \/ (exists storedExit storedQty storedPnl,
        toDecimalOrNull exit = Returns storedExit
        /\ toDecimal actualQty = Returns storedQty
        /\ toDecimal profit = Returns storedPnl
        /\ closeRow id at_ exit txh actualQty profit s
           = updatePosition id (setClosed at_ storedExit txh storedQty storedPnl) s).
Proof.
  unfold closeRow.
  destruct (toDecimalOrNull exit) as [se | e]; [| left; eauto].
  destruct (toDecimal actualQty) as [sq | e]; [| left; eauto].
  destruct (toDecimal profit) as [sp | e]; [| left; eauto].
  right. exists se, sq, sp. auto.
Qed.

Lemma closeRow_keeps id at_ exit txh actualQty profit :
  preserves (keeps uniquePairs) (dbWrite (closeRow id at_ exit txh actualQty profit)).
Proof.
  intros w Hw.
  destruct (closeRow_cases id at_ exit txh actualQty profit (db w))
    as [[e He] | (se & sq & sp & _ & _ & _ & He)].
  - unfold dbWrite, bind, getStore, liftReply. rewrite He. exact Hw.
  - pose proof (updatePosition_keeps id (setClosed at_ se txh sq sp)
                  (fun _ => eq_refl) w Hw) as H.
    unfold dbWrite, bind, getStore, liftReply in *. rewrite He. exact H.
Qed.

Lemma updateSignal_keeps id f :
  preserves (keeps uniquePairs) (dbWrite (updateSignal id f)).
Proof.
  intros w Hw. unfold dbWrite, bind, getStore, liftReply, setStore, updateSignal.
  destruct (findSignal (db w) id); simpl; exact Hw.
Qed.

Lemma createPosition_keeps env data :
  preserves (keeps uniquePairs) (createPosition env data).
Proof.
  intros w Hw. unfold createPosition, bind, observe, getStore, liftReply, setStore, ret.
  simpl.
  destruct (insertPosition data (now env (clock w)) (db w)) as [[row st'] | e] eqn:Hins;
    simpl; [| exact Hw].
  eapply insertPosition_unique; eauto.
Qed.

Lemma recordProfitShare_keeps position ag profit txh :
  preserves (keeps uniquePairs) (recordProfitShare position ag profit txh).
Proof.
  intros w Hw. unfold recordProfitShare, bind, getStore, liftReply, setStore.
  destruct (toDecimal _); simpl; exact Hw.
Qed.

(** One step of the syntax-directed proof of [preserves R m]. *)
Ltac walk refl trans tck :=
  first
    [ apply preserves_ret; apply refl
    | apply preserves_throw; apply refl
    | apply preserves_ask; apply tck
    | apply preserves_observe; apply tck
    | apply preserves_liftReply; apply refl
    | apply preserves_getStore; apply refl
    | apply preserves_bind; [apply trans | | intros ?]
    | apply preserves_tryCatch; [apply trans | | intros ?]
    | match goal with
      | |- preserves _ (if ?b then _ else _) => destruct b
      | |- preserves _ (match ?x with _ => _ end) => destruct x
      end
    | progress cbv zeta ].

Lemma autoSetup_sameStore env svc safe token usdc router :
  preserves sameStore (autoSetup env svc safe token usdc router).
Proof. unfold autoSetup. same_store. Qed.

Lemma preTradeValidation_sameStore env sg dep :
  preserves sameStore (preTradeValidation env sg dep).
Proof. unfold preTradeValidation. same_store. Qed.

Lemma gateway_closePosition_sameStore env svc params :
  preserves sameStore (SafeModuleService.closePosition env svc params).
Proof. unfold SafeModuleService.closePosition. same_store. Qed.

Lemma approveTokenForDex_sameStore env svc safe token router :
  preserves sameStore (approveTokenForDex env svc safe token router).
Proof. unfold approveTokenForDex. same_store. Qed.

Lemma createSafeModuleService_sameStore env m c k :
  preserves sameStore (createSafeModuleService env m c k).
Proof. unfold createSafeModuleService, newSafeModuleService. same_store. Qed.

Lemma settleTrade_keeps env ctx sym hash size result :
  preserves (keeps uniquePairs) (settleTrade env ctx sym hash size result).
Proof.
  unfold settleTrade, recordProofOfIntent.
  repeat first [ apply updateSignal_keeps | apply createPosition_keeps
               | walk (keeps_refl uniquePairs) (keeps_trans uniquePairs)
                      (keeps_tick uniquePairs) ].
Qed.

(** Every statement of the executor keeps the pairs distinct. *)
Ltac keep_step :=
  first
    [ apply updateSignal_keeps
    | apply updatePosition_keeps; intros ?; reflexivity
    | apply closeRow_keeps
    | apply createPosition_keeps
    | apply recordProfitShare_keeps
    | apply settleTrade_keeps
    | apply keeps_of_sameStore;
      first [ apply getNextNonce_sameStore | apply send_sameStore
            | apply executeTrade_sameStore | apply autoSetup_sameStore
            | apply preTradeValidation_sameStore
            | apply gateway_closePosition_sameStore
            | apply approveTokenForDex_sameStore
            | apply createSafeModuleService_sameStore ]
    | walk (keeps_refl uniquePairs) (keeps_trans uniquePairs) (keeps_tick uniquePairs) ].

Ltac keep := repeat keep_step.

Lemma executeSpotTrade_keeps env ctx :
  preserves (keeps uniquePairs) (executeSpotTrade env ctx).
Proof. unfold executeSpotTrade. keep. Qed.

Lemma executeSignalForDeployment_keeps env sid did :
  preserves (keeps uniquePairs) (executeSignalForDeployment env sid did).
Proof.
  unfold executeSignalForDeployment, executeSignalInternal, routeToVenue.
  repeat first [apply executeSpotTrade_keeps | keep_step].
Qed.

Lemma closeSpotPosition_keeps env position dep ag chainId :
  preserves (keeps uniquePairs) (closeSpotPosition env position dep ag chainId).
Proof. unfold closeSpotPosition. keep. Qed.

Lemma closePosition_keeps env id :
  preserves (keeps uniquePairs) (TradeExecutor.closePosition env id).
Proof.
  unfold TradeExecutor.closePosition.
  repeat first [apply closeSpotPosition_keeps | keep_step].
Qed.

Lemma monitorPosition_keeps env position :
  preserves (keeps uniquePairs) (monitorPosition env position).
Proof.
  unfold monitorPosition, evaluate, checkTrailingStop, currentPriceFor.
  repeat first [apply closePosition_keeps | keep_step].
Qed.

Lemma monitorAll_keeps env open :
  preserves (keeps uniquePairs) (monitorAll env open).
Proof.
  induction open as [| position rest IH]; simpl.
  - apply preserves_ret. apply keeps_refl.
  - apply preserves_bind; [apply keeps_trans | apply monitorPosition_keeps |].
    intros v. apply preserves_bind; [apply keeps_trans | exact IH |].
    intros vs. apply preserves_ret. apply keeps_refl.
Qed.

Lemma monitorPositions_keeps env :
  preserves (keeps uniquePairs) (monitorPositions env).
Proof.
  unfold monitorPositions.
  repeat first [apply monitorAll_keeps | keep_step].
Qed.

Lemma executeOnDeployments_keeps env sg ds : forall created errors,
  preserves (keeps uniquePairs) (executeOnDeployments env sg ds created errors).
Proof.
  induction ds as [| dep rest IH]; intros created errors; simpl.
  - apply preserves_ret. apply keeps_refl.
  - repeat first [apply IH | apply executeSignalForDeployment_keeps | keep_step].
Qed.

Lemma handler_keeps env req :
  preserves (keeps uniquePairs) (handler env req).
Proof.
  unfold handler.
  repeat first [apply executeOnDeployments_keeps | keep_step].
Qed.

(** ** The gate of the execution path *)

Lemma sameDeployments_refl w : sameDeployments w w.
Proof. reflexivity. Qed.

Lemma sameDeployments_trans a b c :
  sameDeployments a b -> sameDeployments b c -> sameDeployments a c.
Proof. unfold sameDeployments. congruence. Qed.

Lemma sameDeployments_tick w : sameDeployments w (tick w).
Proof. reflexivity. Qed.

Lemma sameDeployments_of_sameStore A (m : M A) :
  preserves sameStore m -> preserves sameDeployments m.
Proof. intros H w. unfold sameDeployments. rewrite (H w). reflexivity. Qed.

Lemma updateSignal_sameDeployments id f :
  preserves sameDeployments (dbWrite (updateSignal id f)).
Proof.
  intros w. unfold dbWrite, bind, getStore, liftReply, setStore, updateSignal.
  destruct (findSignal (db w) id); reflexivity.
Qed.

Lemma createPosition_sameDeployments env data :
  preserves sameDeployments (createPosition env data).
Proof.
  intros w. unfold createPosition, bind, observe, getStore, liftReply, setStore, ret.
  simpl.
  destruct (insertPosition data (now env (clock w)) (db w)) as [[row st'] | e] eqn:Hins;
    simpl; [| reflexivity].
  apply insertPosition_stores in Hins as [-> _]. reflexivity.
Qed.

Lemma settleTrade_sameDeployments env ctx sym hash size result :
  preserves sameDeployments (settleTrade env ctx sym hash size result).
Proof.
  unfold settleTrade, recordProofOfIntent.
  repeat first [ apply updateSignal_sameDeployments
               | apply createPosition_sameDeployments
               | walk sameDeployments_refl sameDeployments_trans sameDeployments_tick ].
Qed.

Ltac same_deployments_step :=
  first
    [ apply settleTrade_sameDeployments
    | apply sameDeployments_of_sameStore;
      first [ apply getNextNonce_sameStore | apply send_sameStore
            | apply executeTrade_sameStore | apply autoSetup_sameStore
            | apply preTradeValidation_sameStore ]
    | walk sameDeployments_refl sameDeployments_trans sameDeployments_tick ].

Lemma executeSpotTrade_sameDeployments env ctx :
  preserves sameDeployments (executeSpotTrade env ctx).
Proof. unfold executeSpotTrade. repeat same_deployments_step. Qed.

Lemma executeSignalForDeployment_sameDeployments env sid did :
  preserves sameDeployments (executeSignalForDeployment env sid did).
Proof.
  unfold executeSignalForDeployment, executeSignalInternal, routeToVenue.
  repeat first [apply executeSpotTrade_sameDeployments | same_deployments_step].
Qed.

(** *** Whose funds an open moves *)

Lemma not_an_open P sender c g n answer :
  openSafe c = None ->
  opensOnlyFor P (sender, {| call := c; gasLimit := g; nonce := n |}, answer).
Proof. intros H safe Hs. simpl in Hs. congruence. Qed.

Lemma an_open_for (P : string -> Prop) safe sender c g n answer :
  openSafe c = Some safe -> P safe ->
  opensOnlyFor P (sender, {| call := c; gasLimit := g; nonce := n |}, answer).
Proof. intros H HP safe' Hs. simpl in Hs. congruence. Qed.

Lemma setStore_log P s : preserves (logGrows P) (setStore s).
Proof.
  intros w. exists []. split; [symmetry; apply app_nil_r | apply Forall_nil; exact I].
Qed.

Ltac opens_step P :=
  first
    [ apply getNextNonce_log
    | apply setStore_log
    | apply send_log; intros ? ?;
      first [ apply not_an_open; reflexivity
            | eapply an_open_for; [reflexivity | reflexivity] ]
    | walk (logGrows_refl P) (@logGrows_trans P) (logGrows_tick P) ].

Lemma executeTrade_opens env svc params :
  preserves (logGrows (opensOnlyFor (eq (tp_safeAddress params))))
            (executeTrade env svc params).
Proof.
  unfold executeTrade, executeTradeWithIntent.
  repeat opens_step (opensOnlyFor (eq (tp_safeAddress params))).
Qed.

Lemma autoSetup_opens P env svc safe token usdc router :
  preserves (logGrows (opensOnlyFor P)) (autoSetup env svc safe token usdc router).
Proof.
  unfold autoSetup, getSafeStats, initializeCapital, checkTokenWhitelist,
    setTokenWhitelist, approveTokenForDex.
  repeat opens_step (opensOnlyFor P).
Qed.

Lemma settleTrade_opens P env ctx sym hash size result :
  preserves (logGrows (opensOnlyFor P)) (settleTrade env ctx sym hash size result).
Proof.
  unfold settleTrade, recordProofOfIntent, createPosition, dbWrite.
  repeat opens_step (opensOnlyFor P).
Qed.

Lemma preTradeValidation_opens P env sg dep :
  preserves (logGrows (opensOnlyFor P)) (preTradeValidation env sg dep).
Proof. unfold preTradeValidation. repeat opens_step (opensOnlyFor P). Qed.

(** Every open trade that [executeSpotTrade] submits moves the funds of the
    Safe of its deployment. *)
Lemma executeSpotTrade_opens env ctx :
  preserves (logGrows (opensOnlyFor (eq (safeWallet (deployment ctx)))))
            (executeSpotTrade env ctx).
Proof.
  unfold executeSpotTrade.
  repeat first
    [ apply autoSetup_opens
    | apply settleTrade_opens
    | match goal with
      | |- preserves _ (executeTrade _ _ ?params) => apply (executeTrade_opens env _ params)
      end
    | opens_step (opensOnlyFor (eq (safeWallet (deployment ctx)))) ].
Qed.

Lemma executeSignalInternal_opens env ctx :
  preserves (logGrows (opensOnlyFor (eq (safeWallet (deployment ctx)))))
            (executeSignalInternal env ctx).
Proof.
  unfold executeSignalInternal, routeToVenue.
  repeat first
    [ apply executeSpotTrade_opens
    | apply preTradeValidation_opens
    | opens_step (opensOnlyFor (eq (safeWallet (deployment ctx)))) ].
Qed.

Lemma executeSignalForDeployment_opens (P : string -> Prop) env sid did w :
  (forall dep, findDeployment (db w) did = Some dep -> P (safeWallet dep)) ->
  logGrows (opensOnlyFor P) w (snd (executeSignalForDeployment env sid did w)).
Proof.
  intros HP. unfold executeSignalForDeployment, tryCatch, bind, getStore. simpl.
  destruct (findSignal (db w) sid) as [sg |]; [| apply logGrows_refl].
  destruct (findDeployment (db w) did) as [dep |]; [| apply logGrows_refl].
  destruct (findAgent (db w) (sig_agentId sg)) as [ag |]; [| apply logGrows_refl].
  pose proof (executeSignalInternal_opens env
                {| signal := sg; agent := ag; deployment := dep |} w) as Hlog.
  simpl in Hlog.
  assert (Hweak : logGrows (opensOnlyFor P) w
                    (snd (executeSignalInternal env
                            {| signal := sg; agent := ag; deployment := dep |} w))).
  { eapply logGrows_weaken; [| exact Hlog].
    intros entry Hentry safe Hsafe. rewrite <- (Hentry safe Hsafe).
    apply HP. reflexivity. }
  destruct (executeSignalInternal env _ w) as [[r | e |] w1]; exact Hweak.
Qed.

Lemma findDeployment_in st dep :
  NoDup (map dep_id (deployments st)) ->
  In dep (deployments st) ->
  findDeployment st (dep_id dep) = Some dep.
Proof.
  unfold findDeployment. induction (deployments st) as [| x ds IH]; simpl.
  - intros _ [].
  - intros Hnd [-> | Hin].
    + rewrite Nat.eqb_refl. reflexivity.
    + apply NoDup_cons in Hnd as [Hx Hnd].
      destruct (Nat.eqb (dep_id x) (dep_id dep)) eqn:Heq; [| exact (IH Hnd Hin)].
      apply Nat.eqb_eq in Heq. exfalso. apply Hx. rewrite Heq.
      apply list_elem_of_In. apply in_map. exact Hin.
Qed.

(** The loop of the endpoint opens trades only on the Safes of the
    deployments it was given, and leaves the deployments table alone. *)
Lemma executeOnDeployments_gated env sg ds : forall created errors w,
  NoDup (map dep_id (deployments (db w))) ->
  Forall (fun dep => In dep (deployments (db w)) /\ gateOpen dep) ds ->
  let out := executeOnDeployments env sg ds created errors w in
  logGrows (opensOnlyFor (gatedSafe (deployments (db w)))) w (snd out)
  /\ sameDeployments w (snd out).
Proof.
  induction ds as [| dep rest IH]; intros created errors w Hkeys Hgate; simpl.
  - split; [apply logGrows_refl | reflexivity].
  - apply Forall_cons in Hgate as [[Hin Hopen] Hrest].
    unfold bind, getStore. cbv beta iota.
    destruct (findPositionFor (db w) (dep_id dep) (sig_id sg)).
    { apply IH; assumption. }
    pose proof (executeSignalForDeployment_opens
                  (gatedSafe (deployments (db w))) env (sig_id sg) (dep_id dep) w)
      as Hlog.
    pose proof (executeSignalForDeployment_sameDeployments env (sig_id sg) (dep_id dep) w)
      as Hsame.
    destruct (executeSignalForDeployment env (sig_id sg) (dep_id dep) w)
      as [[result | e |] w1]; simpl in Hlog, Hsame.
    2,3: split; [apply Hlog | exact Hsame];
         intros dep' Hfind; rewrite (findDeployment_in _ _ Hkeys Hin) in Hfind;
         inversion Hfind; subst dep'; exists dep; auto.
    assert (Hfirst : logGrows (opensOnlyFor (gatedSafe (deployments (db w)))) w w1).
    { apply Hlog. intros dep' Hfind.
      rewrite (findDeployment_in _ _ Hkeys Hin) in Hfind.
      inversion Hfind; subst dep'. exists dep. auto. }
    assert (Hnext : forall created' errors',
               let out := executeOnDeployments env sg rest created' errors' w1 in
               logGrows (opensOnlyFor (gatedSafe (deployments (db w)))) w (snd out)
               /\ sameDeployments w (snd out)).
    { intros created' errors'.
      destruct (IH created' errors' w1) as [Hl Hs].
      - rewrite Hsame. exact Hkeys.
      - rewrite Hsame. exact Hrest.
      - rewrite Hsame in Hl. split.
        + eapply logGrows_trans; eauto.
        + eapply sameDeployments_trans; eauto. }
    destruct (success result); [destruct (positionId result) as [id |] |];
      try apply Hnext.
    destruct (findPosition (db w1) id); apply Hnext.
Qed.

Lemma enabledDeployments_gated st agentId :
  Forall (fun dep => In dep (deployments st) /\ gateOpen dep)
         (enabledDeployments st agentId).
Proof.
  apply Forall_forall. intros dep Hin. apply list_elem_of_In in Hin.
  apply filter_In in Hin as [Hin Hf]. split; [exact Hin |].
  apply andb_prop in Hf as [Hf Hm]. apply andb_prop in Hf as [Hf Hsub].
  apply andb_prop in Hf as [_ Hst].
  split; [| split].
  - destruct (dep_status dep); (reflexivity || discriminate).
  - destruct (subActive dep); (reflexivity || discriminate).
  - destruct (moduleEnabled dep); (reflexivity || discriminate).
Qed.

Lemma handler_gated env req w :
  NoDup (map dep_id (deployments (db w))) ->
  logGrows (opensOnlyFor (gatedSafe (deployments (db w)))) w (snd (handler env req w)).
Proof.
  intros Hkeys. unfold handler.
  destruct (negb (String.eqb (method req) "POST")); [apply logGrows_refl |].
  unfold tryCatch.
  destruct (query_signalId req) as [sid |]; [| apply logGrows_refl].
  unfold bind at 1, getStore at 1.
  destruct (findSignal (db w) sid) as [sg |]; [| apply logGrows_refl].
  pose proof (enabledDeployments_gated (db w) (sig_agentId sg)) as Hgate.
  destruct (enabledDeployments (db w) (sig_agentId sg)) as [| dep ds] eqn:Hds;
    [apply logGrows_refl |].
  cbv zeta.
  match goal with
  | |- context [if ?b then _ else _] => destruct b
  end; [apply logGrows_refl |].
  unfold bind.
  destruct (executeOnDeployments_gated env sg (dep :: ds) [] [] w Hkeys Hgate)
    as [Hlog _].
  destruct (executeOnDeployments env sg (dep :: ds) [] [] w) as [[out | e |] w1];
    exact Hlog.
Qed.

(** ** The endpoint: requests that execute nothing *)

(** X1. Requests that the endpoint turns away before looking for
    deployments. *)
Theorem handler_rejects_bad_requests (env : Env) (req : Request) (w : World) :
  (method req <> "POST" ->
   handler env req w
   = (Ok {| statusCode := 405; body := ErrorOnly (Text "Method not allowed") |}, w))
  /\ (method req = "POST" -> query_signalId req = None ->
      handler env req w
      = (Ok {| statusCode := 400;
               body := ErrorOnly (Text "signalId query param required") |}, w))
  /\ (method req = "POST" ->
      forall sid, query_signalId req = Some sid -> findSignal (db w) sid = None ->
      handler env req w
      = (Ok {| statusCode := 404; body := ErrorOnly (Text "Signal not found") |}, w)).
Proof.
  unfold handler. split; [| split].
  - intros Hm. apply String.eqb_neq in Hm. rewrite Hm. reflexivity.
  - intros Hm Hq. rewrite Hm, Hq. reflexivity.
  - intros Hm sid Hq Hs. rewrite Hm, Hq. simpl.
    unfold tryCatch, bind, getStore. rewrite Hs. reflexivity.
Qed.

Lemma handler_rejects_bad_requests_witness :
  handler sampleEnv {| method := "GET"; query_signalId := Some 1%nat |} sampleWorld
  = (Ok {| statusCode := 405; body := ErrorOnly (Text "Method not allowed") |}, sampleWorld)
  /\ handler sampleEnv (postSignal 7%nat) sampleWorld
     = (Ok {| statusCode := 404; body := ErrorOnly (Text "Signal not found") |}, sampleWorld).
Proof.
  split.
  - apply (proj1 (handler_rejects_bad_requests sampleEnv
                    {| method := "GET"; query_signalId := Some 1%nat |} sampleWorld)).
    discriminate.
  - destruct (handler_rejects_bad_requests sampleEnv (postSignal 7%nat) sampleWorld)
      as (_ & _ & Hunknown).
    apply (Hunknown eq_refl 7%nat); reflexivity.
Defined.

(** X2. With no deployment passing the stored gate the endpoint answers 200
    with [success: false] and a message that tells whether the agent has no
    active deployment at all or active ones without the module; nothing is
    read from outside, sent or stored. *)
Theorem handler_without_enabled_deployment (env : Env) (sid : Id) (sg : Signal) (w : World) :
  findSignal (db w) sid = Some sg ->
  enabledDeployments (db w) (sig_agentId sg) = [] ->
  let active := activeDeployments (db w) (sig_agentId sg) in
  handler env (postSignal sid) w
  = (Ok {| statusCode := 200;
           body := NothingToDo
                     (if Nat.eqb (length active) 0
                      then Text "No active deployments found for this agent"
                      else ModuleNotEnabledOnAny (length active)) |}, w).
Proof.
  intros Hs He active. unfold handler. simpl.
  unfold tryCatch, bind, getStore. rewrite Hs. cbv zeta. rewrite He.
  fold active. destruct active; reflexivity.
Qed.

Lemma handler_without_enabled_deployment_witness :
  handler sampleEnv (postSignal 1%nat)
    {| db := {| agents := [sampleAgent]; deployments := [];
                signals := [sampleSignal]; positions := [];
                venueStatuses := []; tokenRegistry := []; billingEvents := [];
                nextPositionId := 1%nat |};
       nonceTracker := ∅; nonceLocks := ∅; chainLog := []; clock := 0%nat |}
  = (Ok {| statusCode := 200;
           body := NothingToDo (Text "No active deployments found for this agent") |},
     {| db := {| agents := [sampleAgent]; deployments := [];
                 signals := [sampleSignal]; positions := [];
                 venueStatuses := []; tokenRegistry := []; billingEvents := [];
                 nextPositionId := 1%nat |};
        nonceTracker := ∅; nonceLocks := ∅; chainLog := []; clock := 0%nat |}).
Proof.
  apply (handler_without_enabled_deployment sampleEnv 1%nat sampleSignal); reflexivity.
Defined.

Lemma executeOnDeployments_existing env sg ds : forall created errors w,
  Forall (fun dep => findPositionFor (db w) (dep_id dep) (sig_id sg) <> None) ds ->
  executeOnDeployments env sg ds created errors w = (Ok (created, errors), w).
Proof.
  induction ds as [| dep rest IH]; intros created errors w Hall; simpl; [reflexivity |].
  apply Forall_cons in Hall as [Hdep Hrest].
  unfold bind, getStore.
  destruct (findPositionFor (db w) (dep_id dep) (sig_id sg)); [| contradiction].
  apply IH. exact Hrest.
Qed.

(** X3. A signal that already has a position on every deployment passing the
    gate is not executed again: the endpoint sends nothing, stores nothing
    and answers 400 with no position created and no error listed. *)
Theorem handler_skips_executed_signal (env : Env) (sid : Id) (sg : Signal) (w : World) :
  findSignal (db w) sid = Some sg ->
  enabledDeployments (db w) (sig_agentId sg) <> [] ->
  Forall (fun dep => findPositionFor (db w) (dep_id dep) (sig_id sg) <> None)
         (enabledDeployments (db w) (sig_agentId sg)) ->
  (forall vs m, findVenueStatus (db w) (sig_venue sg) (sig_tokenSymbol sg) = Some vs ->
                minSize vs = Some m ->
                (m <= numberOr (sm_baseSize (sizeModel sg)) 100)%Q) ->
  handler env (postSignal sid) w
  = (Ok {| statusCode := 400; body := Report false [] [] |}, w).
Proof.
  intros Hs Hne Hall Hmin. unfold handler. simpl.
  unfold tryCatch, bind at 1, getStore at 1. rewrite Hs. cbv zeta.
  destruct (enabledDeployments (db w) (sig_agentId sg)) as [| dep ds] eqn:Hds;
    [contradiction |].
  assert (Hsize : match findVenueStatus (db w) (sig_venue sg) (sig_tokenSymbol sg) with
                  | Some vs =>
                      match minSize vs with
                      | Some m => negb (Qle_bool m (numberOr (sm_baseSize (sizeModel sg)) 100))
                      | None => false
                      end
                  | None => false
                  end = false).
  { destruct (findVenueStatus (db w) (sig_venue sg) (sig_tokenSymbol sg)) as [vs |] eqn:Hv;
      [| reflexivity].
    destruct (minSize vs) as [m |] eqn:Hm; [| reflexivity].
    rewrite (Qle_bool_of_le _ _ (Hmin vs m eq_refl Hm)). reflexivity. }
  rewrite Hsize. unfold bind.
  rewrite (executeOnDeployments_existing env sg (dep :: ds) [] [] w Hall).
  reflexivity.
Qed.

Lemma handler_skips_executed_signal_witness :
  handler sampleEnv (postSignal 1%nat) (holding (longPosition 100 None))
  = (Ok {| statusCode := 400; body := Report false [] [] |},
     holding (longPosition 100 None)).
Proof.
  apply (handler_skips_executed_signal sampleEnv 1%nat sampleSignal).
  - reflexivity.
  - discriminate.
  - apply Forall_cons. split; [discriminate |]. apply Forall_nil. exact I.
  - intros vs m Hvs Hm. vm_compute in Hvs. inversion Hvs; subst vs. discriminate.
Defined.

(** ** The endpoint always answers *)

Lemma settles_executeOnDeployments env sg ds : forall created errors,
  settles (executeOnDeployments env sg ds created errors).
Proof.
  induction ds as [| dep rest IH]; intros created errors; simpl.
  - apply settles_ret.
  - repeat first
      [ apply IH
      | apply returns_settles; apply returns_executeSignalForDeployment
      | settle_step ].
Qed.

Lemma returns_handler env req : returns (handler env req).
Proof.
  unfold handler.
  destruct (negb (String.eqb (method req) "POST")); [apply returns_ret |].
  apply returns_tryCatch; [| intros e; apply returns_ret].
  repeat first [apply settles_executeOnDeployments | settle_step].
Qed.

(** X4. Whatever the request, the store and the outside world do, the
    endpoint answers (it neither throws nor waits forever when no nonce lock
    is left held), with one of the status codes 200, 400, 404, 405, 500; it
    answers 200 with [success: true] only with at least one position
    created. *)
Theorem handler_always_answers (env : Env) (req : Request) (w : World) :
  nonceLocks w = ∅ ->
  exists response w',
    handler env req w = (Ok response, w')
    /\ In (statusCode response) [200; 400; 404; 405; 500]
    /\ (forall created errors,
           body response = Report true created errors ->
           statusCode response = 200 /\ created <> []).
Proof.
  intros Hlocks.
  destruct (returns_handler env req w Hlocks) as [[response Hr] _].
  exists response, (snd (handler env req w)).
  split; [rewrite <- Hr; apply surjective_pairing |].
  assert (H : hoare (fun _ => True) (handler env req)
                (fun response _ =>
                   In (statusCode response) [200; 400; 404; 405; 500]
                   /\ (forall created errors,
                          body response = Report true created errors ->
                          statusCode response = 200 /\ created <> []))).
  { unfold handler.
    repeat first
      [ apply hoare_ret; intros ? _; simpl;
        split; [tauto | intros ? ? Hb; discriminate Hb]
      | apply hoare_throw
      | apply hoare_tryCatch; [| intros ?]
      | match goal with
        | |- hoare _ (ret {| statusCode := if negb (Nat.eqb (length (fst ?o)) 0) then _ else _;
                             body := _ |}) _ =>
            apply hoare_ret; intros ? _; destruct o as [[| p created] errors]; simpl;
            (split; [tauto | intros ? ? Hb; inversion Hb; subst;
                             (split; [reflexivity | discriminate])])
        | |- hoare _ (bind _ _) _ => apply hoare_then; intros ?
        | |- hoare _ (if ?b then _ else _) _ => destruct b
        | |- hoare _ (match ?x with _ => _ end) _ => destruct x
        end
      | progress cbv zeta ]. }
  eapply (H w I). rewrite <- Hr. apply surjective_pairing.
Qed.

Lemma handler_always_answers_witness :
  exists response w',
    handler sampleEnv (postSignal 1%nat) sampleWorld = (Ok response, w')
    /\ In (statusCode response) [200; 400; 404; 405; 500]
    /\ (forall created errors,
           body response = Report true created errors ->
           statusCode response = 200 /\ created <> []).
Proof.
  apply (handler_always_answers sampleEnv (postSignal 1%nat) sampleWorld).
  reflexivity.
Defined.

(** ** Nonce coordinator: the cache against the chain *)

(** X5. A nonce handed out is never behind the transaction count of the
    chain and is above the cached one; it is the chain's count or the cached
    nonce plus one, and it is what the cache holds afterwards.  When the
    read of the chain fails the call throws, the cache is as before, and in
    both cases the lock is released. *)
Theorem nonce_never_behind_chain (env : Env) (svc : Service) (w : World) :
  executor svc ∉ nonceLocks w ->
  let out := getNextNonce env svc w in
  nonceLocks (snd out) = nonceLocks w
  /\ match getTransactionCount env (clock w) (executor svc) with
     | Returns count =>
         exists n, fst out = Ok n
                   /\ count <= n
                   /\ nonceTracker (snd out) !! executor svc = Some n
                   /\ match nonceTracker w !! executor svc with
                      | Some cached => cached < n /\ (n = count \/ n = cached + 1)
                      | None => n = count
                      end
     | Raises e => fst out = Throw e /\ nonceTracker (snd out) = nonceTracker w
     end.
Proof.
  intros Hfree out. subst out. rewrite (getNextNonce_free env svc w Hfree).
  destruct (getTransactionCount env (clock w) (executor svc)) as [count | e]; simpl.
  - split; [reflexivity |].
    destruct (nonceTracker w !! executor svc) as [cached |] eqn:Hc.
    + exists (Z.max (cached + 1) count).
      split; [reflexivity |]. split; [lia |].
      split; [apply lookup_insert_eq |]. split; [lia |].
      destruct (Z.max_spec (cached + 1) count) as [[_ ->] | [_ ->]]; auto.
    + exists count. split; [reflexivity |]. split; [lia |].
      split; [apply lookup_insert_eq | reflexivity].
  - split; [reflexivity |]. split; reflexivity.
Qed.

Lemma nonce_never_behind_chain_witness :
  exists n, fst (getNextNonce sampleEnv sampleService sampleWorld) = Ok n /\ 7 <= n.
Proof.
  destruct (nonce_never_behind_chain sampleEnv sampleService sampleWorld)
    as (_ & n & Hn & Hle & _).
  - vm_compute. discriminate.
  - exists n. split; [exact Hn | exact Hle].
Defined.

(** X6. After [resetNonceTracker] for the executor, or for all addresses
    (no argument, or the empty string), the next nonce is the transaction
    count of the chain whatever was cached; a reset for another address
    changes nothing for this one. *)
Theorem reset_forgets_cached_nonce (env : Env) (svc : Service) (w : World) (count : Z) :
  executor svc ∉ nonceLocks w ->
  executor svc <> "" ->
  getTransactionCount env (clock w) (executor svc) = Returns count ->
  fst (getNextNonce env svc (resetNonceTracker (Some (executor svc)) w)) = Ok count
  /\ fst (getNextNonce env svc (resetNonceTracker None w)) = Ok count
  /\ fst (getNextNonce env svc (resetNonceTracker (Some "") w)) = Ok count
  /\ forall other, other <> executor svc -> other <> "" ->
       fst (getNextNonce env svc (resetNonceTracker (Some other) w))
       = fst (getNextNonce env svc w).
Proof.
  intros Hfree Hne Hcount.
  assert (Htruthy : forall a, a <> "" -> truthy (Some a) = true)
    by (intros [| c a] Ha; [contradiction | reflexivity]).
  split; [| split; [| split]].
  - unfold resetNonceTracker. rewrite (Htruthy _ Hne).
    rewrite getNextNonce_free by exact Hfree. simpl.
    rewrite Hcount. simpl. rewrite lookup_delete_eq. reflexivity.
  - rewrite getNextNonce_free by exact Hfree. simpl. rewrite Hcount.
    rewrite lookup_empty. reflexivity.
  - rewrite getNextNonce_free by exact Hfree. simpl. rewrite Hcount.
    rewrite lookup_empty. reflexivity.
  - intros other Hother Hne'.
    unfold resetNonceTracker. rewrite (Htruthy _ Hne').
    rewrite !getNextNonce_free by exact Hfree. simpl.
    rewrite Hcount. simpl.
    rewrite lookup_delete_ne by exact Hother. reflexivity.
Qed.

Lemma reset_forgets_cached_nonce_witness :
  let w := snd (acquireSerially sampleEnv sampleService 3 sampleWorld) in
  fst (getNextNonce sampleEnv sampleService w) = Ok 10
  /\ fst (getNextNonce sampleEnv sampleService
            (resetNonceTracker (Some (executor sampleService)) w)) = Ok 7.
Proof.
  intros w. split; [vm_compute; reflexivity |].
  apply (reset_forgets_cached_nonce sampleEnv sampleService w 7).
  - vm_compute. discriminate.
  - discriminate.
  - reflexivity.
Defined.

(** ** Execution gateway: what the callers get back *)

Lemma empty_free (w : World) a : nonceLocks w = ∅ -> a ∉ nonceLocks w.
Proof. intros ->. apply not_elem_of_empty. Qed.

(** X7. [executeTrade] never throws: it hands back the verdict of the chain.
    The result is a success exactly when the one transaction it submitted
    came back with a receipt, and then carries the hash of that receipt; a
    failure carries an error message and no hash; when the nonce cannot be
    read nothing is submitted.  The store is not touched. *)
Theorem executeTrade_reports_chain_verdict (env : Env) (svc : Service)
    (params : TradeParams) (w : World) :
  nonceLocks w = ∅ ->
  exists result w',
    executeTrade env svc params w = (Ok result, w')
    /\ db w' = db w
    /\ nonceLocks w' = ∅
    /\ (tr_success result = true ->
        exists sender tx receipt,
          newEntries w w' = [(sender, tx, Returns receipt)]
          /\ call tx = openCall params
          /\ tr_txHash result = Some (transactionHash receipt)
          /\ tr_error result = None)
    /\ (tr_success result = false ->
        tr_error result <> None /\ tr_txHash result = None
        /\ Forall (fun entry => forall receipt, snd entry <> Returns receipt)
                  (newEntries w w'))
    /\ (forall e, getTransactionCount env (clock w) (executor svc) = Raises e ->
        tr_success result = false /\ newEntries w w' = []).
Proof.
  intros Hlocks. pose proof (empty_free w (executor svc) Hlocks) as Hfree.
  assert (Hone : forall c (f : Receipt -> TradeResult) (fallback : string),
             c = openCall params ->
             (forall receipt, tr_success (f receipt) = true
                              /\ tr_txHash (f receipt) = Some (transactionHash receipt)
                              /\ tr_error (f receipt) = None) ->
             exists result w',
               tryCatch (nonce <- getNextNonce env svc ;;
                         receipt <- send env svc c (Some 1000000) (Some nonce) ;;
                         ret (f receipt))
                        (fun e => ret (tradeFailed (messageOr e fallback))) w
               = (Ok result, w')
               /\ db w' = db w
               /\ nonceLocks w' = ∅
               /\ (tr_success result = true ->
                   exists sender tx receipt,
                     newEntries w w' = [(sender, tx, Returns receipt)]
                     /\ call tx = openCall params
                     /\ tr_txHash result = Some (transactionHash receipt)
                     /\ tr_error result = None)
               /\ (tr_success result = false ->
                   tr_error result <> None /\ tr_txHash result = None
                   /\ Forall (fun entry => forall receipt, snd entry <> Returns receipt)
                             (newEntries w w'))
               /\ (forall e, getTransactionCount env (clock w) (executor svc) = Raises e ->
                   tr_success result = false /\ newEntries w w' = [])).
  { intros c f fallback Hc Hf.
    unfold tryCatch, bind. rewrite (getNextNonce_free env svc w Hfree).
    destruct (getTransactionCount env (clock w) (executor svc)) as [count | e0]; simpl.
    - unfold send, ret. simpl.
      match goal with
      | |- context [transact env ?t ?s ?tx] =>
          destruct (transact env t s tx) as [receipt | e1] eqn:Ht
      end; simpl.
      + eexists. eexists. split; [reflexivity |]. simpl.
        split; [reflexivity |]. split; [exact Hlocks |].
        destruct (Hf receipt) as (Hs & Hh & He).
        split; [| split].
        * intros _. eexists. eexists. exists receipt.
          split; [apply newEntries_app; reflexivity |]. simpl. auto.
        * intros Hno. congruence.
        * intros e He'. discriminate.
      + eexists. eexists. split; [reflexivity |]. simpl.
        split; [reflexivity |]. split; [exact Hlocks |].
        split; [discriminate |]. split.
        * intros _. split; [discriminate |]. split; [reflexivity |].
          erewrite newEntries_app by reflexivity.
          apply Forall_cons. split; [intros r; discriminate | apply Forall_nil; exact I].
        * intros e He'. discriminate.
    - eexists. eexists. split; [reflexivity |]. simpl.
      split; [reflexivity |]. split; [exact Hlocks |].
      split; [discriminate |]. split.
      + intros _. split; [discriminate |]. split; [reflexivity |].
        erewrite newEntries_app by (simpl; symmetry; apply app_nil_r).
        apply Forall_nil. exact I.
      + intros e _. split; [reflexivity |].
        apply newEntries_app. simpl. symmetry. apply app_nil_r. }
  unfold executeTrade, executeTradeWithIntent.
  destruct (truthy (tp_signalHash params) && truthy (tp_creatorAddress params)) eqn:Hi.
  - apply Hone; [unfold openCall; rewrite Hi; reflexivity |].
    intros receipt. simpl. auto.
  - apply Hone; [unfold openCall; rewrite Hi; reflexivity |].
    intros receipt. simpl. auto.
Qed.

Lemma executeTrade_reports_chain_verdict_witness :
  exists result w',
    executeTrade rejectingOpens sampleService sampleTradeParams sampleWorld = (Ok result, w')
    /\ tr_success result = false
    /\ tr_error result = Some (Text "execution reverted").
Proof.
  destruct (executeTrade_reports_chain_verdict rejectingOpens sampleService
              sampleTradeParams sampleWorld) as (result & w' & Hrun & _).
  - reflexivity.
  - exists result, w'. split; [exact Hrun |].
    vm_compute in Hrun. inversion Hrun. split; reflexivity.
Defined.

(** What a module call with an explicit nonce does when no lock is held. *)
Lemma module_call_outcome env svc (c : ModuleCall) (gas : Z)
    (f : Receipt -> TxResult) (h : Message -> TxResult) w :
  nonceLocks w = ∅ ->
  (forall e, tx_success (h e) = false /\ tx_error (h e) <> None) ->
  exists r w',
    tryCatch (nonce <- getNextNonce env svc ;;
              receipt <- send env svc c (Some gas) (Some nonce) ;;
              ret (f receipt))
             (fun e => ret (h e)) w
    = (Ok r, w')
    /\ db w' = db w
    /\ ((exists sender n receipt,
            newEntries w w'
            = [(sender, {| call := c; gasLimit := Some gas; nonce := Some n |},
                Returns receipt)]
            /\ r = f receipt)
        \/ (tx_success r = false /\ tx_error r <> None
            /\ Forall (fun entry => forall receipt, snd entry <> Returns receipt)
                      (newEntries w w'))).
Proof.
  intros Hlocks Hh. pose proof (empty_free w (executor svc) Hlocks) as Hfree.
  unfold tryCatch, bind. rewrite (getNextNonce_free env svc w Hfree).
  destruct (getTransactionCount env (clock w) (executor svc)) as [count | e0]; simpl.
  - unfold send, ret. simpl.
    match goal with
    | |- context [transact env ?t ?s ?tx] =>
        destruct (transact env t s tx) as [receipt | e1] eqn:Ht
    end; simpl.
    + eexists. eexists. split; [reflexivity |]. simpl. split; [reflexivity |].
      left. eexists. eexists. exists receipt.
      split; [apply newEntries_app; reflexivity | reflexivity].
    + eexists. eexists. split; [reflexivity |]. simpl. split; [reflexivity |].
      right. destruct (Hh e1) as [H1 H2]. split; [exact H1 |]. split; [exact H2 |].
      erewrite newEntries_app by reflexivity.
      apply Forall_cons. split; [intros r; discriminate | apply Forall_nil; exact I].
  - eexists. eexists. split; [reflexivity |]. simpl. split; [reflexivity |].
    right. destruct (Hh e0) as [H1 H2]. split; [exact H1 |]. split; [exact H2 |].
    erewrite newEntries_app by (simpl; symmetry; apply app_nil_r).
    apply Forall_nil. exact I.
Qed.

Lemma messageOr_some e fallback : Some (messageOr e fallback) <> None.
Proof. discriminate. Qed.

(** X8. The setup calls never throw and report a revert as a failure:
    [executeFromModule] succeeds exactly when its transaction came back with
    a receipt whose status is not 0, and [approveTokenForDex], which grants
    the router the maximal allowance through the module with value 0,
    exactly when the status is 1; every failure carries an error message,
    and the store is not touched. *)
Theorem setup_calls_report_reverts (env : Env) (svc : Service) (w : World) :
  nonceLocks w = ∅ ->
  (forall safe to value data,
      exists r w',
        executeFromModule env svc safe to value data w = (Ok r, w')
        /\ db w' = db w
        /\ (tx_success r = true <->
            exists sender n receipt,
              newEntries w w'
              = [(sender, {| call := ExecuteFromModule safe to value data;
                             gasLimit := Some 1500000; nonce := Some n |},
                  Returns receipt)]
              /\ status receipt <> 0)
        /\ (tx_success r = false -> tx_error r <> None))
  /\ (forall safe token router,
         exists r w',
           approveTokenForDex env svc safe token router w = (Ok r, w')
           /\ db w' = db w
           /\ (tx_success r = true <->
               exists sender n receipt,
                 newEntries w w'
                 = [(sender,
                     {| call := ExecuteFromModule safe token 0 (Approve router MaxUint256);
                        gasLimit := Some 300000; nonce := Some n |},
                     Returns receipt)]
                 /\ status receipt = 1)
           /\ (tx_success r = false -> tx_error r <> None)).
Proof.
  intros Hlocks. split.
  - intros safe to value data.
    destruct (module_call_outcome env svc (ExecuteFromModule safe to value data) 1500000
                (fun receipt => if status receipt =? 0
                                then txFailed (Text "Transaction reverted")
                                else txDone receipt)
                txFailed w Hlocks)
      as (r & w' & Hrun & Hdb & Hcases).
    { intros e. split; [reflexivity | discriminate]. }
    exists r, w'. split.
    { rewrite <- Hrun. unfold executeFromModule, tryCatch, bind.
      destruct (getNextNonce env svc w) as [[n | e |] w1]; try reflexivity.
      destruct (send env svc _ _ _ w1) as [[receipt | e |] w2]; try reflexivity.
      destruct (status receipt =? 0); reflexivity. }
    split; [exact Hdb |].
    destruct Hcases as [(sender & n & receipt & Hlog & ->) | (Hs & He & Hnone)].
    + destruct (status receipt =? 0) eqn:Hst.
      * split; [split; [discriminate |] | intros _; discriminate].
        intros (sender' & n' & receipt' & Hlog' & Hne).
        rewrite Hlog in Hlog'. inversion Hlog'; subst.
        apply Z.eqb_eq in Hst. contradiction.
      * split; [split; [| reflexivity] | discriminate].
        intros _. exists sender, n, receipt. split; [exact Hlog |].
        apply Z.eqb_neq. exact Hst.
    + split; [split; [congruence |] | intros _; exact He].
      intros (sender & n & receipt & Hlog & _). rewrite Hlog in Hnone.
      apply Forall_cons in Hnone as [Hno _]. exfalso. exact (Hno receipt eq_refl).
  - intros safe token router.
    destruct (module_call_outcome env svc
                (ExecuteFromModule safe token 0 (Approve router MaxUint256)) 300000
                (fun receipt => if status receipt =? 1
                                then txDone receipt
                                else txFailed (Text "Approval transaction reverted"))
                (fun e => txFailed (messageOr e "Approval failed")) w Hlocks)
      as (r & w' & Hrun & Hdb & Hcases).
    { intros e. split; [reflexivity | discriminate]. }
    exists r, w'. split.
    { rewrite <- Hrun. unfold approveTokenForDex, tryCatch, bind.
      destruct (getNextNonce env svc w) as [[n | e |] w1]; try reflexivity.
      destruct (send env svc _ _ _ w1) as [[receipt | e |] w2]; try reflexivity.
      destruct (status receipt =? 1); reflexivity. }
    split; [exact Hdb |].
    destruct Hcases as [(sender & n & receipt & Hlog & ->) | (Hs & He & Hnone)].
    + destruct (status receipt =? 1) eqn:Hst.
      * split; [split; [| reflexivity] | discriminate].
        intros _. exists sender, n, receipt. split; [exact Hlog |].
        apply Z.eqb_eq. exact Hst.
      * split; [split; [discriminate |] | intros _; discriminate].
        intros (sender' & n' & receipt' & Hlog' & Hone).
        rewrite Hlog in Hlog'. inversion Hlog'; subst.
        apply Z.eqb_neq in Hst. contradiction.
    + split; [split; [congruence |] | intros _; exact He].
      intros (sender & n & receipt & Hlog & _). rewrite Hlog in Hnone.
      apply Forall_cons in Hnone as [Hno _]. exfalso. exact (Hno receipt eq_refl).
Qed.

Lemma setup_calls_report_reverts_witness :
  exists r w',
    approveTokenForDex sampleEnv sampleService "0xSAFE" "0xUSDC" "0xROUTER" sampleWorld
    = (Ok r, w')
    /\ db w' = db sampleWorld
    /\ tx_success r = true.
Proof.
  destruct (setup_calls_report_reverts sampleEnv sampleService sampleWorld eq_refl)
    as [_ Happrove].
  destruct (Happrove "0xSAFE" "0xUSDC" "0xROUTER") as (r & w' & Hrun & Hdb & Hiff & _).
  exists r, w'. split; [exact Hrun |]. split; [exact Hdb |].
  vm_compute in Hrun. inversion Hrun. reflexivity.
Defined.

Lemma returns_bind A B (m : M A) (k : A -> M B) :
  returns m -> (forall a, returns (k a)) -> returns (bind m k).
Proof.
  intros Hm Hk w Hw. unfold bind. destruct (Hm w Hw) as [[a Ha] Hl].
  destruct (m w) as [[a' | e |] w1]; simpl in *; try discriminate.
  apply Hk. exact Hl.
Qed.

Lemma returns_autoSetup env svc safe token usdc router :
  returns (autoSetup env svc safe token usdc router).
Proof.
  unfold autoSetup.
  apply returns_bind;
    [apply returns_tryCatch; [| intros e; apply returns_ret] | intros ?].
  { unfold getSafeStats, initializeCapital. settle. }
  apply returns_bind;
    [apply returns_tryCatch; [| intros e; apply returns_ret] | intros ?].
  { unfold checkTokenWhitelist, setTokenWhitelist. settle. }
  apply returns_bind; [| intros ?; apply returns_ret].
  unfold approveTokenForDex.
  apply returns_tryCatch; [settle | intros e; apply returns_ret].
Qed.

(** X9. The automatic setup before a trade is best effort: whatever the
    chain answers it completes without an error, leaves the store alone and
    submits nothing but the capital initialisation, the whitelisting of the
    token and the unlimited USDC approval for the router, all for the Safe
    of the deployment. *)
Theorem autoSetup_is_best_effort (env : Env) (svc : Service)
    (safe token usdc router : string) (w : World) :
  nonceLocks w = ∅ ->
  exists w',
    autoSetup env svc safe token usdc router w = (Ok tt, w')
    /\ db w' = db w
    /\ nonceLocks w' = ∅
    /\ Forall (fun entry =>
                 In (call (snd (fst entry)))
                    [ InitializeCapital safe;
                      SetTokenWhitelist safe token true;
                      ExecuteFromModule safe usdc 0 (Approve router MaxUint256) ])
              (newEntries w w').
Proof.
  intros Hlocks.
  destruct (returns_autoSetup env svc safe token usdc router w Hlocks) as [[[] Hr] Hl].
  exists (snd (autoSetup env svc safe token usdc router w)).
  split; [rewrite <- Hr; apply surjective_pairing |].
  split; [apply autoSetup_sameStore |]. split; [exact Hl |].
  apply logGrows_newEntries.
  set (P := fun entry : string * Submission * reply Receipt =>
              In (call (snd (fst entry)))
                 [ InitializeCapital safe;
                   SetTokenWhitelist safe token true;
                   ExecuteFromModule safe usdc 0 (Approve router MaxUint256) ]).
  unfold autoSetup, getSafeStats, initializeCapital, checkTokenWhitelist,
    setTokenWhitelist, approveTokenForDex.
  repeat first
    [ apply getNextNonce_log
    | apply send_log; intros ? ?; unfold P; simpl; tauto
    | walk (logGrows_refl P) (@logGrows_trans P) (logGrows_tick P) ].
Qed.

Lemma autoSetup_is_best_effort_witness :
  exists w',
    autoSetup rejectingOpens sampleService "0xSAFE" "0xWETH" "0xUSDC" "0xROUTER" sampleWorld
    = (Ok tt, w')
    /\ db w' = db sampleWorld.
Proof.
  destruct (autoSetup_is_best_effort rejectingOpens sampleService
              "0xSAFE" "0xWETH" "0xUSDC" "0xROUTER" sampleWorld eq_refl)
    as (w' & Hrun & Hdb & _).
  exists w'. split; assumption.
Defined.

(** ** Closing: exits before anything is sent *)

(** X10. A close stops before any transaction, with the store as it was, when
    the position is unknown, when its venue is not SPOT, when its token is
    not in the registry of the chain, and when the Safe holds none of the
    token on chain; the result names the reason. *)
Theorem close_exits_before_sending (env : Env) (id : Id) (w : World) :
  let out := TradeExecutor.closePosition env id w in
  (findPosition (db w) id = None ->
   out = (Ok (failure (Text "Position not found")), w))
  /\ forall p dep ag,
       findPosition (db w) id = Some p ->
       closedAt p = None ->
       findDeployment (db w) (deploymentId p) = Some dep ->
       findAgent (db w) (dep_agentId dep) = Some ag ->
       (pos_venue p <> SPOT ->
        out = (Ok (failure (ClosingNotImplemented (pos_venue p))), w))
       /\ (pos_venue p = SPOT ->
           let chain := if getChainIdForVenue env SPOT =? 42161
                        then "arbitrum" else "base" in
           (findToken (db w) chain (pos_tokenSymbol p) = None ->
            out = (Ok (failure (Text "Token not found in registry")), w))
           /\ (forall token,
                  findToken (db w) chain (pos_tokenSymbol p) = Some token ->
                  balanceOf env (clock w) (tokenAddress token) (safeWallet dep)
                  = Returns 0 ->
                  out = (Ok (failure (NoBalanceToClose (pos_tokenSymbol p))), tick w))).
Proof.
  intros out. subst out. unfold TradeExecutor.closePosition, tryCatch, bind, getStore.
  split.
  - intros ->. reflexivity.
  - intros p dep ag Hp Hc Hd Ha. rewrite Hp, Hc, Hd, Ha. split.
    + intros Hv. destruct (pos_venue p); [contradiction | reflexivity | reflexivity].
    + intros Hv. rewrite Hv. cbv zeta.
      unfold closeSpotPosition, tryCatch, bind, getStore. split.
      * intros ->. reflexivity.
      * intros token Ht Hb. rewrite Ht. unfold ask. rewrite Hb. reflexivity.
Qed.

Lemma close_exits_before_sending_witness :
  TradeExecutor.closePosition sampleEnv 5%nat sampleWorld
  = (Ok (failure (Text "Position not found")), sampleWorld).
Proof.
  apply (proj1 (close_exits_before_sending sampleEnv 5%nat sampleWorld)).
  reflexivity.
Defined.

(** ** Closing: a failed close persists nothing *)

Lemma closeConfirmed_later a b c :
  logExtends a b -> logExtends b c -> closeConfirmed a b -> closeConfirmed a c.
Proof.
  intros Hab Hbc H. unfold closeConfirmed in *.
  rewrite (newEntries_trans a b c Hab Hbc), existsb_app, H. reflexivity.
Qed.

Lemma closeConfirmed_earlier a b c :
  logExtends a b -> logExtends b c -> closeConfirmed b c -> closeConfirmed a c.
Proof.
  intros Hab Hbc H. unfold closeConfirmed in *.
  rewrite (newEntries_trans a b c Hab Hbc), existsb_app, H. apply orb_true_r.
Qed.

Lemma cleanUntilClose_refl w : cleanUntilClose w w.
Proof. split; [apply logExtends_refl | left; reflexivity]. Qed.

Lemma cleanUntilClose_trans a b c :
  cleanUntilClose a b -> cleanUntilClose b c -> cleanUntilClose a c.
Proof.
  intros [Hab [Dab | Oab]] [Hbc [Dbc | Obc]];
    (split; [eapply logExtends_trans; eauto |]).
  - left. congruence.
  - right. eapply closeConfirmed_earlier; eauto.
  - right. eapply closeConfirmed_later; eauto.
  - right. eapply closeConfirmed_later; eauto.
Qed.

Lemma cleanUntilClose_tick w : cleanUntilClose w (tick w).
Proof. exact (cleanUntilClose_refl w). Qed.

Lemma cleanUntilClose_of_frame A (m : M A) :
  preserves sameStore m -> preserves logExtends m -> preserves cleanUntilClose m.
Proof. intros Hs Hl w. split; [apply Hl | left; apply Hs]. Qed.

Lemma gateway_closePosition_logExtends env svc params :
  preserves logExtends (SafeModuleService.closePosition env svc params).
Proof. unfold SafeModuleService.closePosition. extends. Qed.

Lemma gateway_closePosition_confirmed env svc params w result w' :
  SafeModuleService.closePosition env svc params w = (Ok result, w') ->
  tr_success result = true ->
  closeConfirmed w w'.
Proof.
  unfold SafeModuleService.closePosition. intros E Hs. unfold tryCatch, bind in E.
  pose proof (getNextNonce_frame env svc w) as [_ Hlog].
  destruct (getNextNonce env svc w) as [[n | e |] w1]; simpl in Hlog.
  - unfold send, ret in E.
    match type of E with
    | context [transact env ?t ?s ?tx] =>
        destruct (transact env t s tx) as [receipt | e] eqn:Ht; simpl in E
    end.
    + inversion E; subst; clear E. unfold closeConfirmed.
      erewrite newEntries_app; [| simpl; rewrite Hlog; reflexivity].
      reflexivity.
    + inversion E; subst. discriminate.
  - unfold ret in E. inversion E; subst. discriminate.
  - discriminate.
Qed.

(** Submitting the close and settling it: the store changes only after the
    close was confirmed. *)
Lemma close_and_settle_clean env svc params (k : TradeResult -> M ExecutionResult) :
  (forall result, preserves logExtends (k result)) ->
  (forall result, tr_success result = false -> preserves sameStore (k result)) ->
  preserves cleanUntilClose (bind (SafeModuleService.closePosition env svc params) k).
Proof.
  intros Hk Hfail w. unfold bind.
  pose proof (gateway_closePosition_sameStore env svc params w) as Hdb.
  pose proof (gateway_closePosition_logExtends env svc params w) as Hlog.
  destruct (SafeModuleService.closePosition env svc params w) as [[result | e |] w1] eqn:E;
    simpl in Hdb, Hlog; simpl;
    try (split; [exact Hlog | left; exact Hdb]).
  split; [eapply logExtends_trans; [exact Hlog | apply Hk] |].
  destruct (tr_success result) eqn:Hs.
  - right. eapply closeConfirmed_later; [exact Hlog | apply Hk |].
    eapply gateway_closePosition_confirmed; eauto.
  - left. rewrite (Hfail result Hs w1). exact Hdb.
Qed.

Lemma recordProfitShare_logExtends position ag profit txh :
  preserves logExtends (recordProfitShare position ag profit txh).
Proof. unfold recordProfitShare. extends. Qed.

Lemma dbWrite_logExtends f : preserves logExtends (dbWrite f).
Proof. unfold dbWrite. extends. Qed.

Lemma approveTokenForDex_logExtends env svc safe token router :
  preserves logExtends (approveTokenForDex env svc safe token router).
Proof. unfold approveTokenForDex. extends. Qed.

Lemma createSafeModuleService_logExtends env m c k :
  preserves logExtends (createSafeModuleService env m c k).
Proof. unfold createSafeModuleService, newSafeModuleService. extends. Qed.

Ltac clean_close_step :=
  first
    [ apply close_and_settle_clean;
      [ intros ?;
        repeat first [ apply dbWrite_logExtends | apply recordProfitShare_logExtends
                     | walk logExtends_refl logExtends_trans logExtends_tick ]
      | intros ? Hfailed; rewrite Hfailed; simpl;
        apply preserves_ret; apply sameStore_refl ]
    | apply cleanUntilClose_of_frame;
      [ first [ apply approveTokenForDex_sameStore
              | apply createSafeModuleService_sameStore
              | apply getNextNonce_sameStore | apply send_sameStore ]
      | first [ apply approveTokenForDex_logExtends
              | apply createSafeModuleService_logExtends
              | apply getNextNonce_logExtends | apply send_logExtends ] ]
    | walk cleanUntilClose_refl cleanUntilClose_trans cleanUntilClose_tick ].

Lemma closeSpotPosition_clean env position dep ag chainId :
  preserves cleanUntilClose (closeSpotPosition env position dep ag chainId).
Proof. unfold closeSpotPosition. repeat clean_close_step. Qed.

Lemma closePosition_clean env id :
  preserves cleanUntilClose (TradeExecutor.closePosition env id).
Proof.
  unfold TradeExecutor.closePosition.
  repeat first [apply closeSpotPosition_clean | clean_close_step].
Qed.

Lemma hoare_unsuccessful_close P w0 r :
  success r = false -> error r <> None ->
  hoare P (ret r) (closeAccounted w0).
Proof.
  intros Hr He. apply hoare_ret. intros w _. split; intros H; congruence.
Qed.

Lemma gateway_closePosition_hoare env svc params w0 :
  hoare (logExtends w0) (SafeModuleService.closePosition env svc params)
        (fun result w => logExtends w0 w
                         /\ (tr_success result = true -> closeConfirmed w0 w)).
Proof.
  intros w Hw result w' E.
  pose proof (gateway_closePosition_logExtends env svc params w) as Hlog.
  rewrite E in Hlog. simpl in Hlog.
  split; [eapply logExtends_trans; eauto |].
  intros Hs. eapply closeConfirmed_earlier; eauto.
  eapply gateway_closePosition_confirmed; eauto.
Qed.

Lemma close_confirmed_stays A (m : M A) w0 :
  preserves logExtends m ->
  hoare (fun w => logExtends w0 w /\ closeConfirmed w0 w) m
        (fun _ w => logExtends w0 w /\ closeConfirmed w0 w).
Proof.
  intros Hm w [Hl Ho] a w' E. specialize (Hm w). rewrite E in Hm. simpl in Hm.
  split; [eapply logExtends_trans; eauto |].
  eapply closeConfirmed_later; eauto.
Qed.

(** Once the close is confirmed, whatever follows can only add to the log. *)
Lemma hoare_after_confirmation (m : M ExecutionResult) result w0 :
  tr_success result = true ->
  preserves logExtends m ->
  hoare (fun _ => True) m (fun r _ => success r = true) ->
  hoare (fun w => logExtends w0 w /\ (tr_success result = true -> closeConfirmed w0 w))
        m (closeAccounted w0).
Proof.
  intros Hs Hlog Hok w [Hl Hc] r w' E.
  pose proof (Hok w I r w' E) as Hr. cbv beta in Hr.
  split; [| intros Hf; congruence].
  intros _. specialize (Hlog w). rewrite E in Hlog.
  eapply closeConfirmed_later; eauto.
Qed.

Ltac to_the_close w0 :=
  repeat first
    [ apply hoare_unsuccessful_close; [reflexivity | discriminate]
    | apply hoare_throw
    | match goal with
      | |- hoare _ (if negb (tr_success ?r) then _ else _) _ =>
          destruct (tr_success r) eqn:?; simpl negb; cbv iota;
          [ eapply hoare_after_confirmation;
            [ eassumption
            | repeat first [ apply dbWrite_logExtends | apply recordProfitShare_logExtends
                           | walk logExtends_refl logExtends_trans logExtends_tick ]
            | repeat first [ apply hoare_then; intros ?
                           | apply hoare_ret; intros ? _; reflexivity ] ]
          | ]
      | |- hoare _ (if ?b then _ else _) _ => destruct b
      | |- hoare _ (match ?x with _ => _ end) _ => destruct x
      | |- hoare _ (bind (SafeModuleService.closePosition _ _ _) _) _ =>
          eapply hoare_bind; [apply gateway_closePosition_hoare | intros ?]
      | |- hoare (logExtends w0) (bind _ _) _ =>
          apply hoare_bind with (Q1 := fun _ => logExtends w0);
          [ apply hoare_preserved;
            [ apply logExtends_trans
            | first [ apply approveTokenForDex_logExtends
                    | apply createSafeModuleService_logExtends
                    | extends ] ]
          | intros ? ]
      end ].

Lemma closeSpotPosition_hoare env position dep ag chainId w0 :
  hoare (logExtends w0) (closeSpotPosition env position dep ag chainId)
        (closeAccounted w0).
Proof.
  unfold closeSpotPosition.
  apply hoare_tryCatch;
    [| intros e; apply hoare_unsuccessful_close; [reflexivity | discriminate]].
  to_the_close w0.
Qed.

Lemma closePosition_hoare env id w0 :
  hoare (logExtends w0) (TradeExecutor.closePosition env id) (closeAccounted w0).
Proof.
  unfold TradeExecutor.closePosition.
  apply hoare_tryCatch;
    [| intros e; apply hoare_unsuccessful_close; [reflexivity | discriminate]].
  repeat first
    [ apply closeSpotPosition_hoare
    | apply hoare_unsuccessful_close; [reflexivity | discriminate]
    | apply hoare_throw
    | match goal with
      | |- hoare _ (match ?x with _ => _ end) _ => destruct x
      | |- hoare (logExtends w0) (bind getStore _) _ =>
          apply hoare_bind with (Q1 := fun _ => logExtends w0);
          [ apply hoare_preserved; [apply logExtends_trans | extends] | intros ? ]
      end
    | progress cbv zeta ].
Qed.

(** *** The close path settles *)

Lemma settles_gateway_closePosition env svc params :
  settles (SafeModuleService.closePosition env svc params).
Proof. unfold SafeModuleService.closePosition. settle. Qed.

Lemma settles_approveTokenForDex env svc safe token router :
  settles (approveTokenForDex env svc safe token router).
Proof. unfold approveTokenForDex. settle. Qed.

Lemma settles_createSafeModuleService env m c k :
  settles (createSafeModuleService env m c k).
Proof. unfold createSafeModuleService, newSafeModuleService. settle. Qed.

Lemma settles_recordProfitShare position ag profit txh :
  settles (recordProfitShare position ag profit txh).
Proof. unfold recordProfitShare. settle. Qed.

Lemma settles_closeSpotPosition env position dep ag chainId :
  settles (closeSpotPosition env position dep ag chainId).
Proof.
  unfold closeSpotPosition.
  repeat first
    [ apply settles_gateway_closePosition | apply settles_approveTokenForDex
    | apply settles_createSafeModuleService | apply settles_recordProfitShare
    | apply settles_dbWrite | settle_step ].
Qed.

Lemma returns_closePosition env id : returns (TradeExecutor.closePosition env id).
Proof.
  unfold TradeExecutor.closePosition.
  apply returns_tryCatch; [| intros e; apply returns_ret].
  repeat first [apply settles_closeSpotPosition | settle_step].
Qed.

(** X11. A close whose transaction is not confirmed on chain returns a result
    with [success = false] and an error message and leaves the store as it
    was: the position stays open and no billing event is recorded. *)
Theorem failed_close_persists_nothing (env : Env) (id : Id) (w : World) :
  nonceLocks w = ∅ ->
  let out := TradeExecutor.closePosition env id w in
  ~ closeConfirmed w (snd out) ->
  exists r, fst out = Ok r
            /\ success r = false
            /\ error r <> None
            /\ db (snd out) = db w.
Proof.
  intros Hlocks out Hno.
  destruct (returns_closePosition env id w Hlocks) as [[r Hr] _].
  fold out in Hr.
  pose proof (closePosition_clean env id w) as [_ Hclean].
  fold out in Hclean.
  assert (Hdb : db (snd out) = db w) by (destruct Hclean; [assumption | contradiction]).
  assert (Hacc : closeAccounted w r (snd out)).
  { apply (closePosition_hoare env id w w (logExtends_refl w)).
    subst out. rewrite <- Hr. apply surjective_pairing. }
  destruct Hacc as [Hyes Hwhy].
  assert (Hfail : success r = false).
  { destruct (success r); [exfalso; apply Hno, Hyes; reflexivity | reflexivity]. }
  exists r. split; [exact Hr |]. split; [exact Hfail |].
  split; [apply Hwhy; exact Hfail | exact Hdb].
Qed.

Lemma failed_close_persists_nothing_witness :
  exists r,
    fst (TradeExecutor.closePosition rejectingCloses 1%nat (holding (longPosition 100 None)))
    = Ok r
    /\ success r = false
    /\ error r <> None
    /\ db (snd (TradeExecutor.closePosition rejectingCloses 1%nat
                  (holding (longPosition 100 None))))
       = db (holding (longPosition 100 None)).
Proof.
  apply (failed_close_persists_nothing rejectingCloses 1%nat
           (holding (longPosition 100 None))).
  - reflexivity.
  - vm_compute. discriminate.
Defined.

(** ** Closing: the profit share in the books *)

Lemma hoare_sameStore A (m : M A) w0 :
  preserves sameStore m -> hoare (sameStore w0) m (fun _ => sameStore w0).
Proof. intros H. apply hoare_preserved; [apply sameStore_trans | exact H]. Qed.

Lemma checkTokenApproval_sameStore env svc safe token spender :
  preserves sameStore (checkTokenApproval env svc safe token spender).
Proof. unfold checkTokenApproval. same_store. Qed.

(** Walks through the close path up to the first store write, keeping the
    store of the start. *)
Ltac to_the_write_from w0 :=
  repeat first
    [ apply hoare_failure
    | apply hoare_throw
    | match goal with
      | |- hoare _ (if ?b then _ else _) _ => destruct b
      | |- hoare _ (match ?x with _ => _ end) _ => destruct x
      | |- hoare _ (bind (observe _) (fun _ => bind (dbWrite _) _)) _ => fail 2
      | |- hoare (sameStore w0) (bind _ _) _ =>
          apply hoare_bind with (Q1 := fun _ => sameStore w0);
          [ apply hoare_sameStore;
            first [ apply approveTokenForDex_sameStore
                  | apply createSafeModuleService_sameStore
                  | apply gateway_closePosition_sameStore
                  | apply checkTokenApproval_sameStore
                  | same_store ]
          | intros ? ]
      end ].

Lemma closeSpotPosition_billed env position dep ag chainId w0 :
  findPosition (db w0) (pos_id position) = Some position ->
  hoare (sameStore w0) (closeSpotPosition env position dep ag chainId)
        (fun r w => success r = true ->
                    billed (db w0) (pos_id position) (profitReceiverAddress ag) r w).
Proof.
  intros Hstored. unfold closeSpotPosition.
  apply hoare_tryCatch; [| intros e; apply hoare_failure].
  to_the_write_from w0.
  intros w Hw r w' E.
  unfold dbWrite in E.
  unfold bind, observe, getStore, liftReply, setStore in E.
  simpl in E. unfold sameStore in Hw. rewrite Hw in E.
  match type of E with
  | context [closeRow ?id ?t ?x ?h ?q ?profit (db w0)] =>
      set (gain := profit) in *;
      destruct (closeRow_cases id t x h q gain (db w0))
        as [[e He] | (se & sq & sp & Hse & Hsq & Hsp & He)];
      rewrite He in E; simpl in E; [discriminate |];
      set (stored := setClosed t se h sq sp) in *
  end.
  unfold updatePosition in E. rewrite Hstored in E. simpl in E.
  assert (Hfind : findPosition
                    (withPositions (db w0)
                       (updateRow pos_id (pos_id position) stored (positions (db w0)))
                       (nextPositionId (db w0))) (pos_id position)
                  = Some (stored position)).
  { rewrite findPosition_updateRow by reflexivity. rewrite Hstored. reflexivity. }
  destruct (negb (Qle_bool gain 0) && truthy (tr_txHash a8)) eqn:Hshare;
    unfold tryCatch, recordProfitShare, bind, getStore, liftReply, setStore, ret in E;
    simpl in E.
  - destruct (toDecimal (gain * inject_Z 2000 / 10000)) as [amount | e] eqn:Hamount;
      simpl in E; inversion E; subst r w'; clear E; intros _; unfold billed; simpl;
      exists (stored position), gain, sp;
      (split; [exact Hfind |]); (split; [exact Hsp |]); (split; [reflexivity |]);
      rewrite Hshare, Hamount; [reflexivity | symmetry; apply app_nil_r].
  - inversion E; subst r w'; clear E; intros _; unfold billed; simpl.
    exists (stored position), gain, sp.
    split; [exact Hfind |]. split; [exact Hsp |]. split; [reflexivity |].
    rewrite Hshare. symmetry. apply app_nil_r.
Qed.

(** X12. A successful close leaves the position with the PnL that the close
    computed (stored as [DECIMAL(20,8)]) and, exactly when that PnL is
    positive and the close has a transaction hash, one new PROFIT_SHARE
    billing event over 20% of it (2000 bps, in USDC, status CHARGED) for the
    receiver of the position's agent; otherwise the billing events are as
    before. *)
Theorem close_books_profit_share (env : Env) (id : Id) (w : World)
    (r : ExecutionResult) (w' : World) :
  TradeExecutor.closePosition env id w = (Ok r, w') ->
  success r = true ->
  exists p0 dep ag p gain stored,
    findPosition (db w) id = Some p0
    /\ findDeployment (db w) (deploymentId p0) = Some dep
    /\ findAgent (db w) (dep_agentId dep) = Some ag
    /\ findPosition (db w') id = Some p
    /\ toDecimal gain = Returns stored
    /\ pnl p = Some stored
    /\ billingEvents (db w')
       = billingEvents (db w)
         ++ (if negb (Qle_bool gain 0) && truthy (txHash r)
             then match toDecimal (gain * inject_Z 2000 / 10000) with
                  | Returns amount =>
                      [profitShareEvent p amount (default "" (txHash r))
                         (profitReceiverAddress ag)]
                  | Raises _ => []
                  end
             else []).
Proof.
  intros E Hs. unfold TradeExecutor.closePosition, tryCatch, bind, getStore in E.
  destruct (findPosition (db w) id) as [p0 |] eqn:Hp;
    [| inversion E; subst; discriminate].
  destruct (closedAt p0) as [t |] eqn:Hc; [inversion E; subst; discriminate |].
  destruct (findDeployment (db w) (deploymentId p0)) as [dep |] eqn:Hd;
    [| inversion E; subst; discriminate].
  destruct (findAgent (db w) (dep_agentId dep)) as [ag |] eqn:Ha;
    [| inversion E; subst; discriminate].
  destruct (pos_venue p0); try (inversion E; subst; discriminate).
  destruct (closeSpotPosition env p0 dep ag (getChainIdForVenue env SPOT) w)
    as [[x | e |] w2] eqn:Ex; inversion E; subst; try discriminate.
  pose proof (find_pos_id _ _ _ Hp) as Hid.
  assert (Hstored : findPosition (db w) (pos_id p0) = Some p0) by (rewrite Hid; exact Hp).
  destruct (closeSpotPosition_billed env p0 dep ag _ w Hstored w (sameStore_refl w)
              r w' Ex Hs) as (p & gain & stored & Hfind & Hgain & Hpnl & Hbill).
  rewrite Hid in Hfind.
  exists p0, dep, ag, p, gain, stored. auto 10.
Qed.

Lemma close_books_profit_share_witness :
  exists p profit,
    findPosition
      (db (snd (TradeExecutor.closePosition sampleEnv 1%nat
                  (holding (longPosition 100 None))))) 1%nat = Some p
    /\ pnl p = Some profit
    /\ (profit == 1900 * (25 # 1000))%Q
    /\ map (fun b => Qred (be_amount b))
         (billingEvents
            (db (snd (TradeExecutor.closePosition sampleEnv 1%nat
                        (holding (longPosition 100 None))))))
       = [(19 # 2)%Q].
Proof.
  destruct (TradeExecutor.closePosition sampleEnv 1%nat (holding (longPosition 100 None)))
    as [o w'] eqn:E.
  assert (Ho : exists r, o = Ok r /\ success r = true /\ truthy (txHash r) = true).
  { vm_compute in E. inversion E. eexists. split; [reflexivity |]. split; reflexivity. }
  destruct Ho as (r & -> & Hs & Htx).
  destruct (close_books_profit_share sampleEnv 1%nat _ r w' E Hs)
    as (p0 & dep & ag & p & gain & stored & _ & _ & _ & Hfind & Hgain & Hpnl & Hbill).
  exists p, stored. simpl. split; [exact Hfind |]. split; [exact Hpnl |].
  vm_compute in E. inversion E; subst w'. clear E.
  vm_compute in Hfind. inversion Hfind; subst p. clear Hfind.
  vm_compute in Hpnl. inversion Hpnl; subst stored.
  split; reflexivity.
Defined.

(** ** Closing: what is sent *)

Lemma closeSpotPosition_traffic env position dep ag chainId :
  preserves (logGrows (closeTraffic (safeWallet dep) (USDC_ADDRESSES chainId)
                                    (profitReceiverAddress ag)))
            (closeSpotPosition env position dep ag chainId).
Proof.
  set (P := closeTraffic (safeWallet dep) (USDC_ADDRESSES chainId)
                         (profitReceiverAddress ag)).
  unfold closeSpotPosition, createSafeModuleService, newSafeModuleService,
    approveTokenForDex, checkTokenApproval, SafeModuleService.closePosition,
    recordProfitShare, dbWrite.
  repeat first
    [ apply getNextNonce_log
    | apply setStore_log
    | apply send_log; intros ? ?; unfold P, closeTraffic; simpl; tauto
    | walk (logGrows_refl P) (@logGrows_trans P) (logGrows_tick P) ].
Qed.

(** X13. Whatever a close sends concerns the Safe of the position's
    deployment only: an unlimited token approval through the module, and the
    close itself, which swaps into the USDC of the venue's chain with minimum
    output 0 and names the profit receiver of the agent.  A close never
    submits an open trade. *)
Theorem close_sends_only_for_its_safe (env : Env) (id : Id) (w : World) :
  forall entry,
    In entry (newEntries w (snd (TradeExecutor.closePosition env id w))) ->
    exists p dep ag,
      findPosition (db w) id = Some p
      /\ findDeployment (db w) (deploymentId p) = Some dep
      /\ findAgent (db w) (dep_agentId dep) = Some ag
      /\ closeTraffic (safeWallet dep)
           (USDC_ADDRESSES (getChainIdForVenue env (pos_venue p)))
           (profitReceiverAddress ag) entry.
Proof.
  assert (Hnone : forall P w1, newEntries w1 w1 = [] /\ logGrows P w1 w1).
  { intros P w1. split; [| apply logGrows_refl].
    apply newEntries_app. symmetry. apply app_nil_r. }
  intros entry. unfold TradeExecutor.closePosition, tryCatch, bind, getStore.
  destruct (findPosition (db w) id) as [p |] eqn:Hp;
    [| simpl; rewrite (proj1 (Hnone (fun _ => True) w)); intros []].
  destruct (closedAt p);
    [simpl; rewrite (proj1 (Hnone (fun _ => True) w)); intros [] |].
  destruct (findDeployment (db w) (deploymentId p)) as [dep |] eqn:Hd;
    [| simpl; rewrite (proj1 (Hnone (fun _ => True) w)); intros []].
  destruct (findAgent (db w) (dep_agentId dep)) as [ag |] eqn:Ha;
    [| simpl; rewrite (proj1 (Hnone (fun _ => True) w)); intros []].
  destruct (pos_venue p) eqn:Hv;
    try (simpl; rewrite (proj1 (Hnone (fun _ => True) w)); intros []).
  pose proof (closeSpotPosition_traffic env p dep ag (getChainIdForVenue env SPOT) w)
    as Hlog.
  apply logGrows_newEntries in Hlog. rewrite Forall_forall in Hlog.
  intros Hin. exists p, dep, ag.
  split; [reflexivity |]. split; [exact Hd |]. split; [exact Ha |].
  rewrite Hv. apply Hlog. apply list_elem_of_In.
  destruct (closeSpotPosition env p dep ag (getChainIdForVenue env SPOT) w)
    as [[r | e |] w1]; exact Hin.
Qed.

Lemma close_sends_only_for_its_safe_witness :
  Forall (closeTraffic "0xSAFE" "0x833589fCD6eDb6E08f4c7C32D4f71b54bdA02913" "0xRECEIVER")
         (newEntries (holding (longPosition 100 None))
            (snd (TradeExecutor.closePosition sampleEnv 1%nat
                    (holding (longPosition 100 None)))))
  /\ length (newEntries (holding (longPosition 100 None))
               (snd (TradeExecutor.closePosition sampleEnv 1%nat
                       (holding (longPosition 100 None))))) = 2%nat.
Proof.
  split; [| vm_compute; reflexivity].
  apply Forall_forall. intros entry Hin. apply list_elem_of_In in Hin.
  destruct (close_sends_only_for_its_safe sampleEnv 1%nat _ entry Hin)
    as (p & dep & ag & Hp & Hd & Ha & Ht).
  vm_compute in Hp. inversion Hp; subst p.
  vm_compute in Hd. inversion Hd; subst dep.
  vm_compute in Ha. inversion Ha; subst ag.
  exact Ht.
Defined.

(** ** Position monitor: the trailing stop in general *)

Lemma Qle_bool_iff_le (x y : Q) : Qle_bool x y = true <-> (x <= y)%Q.
Proof. apply Qle_bool_iff. Qed.

Lemma Qle_bool_false_iff (x y : Q) : Qle_bool x y = false <-> (y < x)%Q.
Proof.
  split; [apply Qle_bool_false_lt | apply Qle_bool_of_lt].
Qed.





(** ** Position monitor: skipping and counting *)

(** X16. A position without entry price is skipped before any price is read,
    and a position whose price is unavailable (no price, or 0) is skipped
    after the read: in both cases nothing is stored or sent.  For a GMX
    position a failing price read counts as unavailable. *)
Theorem monitor_skips_unpriced_positions (env : Env) (p : Position) (w : World) :
  ((entryPrice p == 0)%Q -> monitorPosition env p w = (Ok Skipped, w))
  /\ (~ (entryPrice p == 0)%Q ->
      (pos_venue p <> GMX ->
       falsy (getTokenPriceUSD env (clock w) (pos_tokenSymbol p)) = true ->
       monitorPosition env p w = (Ok Skipped, tick w))
      /\ (pos_venue p = GMX ->
          match getMarketPrice env (clock w) (pos_tokenSymbol p) with
          | Returns price => falsy price = true
          | Raises _ => True
          end ->
          monitorPosition env p w = (Ok Skipped, tick w))).
Proof.
  unfold monitorPosition, tryCatch, bind. split.
  - intros Hz. apply Qeq_bool_iff in Hz. rewrite Hz. reflexivity.
  - intros Hnz.
    assert (Hb : Qeq_bool (entryPrice p) 0 = false).
    { destruct (Qeq_bool (entryPrice p) 0) eqn:E; [| reflexivity].
      apply Qeq_bool_iff in E. contradiction. }
    rewrite Hb. unfold currentPriceFor. split.
    + intros Hv Hprice.
      destruct (pos_venue p); [| contradiction |];
        unfold observe; rewrite Hprice; reflexivity.
    + intros Hv Hprice. rewrite Hv. unfold tryCatch, ask.
      destruct (getMarketPrice env (clock w) (pos_tokenSymbol p)) as [price | e]; simpl.
      * rewrite Hprice. reflexivity.
      * reflexivity.
Qed.

Lemma monitor_skips_unpriced_positions_witness :
  monitorPosition sampleEnv (longPosition 0 None) (holding (longPosition 0 None))
  = (Ok Skipped, holding (longPosition 0 None)).
Proof.
  apply (proj1 (monitor_skips_unpriced_positions sampleEnv (longPosition 0 None)
                  (holding (longPosition 0 None)))).
  reflexivity.
Defined.

Lemma settles_checkTrailingStop p entry price : settles (checkTrailingStop p entry price).
Proof.
  unfold checkTrailingStop.
  repeat first [apply settles_dbWrite | settle_step].
Qed.

Lemma returns_monitorPosition env p : returns (monitorPosition env p).
Proof.
  unfold monitorPosition.
  apply returns_tryCatch; [| intros e; apply returns_ret].
  unfold evaluate, currentPriceFor.
  repeat first
    [ apply settles_checkTrailingStop
    | apply returns_settles; apply returns_closePosition
    | settle_step ].
Qed.

Lemma monitorAll_length env open : forall w,
  nonceLocks w = ∅ ->
  exists verdicts w',
    monitorAll env open w = (Ok verdicts, w')
    /\ length verdicts = length open
    /\ nonceLocks w' = ∅.
Proof.
  induction open as [| p rest IH]; intros w Hlocks; simpl.
  - exists [], w. auto.
  - unfold bind.
    destruct (returns_monitorPosition env p w Hlocks) as [[v Hv] Hl].
    destruct (monitorPosition env p w) as [o w1]. simpl in Hv, Hl. subst o.
    destruct (IH w1 Hl) as (vs & w2 & Hrun & Hlen & Hl2).
    rewrite Hrun. exists (v :: vs), w2. simpl. rewrite Hlen. auto.
Qed.



(** ** Opening: what a success leaves behind *)

Lemma findSignal_updateRow st id f :
  (forall x, sig_id (f x) = sig_id x) ->
  findSignal (withSignals st (updateRow sig_id id f (signals st))) id
  = option_map f (findSignal st id).
Proof.
  intros Hf. unfold findSignal, updateRow. simpl.
  induction (signals st) as [| r rows IH]; simpl; [reflexivity |].
  destruct (Nat.eqb (sig_id r) id) eqn:E.
  - rewrite Hf, E. reflexivity.
  - rewrite E. exact IH.
Qed.

Lemma settleTrade_opened env ctx sym hash size result w0 :
  hoare (sameStore w0) (settleTrade env ctx sym hash size result)
        (fun r w => success r = true ->
                    opened (db w0) (sig_id (signal ctx)) (dep_id (deployment ctx)) r w).
Proof.
  intros w Hw r w' E. unfold sameStore in Hw.
  unfold settleTrade in E.
  destruct (negb (tr_success result)); [inversion E; subst; discriminate |].
  unfold recordProofOfIntent, createPosition, dbWrite, updateSignal in E.
  unfold bind, getStore, liftReply, setStore, observe, ret in E. simpl in E.
  destruct (findSignal (db w) (sig_id (signal ctx))) as [sg0 |] eqn:Hsig; simpl in E;
    [| discriminate].
  unfold insertPosition in E. simpl in E.
  do 2 match type of E with
       | context [toDecimal ?x] => destruct (toDecimal x); simpl in E; [| discriminate]
       end.
  match type of E with
  | context [findDeployment ?s ?i] => destruct (findDeployment s i); simpl in E;
                                      [| discriminate]
  end.
  match type of E with
  | context [findSignal ?s ?i] => destruct (findSignal s i) eqn:Hsig1; simpl in E;
                                  [| discriminate]
  end.
  match type of E with
  | context [findPositionFor ?s ?d ?i] => destruct (findPositionFor s d i); simpl in E;
                                          [discriminate |]
  end.
  inversion E; subst r w'; clear E. intros _.
  rewrite findSignal_updateRow in Hsig1 by reflexivity.
  rewrite Hsig in Hsig1. simpl in Hsig1. inversion Hsig1; subst.
  eexists.
  exists (setProofOfIntent hash (creatorWallet (agent ctx)) (tr_txHash result) sg0).
  simpl. rewrite Hw.
  split; [reflexivity |]. split; [reflexivity |]. split; [reflexivity |].
  split; [reflexivity |]. split; [reflexivity |]. split; [reflexivity |].
  split; [reflexivity |]. split; [reflexivity |].
  split; [| split; [reflexivity | discriminate]].
  rewrite <- Hw.
  pose proof (findSignal_updateRow (db w) (sig_id (signal ctx))
                (setProofOfIntent hash (creatorWallet (agent ctx)) (tr_txHash result))
                (fun x => eq_refl)) as Hupd.
  rewrite Hsig in Hupd. exact Hupd.
Qed.

Lemma newSafeModuleService_sameStore env config :
  preserves sameStore (newSafeModuleService env config).
Proof. unfold newSafeModuleService. same_store. Qed.

Ltac to_the_settlement w0 :=
  repeat first
    [ apply hoare_ret; intros ? _ Hyes; simpl in Hyes; discriminate Hyes
    | apply hoare_ret; intros ? _ Hyes; exfalso;
      match goal with
      | Hearly : positionSizing _ _ = inr _ |- _ =>
          destruct (positionSizing_early _ _ _ Hearly) as [Hno _]; congruence
      end
    | apply hoare_throw
    | match goal with
      | |- hoare _ (if ?b then _ else _) _ => destruct b
      | |- hoare _ (match positionSizing ?a ?b with _ => _ end) _ =>
          destruct (positionSizing a b) eqn:?
      | |- hoare _ (match ?x with _ => _ end) _ => destruct x
      | |- hoare _ (bind (executeTrade _ _ _) _) _ =>
          apply hoare_bind with (Q1 := fun _ => sameStore w0);
          [ apply hoare_sameStore; apply executeTrade_sameStore
          | intros ?; apply settleTrade_opened ]
      | |- hoare (sameStore w0) (bind _ _) _ =>
          apply hoare_bind with (Q1 := fun _ => sameStore w0);
          [ apply hoare_sameStore;
            first [ apply autoSetup_sameStore
                  | apply newSafeModuleService_sameStore
                  | apply preTradeValidation_sameStore
                  | same_store ]
          | intros ? ]
      end
    | progress cbv zeta ].

Lemma executeSpotTrade_opened env ctx w0 :
  hoare (sameStore w0) (executeSpotTrade env ctx)
        (fun r w => success r = true ->
                    opened (db w0) (sig_id (signal ctx)) (dep_id (deployment ctx)) r w).
Proof.
  unfold executeSpotTrade.
  apply hoare_tryCatch; [| intros e; apply hoare_failure].
  to_the_settlement w0.
Qed.

Lemma find_sig_id st id sg : findSignal st id = Some sg -> sig_id sg = id.
Proof.
  unfold findSignal. intros H. apply find_some in H as [_ H].
  apply Nat.eqb_eq. exact H.
Qed.

Lemma find_dep_id st id dep : findDeployment st id = Some dep -> dep_id dep = id.
Proof.
  unfold findDeployment. intros H. apply find_some in H as [_ H].
  apply Nat.eqb_eq. exact H.
Qed.



(** ** Opening: when nothing is sent *)

Lemma quiet_newEntries w w' : logGrows (fun _ => False) w w' -> newEntries w w' = [].
Proof.
  intros H. apply logGrows_newEntries in H.
  destruct (newEntries w w') as [| x l]; [reflexivity |].
  apply Forall_cons in H as [[] _].
Qed.

Ltac silent_step :=
  first
    [ apply getNextNonce_log
    | apply setStore_log
    | walk (logGrows_refl (fun _ : string * Submission * reply Receipt => False))
           (@logGrows_trans (fun _ : string * Submission * reply Receipt => False))
           (logGrows_tick (fun _ : string * Submission * reply Receipt => False)) ].

Lemma preTradeValidation_silent env sg dep :
  preserves (logGrows (fun _ => False)) (preTradeValidation env sg dep).
Proof. unfold preTradeValidation. repeat silent_step. Qed.

Lemma neverWaits_ret A (a : A) : neverWaits (ret a).
Proof. intros w. discriminate. Qed.

Lemma neverWaits_throw A e : neverWaits (@throw A e).
Proof. intros w. discriminate. Qed.

Lemma neverWaits_ask A (o : nat -> reply A) : neverWaits (ask o).
Proof. intros w. unfold ask. simpl. destruct (o (clock w)); discriminate. Qed.

Lemma neverWaits_observe A (o : nat -> A) : neverWaits (observe o).
Proof. intros w. discriminate. Qed.

Lemma neverWaits_liftReply A (r : reply A) : neverWaits (liftReply r).
Proof. intros w. destruct r; discriminate. Qed.

Lemma neverWaits_getStore : neverWaits getStore.
Proof. intros w. discriminate. Qed.

Lemma neverWaits_setStore s : neverWaits (setStore s).
Proof. intros w. discriminate. Qed.

Lemma neverWaits_bind A B (m : M A) (k : A -> M B) :
  neverWaits m -> (forall a, neverWaits (k a)) -> neverWaits (bind m k).
Proof.
  intros Hm Hk w. unfold bind. specialize (Hm w).
  destruct (m w) as [[a | e |] w1]; simpl in *;
    [apply Hk | discriminate | contradiction].
Qed.

Lemma neverWaits_tryCatch A (m : M A) h :
  neverWaits m -> (forall e, neverWaits (h e)) -> neverWaits (tryCatch m h).
Proof.
  intros Hm Hh w. unfold tryCatch. specialize (Hm w).
  destruct (m w) as [[a | e |] w1]; simpl in *;
    [discriminate | apply Hh | contradiction].
Qed.

Ltac calm_step :=
  first
    [ apply neverWaits_ret | apply neverWaits_throw | apply neverWaits_ask
    | apply neverWaits_observe | apply neverWaits_liftReply
    | apply neverWaits_getStore | apply neverWaits_setStore
    | apply neverWaits_bind; [| intros ?]
    | apply neverWaits_tryCatch; [| intros ?]
    | match goal with
      | |- neverWaits (if ?b then _ else _) => destruct b
      | |- neverWaits (match ?x with _ => _ end) => destruct x
      end
    | progress cbv zeta ].

Lemma neverWaits_preTradeValidation env sg dep :
  neverWaits (preTradeValidation env sg dep).
Proof. unfold preTradeValidation. repeat calm_step. Qed.

Lemma executeSignalInternal_not_spot env ctx :
  sig_venue (signal ctx) <> SPOT ->
  preserves (logGrows (fun _ => False)) (executeSignalInternal env ctx)
  /\ preserves sameStore (executeSignalInternal env ctx)
  /\ neverWaits (executeSignalInternal env ctx)
  /\ hoare (fun _ => True) (executeSignalInternal env ctx)
           (fun r _ => success r = false /\ error r <> None).
Proof.
  intros Hv. unfold executeSignalInternal, routeToVenue.
  destruct (sig_venue (signal ctx)) eqn:Hvenue; [contradiction | |].
  all: split; [| split; [| split]].
  all: try (repeat first [apply preTradeValidation_silent | silent_step]).
  all: try (repeat first
              [ apply preTradeValidation_sameStore
              | walk sameStore_refl sameStore_trans sameStore_tick ]).
  all: try (repeat first [apply neverWaits_preTradeValidation | calm_step]).
  all: repeat first
         [ apply hoare_ret; intros ? _; simpl; split; [reflexivity | discriminate]
         | apply hoare_throw
         | apply hoare_then; intros ?
         | apply hoare_tryCatch; [| intros ?]
         | match goal with
           | |- hoare _ (if ?b then _ else _) _ => destruct b
           end ].
Qed.

(** X19. Only SPOT signals trade: the open of a signal for GMX or Hyperliquid
    returns a failure with an error message, sends no transaction and leaves
    the store as it was. *)
Theorem only_spot_signals_trade (env : Env) (sid did : Id) (sg : Signal) (w : World) :
  findSignal (db w) sid = Some sg ->
  sig_venue sg <> SPOT ->
  let out := executeSignalForDeployment env sid did w in
  newEntries w (snd out) = []
  /\ db (snd out) = db w
  /\ exists r, fst out = Ok r /\ success r = false /\ error r <> None.
Proof.
  intros Hsig Hv out. subst out.
  unfold executeSignalForDeployment, tryCatch, bind, getStore. rewrite Hsig.
  assert (Hsame : newEntries w w = []) by (apply quiet_newEntries, logGrows_refl).
  destruct (findDeployment (db w) did) as [dep |];
    [| simpl; split; [exact Hsame |]; split; [reflexivity |];
       eexists; split; [reflexivity |]; split; [reflexivity | discriminate]].
  destruct (findAgent (db w) (sig_agentId sg)) as [ag |];
    [| simpl; split; [exact Hsame |]; split; [reflexivity |];
       eexists; split; [reflexivity |]; split; [reflexivity | discriminate]].
  destruct (executeSignalInternal_not_spot env
              {| signal := sg; agent := ag; deployment := dep |} Hv)
    as (Hquiet & Hstore & Hcalm & Hfail).
  specialize (Hquiet w). specialize (Hstore w). specialize (Hcalm w).
  specialize (Hfail w I).
  destruct (executeSignalInternal env _ w) as [[r | e |] w1]; simpl in *.
  - split; [apply quiet_newEntries; exact Hquiet |]. split; [exact Hstore |].
    exists r. split; [reflexivity |]. exact (Hfail r w1 eq_refl).
  - split; [apply quiet_newEntries; exact Hquiet |]. split; [exact Hstore |].
    eexists. split; [reflexivity |]. split; [reflexivity | discriminate].
  - contradiction.
Qed.

Lemma only_spot_signals_trade_witness :
  newEntries gmxWorld (snd (executeSignalForDeployment sampleEnv 1%nat 1%nat gmxWorld)) = []
  /\ db (snd (executeSignalForDeployment sampleEnv 1%nat 1%nat gmxWorld)) = db gmxWorld.
Proof.
  destruct (findSignal (db gmxWorld) 1%nat) as [sg |] eqn:Hsig; [| discriminate Hsig].
  destruct (only_spot_signals_trade sampleEnv 1%nat 1%nat sg gmxWorld Hsig)
    as (Hlog & Hdb & _).
  - vm_compute in Hsig. inversion Hsig. discriminate.
  - split; assumption.
Defined.

Section WithoutKey.

Variable env : Env.
Hypothesis no_key : truthy (EXECUTOR_PRIVATE_KEY env) = false.

Ltac keyless_step :=
  first
    [ match goal with
      | |- preserves _ (if negb (truthy (EXECUTOR_PRIVATE_KEY env)) then _ else _) =>
          rewrite no_key; simpl negb; cbv iota
      end
    | apply preTradeValidation_silent
    | silent_step ].

Lemma executeSpotTrade_keyless ctx :
  preserves (logGrows (fun _ => False)) (executeSpotTrade env ctx).
Proof. unfold executeSpotTrade. repeat keyless_step. Qed.

Lemma executeSignalForDeployment_keyless sid did :
  preserves (logGrows (fun _ => False)) (executeSignalForDeployment env sid did).
Proof.
  unfold executeSignalForDeployment, executeSignalInternal, routeToVenue.
  repeat first [apply executeSpotTrade_keyless | keyless_step].
Qed.

Lemma closePosition_keyless id :
  preserves (logGrows (fun _ => False)) (TradeExecutor.closePosition env id).
Proof.
  unfold TradeExecutor.closePosition, closeSpotPosition.
  repeat keyless_step.
Qed.

End WithoutKey.

(** X20. Without an executor key (unset or empty) neither an open nor a close
    hands anything to the chain. *)
Theorem no_transaction_without_executor_key (env : Env) (w : World) :
  truthy (EXECUTOR_PRIVATE_KEY env) = false ->
  (forall sid did,
      newEntries w (snd (executeSignalForDeployment env sid did w)) = [])
  /\ (forall req, newEntries w (snd (handler env req w)) = [])
  /\ (forall id, newEntries w (snd (TradeExecutor.closePosition env id w)) = []).
Proof.
  intros Hkey. split; [| split].
  - intros sid did. apply quiet_newEntries.
    apply executeSignalForDeployment_keyless. exact Hkey.
  - intros req. apply quiet_newEntries.
    assert (Hloop : forall sg ds created errors,
               preserves (logGrows (fun _ => False))
                         (executeOnDeployments env sg ds created errors)).
    { intros sg ds. induction ds as [| dep rest IH]; intros created errors; simpl.
      - apply preserves_ret. apply logGrows_refl.
      - repeat first
          [ apply IH
          | apply executeSignalForDeployment_keyless; exact Hkey
          | silent_step ]. }
    assert (H : preserves (logGrows (fun _ => False)) (handler env req))
      by (unfold handler; repeat first [apply Hloop | silent_step]).
    apply H.
  - intros id. apply quiet_newEntries. apply closePosition_keyless. exact Hkey.
Qed.

Lemma no_transaction_without_executor_key_witness :
  newEntries sampleWorld (snd (handler keyless (postSignal 1%nat) sampleWorld)) = [].
Proof.
  apply (proj1 (proj2 (no_transaction_without_executor_key keyless sampleWorld eq_refl))).
Defined.

(** ** Opening: the smallest trade *)

Lemma preserves_bind_liftReply (R : World -> World -> Prop) A B (r : reply A)
    (k : A -> M B) :
  (forall w, R w w) ->
  (forall a, r = Returns a -> preserves R (k a)) ->
  preserves R (bind (liftReply r) k).
Proof.
  intros Hrefl Hk w. unfold bind, liftReply. destruct r as [a | e]; simpl.
  - apply (Hk a eq_refl).
  - apply Hrefl.
Qed.

Lemma positionSizing_least sm balance size :
  positionSizing sm balance = inl size -> ((1 # 10) <= size)%Q.
Proof.
  unfold positionSizing. cbv zeta.
  match goal with
  | |- (if negb (Qle_bool _ ?s) then _ else _) = _ -> _ =>
      destruct (Qle_bool (1 # 10) s) eqn:Hle; simpl; [| discriminate]
  end.
  apply Qle_bool_iff_le in Hle.
  match goal with
  | |- (if ?b then _ else _) = _ -> _ => destruct b; [discriminate |]
  end.
  intros H. inversion H; subst. exact Hle.
Qed.

Lemma parseUnits6_least size amount :
  ((1 # 10) <= size)%Q -> parseUnits6 size = Returns amount -> 100000 <= amount.
Proof.
  intros Hsize. unfold parseUnits6.
  destruct (Qle_bool (pow10 21) (Qabs size)); [discriminate |].
  intros H. inversion H; subst; clear H. unfold roundHalfAway.
  assert (Hscaled : (100000 <= size * pow10 6)%Q).
  { unfold pow10. change (inject_Z (10 ^ 6)) with 1000000%Q.
    assert (E : (100000 == (1 # 10) * 1000000)%Q) by reflexivity.
    rewrite E. apply Qmult_le_compat_r; [exact Hsize | discriminate]. }
  assert (Hpos : (0 <= size * pow10 6)%Q)
    by (eapply Qle_trans; [| exact Hscaled]; discriminate).
  rewrite (Qle_bool_of_le _ _ Hpos).
  change 100000 with (Qfloor (100000 + (1 # 2))).
  apply Qfloor_resp_le. apply Qplus_le_l. exact Hscaled.
Qed.

Lemma executeTrade_spends least env svc params :
  least <= tp_amountIn params ->
  preserves (logGrows (spendsAtLeast least)) (executeTrade env svc params).
Proof.
  intros Hleast. unfold executeTrade, executeTradeWithIntent.
  repeat first
    [ apply getNextNonce_log
    | apply send_log; intros ? ? amountIn Ha; simpl in Ha; inversion Ha; subst;
      exact Hleast
    | walk (logGrows_refl (spendsAtLeast least)) (@logGrows_trans (spendsAtLeast least))
           (logGrows_tick (spendsAtLeast least)) ].
Qed.

Ltac spends_step least :=
  first
    [ apply getNextNonce_log
    | apply setStore_log
    | apply send_log; intros ? ? ? Hspent; simpl in Hspent; discriminate Hspent
    | walk (logGrows_refl (spendsAtLeast least)) (@logGrows_trans (spendsAtLeast least))
           (logGrows_tick (spendsAtLeast least)) ].

Lemma autoSetup_spends least env svc safe token usdc router :
  preserves (logGrows (spendsAtLeast least)) (autoSetup env svc safe token usdc router).
Proof.
  unfold autoSetup, getSafeStats, initializeCapital, checkTokenWhitelist,
    setTokenWhitelist, approveTokenForDex.
  repeat spends_step least.
Qed.

Lemma settleTrade_spends least env ctx sym hash size result :
  preserves (logGrows (spendsAtLeast least)) (settleTrade env ctx sym hash size result).
Proof.
  unfold settleTrade, recordProofOfIntent, createPosition, dbWrite.
  repeat spends_step least.
Qed.

Lemma preTradeValidation_spends least env sg dep :
  preserves (logGrows (spendsAtLeast least)) (preTradeValidation env sg dep).
Proof. unfold preTradeValidation. repeat spends_step least. Qed.

Lemma executeSpotTrade_spends env ctx :
  preserves (logGrows (spendsAtLeast 100000)) (executeSpotTrade env ctx).
Proof.
  unfold executeSpotTrade.
  repeat first
    [ apply autoSetup_spends
    | apply settleTrade_spends
    | match goal with
      | |- preserves _ (match positionSizing ?a ?b with _ => _ end) =>
          destruct (positionSizing a b) eqn:Hsizing
      | |- preserves _ (bind (liftReply (parseUnits6 _)) _) =>
          apply preserves_bind_liftReply; [apply logGrows_refl | intros ? Hparsed]
      | |- preserves _ (executeTrade _ _ _) =>
          apply executeTrade_spends; simpl;
          eapply parseUnits6_least;
          [eapply positionSizing_least; exact Hsizing | exact Hparsed]
      end
    | spends_step 100000 ].
Qed.

(** X21. No open trade is submitted for less than 0.1 USDC: every open trade
    that an invocation hands to the chain spends at least 100000 units of
    the 6-decimal USDC. *)
Theorem open_trades_spend_at_least_a_dime (env : Env) (sid did : Id) (w : World) :
  Forall (spendsAtLeast 100000)
         (newEntries w (snd (executeSignalForDeployment env sid did w))).
Proof.
  apply logGrows_newEntries.
  assert (H : preserves (logGrows (spendsAtLeast 100000))
                        (executeSignalForDeployment env sid did)).
  { unfold executeSignalForDeployment, executeSignalInternal, routeToVenue.
    repeat first
      [ apply executeSpotTrade_spends
      | apply preTradeValidation_spends
      | spends_step 100000 ]. }
  apply H.
Qed.

(** ** Closing: the stored transition *)

Lemma later_refl w : later w w.
Proof. unfold later. lia. Qed.

Lemma later_trans a b c : later a b -> later b c -> later a c.
Proof. unfold later. lia. Qed.

Lemma later_tick w : later w (tick w).
Proof. unfold later. simpl. lia. Qed.

Lemma getNextNonce_later env svc : preserves later (getNextNonce env svc).
Proof.
  intros w. unfold later.
  destruct (decide (executor svc ∈ nonceLocks w)) as [Hin | Hfree].
  - rewrite (getNextNonce_locked env _ _ Hin). simpl. lia.
  - rewrite (getNextNonce_free env _ _ Hfree).
    destruct (getTransactionCount env (clock w) (executor svc)); simpl; lia.
Qed.

Lemma send_later env svc c g n : preserves later (send env svc c g n).
Proof. intros w. unfold later. simpl. lia. Qed.

Lemma setStore_later s : preserves later (setStore s).
Proof. intros w. unfold later. simpl. lia. Qed.

Ltac laters :=
  preserve later_refl later_trans later_tick;
  first [ apply getNextNonce_later
        | apply send_later
        | apply setStore_later
        | idtac ].

Lemma gateway_closePosition_later env svc params :
  preserves later (SafeModuleService.closePosition env svc params).
Proof. unfold SafeModuleService.closePosition. laters. Qed.

Lemma approveTokenForDex_later env svc safe token router :
  preserves later (approveTokenForDex env svc safe token router).
Proof. unfold approveTokenForDex. laters. Qed.

Lemma checkTokenApproval_later env svc safe token spender :
  preserves later (checkTokenApproval env svc safe token spender).
Proof. unfold checkTokenApproval. laters. Qed.

Lemma createSafeModuleService_later env m c k :
  preserves later (createSafeModuleService env m c k).
Proof. unfold createSafeModuleService, newSafeModuleService. laters. Qed.

Lemma hoare_since A (m : M A) w0 :
  preserves sameStore m -> preserves later m ->
  hoare (since w0) m (fun _ => since w0).
Proof.
  intros Hs Hl w [Hw1 Hw2] a w' E.
  specialize (Hs w). specialize (Hl w). rewrite E in Hs, Hl. simpl in Hs, Hl.
  split; [eapply sameStore_trans; eauto | eapply later_trans; eauto].
Qed.

Lemma bind_returns A B (m : M A) (k : A -> M B) w b w' :
  bind m k w = (Ok b, w') ->
  exists a w1, m w = (Ok a, w1) /\ k a w1 = (Ok b, w').
Proof.
  unfold bind. destruct (m w) as [[a | e |] w1]; try discriminate.
  intros E. exists a, w1. auto.
Qed.

(** Recording the profit share touches the billing events only. *)
Lemma profitShare_frame (share : bool) position ag profit txh w :
  let m := if share
           then tryCatch (recordProfitShare position ag profit txh) (fun _ => ret tt)
           else ret tt in
  positions (db (snd (m w))) = positions (db w)
  /\ nextPositionId (db (snd (m w))) = nextPositionId (db w)
  /\ clock (snd (m w)) = clock w.
Proof.
  destruct share; simpl; [| auto].
  unfold tryCatch, recordProfitShare, bind, getStore, liftReply, setStore, ret.
  destruct (toDecimal _); simpl; auto.
Qed.

(** Walks through the close path up to the read of the exit price, keeping
    the store and the clock of the start. *)
Ltac to_the_exit_price w0 :=
  repeat first
    [ apply hoare_failure
    | apply hoare_throw
    | match goal with
      | |- hoare _ (if ?b then _ else _) _ => destruct b
      | |- hoare _ (match ?x with _ => _ end) _ => destruct x
      | |- hoare _ (bind (observe (fun t => getTokenPriceUSD _ t _)) _) _ => fail 2
      | |- hoare (since w0) (bind _ _) _ =>
          apply hoare_bind with (Q1 := fun _ => since w0);
          [ apply hoare_since;
            [ first [ apply approveTokenForDex_sameStore
                    | apply createSafeModuleService_sameStore
                    | apply checkTokenApproval_sameStore
                    | same_store ]
            | first [ apply approveTokenForDex_later
                    | apply createSafeModuleService_later
                    | apply checkTokenApproval_later
                    | laters ] ]
          | intros ? ]
      end ].

Lemma closeSpotPosition_stores_close env position dep ag chainId w0 :
  findPosition (db w0) (pos_id position) = Some position ->
  hoare (since w0) (closeSpotPosition env position dep ag chainId)
        (fun r w => success r = true -> closedWith env position r w0 w).
Proof.
  intros Hstored. unfold closeSpotPosition.
  apply hoare_tryCatch; [| intros e; apply hoare_failure].
  to_the_exit_price w0.
  intros w [Hs Hl] r w' E Hyes.
  apply bind_returns in E as (exit & w1 & Eexit & E).
  unfold observe in Eexit. inversion Eexit; subst exit w1; clear Eexit.
  cbv zeta in E.
  apply bind_returns in E as (result & w2 & Egate & E).
  match type of Egate with
  | SafeModuleService.closePosition _ ?svc ?params _ = _ =>
      pose proof (gateway_closePosition_sameStore env svc params (tick w)) as Hs2;
      pose proof (gateway_closePosition_later env svc params (tick w)) as Hl2
  end.
  rewrite Egate in Hs2, Hl2. simpl in Hs2, Hl2.
  destruct (negb (tr_success result)); [inversion E; subst; discriminate |].
  apply bind_returns in E as (closedTime & w3 & Enow & E).
  unfold observe in Enow. inversion Enow; subst closedTime w3; clear Enow.
  apply bind_returns in E as ([] & w4 & Ewrite & E).
  apply bind_returns in E as ([] & w5 & Ebill & E).
  inversion E; subst r w'; clear E.
  unfold dbWrite, bind, getStore, liftReply, setStore in Ewrite. simpl in Ewrite.
  assert (Hdb2 : db w2 = db w0).
  { unfold sameStore in *. simpl in Hs2. congruence. }
  rewrite Hdb2 in Ewrite.
  match type of Ewrite with
  | context [closeRow ?id ?t ?x ?h ?q ?profit (db w0)] =>
      destruct (closeRow_cases id t x h q profit (db w0))
        as [[e He] | (se & sq & sp & Hse & Hsq & Hsp & He)];
      rewrite He in Ewrite; simpl in Ewrite; [discriminate |];
      exists t, (clock w), q, se, sq, sp
  end.
  unfold updatePosition in Ewrite. rewrite Hstored in Ewrite. simpl in Ewrite.
  inversion Ewrite; subst w4; clear Ewrite.
  match type of Ebill with
  | (if ?c then tryCatch (recordProfitShare ?a ?b ?p ?h) _ else _) ?w = _ =>
      destruct (profitShare_frame c a b p h w) as (Hpos & Hnext & Hclock)
  end.
  rewrite Ebill in Hpos, Hclock. simpl in Hpos, Hclock.
  split.
  - unfold later in *. simpl in *. lia.
  - split; [exact Hse |]. split; [exact Hsq |]. split; [exact Hsp |].
    unfold findPosition. rewrite Hpos.
    pose proof (findPosition_updateRow (db w0) (pos_id position)
                  (setClosed (now env (clock w2)) se (tr_txHash result) sq sp)
                  (nextPositionId (db w0)) (fun _ => eq_refl)) as Hfind.
    unfold findPosition in Hfind. simpl in Hfind. rewrite Hfind.
    fold (findPosition (db w0) (pos_id position)). rewrite Hstored. reflexivity.
Qed.

Lemma closePosition_closed env id w p t :
  findPosition (db w) id = Some p -> closedAt p = Some t ->
  TradeExecutor.closePosition env id w = (Ok (failure (AlreadyClosedAt t)), w).
Proof.
  intros Hp Hc. unfold TradeExecutor.closePosition, tryCatch, bind, getStore.
  rewrite Hp, Hc. reflexivity.
Qed.

Lemma closePosition_success env id w r w1 :
  TradeExecutor.closePosition env id w = (Ok r, w1) ->
  success r = true ->
  exists p, findPosition (db w) id = Some p /\ closedAt p = None
            /\ closedWith env p r w w1.
Proof.
  intros E Hs. unfold TradeExecutor.closePosition, tryCatch, bind, getStore in E.
  destruct (findPosition (db w) id) as [p |] eqn:Hp;
    [| inversion E; subst; discriminate].
  destruct (closedAt p) as [t |] eqn:Hc; [inversion E; subst; discriminate |].
  exists p. split; [reflexivity |]. split; [exact Hc |].
  destruct (findDeployment (db w) (deploymentId p)) as [dep |];
    [| inversion E; subst; discriminate].
  destruct (findAgent (db w) (dep_agentId dep)) as [ag |];
    [| inversion E; subst; discriminate].
  destruct (pos_venue p); try (inversion E; subst; discriminate).
  destruct (closeSpotPosition env p dep ag (getChainIdForVenue env SPOT) w)
    as [[x | e |] w2] eqn:Ex; inversion E; subst; try discriminate.
  assert (Hstored : findPosition (db w) (pos_id p) = Some p)
    by (rewrite (find_pos_id _ _ _ Hp); exact Hp).
  eapply (closeSpotPosition_stores_close env p dep ag _ w Hstored w); eauto.
  split; [apply sameStore_refl | apply later_refl].
Qed.




(** ** The gate: what the chain was asked *)

Lemma newSafeModuleService_later env config :
  preserves later (newSafeModuleService env config).
Proof. unfold newSafeModuleService. laters. Qed.

Lemma executeTrade_later env svc params : preserves later (executeTrade env svc params).
Proof. unfold executeTrade, executeTradeWithIntent. laters. Qed.

Lemma autoSetup_later env svc safe token usdc router :
  preserves later (autoSetup env svc safe token usdc router).
Proof.
  unfold autoSetup, getSafeStats, initializeCapital, checkTokenWhitelist,
    setTokenWhitelist, approveTokenForDex.
  laters.
Qed.

Lemma preTradeValidation_later env sg dep :
  preserves later (preTradeValidation env sg dep).
Proof. unfold preTradeValidation. laters. Qed.

Lemma settleTrade_later env ctx sym hash size result :
  preserves later (settleTrade env ctx sym hash size result).
Proof.
  unfold settleTrade, recordProofOfIntent, createPosition, dbWrite. laters.
Qed.

Lemma executeSpotTrade_later env ctx : preserves later (executeSpotTrade env ctx).
Proof.
  unfold executeSpotTrade.
  repeat first
    [ apply autoSetup_later | apply settleTrade_later | apply executeTrade_later
    | apply newSafeModuleService_later
    | walk later_refl later_trans later_tick ].
Qed.

Lemma executeSignalInternal_later env ctx :
  preserves later (executeSignalInternal env ctx).
Proof.
  unfold executeSignalInternal, routeToVenue.
  repeat first
    [ apply executeSpotTrade_later | apply preTradeValidation_later
    | walk later_refl later_trans later_tick ].
Qed.

Lemma executeSignalForDeployment_later env sid did :
  preserves later (executeSignalForDeployment env sid did).
Proof.
  unfold executeSignalForDeployment.
  repeat first
    [ apply executeSignalInternal_later
    | walk later_refl later_trans later_tick ].
Qed.

Lemma newEntries_none w : newEntries w w = [].
Proof. apply newEntries_app. symmetry. apply app_nil_r. Qed.

Lemma newEntries_tick w w' : newEntries (tick w) w' = newEntries w w'.
Proof. reflexivity. Qed.

Lemma tryCatch_bind_ask A B (oracle : nat -> reply A) (k : A -> M B) h w :
  tryCatch (bind (ask oracle) k) h w
  = match oracle (clock w) with
    | Returns a => tryCatch (k a) h (tick w)
    | Raises e => h e (tick w)
    end.
Proof. unfold tryCatch, bind, ask. destruct (oracle (clock w)); reflexivity. Qed.

(** An open that hands anything to the chain has first read the chain and
    found the trading module enabled on the Safe of its deployment. *)
Lemma executeSignalInternal_verified env ctx w :
  let w' := snd (executeSignalInternal env ctx w) in
  newEntries w w' = []
  \/ (isModuleEnabled env (clock w) (safeWallet (deployment ctx))
        (tradingModuleAddress env) = true
      /\ (clock w < clock w')%nat).
Proof.
  unfold executeSignalInternal. cbv zeta. rewrite tryCatch_bind_ask.
  unfold validateSafe.
  destruct (safeReadiness env (clock w) (safeWallet (deployment ctx))
              (getChainIdForVenue env (sig_venue (signal ctx)))) as [v | e]; simpl.
  2:{ left. exact (newEntries_none w). }
  destruct (valid v) eqn:Hvalid; simpl; [| left; exact (newEntries_none w)].
  destruct (isModuleEnabled env (clock w) (safeWallet (deployment ctx))
              (tradingModuleAddress env)) eqn:Hmodule; simpl;
    [| left; exact (newEntries_none w)].
  right. split; [reflexivity |].
  match goal with
  | |- context [tryCatch ?m ?h (tick w)] =>
      assert (Hl : later (tick w) (snd (tryCatch m h (tick w))))
  end.
  { apply preserves_tryCatch; [apply later_trans | |
                               intros ?; apply preserves_ret; apply later_refl].
    apply preserves_bind; [apply later_trans | apply preTradeValidation_later |].
    intros check. destruct (negb (canExecute check)).
    - apply preserves_ret. apply later_refl.
    - unfold routeToVenue. destruct (sig_venue (signal ctx)).
      + apply executeSpotTrade_later.
      + apply preserves_ret. apply later_refl.
      + apply preserves_ret. apply later_refl. }
  unfold later in Hl. simpl in Hl. lia.
Qed.

Lemma executeSignalForDeployment_verified env sid did w :
  let w' := snd (executeSignalForDeployment env sid did w) in
  forall entry safe,
    In entry (newEntries w w') ->
    openSafe (call (snd (fst entry))) = Some safe ->
    (exists dep, findDeployment (db w) did = Some dep /\ safeWallet dep = safe)
    /\ isModuleEnabled env (clock w) safe (tradingModuleAddress env) = true
    /\ (clock w < clock w')%nat.
Proof.
  unfold executeSignalForDeployment, tryCatch, bind, getStore. simpl.
  destruct (findSignal (db w) sid) as [sg |];
    [| simpl; rewrite newEntries_none; intros ? ? []].
  destruct (findDeployment (db w) did) as [dep |];
    [| simpl; rewrite newEntries_none; intros ? ? []].
  destruct (findAgent (db w) (sig_agentId sg)) as [ag |];
    [| simpl; rewrite newEntries_none; intros ? ? []].
  set (ctx := {| signal := sg; agent := ag; deployment := dep |}).
  pose proof (executeSignalInternal_verified env ctx w) as Hver.
  pose proof (executeSignalInternal_opens env ctx w) as Hopens.
  apply logGrows_newEntries in Hopens. rewrite Forall_forall in Hopens.
  assert (Hsame : snd (match executeSignalInternal env ctx w with
                       | (Throw e, w') => ret (failure e) w'
                       | r => r
                       end) = snd (executeSignalInternal env ctx w)).
  { destruct (executeSignalInternal env ctx w) as [[r | e |] w1]; reflexivity. }
  rewrite Hsame. clear Hsame.
  intros entry safe Hin Hsafe.
  destruct Hver as [Hnone | [Hmodule Hclock]]; [rewrite Hnone in Hin; destruct Hin |].
  apply list_elem_of_In in Hin.
  pose proof (Hopens entry Hin safe Hsafe) as Heq. simpl in Heq. subst safe.
  split; [exists dep; auto |]. split; assumption.
Qed.

Lemma verifiedOnChain_refl env w : verifiedOnChain env w w.
Proof.
  split; [apply logExtends_refl |]. split; [apply later_refl |].
  rewrite newEntries_none. intros ? ? [].
Qed.

Lemma verifiedOnChain_trans env a b c :
  verifiedOnChain env a b -> verifiedOnChain env b c -> verifiedOnChain env a c.
Proof.
  intros (Hl1 & Ht1 & H1) (Hl2 & Ht2 & H2).
  split; [eapply logExtends_trans; eauto |].
  split; [eapply later_trans; eauto |].
  intros entry safe Hin Hsafe.
  rewrite (newEntries_trans a b c Hl1 Hl2) in Hin.
  apply in_app_or in Hin. unfold later in *.
  destruct Hin as [Hin | Hin].
  - destruct (H1 entry safe Hin Hsafe) as (t & Ht & Hm). exists t. split; [lia | exact Hm].
  - destruct (H2 entry safe Hin Hsafe) as (t & Ht & Hm). exists t. split; [lia | exact Hm].
Qed.

Lemma verifiedOnChain_tick env w : verifiedOnChain env w (tick w).
Proof.
  split; [apply logExtends_tick |]. split; [apply later_tick |].
  change (newEntries w (tick w)) with (newEntries w w).
  rewrite newEntries_none. intros ? ? [].
Qed.

Lemma executeSignalForDeployment_verifiedOnChain env sid did :
  preserves (verifiedOnChain env) (executeSignalForDeployment env sid did).
Proof.
  intros w. split; [apply executeSignalForDeployment_clean |].
  split; [apply executeSignalForDeployment_later |].
  intros entry safe Hin Hsafe.
  destruct (executeSignalForDeployment_verified env sid did w entry safe Hin Hsafe)
    as (_ & Hmodule & Hclock).
  exists (clock w). split; [lia | exact Hmodule].
Qed.

Lemma executeOnDeployments_verifiedOnChain env sg ds : forall created errors,
  preserves (verifiedOnChain env) (executeOnDeployments env sg ds created errors).
Proof.
  induction ds as [| dep rest IH]; intros created errors; simpl.
  - apply preserves_ret. apply verifiedOnChain_refl.
  - repeat first
      [ apply IH | apply executeSignalForDeployment_verifiedOnChain
      | walk (verifiedOnChain_refl env) (verifiedOnChain_trans env)
             (verifiedOnChain_tick env) ].
Qed.

Lemma handler_verifiedOnChain env req :
  preserves (verifiedOnChain env) (handler env req).
Proof.
  unfold handler.
  repeat first
    [ apply executeOnDeployments_verifiedOnChain
    | walk (verifiedOnChain_refl env) (verifiedOnChain_trans env)
           (verifiedOnChain_tick env) ].
Qed.

(** C5 (as stated) fails: the open of the coordinator itself, which the
    manual path calls directly, looks at neither the status nor the
    subscription of the deployment.  On a deployment that is PAUSED, whose
    subscription has lapsed and whose cached module flag is cleared, with
    the module enabled on-chain, it executes the trade and stores the
    position; the endpoint, on the same store, executes nothing. *)
Lemma paused_deployment_trades_through_coordinator :
  let out := executeSignalForDeployment sampleEnv 1%nat 1%nat pausedWorld in
  let answer := handler sampleEnv (postSignal 1%nat) pausedWorld in
  (exists dep, findDeployment (db pausedWorld) 1%nat = Some dep
               /\ dep_status dep = PAUSED
               /\ subActive dep = false
               /\ moduleEnabled dep = false)
  /\ (exists r, fst out = Ok r /\ success r = true)
  /\ openConfirmed pausedWorld (snd out)
  /\ (exists p, positions (db (snd out)) = [p] /\ deploymentId p = 1%nat)
  /\ fst answer
     = Ok {| statusCode := 200;
             body := NothingToDo (Text "No active deployments found for this agent") |}
  /\ newEntries pausedWorld (snd answer) = [].
Proof.
  split; [eexists; split; [vm_compute; reflexivity |]; repeat split |].
  split; [eexists; split; [vm_compute; reflexivity | reflexivity] |].
  split; [vm_compute; reflexivity |].
  split; [eexists; split; [vm_compute; reflexivity | reflexivity] |].
  split; vm_compute; reflexivity.
Qed.

(** C5 (amended). Through the execute-trade-once endpoint a trade is opened
    only on the Safe of a deployment whose stored row has status ACTIVE, an
    active subscription and the cached module-enabled flag set, and only
    after a reading of the chain, during that request, has found the
    trading module enabled on that Safe.  The open of the coordinator
    itself, however it is reached, hands a trade to the chain only for the
    Safe of its deployment and only after its validation, the first thing
    it asks the outside world, has found the module enabled on-chain: the
    cached flag alone never lets a trade through. *)
Theorem trades_gated_by_flags_and_chain (env : Env) :
  (forall req w,
      NoDup (map dep_id (deployments (db w))) ->
      let out := handler env req w in
      forall entry safe,
        In entry (newEntries w (snd out)) ->
        openSafe (call (snd (fst entry))) = Some safe ->
        (exists dep, In dep (deployments (db w))
                     /\ safeWallet dep = safe
                     /\ dep_status dep = ACTIVE
                     /\ subActive dep = true
                     /\ moduleEnabled dep = true)
        /\ exists t, (clock w <= t < clock (snd out))%nat
                     /\ isModuleEnabled env t safe (tradingModuleAddress env) = true)
  /\ (forall sid did w,
        let out := executeSignalForDeployment env sid did w in
        forall entry safe,
          In entry (newEntries w (snd out)) ->
          openSafe (call (snd (fst entry))) = Some safe ->
          (exists dep, findDeployment (db w) did = Some dep /\ safeWallet dep = safe)
          /\ isModuleEnabled env (clock w) safe (tradingModuleAddress env) = true).
Proof.
  split.
  - intros req w Hkeys out entry safe Hin Hsafe. split.
    + pose proof (logGrows_newEntries _ _ _ (handler_gated env req w Hkeys)) as Hall.
      rewrite Forall_forall in Hall.
      apply list_elem_of_In in Hin.
      destruct (Hall entry Hin safe Hsafe) as (dep & Hdep & Hs & Ha & Hb & Hc).
      exists dep. auto.
    + destruct (handler_verifiedOnChain env req w) as (_ & _ & Hver).
      exact (Hver entry safe Hin Hsafe).
  - intros sid did w out entry safe Hin Hsafe.
    destruct (executeSignalForDeployment_verified env sid did w entry safe Hin Hsafe)
      as (Hdep & Hmodule & _).
    split; assumption.
Qed.

Lemma trades_gated_by_flags_and_chain_witness :
  let out := handler sampleEnv (postSignal 1%nat) sampleWorld in
  exists entry,
    In entry (newEntries sampleWorld (snd out))
    /\ openSafe (call (snd (fst entry))) = Some (safeWallet sampleDeployment)
    /\ (exists dep, In dep (deployments (db sampleWorld))
                    /\ safeWallet dep = safeWallet sampleDeployment
                    /\ dep_status dep = ACTIVE
                    /\ subActive dep = true
                    /\ moduleEnabled dep = true)
    /\ exists t, (0 <= t < clock (snd out))%nat
                 /\ isModuleEnabled sampleEnv t (safeWallet sampleDeployment)
                      (tradingModuleAddress sampleEnv) = true.
Proof.
  intros out.
  destruct (trades_gated_by_flags_and_chain sampleEnv) as [Hendpoint _].
  assert (Hkeys : NoDup (map dep_id (deployments (db sampleWorld)))).
  { vm_compute. apply NoDup_cons. split; [| apply NoDup_nil; exact I].
    intros H. apply list_elem_of_In in H. destruct H. }
  assert (Hentry : exists entry, In entry (newEntries sampleWorld (snd out))
                                 /\ openSafe (call (snd (fst entry)))
                                    = Some (safeWallet sampleDeployment)).
  { vm_compute. eexists. split; [right; left; reflexivity | reflexivity]. }
  destruct Hentry as (entry & Hin & Hsafe).
  exists entry. split; [exact Hin |]. split; [exact Hsafe |].
  exact (Hendpoint (postSignal 1%nat) sampleWorld Hkeys entry _ Hin Hsafe).
Defined.

(** ** The resumable open is the open *)


Lemma agree_refl A (m : M A) : agree m m.
Proof. intros w. reflexivity. Qed.

Lemma agree_bind A B (m m' : M A) (k k' : A -> M B) :
  agree m m' -> (forall x, agree (k x) (k' x)) -> agree (bind m k) (bind m' k').
Proof.
  intros Hm Hk w. unfold bind. rewrite (Hm w).
  destruct (m' w) as [[a | e |] w1]; [apply Hk | reflexivity | reflexivity].
Qed.

Lemma agree_tryCatch A (m m' : M A) (h h' : Message -> M A) :
  agree m m' -> (forall e, agree (h e) (h' e)) ->
  agree (tryCatch m h) (tryCatch m' h').
Proof.
  intros Hm Hh w. unfold tryCatch. rewrite (Hm w).
  destruct (m' w) as [[a | e |] w1]; [reflexivity | apply Hh | reflexivity].
Qed.

Lemma run_Bind A X (p : Prog X) (k : X -> Prog A) :
  run (Bind p k) = bind (run p) (fun x => run (k x)).
Proof. reflexivity. Qed.

Lemma run_Try A (p : Prog A) h :
  run (Try p h) = tryCatch (run p) (fun e => run (h e)).
Proof. reflexivity. Qed.

Ltac link_step :=
  match goal with
  | |- agree (run (Ret _)) _ => apply agree_refl
  | |- agree (run (Raise _)) _ => apply agree_refl
  | |- agree (run (Await _)) _ => apply agree_refl
  | |- agree (run (Bind _ _)) _ => rewrite run_Bind; apply agree_bind; [| intros ?]
  | |- agree (run (Try _ _)) _ => rewrite run_Try; apply agree_tryCatch; [| intros ?]
  | |- agree (run (if ?b then _ else _)) _ => destruct b
  | |- agree (run (match ?x with _ => _ end)) _ => destruct x
  | |- agree (run (let _ := _ in _)) _ => cbv zeta
  | |- agree _ (let _ := _ in _) => cbv zeta
  end.

Lemma getNextNonce_agree env svc :
  agree (run (Resumable.getNextNonce env svc)) (getNextNonce env svc).
Proof.
  intros w. unfold Resumable.getNextNonce, getNextNonce. simpl run.
  unfold bind at 1, Resumable.acquire.
  destruct (decide (executor svc ∈ nonceLocks w)); [reflexivity |].
  unfold tryFinally, bind, Resumable.cachedNonce. simpl.
  destruct (nonceTracker w !! executor svc); reflexivity.
Qed.

Lemma newSafeModuleService_agree env config :
  agree (run (Resumable.newSafeModuleService env config)) (newSafeModuleService env config).
Proof. unfold Resumable.newSafeModuleService, newSafeModuleService. repeat link_step. Qed.

Lemma initializeCapital_agree env svc safe :
  agree (run (Resumable.initializeCapital env svc safe)) (initializeCapital env svc safe).
Proof. unfold Resumable.initializeCapital, initializeCapital. repeat link_step. Qed.

Lemma executeTradeWithIntent_agree env svc params :
  agree (run (Resumable.executeTradeWithIntent env svc params))
        (executeTradeWithIntent env svc params).
Proof.
  unfold Resumable.executeTradeWithIntent, executeTradeWithIntent.
  repeat first [apply getNextNonce_agree | link_step].
Qed.

Lemma executeTrade_agree env svc params :
  agree (run (Resumable.executeTrade env svc params)) (executeTrade env svc params).
Proof.
  unfold Resumable.executeTrade, executeTrade.
  repeat first [apply getNextNonce_agree | apply executeTradeWithIntent_agree | link_step].
Qed.

Lemma approveTokenForDex_agree env svc safe token router :
  agree (run (Resumable.approveTokenForDex env svc safe token router))
        (approveTokenForDex env svc safe token router).
Proof.
  unfold Resumable.approveTokenForDex, approveTokenForDex.
  repeat first [apply getNextNonce_agree | link_step].
Qed.

Lemma checkTokenWhitelist_agree env svc safe token :
  agree (run (Resumable.checkTokenWhitelist env svc safe token))
        (checkTokenWhitelist env svc safe token).
Proof. unfold Resumable.checkTokenWhitelist, checkTokenWhitelist. repeat link_step. Qed.

Lemma setTokenWhitelist_agree env svc safe token st :
  agree (run (Resumable.setTokenWhitelist env svc safe token st))
        (setTokenWhitelist env svc safe token st).
Proof.
  unfold Resumable.setTokenWhitelist, setTokenWhitelist.
  repeat first [apply getNextNonce_agree | link_step].
Qed.

Lemma preTradeValidation_agree env sg dep :
  agree (run (Resumable.preTradeValidation env sg dep)) (preTradeValidation env sg dep).
Proof. unfold Resumable.preTradeValidation, preTradeValidation. repeat link_step. Qed.

Lemma autoSetup_agree env svc safe token usdc router :
  agree (run (Resumable.autoSetup env svc safe token usdc router))
        (autoSetup env svc safe token usdc router).
Proof.
  unfold Resumable.autoSetup, autoSetup, Resumable.getSafeStats, getSafeStats.
  repeat first
    [ apply initializeCapital_agree | apply checkTokenWhitelist_agree
    | apply setTokenWhitelist_agree | apply approveTokenForDex_agree | link_step ].
Qed.

Lemma settleTrade_agree env ctx sym hash size result :
  agree (run (Resumable.settleTrade env ctx sym hash size result))
        (settleTrade env ctx sym hash size result).
Proof. unfold Resumable.settleTrade, settleTrade. repeat link_step. Qed.

Lemma executeSpotTrade_agree env ctx :
  agree (run (Resumable.executeSpotTrade env ctx)) (executeSpotTrade env ctx).
Proof.
  unfold Resumable.executeSpotTrade, executeSpotTrade.
  repeat first
    [ apply newSafeModuleService_agree | apply autoSetup_agree
    | apply executeTrade_agree | apply settleTrade_agree | link_step ].
Qed.

Lemma executeSignalInternal_agree env ctx :
  agree (run (Resumable.executeSignalInternal env ctx)) (executeSignalInternal env ctx).
Proof.
  unfold Resumable.executeSignalInternal, executeSignalInternal,
    Resumable.routeToVenue, routeToVenue.
  repeat first
    [ apply preTradeValidation_agree | apply executeSpotTrade_agree | link_step ].
Qed.

Lemma executeSignalForDeployment_agree env sid did :
  agree (run (Resumable.executeSignalForDeployment env sid did))
        (executeSignalForDeployment env sid did).
Proof.
  unfold Resumable.executeSignalForDeployment, executeSignalForDeployment.
  repeat first [apply executeSignalInternal_agree | link_step].
Qed.

(** ** Resuming an invocation *)

Lemma step_Bind A X (q : Prog X) (k : X -> Prog A) w :
  step (Bind q k) w
  = match settledWith q with
    | Some (inl x) => (k x, w)
    | Some (inr e) => (Raise e, w)
    | None => (Bind (fst (step q w)) k, snd (step q w))
    end.
Proof.
  destruct q; simpl; try reflexivity;
    match goal with
    | |- (let (_, _) := ?X in _) = _ => destruct X; reflexivity
    end.
Qed.

Lemma step_Try A (q : Prog A) h w :
  step (Try q h) w
  = match settledWith q with
    | Some (inl a) => (Ret a, w)
    | Some (inr e) => (h e, w)
    | None => (Try (fst (step q w)) h, snd (step q w))
    end.
Proof.
  destruct q; simpl; try reflexivity;
    match goal with
    | |- (let (_, _) := ?X in _) = _ => destruct X; reflexivity
    end.
Qed.

Lemma step_Finally A (q : Prog A) f w :
  step (Finally q f) w
  = match settledWith q with
    | Some (inl a) => (Ret a, f w)
    | Some (inr e) => (Raise e, f w)
    | None => (Finally (fst (step q w)) f, snd (step q w))
    end.
Proof.
  destruct q; simpl; try reflexivity;
    match goal with
    | |- (let (_, _) := ?X in _) = _ => destruct X; reflexivity
    end.
Qed.

Lemma step_Await A (act : M A) w :
  step (Await act) w
  = match act w with
    | (Ok a, w') => (Ret a, w')
    | (Throw e, w') => (Raise e, w')
    | (Hang, _) => (Await act, w)
    end.
Proof. reflexivity. Qed.

Lemma settledWith_value A (p : Prog A) a : settledWith p = Some (inl a) -> p = Ret a.
Proof. destruct p; simpl; intros H; inversion H; reflexivity. Qed.

Lemma settledWith_error A (p : Prog A) e : settledWith p = Some (inr e) -> p = Raise e.
Proof. destruct p; simpl; intros H; inversion H; reflexivity. Qed.

Lemma step_settled A (p : Prog A) w : settledWith p <> None -> step p w = (p, w).
Proof. destruct p; simpl; intros H; try reflexivity; contradiction. Qed.

Lemma step_every R A (p : Prog A) :
  (forall w, R w w) ->
  forall w, Every R p -> R w (snd (step p w)) /\ Every R (fst (step p w)).
Proof.
  intros Hrefl. induction p as [A a | A e | A act | A X q IHq k IHk | A q IHq h IHh
                               | A q IHq f]; intros w Hp.
  - split; [apply Hrefl | exact I].
  - split; [apply Hrefl | exact I].
  - rewrite step_Await. simpl in Hp. pose proof (Hp w) as Hw.
    destruct (act w) as [[a | e |] w1]; simpl in *.
    + split; [exact Hw | exact I].
    + split; [exact Hw | exact I].
    + split; [apply Hrefl | exact Hp].
  - rewrite step_Bind. destruct Hp as [Hq Hk].
    destruct (settledWith q) as [[x | e] |]; simpl.
    + split; [apply Hrefl | apply Hk].
    + split; [apply Hrefl | exact I].
    + destruct (IHq w Hq) as [Hr Hq1]. split; [exact Hr | split; [exact Hq1 | exact Hk]].
  - rewrite step_Try. destruct Hp as [Hq Hh].
    destruct (settledWith q) as [[x | e] |]; simpl.
    + split; [apply Hrefl | exact I].
    + split; [apply Hrefl | apply Hh].
    + destruct (IHq w Hq) as [Hr Hq1]. split; [exact Hr | split; [exact Hq1 | exact Hh]].
  - rewrite step_Finally. destruct Hp as [Hq Hf].
    destruct (settledWith q) as [[x | e] |]; simpl.
    + split; [apply Hf | exact I].
    + split; [apply Hf | exact I].
    + destruct (IHq w Hq) as [Hr Hq1]. split; [exact Hr | split; [exact Hq1 | exact Hf]].
Qed.

Lemma race_every R A schedule : forall (tasks : list (Prog A)) w,
  (forall w, R w w) -> (forall a b c, R a b -> R b c -> R a c) ->
  Forall (Every R) tasks ->
  R w (snd (race schedule tasks w)) /\ Forall (Every R) (fst (race schedule tasks w)).
Proof.
  induction schedule as [| i rest IH]; intros tasks w Hrefl Htrans Hall; simpl.
  - split; [apply Hrefl | exact Hall].
  - destruct (tasks !! i) as [t |] eqn:Hi; [| apply IH; assumption].
    destruct (step_every R A t Hrefl w) as [Hr Ht].
    { eapply Forall_lookup_1; eauto. }
    destruct (IH (<[ i := fst (step t w) ]> tasks) (snd (step t w)) Hrefl Htrans)
      as [Hr2 Hall2].
    { apply Forall_insert; assumption. }
    split; [eapply Htrans; eauto | exact Hall2].
Qed.

Lemma steps_add A n m (p : Prog A) w :
  steps (n + m) p w = steps m (fst (steps n p w)) (snd (steps n p w)).
Proof.
  revert p w. induction n as [| n IH]; intros p w; simpl; [reflexivity | apply IH].
Qed.

Lemma reaches_refl A (p : Prog A) w : reaches p w p w.
Proof. exists 0%nat. reflexivity. Qed.

Lemma reaches_trans A (p1 p2 p3 : Prog A) w1 w2 w3 :
  reaches p1 w1 p2 w2 -> reaches p2 w2 p3 w3 -> reaches p1 w1 p3 w3.
Proof.
  intros [n Hn] [m Hm]. exists (n + m)%nat. rewrite steps_add, Hn. exact Hm.
Qed.

Lemma reaches_step A (p : Prog A) w : reaches p w (fst (step p w)) (snd (step p w)).
Proof. exists 1%nat. reflexivity. Qed.

Lemma reaches_within X A (frame : Prog X -> Prog A) :
  (forall (q : Prog X) w, settledWith q = None ->
     step (frame q) w = (frame (fst (step q w)), snd (step q w))) ->
  forall (q q' : Prog X) w w', reaches q w q' w' -> reaches (frame q) w (frame q') w'.
Proof.
  intros Hframe q q' w w' [n Hn]. revert q w Hn.
  induction n as [| n IH]; intros q w Hn; simpl in Hn.
  - inversion Hn; subst. apply reaches_refl.
  - destruct (settledWith q) eqn:Hs.
    + rewrite step_settled in Hn by congruence. apply IH. exact Hn.
    + eapply reaches_trans; [apply reaches_step |].
      rewrite Hframe by exact Hs. apply IH. exact Hn.
Qed.

Lemma reaches_Bind A X (q q' : Prog X) (k : X -> Prog A) w w' :
  reaches q w q' w' -> reaches (Bind q k) w (Bind q' k) w'.
Proof.
  apply (reaches_within X A (fun q => Bind q k)).
  intros q0 w0 Hs. rewrite step_Bind, Hs. reflexivity.
Qed.

Lemma reaches_Try A (q q' : Prog A) h w w' :
  reaches q w q' w' -> reaches (Try q h) w (Try q' h) w'.
Proof.
  apply (reaches_within A A (fun q => Try q h)).
  intros q0 w0 Hs. rewrite step_Try, Hs. reflexivity.
Qed.

Lemma reaches_Finally A (q q' : Prog A) f w w' :
  reaches q w q' w' -> reaches (Finally q f) w (Finally q' f) w'.
Proof.
  apply (reaches_within A A (fun q => Finally q f)).
  intros q0 w0 Hs. rewrite step_Finally, Hs. reflexivity.
Qed.

(** Resumed again and again with nobody in between, a program ends as the
    computation it was cut from. *)
Lemma run_reaches A (p : Prog A) : forall w,
  match run p w with
  | (Ok a, w') => reaches p w (Ret a) w'
  | (Throw e, w') => reaches p w (Raise e) w'
  | (Hang, _) => True
  end.
Proof.
  induction p as [A a | A e | A act | A X q IHq k IHk | A q IHq h IHh | A q IHq f];
    intros w; simpl.
  - apply reaches_refl.
  - apply reaches_refl.
  - destruct (act w) as [[a | e |] w1] eqn:Hact; [| | exact I].
    + exists 1%nat. simpl. rewrite Hact. reflexivity.
    + exists 1%nat. simpl. rewrite Hact. reflexivity.
  - unfold bind. specialize (IHq w).
    destruct (run q w) as [[x | e |] w1]; [| | exact I].
    + specialize (IHk x w1).
      assert (Hfirst : reaches (Bind q k) w (k x) w1).
      { eapply reaches_trans; [apply reaches_Bind; exact IHq |].
        exists 1%nat. reflexivity. }
      destruct (run (k x) w1) as [[b | e |] w2]; [| | exact I];
        eapply reaches_trans; eauto.
    + eapply reaches_trans; [apply reaches_Bind; exact IHq |].
      exists 1%nat. reflexivity.
  - unfold tryCatch. specialize (IHq w).
    destruct (run q w) as [[a | e |] w1]; [| | exact I].
    + eapply reaches_trans; [apply reaches_Try; exact IHq |].
      exists 1%nat. reflexivity.
    + specialize (IHh e w1).
      assert (Hfirst : reaches (Try q h) w (h e) w1).
      { eapply reaches_trans; [apply reaches_Try; exact IHq |].
        exists 1%nat. reflexivity. }
      destruct (run (h e) w1) as [[b | e' |] w2]; [| | exact I];
        eapply reaches_trans; eauto.
  - unfold tryFinally. specialize (IHq w).
    destruct (run q w) as [[a | e |] w1]; [| | exact I].
    + eapply reaches_trans; [apply reaches_Finally; exact IHq |].
      exists 1%nat. reflexivity.
    + eapply reaches_trans; [apply reaches_Finally; exact IHq |].
      exists 1%nat. reflexivity.
Qed.

Lemma race_alone A n (p : Prog A) w :
  race (repeat 0%nat n) [p] w = ([fst (steps n p w)], snd (steps n p w)).
Proof.
  revert p w. induction n as [| n IH]; intros p w; simpl; [reflexivity | apply IH].
Qed.

(** ** The logic of interleaved invocations *)

Section LogicRules.

Variable Inv : World -> Prop.
Variable Quiet : World -> World -> Prop.

Lemma WP_mono A (p : Prog A) : forall (Q Q' : Post A) u1 u2,
  (forall o v1 v2, Q o v1 v2 -> Q' o v1 v2) ->
  WP Inv Quiet p Q u1 u2 -> WP Inv Quiet p Q' u1 u2.
Proof.
  induction p as [A a | A e | A act | A X q IHq k IHk | A q IHq h IHh | A q IHq f];
    intros Q Q' u1 u2 HQ; simpl.
  - apply HQ.
  - apply HQ.
  - intros [Hq Hact]. split; [exact Hq |]. intros w Hw. specialize (Hact w Hw).
    destruct (act w) as [[a | e |] w1]; [| | exact I];
      (destruct Hact as [Hi Hpost]; split; [exact Hi | apply HQ; exact Hpost]).
  - apply IHq. intros [x | e] v1 v2; [apply IHk; exact HQ | apply HQ].
  - apply IHq. intros [a | e] v1 v2; [apply HQ | apply IHh; exact HQ].
  - apply IHq. intros o v1 v2 [Hq Hf]. split; [exact Hq |].
    intros w Hw. destruct (Hf w Hw) as [Hi Hpost]. split; [exact Hi | apply HQ; exact Hpost].
Qed.

(** What is decided of a program satisfies its postcondition; a program
    that still has something to run was left by a quiet statement. *)
Lemma WP_verdict A (p : Prog A) : forall (Q : Post A) u1 u2,
  WP Inv Quiet p Q u1 u2 ->
  match pureResult p with
  | Some o => Q o u1 u2
  | None => Quiet u1 u2
  end.
Proof.
  induction p as [A a | A e | A act | A X q IHq k IHk | A q IHq h IHh | A q IHq f];
    intros Q u1 u2 H; simpl in *.
  - exact H.
  - exact H.
  - apply H.
  - specialize (IHq _ _ _ H). destruct (pureResult q) as [[x | e] |].
    + apply IHk. exact IHq.
    + exact IHq.
    + exact IHq.
  - specialize (IHq _ _ _ H). destruct (pureResult q) as [[a | e] |].
    + exact IHq.
    + apply IHh. exact IHq.
    + exact IHq.
  - specialize (IHq _ _ _ H). destruct (pureResult q) as [o |].
    + apply IHq.
    + exact IHq.
Qed.

Lemma pureResult_settled A (p : Prog A) o : settledWith p = Some o -> pureResult p = Some o.
Proof. destruct p; simpl; intros H; inversion H; reflexivity. Qed.

(** Resuming a program either passes a result on without touching the
    world, or runs one statement of a program that had something left to
    run; in both cases the program is again as the logic says. *)
Lemma WP_step A (p : Prog A) : forall (Q : Post A) u1 u2 w,
  WP Inv Quiet p Q u1 u2 -> Inv w ->
  let p' := fst (step p w) in
  let w' := snd (step p w) in
  Inv w'
  /\ ((w' = w /\ pureResult p' = pureResult p /\ WP Inv Quiet p' Q u1 u2)
      \/ (pureResult p = None /\ WP Inv Quiet p' Q w w')).
Proof.
  induction p as [A a | A e | A act | A X q IHq k IHk | A q IHq h IHh | A q IHq f];
    intros Q u1 u2 w H Hw.
  - simpl. split; [exact Hw |]. left. auto.
  - simpl. split; [exact Hw |]. left. auto.
  - rewrite step_Await. simpl in H. destruct H as [Hq Hact].
    pose proof (Hact w Hw) as Hthis.
    destruct (act w) as [[a | e |] w1]; simpl.
    + destruct Hthis as [Hi Hpost]. split; [exact Hi |]. right. auto.
    + destruct Hthis as [Hi Hpost]. split; [exact Hi |]. right. auto.
    + split; [exact Hw |]. left. simpl. auto.
  - rewrite step_Bind. simpl in H.
    destruct (settledWith q) as [[x | e] |] eqn:Hs; simpl.
    + apply settledWith_value in Hs. subst q. simpl in H.
      split; [exact Hw |]. left. auto.
    + apply settledWith_error in Hs. subst q. simpl in H.
      split; [exact Hw |]. left. auto.
    + destruct (IHq _ u1 u2 w H Hw) as [Hi [(Hsame & Hpure & Hwp) | (Hnone & Hwp)]].
      * split; [exact Hi |]. left. simpl. rewrite Hpure. auto.
      * split; [exact Hi |]. right. simpl. rewrite Hnone. auto.
  - rewrite step_Try. simpl in H.
    destruct (settledWith q) as [[x | e] |] eqn:Hs; simpl.
    + apply settledWith_value in Hs. subst q. simpl in H.
      split; [exact Hw |]. left. auto.
    + apply settledWith_error in Hs. subst q. simpl in H.
      split; [exact Hw |]. left. auto.
    + destruct (IHq _ u1 u2 w H Hw) as [Hi [(Hsame & Hpure & Hwp) | (Hnone & Hwp)]].
      * split; [exact Hi |]. left. simpl. rewrite Hpure. auto.
      * split; [exact Hi |]. right. simpl. rewrite Hnone. auto.
  - rewrite step_Finally. simpl in H.
    destruct (settledWith q) as [[x | e] |] eqn:Hs; simpl.
    + apply settledWith_value in Hs. subst q. simpl in H.
      destruct H as [_ Hf]. destruct (Hf w Hw) as [Hi Hpost].
      split; [exact Hi |]. right. auto.
    + apply settledWith_error in Hs. subst q. simpl in H.
      destruct H as [_ Hf]. destruct (Hf w Hw) as [Hi Hpost].
      split; [exact Hi |]. right. auto.
    + destruct (IHq _ u1 u2 w H Hw) as [Hi [(Hsame & Hpure & Hwp) | (Hnone & Hwp)]].
      * split; [exact Hi |]. left. simpl. auto.
      * split; [exact Hi |]. right. simpl. auto.
Qed.

Hypothesis Inv_quiet : forall w w', Inv w -> Quiet w w' -> Inv w'.

(** A program all of whose statements are quiet ends, if it does, after a
    quiet statement. *)
Lemma WP_every A (p : Prog A) : forall (Q : Post A) u1 u2,
  Every Quiet p ->
  (forall o v1 v2, Quiet v1 v2 -> Q o v1 v2) ->
  Quiet u1 u2 -> WP Inv Quiet p Q u1 u2.
Proof.
  induction p as [A a | A e | A act | A X q IHq k IHk | A q IHq h IHh | A q IHq f];
    intros Q u1 u2 Hp HQ Hu; simpl in *.
  - apply HQ; exact Hu.
  - apply HQ; exact Hu.
  - split; [exact Hu |]. intros w Hw. pose proof (Hp w) as Hq.
    destruct (act w) as [[a | e |] w1]; simpl in Hq; [| | exact I];
      (split; [eapply Inv_quiet; eauto | apply HQ; exact Hq]).
  - destruct Hp as [Hq Hk]. apply IHq; [exact Hq | | exact Hu].
    intros [x | e] v1 v2 Hv; [apply IHk; auto | apply HQ; exact Hv].
  - destruct Hp as [Hq Hh]. apply IHq; [exact Hq | | exact Hu].
    intros [a | e] v1 v2 Hv; [apply HQ; exact Hv | apply IHh; auto].
  - destruct Hp as [Hq Hf]. apply IHq; [exact Hq | | exact Hu].
    intros o v1 v2 Hv. split; [exact Hv |].
    intros w Hw. split; [eapply Inv_quiet; eauto | apply HQ; apply Hf].
Qed.

End LogicRules.

(** ** Racing opens *)

Lemma positionsKept_refl w : positionsKept w w.
Proof. reflexivity. Qed.

Lemma positionsKept_trans a b c :
  positionsKept a b -> positionsKept b c -> positionsKept a c.
Proof. unfold positionsKept. congruence. Qed.

Lemma pairsDistinct_kept w w' : pairsDistinct w -> positionsKept w w' -> pairsDistinct w'.
Proof. unfold pairsDistinct, uniquePairs, positionsKept. intros H E. rewrite E. exact H. Qed.

Lemma kept_of_sameStore A (m : M A) : preserves sameStore m -> preserves positionsKept m.
Proof. intros H w. unfold positionsKept. rewrite (H w). reflexivity. Qed.

Lemma acquire_sameStore address : preserves sameStore (Resumable.acquire address).
Proof.
  intros w. unfold Resumable.acquire.
  destruct (decide (address ∈ nonceLocks w)); reflexivity.
Qed.

Lemma cachedNonce_sameStore address : preserves sameStore (Resumable.cachedNonce address).
Proof. intros w. reflexivity. Qed.

Lemma cacheNonce_sameStore address n : preserves sameStore (cacheNonce address n).
Proof. intros w. reflexivity. Qed.

Lemma recordProofOfIntent_kept ctx hash result :
  preserves positionsKept (recordProofOfIntent ctx hash result).
Proof.
  intros w. unfold recordProofOfIntent, dbWrite, bind, getStore, liftReply, setStore,
    updateSignal, positionsKept.
  destruct (findSignal (db w) (sig_id (signal ctx))); reflexivity.
Qed.

Lemma every_Bind R A X (p : Prog X) (k : X -> Prog A) :
  Every R p -> (forall x, Every R (k x)) -> Every R (Bind p k).
Proof. intros Hp Hk. split; assumption. Qed.

Lemma every_Try R A (p : Prog A) h :
  Every R p -> (forall e, Every R (h e)) -> Every R (Try p h).
Proof. intros Hp Hh. split; assumption. Qed.

Lemma every_Finally R A (p : Prog A) f :
  Every R p -> (forall w, R w (f w)) -> Every R (Finally p f).
Proof. intros Hp Hf. split; assumption. Qed.

(** One step of the proof that every statement of a program leaves the
    positions alone. *)
Ltac kept_step :=
  match goal with
  | |- Every _ (Ret _) => exact I
  | |- Every _ (Raise _) => exact I
  | |- Every _ (Bind _ _) => apply every_Bind; [| intros ?]
  | |- Every _ (Try _ _) => apply every_Try; [| intros ?]
  | |- Every _ (Finally _ _) => apply every_Finally; [| intros ?; reflexivity]
  | |- Every _ (Await (recordProofOfIntent _ _ _)) => apply recordProofOfIntent_kept
  | |- Every _ (Await ?act) =>
      change (preserves positionsKept act); apply kept_of_sameStore;
      first [ apply preserves_ask; apply sameStore_tick
            | apply preserves_observe; apply sameStore_tick
            | apply preserves_liftReply; apply sameStore_refl
            | apply preserves_getStore; apply sameStore_refl
            | apply send_sameStore
            | apply acquire_sameStore
            | apply cachedNonce_sameStore
            | apply cacheNonce_sameStore ]
  | |- Every _ (if ?b then _ else _) => destruct b
  | |- Every _ (match ?x with _ => _ end) => destruct x
  | |- Every _ (let _ := _ in _) => cbv zeta
  end.

Lemma getNextNonce_kept env svc : Every positionsKept (Resumable.getNextNonce env svc).
Proof. unfold Resumable.getNextNonce. repeat kept_step. Qed.

Ltac kept :=
  repeat match goal with
         | |- Every _ (Resumable.getNextNonce _ _) => apply getNextNonce_kept
         | _ => kept_step
         end.

Lemma executeTrade_kept env svc params :
  Every positionsKept (Resumable.executeTrade env svc params).
Proof. unfold Resumable.executeTrade, Resumable.executeTradeWithIntent. kept. Qed.

Lemma autoSetup_kept env svc safe token usdc router :
  Every positionsKept (Resumable.autoSetup env svc safe token usdc router).
Proof.
  unfold Resumable.autoSetup, Resumable.getSafeStats, Resumable.initializeCapital,
    Resumable.checkTokenWhitelist, Resumable.setTokenWhitelist,
    Resumable.approveTokenForDex.
  kept.
Qed.

Lemma preTradeValidation_kept env sg dep :
  Every positionsKept (Resumable.preTradeValidation env sg dep).
Proof. unfold Resumable.preTradeValidation. kept. Qed.

Lemma newSafeModuleService_kept env config :
  Every positionsKept (Resumable.newSafeModuleService env config).
Proof. unfold Resumable.newSafeModuleService. kept. Qed.

Section SafeOpen.

Variables d sg : Id.

Lemma caughtPost_failure o u1 u2 :
  match o with
  | inl r => success r = false /\ error r <> None
  | inr _ => True
  end ->
  positionsKept u1 u2 -> caughtPost d sg o u1 u2.
Proof.
  intros Ho Hu. unfold caughtPost, openPost.
  destruct o as [r | e]; simpl.
  - destruct Ho as [Hs He]. rewrite Hs. split; [exact Hu | exact He].
  - split; [exact Hu | discriminate].
Qed.

Lemma safe_ret r : success r = false -> error r <> None -> safeOpen d sg (Ret r).
Proof. intros Hs He u1 u2 Hu. simpl. apply (caughtPost_failure (inl r)); auto. Qed.

Lemma safe_raise e : safeOpen d sg (Raise e).
Proof. intros u1 u2 Hu. simpl. apply (caughtPost_failure (inr e)); auto. Qed.

Lemma safe_bind X (p : Prog X) (k : X -> Prog ExecutionResult) :
  Every positionsKept p -> (forall x, safeOpen d sg (k x)) -> safeOpen d sg (Bind p k).
Proof.
  intros Hp Hk u1 u2 Hu. simpl.
  apply WP_every; [exact pairsDistinct_kept | exact Hp | | exact Hu].
  intros [x | e] v1 v2 Hv; [apply Hk; exact Hv |].
  apply (caughtPost_failure (inr e)); auto.
Qed.

Lemma safe_try p : safeOpen d sg p -> safeOpen d sg (Try p (fun e => Ret (failure e))).
Proof.
  intros Hp u1 u2 Hu. simpl.
  eapply WP_mono; [| apply Hp; exact Hu].
  intros [r | e] v1 v2 H; exact H.
Qed.

(** The insert and the success that follows it. *)
Lemma safe_insert env data (result : Position -> ExecutionResult) :
  pc_deploymentId data = d -> pc_signalId data = sg ->
  (forall position, success (result position) = true
                    /\ positionId (result position) = Some (pos_id position)) ->
  safeOpen d sg (Bind (Await (createPosition env data))
                      (fun position => Ret (result position))).
Proof.
  intros Hd Hsg Hresult u1 u2 Hu. simpl. split; [exact Hu |].
  intros w Hw.
  unfold createPosition, bind, observe, getStore, liftReply, setStore, ret. simpl.
  destruct (insertPosition data (now env (clock w)) (db w)) as [[row st'] | e] eqn:Hins;
    simpl.
  - pose proof (insertPosition_unique _ _ _ _ _ Hins Hw) as Hunique.
    apply insertPosition_stores in Hins as (-> & _ & Hpair & _).
    split; [exact Hunique |].
    unfold caughtPost, openPost. destruct (Hresult row) as [Hs Hid]. rewrite Hs.
    exists row. simpl. rewrite Hpair, Hd, Hsg. auto.
  - split; [exact Hw |]. apply (caughtPost_failure (inr e)); [exact I | reflexivity].
Qed.

End SafeOpen.

Ltac safe_step :=
  match goal with
  | |- safeOpen _ _ (Ret _) => apply safe_ret; [reflexivity | discriminate]
  | |- safeOpen _ _ (Raise _) => apply safe_raise
  | |- safeOpen _ _ (Try _ _) => apply safe_try
  | |- safeOpen _ _ (Bind (Await (createPosition _ _)) _) =>
      apply safe_insert; [reflexivity | reflexivity | intros ?; split; reflexivity]
  | |- safeOpen _ _ (Bind _ _) => apply safe_bind; [| intros ?]
  | |- safeOpen _ _ (if ?b then _ else _) => destruct b
  | |- safeOpen _ _ (match ?x with _ => _ end) => destruct x
  | |- safeOpen _ _ (let _ := _ in _) => cbv zeta
  | |- Every _ (Resumable.getNextNonce _ _) => apply getNextNonce_kept
  | |- Every _ (Resumable.executeTrade _ _ _) => apply executeTrade_kept
  | |- Every _ (Resumable.autoSetup _ _ _ _ _ _) => apply autoSetup_kept
  | |- Every _ (Resumable.preTradeValidation _ _ _) => apply preTradeValidation_kept
  | |- Every _ (Resumable.newSafeModuleService _ _) => apply newSafeModuleService_kept
  | _ => kept_step
  end.

Lemma settleTrade_safe env ctx sym hash size result :
  safeOpen (dep_id (deployment ctx)) (sig_id (signal ctx))
           (Resumable.settleTrade env ctx sym hash size result).
Proof. unfold Resumable.settleTrade. repeat safe_step. Qed.

Lemma executeSpotTrade_safe env ctx :
  safeOpen (dep_id (deployment ctx)) (sig_id (signal ctx))
           (Resumable.executeSpotTrade env ctx).
Proof.
  unfold Resumable.executeSpotTrade.
  repeat match goal with
         | |- safeOpen _ _ (Resumable.settleTrade _ _ _ _ _ _) => apply settleTrade_safe
         | |- safeOpen _ _ (match positionSizing ?a ?b with _ => _ end) =>
             destruct (positionSizing a b) as [size | early] eqn:Hsize;
             [| destruct (positionSizing_early _ _ _ Hsize);
                apply safe_ret; assumption]
         | _ => safe_step
         end.
Qed.

Lemma executeSignalInternal_safe env ctx :
  safeOpen (dep_id (deployment ctx)) (sig_id (signal ctx))
           (Resumable.executeSignalInternal env ctx).
Proof.
  unfold Resumable.executeSignalInternal, Resumable.routeToVenue.
  repeat match goal with
         | |- safeOpen _ _ (Resumable.executeSpotTrade _ _) => apply executeSpotTrade_safe
         | _ => safe_step
         end.
Qed.

(** The resumable open ends as [openPost] says. *)
Lemma executeSignalForDeployment_safe env sid did u1 u2 :
  positionsKept u1 u2 ->
  WP pairsDistinct positionsKept (Resumable.executeSignalForDeployment env sid did)
     (openPost did sid) u1 u2.
Proof.
  intros Hu. unfold Resumable.executeSignalForDeployment.
  assert (Hbody : forall p, safeOpen did sid p ->
            WP pairsDistinct positionsKept (Try p (fun e => Ret (failure e)))
               (openPost did sid) u1 u2).
  { intros p Hp. simpl. eapply WP_mono; [| apply Hp; exact Hu].
    intros [r | e] v1 v2 H; exact H. }
  apply Hbody. clear Hbody.
  apply safe_bind; [kept_step |]. intros st.
  destruct (findSignal st sid) as [sg |] eqn:Hsig; [| safe_step].
  apply safe_bind; [kept_step |]. intros st'.
  destruct (findDeployment st' did) as [dep |] eqn:Hdep; [| safe_step].
  destruct (findAgent st (sig_agentId sg)) as [ag |]; [| safe_step].
  rewrite <- (find_sig_id _ _ _ Hsig), <- (find_dep_id _ _ _ Hdep).
  apply (executeSignalInternal_safe env {| signal := sg; agent := ag; deployment := dep |}).
Qed.

(** ** The race *)

Lemma countWins_insert tasks : forall i t t',
  tasks !! i = Some t ->
  (countWins (<[i := t']> tasks) + (if wins t then 1 else 0)
   = countWins tasks + (if wins t' then 1 else 0))%nat.
Proof.
  induction tasks as [| a tasks IH]; intros [| i] t t' H; simpl in *; try discriminate.
  - inversion H; subst. lia.
  - specialize (IH _ _ t' H). lia.
Qed.

Lemma wins_undecided t : pureResult t = None -> wins t = false.
Proof. unfold wins. intros ->. reflexivity. Qed.

Lemma lookup_insert_cases A (l : list A) i j x y :
  <[i := x]> l !! j = Some y -> (j = i /\ y = x) \/ (j <> i /\ l !! j = Some y).
Proof.
  revert i j. induction l as [| a l IH]; intros [| i] [| j] H; simpl in *;
    try discriminate; try (inversion H; subst; auto; fail).
  destruct (IH _ _ H) as [[-> ->] | [Hne Hl]];
    [left; auto | right; split; [congruence | exact Hl]].
Qed.

Lemma raceStands_step d sg w0 tasks w i t :
  raceStands d sg w0 tasks w -> tasks !! i = Some t ->
  raceStands d sg w0 (<[i := fst (step t w)]> tasks) (snd (step t w)).
Proof.
  intros (Hinv & Hall & new & Hpos & Hfor & Hlen & Hids) Hi.
  destruct (Forall_lookup_1 _ _ _ _ Hall Hi) as (u1 & u2 & Hwp).
  destruct (WP_step _ _ _ _ _ _ _ w Hwp Hinv) as [Hinv' [(Hsame & Hpure & Hwp') | (Hnone & Hwp')]].
  - split; [exact Hinv' |]. split.
    { apply Forall_insert; [exact Hall | exists u1, u2; exact Hwp']. }
    exists new. rewrite Hsame. split; [exact Hpos |]. split; [exact Hfor |]. split.
    + pose proof (countWins_insert tasks i t (fst (step t w)) Hi) as Hc.
      assert (Hw : wins (fst (step t w)) = wins t) by (unfold wins; rewrite Hpure; reflexivity).
      rewrite Hw in Hc. lia.
    + intros j t0 r Hj Hr Hs.
      destruct (lookup_insert_cases _ _ _ _ _ _ Hj) as [[-> ->] | [_ Hj']].
      * rewrite Hpure in Hr. exact (Hids _ _ _ Hi Hr Hs).
      * exact (Hids _ _ _ Hj' Hr Hs).
  - split; [exact Hinv' |]. split.
    { apply Forall_insert; [exact Hall | exists w, (snd (step t w)); exact Hwp']. }
    pose proof (countWins_insert tasks i t (fst (step t w)) Hi) as Hc.
    rewrite (wins_undecided _ Hnone) in Hc.
    pose proof (WP_verdict _ _ _ _ _ _ _ Hwp') as Hv.
    unfold wins in Hc.
    destruct (pureResult (fst (step t w))) as [[r | e] |] eqn:Hres.
    + unfold openPost in Hv. destruct (success r) eqn:Hs.
      * destruct Hv as (row & Hrow & Hpair & Hid).
        exists (new ++ [row]). split; [rewrite Hrow, Hpos, app_assoc; reflexivity |].
        split.
        { apply Forall_app. split; [exact Hfor |].
          apply Forall_cons. split; [exact Hpair | apply Forall_nil; exact I]. }
        split; [rewrite length_app; simpl; lia |].
        intros j t0 r0 Hj Hr0 Hs0.
        destruct (lookup_insert_cases _ _ _ _ _ _ Hj) as [[-> ->] | [_ Hj']].
        -- rewrite Hres in Hr0. inversion Hr0; subst r0.
           exists row. split; [apply in_or_app; right; left; reflexivity | exact Hid].
        -- destruct (Hids _ _ _ Hj' Hr0 Hs0) as (row0 & Hin & Hid0).
           exists row0. split; [apply in_or_app; left; exact Hin | exact Hid0].
      * destruct Hv as [Hkept _].
        exists new. split; [rewrite Hkept; exact Hpos |]. split; [exact Hfor |].
        split; [lia |].
        intros j t0 r0 Hj Hr0 Hs0.
        destruct (lookup_insert_cases _ _ _ _ _ _ Hj) as [[-> ->] | [_ Hj']].
        -- rewrite Hres in Hr0. inversion Hr0; subst r0. congruence.
        -- exact (Hids _ _ _ Hj' Hr0 Hs0).
    + destruct Hv.
    + exists new. split; [rewrite Hv; exact Hpos |]. split; [exact Hfor |].
      split; [lia |].
      intros j t0 r0 Hj Hr0 Hs0.
      destruct (lookup_insert_cases _ _ _ _ _ _ Hj) as [[-> ->] | [_ Hj']].
      * rewrite Hres in Hr0. discriminate.
      * exact (Hids _ _ _ Hj' Hr0 Hs0).
Qed.

Lemma race_stands d sg w0 schedule : forall tasks w,
  raceStands d sg w0 tasks w ->
  raceStands d sg w0 (fst (race schedule tasks w)) (snd (race schedule tasks w)).
Proof.
  induction schedule as [| i rest IH]; intros tasks w H; simpl; [exact H |].
  destruct (tasks !! i) as [t |] eqn:Hi; [| apply IH; exact H].
  apply IH. apply raceStands_step; assumption.
Qed.

Lemma NoDup_map_filter A B (f : A -> B) (g : A -> bool) (l : list A) :
  NoDup (map f l) -> NoDup (map f (List.filter g l)).
Proof.
  induction l as [| a l IH]; simpl; intros H; [exact H |].
  apply NoDup_cons in H as [Ha Hl].
  destruct (g a); simpl; [| exact (IH Hl)].
  apply NoDup_cons. split; [| exact (IH Hl)].
  intros Hin. apply Ha. apply list_elem_of_In. apply list_elem_of_In in Hin.
  apply in_map_iff in Hin as (x & Hx & Hin). apply filter_In in Hin as [Hin _].
  rewrite <- Hx. apply in_map. exact Hin.
Qed.

Lemma same_key_once A B (f : A -> B) (c : B) (l : list A) :
  NoDup (map f l) -> Forall (fun x => f x = c) l -> (length l <= 1)%nat.
Proof.
  destruct l as [| a [| b l]]; simpl; intros Hnd Hall; try lia.
  exfalso. apply NoDup_cons in Hnd as [Ha _].
  apply Forall_cons in Hall as [Hfa Hall]. apply Forall_cons in Hall as [Hfb _].
  apply Ha. rewrite Hfa, <- Hfb. left.
Qed.

Lemma forPair_pairOf d sg p : forPair d sg p = true <-> pairOf p = (d, sg).
Proof.
  unfold forPair, pairOf. rewrite andb_true_iff, !Nat.eqb_eq.
  split; [intros [-> ->]; reflexivity | intros H; inversion H; auto].
Qed.

Lemma filter_all A (g : A -> bool) (l : list A) :
  Forall (fun x => g x = true) l -> List.filter g l = l.
Proof.
  induction l as [| a l IH]; simpl; intros H; [reflexivity |].
  apply Forall_cons in H as [Ha Hl]. rewrite Ha, (IH Hl). reflexivity.
Qed.

(** With distinct pairs, the rows of one pair are at most one. *)
Lemma one_row_per_pair old new d sg :
  NoDup (map pairOf (old ++ new)) ->
  Forall (fun row => pairOf row = (d, sg)) new ->
  (length (List.filter (forPair d sg) old) + length new <= 1)%nat.
Proof.
  intros Hnd Hnew.
  assert (Hall : List.filter (forPair d sg) (old ++ new)
                 = List.filter (forPair d sg) old ++ new).
  { rewrite List.filter_app. f_equal. apply filter_all.
    eapply Forall_impl; [exact Hnew |]. intros row Hrow. simpl in Hrow.
    apply forPair_pairOf. exact Hrow. }
  rewrite <- length_app, <- Hall.
  apply (same_key_once _ _ pairOf (d, sg)).
  - apply NoDup_map_filter. exact Hnd.
  - apply Forall_forall. intros row Hin. apply list_elem_of_In in Hin.
    apply filter_In in Hin as [_ Hin]. apply forPair_pairOf. exact Hin.
Qed.

Lemma uniquePairs_one st d sg :
  uniquePairs st -> (length (positionsFor st d sg) <= 1)%nat.
Proof.
  intros H. pose proof (one_row_per_pair (positions st) [] d sg) as Hone.
  rewrite app_nil_r in Hone. specialize (Hone H (List.Forall_nil _)).
  unfold positionsFor. simpl in Hone. lia.
Qed.

Lemma countWins_one tasks : forall i t,
  tasks !! i = Some t -> wins t = true -> (1 <= countWins tasks)%nat.
Proof.
  induction tasks as [| a tasks IH]; intros [| i] t H Hw; simpl in *; try discriminate.
  - inversion H; subst. rewrite Hw. lia.
  - specialize (IH _ _ H Hw). lia.
Qed.

Lemma countWins_two tasks : forall i j t t',
  tasks !! i = Some t -> tasks !! j = Some t' ->
  wins t = true -> wins t' = true -> i <> j -> (2 <= countWins tasks)%nat.
Proof.
  induction tasks as [| a tasks IH]; intros [| i] [| j] t t' Hi Hj Hw Hw' Hne;
    simpl in *; try discriminate; try congruence.
  - inversion Hi; subst. rewrite Hw. pose proof (countWins_one _ _ _ Hj Hw'). lia.
  - inversion Hj; subst. rewrite Hw'. pose proof (countWins_one _ _ _ Hi Hw). lia.
  - assert (i <> j) by congruence. specialize (IH _ _ _ _ Hi Hj Hw Hw' H). lia.
Qed.

Lemma countWins_replicate n t : wins t = false -> countWins (replicate n t) = 0%nat.
Proof. intros H. induction n as [| n IH]; simpl; [reflexivity |]. rewrite H, IH. reflexivity. Qed.

Lemma open_undecided env sid did :
  pureResult (Resumable.executeSignalForDeployment env sid did) = None.
Proof. reflexivity. Qed.

(** Opens for one deployment and signal, resumed in any order: the pairs
    stay distinct; the store gains at most one position, for this
    deployment and signal, and none if it had one; it gains as many as
    there are invocations with a success in hand, so at most one
    invocation succeeds; a success carries the id of the new position; a
    failure says why; no invocation throws. *)
Lemma race_of_opens env sid did n schedule w :
  uniquePairs (db w) ->
  let out := race schedule (replicate n (Resumable.executeSignalForDeployment env sid did)) w in
  uniquePairs (db (snd out))
  /\ exists new,
       positions (db (snd out)) = positions (db w) ++ new
       /\ Forall (fun row => pairOf row = (did, sid)) new
       /\ (length (positionsFor (db w) did sid) + length new <= 1)%nat
       /\ length new = countWins (fst out)
       /\ (forall i j r r', fst out !! i = Some (Ret r) -> fst out !! j = Some (Ret r') ->
                            success r = true -> success r' = true -> i = j)
       /\ (forall i r, fst out !! i = Some (Ret r) ->
                       if success r
                       then exists row, new = [row] /\ positionId r = Some (pos_id row)
                       else error r <> None)
       /\ (forall i e, fst out !! i <> Some (Raise e)).
Proof.
  intros Hw out.
  assert (Hstart : raceStands did sid w
                     (replicate n (Resumable.executeSignalForDeployment env sid did)) w).
  { split; [exact Hw |]. split.
    - apply Forall_forall. intros t Ht.
      apply elem_of_replicate in Ht as [-> _].
      exists w, w. apply executeSignalForDeployment_safe. apply positionsKept_refl.
    - exists []. split; [symmetry; apply app_nil_r |]. split; [apply Forall_nil; exact I |].
      split; [rewrite countWins_replicate; reflexivity |].
      intros i t r Hi Hr. apply lookup_replicate in Hi as [-> _]. discriminate. }
  destruct (race_stands did sid w schedule _ _ Hstart)
    as (Hinv & Hall & new & Hpos & Hfor & Hlen & Hids).
  fold out in Hinv, Hall, Hpos, Hlen, Hids.
  assert (Hone : (length (positionsFor (db w) did sid) + length new <= 1)%nat).
  { apply one_row_per_pair; [| exact Hfor].
    unfold pairsDistinct, uniquePairs in Hinv. rewrite Hpos in Hinv. exact Hinv. }
  split; [exact Hinv |]. exists new.
  split; [exact Hpos |]. split; [exact Hfor |]. split; [exact Hone |].
  split; [exact Hlen |]. split; [| split].
  - intros i j r r' Hi Hj Hs Hs'.
    destruct (Nat.eq_dec i j) as [| Hne]; [assumption |]. exfalso.
    assert (H2 : (2 <= countWins (fst out))%nat).
    { apply (countWins_two _ i j (Ret r) (Ret r')); auto. }
    lia.
  - intros i r Hi. destruct (success r) eqn:Hs.
    + destruct (Hids i (Ret r) r Hi eq_refl Hs) as (row & Hin & Hid).
      exists row. split; [| exact Hid].
      destruct new as [| row0 [| row1 new]]; simpl in *; [destruct Hin | | lia].
      destruct Hin as [-> | []]. reflexivity.
    + destruct (Forall_lookup_1 _ _ _ _ Hall Hi) as (u1 & u2 & Hwp).
      simpl in Hwp. rewrite Hs in Hwp. apply Hwp.
  - intros i e Hi.
    destruct (Forall_lookup_1 _ _ _ _ Hall Hi) as (u1 & u2 & Hwp). exact Hwp.
Qed.

(** ** Opens whose collaborators all answer *)

Section Rules.

Variable Inv : World -> Prop.
Hypothesis Inv_still : forall w w', Inv w -> sameStore w w' -> Inv w'.

Lemma kept_of_still w w' : sameStore w w' -> positionsKept w w'.
Proof. unfold sameStore, positionsKept. intros ->. reflexivity. Qed.

Lemma wp_await A X (act : M X) (G : X -> Prop) (k : X -> Prog A) (Q : Post A) u1 u2 :
  quietly Inv act G ->
  (forall a, G a -> forall v1 v2, positionsKept v1 v2 ->
                                  WP Inv positionsKept (k a) Q v1 v2) ->
  positionsKept u1 u2 ->
  WP Inv positionsKept (Bind (Await act) k) Q u1 u2.
Proof.
  intros Hact Hk Hu. simpl. split; [exact Hu |]. intros w Hw.
  specialize (Hact w Hw). destruct (act w) as [[a | e |] w']; [| destruct Hact | exact I].
  destruct Hact as [Hs Hg]. split; [eapply Inv_still; eauto |].
  apply Hk; [exact Hg | apply kept_of_still; exact Hs].
Qed.

Lemma wp_last A (act : M A) (G : A -> Prop) u1 u2 :
  quietly Inv act G -> positionsKept u1 u2 ->
  WP Inv positionsKept (Await act) (yields G) u1 u2.
Proof.
  intros Hact Hu. simpl. split; [exact Hu |]. intros w Hw.
  specialize (Hact w Hw). destruct (act w) as [[a | e |] w']; [| destruct Hact | exact I].
  destruct Hact as [Hs Hg]. split; [eapply Inv_still; eauto |].
  split; [apply kept_of_still; exact Hs | exact Hg].
Qed.

Lemma wp_sub A X (p : Prog X) (G : X -> Prop) (k : X -> Prog A) (Q : Post A) u1 u2 :
  WP Inv positionsKept p (yields G) u1 u2 ->
  (forall a, G a -> forall v1 v2, positionsKept v1 v2 ->
                                  WP Inv positionsKept (k a) Q v1 v2) ->
  WP Inv positionsKept (Bind p k) Q u1 u2.
Proof.
  intros Hp Hk. simpl. eapply WP_mono; [| exact Hp].
  intros [a | e] v1 v2 [Hv Hg]; [apply Hk; auto | destruct Hg].
Qed.

Lemma wp_ret A (a : A) (G : A -> Prop) u1 u2 :
  G a -> positionsKept u1 u2 -> WP Inv positionsKept (Ret a) (yields G) u1 u2.
Proof. intros Hg Hu. split; assumption. Qed.

Lemma wp_try A (p : Prog A) h (G : A -> Prop) u1 u2 :
  WP Inv positionsKept p (yields G) u1 u2 ->
  WP Inv positionsKept (Try p h) (yields G) u1 u2.
Proof.
  intros Hp. simpl. eapply WP_mono; [| exact Hp].
  intros [a | e] v1 v2 H; [exact H | destruct H as [_ []]].
Qed.

(** A program all of whose statements leave the store alone ends, if it
    does, after a statement that has left the positions as they were. *)
Lemma WP_still A (p : Prog A) : forall (Q : Post A) u1 u2,
  Every sameStore p ->
  (forall o v1 v2, positionsKept v1 v2 -> Q o v1 v2) ->
  positionsKept u1 u2 -> WP Inv positionsKept p Q u1 u2.
Proof.
  induction p as [A a | A e | A act | A X q IHq k IHk | A q IHq h IHh | A q IHq f];
    intros Q u1 u2 Hp HQ Hu; simpl in *.
  - apply HQ; exact Hu.
  - apply HQ; exact Hu.
  - split; [exact Hu |]. intros w Hw. pose proof (Hp w) as Hq.
    destruct (act w) as [[a | e |] w1]; simpl in Hq; [| | exact I];
      (split; [eapply Inv_still; eauto | apply HQ; apply kept_of_still; exact Hq]).
  - destruct Hp as [Hq Hk]. apply IHq; [exact Hq | | exact Hu].
    intros [x | e] v1 v2 Hv; [apply IHk; auto | apply HQ; exact Hv].
  - destruct Hp as [Hq Hh]. apply IHq; [exact Hq | | exact Hu].
    intros [a | e] v1 v2 Hv; [apply HQ; exact Hv | apply IHh; auto].
  - destruct Hp as [Hq Hf]. apply IHq; [exact Hq | | exact Hu].
    intros o v1 v2 Hv. split; [exact Hv |].
    intros w Hw. split; [eapply Inv_still; eauto | apply HQ; apply kept_of_still; apply Hf].
Qed.

(** A [try] whose [catch] returns a value ends with a value. *)
Lemma wp_caught A X (p : Prog X) (h : Message -> X) (k : X -> Prog A) (Q : Post A) u1 u2 :
  Every sameStore p ->
  (forall a v1 v2, positionsKept v1 v2 -> WP Inv positionsKept (k a) Q v1 v2) ->
  positionsKept u1 u2 ->
  WP Inv positionsKept (Bind (Try p (fun e => Ret (h e))) k) Q u1 u2.
Proof.
  intros Hp Hk Hu. simpl. apply WP_still; [exact Hp | | exact Hu].
  intros [a | e] v1 v2 Hv; simpl; apply Hk; exact Hv.
Qed.

Lemma quietly_ask A (o : nat -> reply A) (G : A -> Prop) :
  (forall t, exists a, o t = Returns a /\ G a) -> quietly Inv (ask o) G.
Proof.
  intros H w _. unfold ask. destruct (H (clock w)) as (a & -> & Hg). simpl.
  split; [reflexivity | exact Hg].
Qed.

Lemma quietly_asked A (o : nat -> reply A) :
  (forall t, exists a, o t = Returns a) -> quietly Inv (ask o) (fun _ => True).
Proof.
  intros H. apply quietly_ask. intros t. destruct (H t) as (a & Ha). exists a. auto.
Qed.

Lemma quietly_liftReply A (r : reply A) :
  (exists a, r = Returns a) -> quietly Inv (liftReply r) (fun _ => True).
Proof. intros (a & ->) w _. simpl. split; [reflexivity | exact I]. Qed.

Lemma quietly_observe A (o : nat -> A) : quietly Inv (observe o) (fun _ => True).
Proof. intros w _. simpl. split; [reflexivity | exact I]. Qed.

Lemma quietly_getStore (G : Store -> Prop) :
  (forall w, Inv w -> G (db w)) -> quietly Inv getStore G.
Proof. intros H w Hw. simpl. split; [reflexivity | apply H; exact Hw]. Qed.

Lemma quietly_acquire address : quietly Inv (Resumable.acquire address) (fun _ => True).
Proof.
  intros w _. unfold Resumable.acquire.
  destruct (decide (address ∈ nonceLocks w)); [exact I | split; [reflexivity | exact I]].
Qed.

Lemma quietly_cachedNonce address :
  quietly Inv (Resumable.cachedNonce address) (fun _ => True).
Proof. intros w _. split; [reflexivity | exact I]. Qed.

Lemma quietly_cacheNonce address n : quietly Inv (cacheNonce address n) (fun _ => True).
Proof. intros w _. split; [reflexivity | exact I]. Qed.

Lemma wp_finally A (q : Prog A) f (G : A -> Prop) u1 u2 :
  (forall w, sameStore w (f w)) ->
  WP Inv positionsKept q (yields G) u1 u2 ->
  WP Inv positionsKept (Finally q f) (yields G) u1 u2.
Proof.
  intros Hf Hq. simpl. eapply WP_mono; [| exact Hq].
  intros o w1 w2 [Hk Ho]. split; [exact Hk |]. intros w Hw.
  split; [eapply Inv_still; [exact Hw | apply Hf] |].
  split; [apply kept_of_still; apply Hf | exact Ho].
Qed.

Lemma WP_assoc A X Y (p : Prog X) (k1 : X -> Prog Y) (k2 : Y -> Prog A) (Q : Post A) u1 u2 :
  WP Inv positionsKept (Bind (Bind p k1) k2) Q u1 u2
  = WP Inv positionsKept (Bind p (fun x => Bind (k1 x) k2)) Q u1 u2.
Proof. reflexivity. Qed.

End Rules.

(** One step of the proof that every statement of a program leaves the
    store alone. *)
Ltac still_step :=
  match goal with
  | |- Every _ (Ret _) => exact I
  | |- Every _ (Raise _) => exact I
  | |- Every _ (Bind _ _) => apply every_Bind; [| intros ?]
  | |- Every _ (Try _ _) => apply every_Try; [| intros ?]
  | |- Every _ (Finally _ _) => apply every_Finally; [| intros ?; reflexivity]
  | |- Every _ (Await ?act) =>
      change (preserves sameStore act);
      first [ apply preserves_ask; apply sameStore_tick
            | apply preserves_observe; apply sameStore_tick
            | apply preserves_liftReply; apply sameStore_refl
            | apply preserves_getStore; apply sameStore_refl
            | apply send_sameStore
            | apply acquire_sameStore
            | apply cachedNonce_sameStore
            | apply cacheNonce_sameStore ]
  | |- Every _ (if ?b then _ else _) => destruct b
  | |- Every _ (match ?x with _ => _ end) => destruct x
  | |- Every _ (let _ := _ in _) => cbv zeta
  end.

Lemma getNextNonce_still env svc : Every sameStore (Resumable.getNextNonce env svc).
Proof. unfold Resumable.getNextNonce. repeat still_step. Qed.

Ltac still :=
  repeat match goal with
         | |- Every _ (Resumable.getNextNonce _ _) => apply getNextNonce_still
         | _ => still_step
         end.

Section Cooperation.

Variable env : Env.
Variable sg : Signal.
Variable dep : AgentDeployment.
Variable ag : Agent.
Variable size : Q.
Hypothesis answered : cooperative env sg dep size.

Lemma raceReady_still w w' :
  raceReady env sg dep ag w -> sameStore w w' -> raceReady env sg dep ag w'.
Proof.
  unfold raceReady, pairsDistinct, sameStore. intros H ->. exact H.
Qed.

Lemma getNextNonce_yields svc u1 u2 :
  positionsKept u1 u2 ->
  WP (raceReady env sg dep ag) positionsKept (Resumable.getNextNonce env svc)
     (yields (fun _ => True)) u1 u2.
Proof.
  intros Hu. unfold Resumable.getNextNonce. cbv zeta.
  eapply wp_await; [exact raceReady_still | apply quietly_acquire | | exact Hu].
  intros _ _ v1 v2 Hv.
  apply wp_finally; [exact raceReady_still | intros w; reflexivity |].
  eapply wp_await; [exact raceReady_still | apply quietly_cachedNonce | | exact Hv].
  intros cached _ w1 w2 Hw.
  eapply wp_sub with (G := fun _ : Z => True).
  - destruct cached as [c |].
    + eapply wp_await; [exact raceReady_still | | | exact Hw].
      * apply quietly_asked. intros t. apply (@coop_count _ _ _ _ answered).
      * intros n _ x1 x2 Hx. apply wp_ret; [exact I | exact Hx].
    + apply wp_last; [exact raceReady_still | | exact Hw].
      apply quietly_asked. intros t. apply (@coop_count _ _ _ _ answered).
  - intros n _ x1 x2 Hx.
    eapply wp_await; [exact raceReady_still | apply quietly_cacheNonce | | exact Hx].
    intros _ _ y1 y2 Hy. apply wp_ret; [exact I | exact Hy].
Qed.

Lemma newSafeModuleService_yields config u1 u2 :
  positionsKept u1 u2 ->
  WP (raceReady env sg dep ag) positionsKept (Resumable.newSafeModuleService env config)
     (yields (fun _ => True)) u1 u2.
Proof.
  intros Hu. unfold Resumable.newSafeModuleService.
  eapply wp_await; [exact raceReady_still | | | exact Hu].
  - apply quietly_liftReply. apply (@coop_connect _ _ _ _ answered).
  - intros a _ v1 v2 Hv. apply wp_ret; [exact I | exact Hv].
Qed.

Lemma quietly_open svc c g n :
  openSafe c <> None ->
  quietly (raceReady env sg dep ag) (send env svc c g n)
          (fun receipt => rowFits size (tradeEventAmount (events receipt))).
Proof.
  intros Hc w _. unfold send.
  destruct (@coop_chain _ _ _ _ answered (clock w) (executor svc)
              {| call := c; gasLimit := g; nonce := n |} Hc) as (receipt & -> & Hfit).
  simpl. split; [reflexivity | exact Hfit].
Qed.

Lemma executeTrade_yields svc params u1 u2 :
  positionsKept u1 u2 ->
  WP (raceReady env sg dep ag) positionsKept (Resumable.executeTrade env svc params)
     (yields (fun result => tr_success result = true
                            /\ rowFits size (tr_amountOut result))) u1 u2.
Proof.
  intros Hu. unfold Resumable.executeTrade, Resumable.executeTradeWithIntent.
  destruct (truthy (tp_signalHash params) && truthy (tp_creatorAddress params));
    apply wp_try; cbv zeta;
    (eapply wp_sub with (G := fun _ : Z => True); [apply getNextNonce_yields; exact Hu |]);
    intros n _ v1 v2 Hv;
    (eapply wp_await; [exact raceReady_still | apply quietly_open; discriminate | | exact Hv]);
    intros receipt Hfit w1 w2 Hw; (apply wp_ret; [| exact Hw]);
    (split; [reflexivity | exact Hfit]).
Qed.

Lemma autoSetup_runs A svc safe token usdc router (k : unit -> Prog A) (Q : Post A)
    u1 u2 :
  (forall v1 v2, positionsKept v1 v2 ->
                 WP (raceReady env sg dep ag) positionsKept (k tt) Q v1 v2) ->
  positionsKept u1 u2 ->
  WP (raceReady env sg dep ag) positionsKept
     (Bind (Resumable.autoSetup env svc safe token usdc router) k) Q u1 u2.
Proof.
  intros Hk Hu. unfold Resumable.autoSetup. rewrite WP_assoc.
  apply (wp_caught (raceReady env sg dep ag) raceReady_still _ _ _ (fun _ => tt)); [| | exact Hu].
  { unfold Resumable.getSafeStats, Resumable.initializeCapital. still. }
  intros _ v1 v2 Hv. rewrite WP_assoc.
  apply (wp_caught (raceReady env sg dep ag) raceReady_still _ _ _ (fun _ => tt)); [| | exact Hv].
  { unfold Resumable.checkTokenWhitelist, Resumable.setTokenWhitelist. still. }
  intros _ w1 w2 Hw. rewrite WP_assoc. unfold Resumable.approveTokenForDex. cbv zeta.
  apply (wp_caught (raceReady env sg dep ag) raceReady_still _ _ _
           (fun error => txFailed (messageOr error "Approval failed"))); [| | exact Hw].
  { still. }
  intros _ x1 x2 Hx. exact (Hk x1 x2 Hx).
Qed.

Lemma spot_branch X (a b c : X) :
  match sig_venue sg with
  | SPOT => a
  | GMX => b
  | HYPERLIQUID => c
  end = a.
Proof. rewrite (@coop_venue _ _ _ _ answered). reflexivity. Qed.

Lemma order_fields asked :
  order asked = order sg ->
  sig_id asked = sig_id sg /\ sig_agentId asked = sig_agentId sg
  /\ sig_tokenSymbol asked = sig_tokenSymbol sg /\ sig_venue asked = sig_venue sg
  /\ sig_side asked = sig_side sg /\ sizeModel asked = sizeModel sg.
Proof. unfold order. intros H. inversion H. repeat split; assumption. Qed.

Lemma ready_of_raceReady w : (raceReady env sg dep ag) w -> ready env sg dep ag (db w).
Proof. intros [_ H]. exact H. Qed.

Lemma preTradeValidation_yields asked u1 u2 :
  order asked = order sg ->
  positionsKept u1 u2 ->
  WP (raceReady env sg dep ag) positionsKept (Resumable.preTradeValidation env asked dep)
     (yields (fun check => canExecute check = true)) u1 u2.
Proof.
  intros Ho Hu. destruct (order_fields _ Ho) as (_ & _ & Htok & Hven & _ & Hsm).
  unfold Resumable.preTradeValidation. apply wp_try. cbv zeta.
  rewrite Htok, Hven, Hsm.
  eapply wp_await with (G := ready env sg dep ag);
    [exact raceReady_still | apply quietly_getStore; exact ready_of_raceReady | | exact Hu].
  intros st (_ & _ & _ & Hvenue & Htoken) v1 v2 Hv.
  destruct (findVenueStatus st (sig_venue sg) (beforeManual (sig_tokenSymbol sg)));
    [| contradiction].
  eapply wp_await;
    [exact raceReady_still
    | apply quietly_ask; intros t; apply (@coop_balance _ _ _ _ answered) | | exact Hv].
  intros balance [Hb Hsized] w1 w2 Hw. cbv beta in Hb, Hsized. rewrite Hb.
  assert (Hsize : match option_map (fun value => (balance * value / 100)%Q)
                          (sm_value (sizeModel sg)) with
                  | Some c => Qeq_bool c 0
                  | None => false
                  end = false).
  { destruct (sm_value (sizeModel sg)) as [value |]; simpl; [| reflexivity].
    apply Hsized. reflexivity. }
  rewrite Hsize. rewrite spot_branch.
  eapply wp_await with (G := ready env sg dep ag);
    [exact raceReady_still | apply quietly_getStore; exact ready_of_raceReady | | exact Hw].
  intros st' (_ & _ & _ & _ & Htoken') x1 x2 Hx.
  destruct (findToken st' (chainName (getChainIdForVenue env (sig_venue sg)))
              (beforeManual (sig_tokenSymbol sg))); [| contradiction].
  apply wp_ret; [reflexivity | exact Hx].
Qed.

(** An insert of amounts that fit, for rows that are there, is refused
    only by the unique index. *)
Lemma insertPosition_refused data at_ st e :
  (exists stored, toDecimal (pc_qty data) = Returns stored) ->
  (exists stored, toDecimal (pc_entryPrice data) = Returns stored) ->
  findDeployment st (pc_deploymentId data) <> None ->
  findSignal st (pc_signalId data) <> None ->
  insertPosition data at_ st = Raises e ->
  e = duplicateKey
  /\ findPositionFor st (pc_deploymentId data) (pc_signalId data) <> None.
Proof.
  intros (q & Hq) (p & Hp) Hdep Hsig. unfold insertPosition. rewrite Hq, Hp.
  destruct (findDeployment st (pc_deploymentId data)); [| contradiction].
  destruct (findSignal st (pc_signalId data)); [| contradiction].
  destruct (findPositionFor st (pc_deploymentId data) (pc_signalId data));
    [| discriminate].
  intros H. inversion H. split; [reflexivity | discriminate].
Qed.

Lemma ready_withPositions st rows next :
  ready env sg dep ag st -> ready env sg dep ag (withPositions st rows next).
Proof. intros H. exact H. Qed.

Lemma ready_updateSignal st f :
  (forall x, order (f x) = order x) ->
  ready env sg dep ag st ->
  ready env sg dep ag (withSignals st (updateRow sig_id (sig_id sg) f (signals st))).
Proof.
  intros Hf ((stored & Hstored & Hord) & Hrest).
  split; [| exact Hrest].
  exists (f stored). split; [| rewrite Hf; exact Hord].
  rewrite findSignal_updateRow.
  - rewrite Hstored. reflexivity.
  - intros x. pose proof (Hf x) as Hx. unfold order in Hx. inversion Hx. reflexivity.
Qed.

(** The part of an open under its [catch] blocks. *)
Lemma caught_try p u1 u2 :
  WP (raceReady env sg dep ag) positionsKept p
     (caughtRace (dep_id dep) (sig_id sg)) u1 u2 ->
  WP (raceReady env sg dep ag) positionsKept (Try p (fun e => Ret (failure e)))
     (caughtRace (dep_id dep) (sig_id sg)) u1 u2.
Proof.
  intros Hp. simpl. eapply WP_mono; [| exact Hp].
  intros [r | e] v1 v2 H; exact H.
Qed.

Lemma settleTrade_races asked sym hash result u1 u2 :
  order asked = order sg ->
  tr_success result = true ->
  rowFits size (tr_amountOut result) ->
  positionsKept u1 u2 ->
  WP (raceReady env sg dep ag) positionsKept
     (Resumable.settleTrade env {| signal := asked; agent := ag; deployment := dep |}
        sym hash size result)
     (caughtRace (dep_id dep) (sig_id sg)) u1 u2.
Proof.
  intros Ho Hs [Hqty Hprice] Hu.
  destruct (order_fields _ Ho) as (Hid & _).
  unfold Resumable.settleTrade. rewrite Hs. cbn [negb]. cbv zeta.
  cbn [signal agent deployment]. split; [exact Hu |].
  intros w [Hpairs Hready].
  unfold recordProofOfIntent, dbWrite, bind, getStore, liftReply, setStore, updateSignal.
  cbn [signal agent deployment]. rewrite Hid.
  pose proof Hready as ((stored & Hstored & Hord) & _). rewrite Hstored. simpl.
  split.
  { split; [exact Hpairs |]. apply (ready_updateSignal (db w)); [reflexivity | exact Hready]. }
  split; [reflexivity |].
  intros w2 [Hpairs2 Hready2].
  unfold createPosition, bind, observe, getStore, liftReply, setStore, ret.
  match goal with
  | |- context [insertPosition ?data ?at_ ?st] =>
      destruct (insertPosition data at_ st) as [[row st'] | e] eqn:Hins
  end; simpl.
  - pose proof (insertPosition_unique _ _ _ _ _ Hins Hpairs2) as Hunique.
    apply insertPosition_stores in Hins as (-> & _ & Hpair & _).
    split; [split; [exact Hunique | apply ready_withPositions; exact Hready2] |].
    exists row. simpl. split; [reflexivity |]. split; [| reflexivity].
    rewrite Hpair. simpl. rewrite Hid. reflexivity.
  - split; [split; [exact Hpairs2 | exact Hready2] |].
    destruct Hready2 as ((stored2 & Hstored2 & _) & Hdep2 & _).
    apply insertPosition_refused in Hins as [-> Htaken].
    + split; [reflexivity |]. split; [reflexivity |].
      simpl in Htaken. rewrite Hid in Htaken. exact Htaken.
    + exact Hqty.
    + exact Hprice.
    + simpl. rewrite Hdep2. discriminate.
    + simpl. rewrite Hid, Hstored2. discriminate.
Qed.

(** One awaited call that the collaborators answer, and one reading of
    the clock. *)
Ltac asks field :=
  eapply wp_await;
  [ exact raceReady_still
  | first [ apply quietly_asked; intros ?; apply (field _ _ _ _ answered)
          | apply quietly_liftReply; apply (field _ _ _ _ answered) ]
  | intros ? _ ? ? ?
  | assumption ].

Ltac observes :=
  eapply wp_await;
  [ exact raceReady_still | apply quietly_observe | intros ? _ ? ? ? | assumption ].

Lemma executeSpotTrade_races asked u1 u2 :
  order asked = order sg ->
  positionsKept u1 u2 ->
  WP (raceReady env sg dep ag) positionsKept
     (Resumable.executeSpotTrade env {| signal := asked; agent := ag; deployment := dep |})
     (caughtRace (dep_id dep) (sig_id sg)) u1 u2.
Proof.
  intros Ho Hu. destruct (order_fields _ Ho) as (_ & _ & Htok & Hven & Hside & Hsm).
  unfold Resumable.executeSpotTrade. apply caught_try. cbv zeta.
  cbn [signal agent deployment]. rewrite Htok, Hven, Hsm.
  eapply wp_await;
    [ exact raceReady_still
    | apply quietly_ask; intros t; apply (@coop_summary _ _ _ _ answered) | | exact Hu].
  intros summary (Hcan & Hsize) v1 v2 Hv. cbv beta in Hcan, Hsize.
  rewrite Hcan. cbn [negb].
  eapply wp_await with (G := ready env sg dep ag);
    [exact raceReady_still | apply quietly_getStore; exact ready_of_raceReady | | exact Hv].
  intros st (_ & _ & _ & _ & Htoken) w1 w2 Hw.
  destruct (findToken st (chainName (getChainIdForVenue env (sig_venue sg)))
              (beforeManual (sig_tokenSymbol sg))) as [token |]; [| contradiction].
  rewrite Hsize.
  asks (@coop_units). asks (@coop_quote). asks (@coop_min). asks (@coop_approval).
  observes. asks (@coop_swap).
  rewrite (@coop_key _ _ _ _ answered). cbn [negb].
  eapply wp_sub with (G := fun _ : Service => True);
    [apply newSafeModuleService_yields; assumption |].
  intros moduleService _ x1 x2 Hx.
  destruct (@coop_router _ _ _ _ answered) as (router & -> & ->). cbn [negb].
  apply autoSetup_runs; [| exact Hx].
  intros y1 y2 Hy.
  observes. asks (@coop_hash).
  eapply wp_sub; [apply executeTrade_yields; assumption |].
  intros result [Hs Hfit] z1 z2 Hz. cbv beta in Hs, Hfit.
  apply settleTrade_races; assumption.
Qed.

Lemma executeSignalInternal_races asked u1 u2 :
  order asked = order sg ->
  positionsKept u1 u2 ->
  WP (raceReady env sg dep ag) positionsKept
     (Resumable.executeSignalInternal env
        {| signal := asked; agent := ag; deployment := dep |})
     (caughtRace (dep_id dep) (sig_id sg)) u1 u2.
Proof.
  intros Ho Hu. destruct (order_fields _ Ho) as (_ & _ & _ & Hven & _).
  unfold Resumable.executeSignalInternal, Resumable.routeToVenue.
  apply caught_try. cbv zeta. cbn [signal agent deployment]. rewrite Hven.
  eapply wp_await;
    [ exact raceReady_still
    | apply quietly_ask; intros t; apply (@coop_safe _ _ _ _ answered) | | exact Hu].
  intros validation Hvalid v1 v2 Hv. cbv beta in Hvalid. rewrite Hvalid. cbn [negb].
  eapply wp_sub; [apply preTradeValidation_yields; assumption |].
  intros check Hcheck w1 w2 Hw. cbv beta in Hcheck. rewrite Hcheck. cbn [negb].
  rewrite spot_branch. apply executeSpotTrade_races; assumption.
Qed.

(** When its collaborators all answer, the open ends as [racePost] says. *)
Lemma executeSignalForDeployment_races u1 u2 :
  positionsKept u1 u2 ->
  WP (raceReady env sg dep ag) positionsKept
     (Resumable.executeSignalForDeployment env (sig_id sg) (dep_id dep))
     (racePost (dep_id dep) (sig_id sg)) u1 u2.
Proof.
  intros Hu. unfold Resumable.executeSignalForDeployment.
  assert (Hbody : forall p,
             WP (raceReady env sg dep ag) positionsKept p
                (caughtRace (dep_id dep) (sig_id sg)) u1 u2 ->
             WP (raceReady env sg dep ag) positionsKept
                (Try p (fun e => Ret (failure e)))
                (racePost (dep_id dep) (sig_id sg)) u1 u2).
  { intros p Hp. simpl. eapply WP_mono; [| exact Hp].
    intros [r | e] v1 v2 H; exact H. }
  apply Hbody. clear Hbody.
  eapply wp_await with (G := ready env sg dep ag);
    [exact raceReady_still | apply quietly_getStore; exact ready_of_raceReady | | exact Hu].
  intros st ((asked & -> & Ho) & _ & Hag & _) v1 v2 Hv.
  eapply wp_await with (G := ready env sg dep ag);
    [exact raceReady_still | apply quietly_getStore; exact ready_of_raceReady | | exact Hv].
  intros st' (_ & -> & _) w1 w2 Hw.
  destruct (order_fields _ Ho) as (_ & -> & _). rewrite Hag.
  apply executeSignalInternal_races; assumption.
Qed.

End Cooperation.

Lemma racePost_grows Inv d sg t w w' :
  WP Inv positionsKept t (racePost d sg) w w' ->
  exists extra, positions (db w') = positions (db w) ++ extra.
Proof.
  intros H. apply WP_verdict in H.
  destruct (pureResult t) as [[r | e] |]; simpl in H.
  - destruct (success r).
    + destruct H as (row & Hrow & _). exists [row]. exact Hrow.
    + destruct H as (Hsame & _). exists []. rewrite app_nil_r. exact Hsame.
  - destruct H.
  - exists []. rewrite app_nil_r. exact H.
Qed.

Lemma raceRuns_step Inv d sg tasks w i t :
  raceRuns Inv d sg tasks w -> tasks !! i = Some t ->
  raceRuns Inv d sg (<[i := fst (step t w)]> tasks) (snd (step t w)).
Proof.
  intros (Hinv & Hall) Hi.
  destruct (Forall_lookup_1 _ _ _ _ Hall Hi) as (u1 & u2 & Hwp & rest & Hrest).
  destruct (WP_step _ _ _ _ _ _ _ w Hwp Hinv)
    as [Hinv' [(Hsame & Hpure & Hwp') | (Hnone & Hwp')]].
  - split; [exact Hinv' |]. rewrite Hsame.
    apply Forall_insert; [exact Hall |].
    exists u1, u2. split; [exact Hwp' | exists rest; exact Hrest].
  - split; [exact Hinv' |].
    destruct (racePost_grows _ _ _ _ _ _ Hwp') as (extra & Hextra).
    apply Forall_insert.
    + eapply Forall_impl; [exact Hall |].
      intros t0 (v1 & v2 & Hv & rest0 & Hrest0). exists v1, v2. split; [exact Hv |].
      exists (rest0 ++ extra). rewrite Hextra, Hrest0, app_assoc. reflexivity.
    + exists w, (snd (step t w)). split; [exact Hwp' |].
      exists []. rewrite app_nil_r. reflexivity.
Qed.

Lemma race_runs Inv d sg schedule : forall tasks w,
  raceRuns Inv d sg tasks w ->
  raceRuns Inv d sg (fst (race schedule tasks w)) (snd (race schedule tasks w)).
Proof.
  induction schedule as [| i rest IH]; intros tasks w H; simpl; [exact H |].
  destruct (tasks !! i) as [t |] eqn:Hi; [| apply IH; exact H].
  apply IH. apply raceRuns_step; assumption.
Qed.

Lemma race_length A schedule : forall (tasks : list (Prog A)) w,
  length (fst (race schedule tasks w)) = length tasks.
Proof.
  induction schedule as [| i rest IH]; intros tasks w; simpl; [reflexivity |].
  destruct (tasks !! i) as [t |]; [| apply IH].
  rewrite IH. apply length_insert.
Qed.

Lemma countWins_some tasks :
  (0 < countWins tasks)%nat -> exists i t, tasks !! i = Some t /\ wins t = true.
Proof.
  induction tasks as [| a tasks IH]; simpl; [lia |].
  destruct (wins a) eqn:Ha.
  - intros _. exists 0%nat, a. split; [reflexivity | exact Ha].
  - intros H. destruct (IH H) as (i & t & Hi & Ht). exists (S i), t. split; assumption.
Qed.

Lemma find_app_found A (f : A -> bool) (l rest : list A) :
  find f l <> None -> find f (l ++ rest) <> None.
Proof.
  induction l as [| a l IH]; simpl; [congruence |].
  destruct (f a); [discriminate | exact IH].
Qed.

Lemma settled_cases A (t : Prog A) :
  settledWith t <> None -> (exists a, t = Ret a) \/ (exists e, t = Raise e).
Proof. destruct t; simpl; intros H; try congruence; eauto. Qed.

(** Opens whose collaborators all answer, resumed in any order: an
    invocation that returns a failure returns the failure of the unique
    index; and once all of at least one have finished, with the pair free
    at the start, exactly one position has been created, one invocation has
    returned success with its id, and every other has returned that
    failure. *)
Lemma race_of_answered_opens env sg dep ag size n schedule w :
  cooperative env sg dep size ->
  ready env sg dep ag (db w) ->
  uniquePairs (db w) ->
  let out := race schedule
               (replicate n (Resumable.executeSignalForDeployment env
                               (sig_id sg) (dep_id dep))) w in
  (forall i r, fst out !! i = Some (Ret r) -> success r = false ->
               error r = Some duplicateKey)
  /\ (Forall (fun t => settledWith t <> None) (fst out) ->
      (0 < n)%nat ->
      positionsFor (db w) (dep_id dep) (sig_id sg) = [] ->
      exists row i r,
        positions (db (snd out)) = positions (db w) ++ [row]
        /\ pairOf row = (dep_id dep, sig_id sg)
        /\ fst out !! i = Some (Ret r)
        /\ success r = true
        /\ positionId r = Some (pos_id row)
        /\ forall j r', fst out !! j = Some (Ret r') -> j <> i ->
                        success r' = false /\ error r' = Some duplicateKey).
Proof.
  intros Hanswered Hready Hpairs out.
  assert (Hstart : raceRuns (raceReady env sg dep ag) (dep_id dep) (sig_id sg)
                     (replicate n (Resumable.executeSignalForDeployment env
                                     (sig_id sg) (dep_id dep))) w).
  { split; [split; assumption |].
    apply Forall_forall. intros t Ht. apply elem_of_replicate in Ht as [-> _].
    exists w, w. split.
    - apply executeSignalForDeployment_races with (size := size);
        [exact Hanswered | apply positionsKept_refl].
    - exists []. rewrite app_nil_r. reflexivity. }
  destruct (race_runs _ _ _ schedule _ _ Hstart) as (_ & Hall). fold out in Hall.
  assert (Hfailed : forall i r, fst out !! i = Some (Ret r) -> success r = false ->
                                error r = Some duplicateKey
                                /\ findPositionFor (db (snd out)) (dep_id dep) (sig_id sg)
                                   <> None).
  { intros i r Hi Hs.
    destruct (Forall_lookup_1 _ _ _ _ Hall Hi) as (u1 & u2 & Hwp & rest & Hrest).
    simpl in Hwp. rewrite Hs in Hwp. destruct Hwp as (Hsame & Herr & Htaken).
    split; [exact Herr |].
    unfold findPositionFor in *. rewrite Hrest, Hsame. apply find_app_found. exact Htaken. }
  split; [intros i r Hi Hs; apply (Hfailed i r Hi Hs) |].
  intros Hdone Hn Hfree.
  destruct (race_of_opens env (sig_id sg) (dep_id dep) n schedule w Hpairs)
    as (_ & new & Hpos & Hfor & Hone & Hlen & Honly & Hids & Hnothrow).
  fold out in Hpos, Hlen, Honly, Hids, Hnothrow.
  assert (Hwinner : exists i r, fst out !! i = Some (Ret r) /\ success r = true).
  { assert (Hnew : (0 < countWins (fst out))%nat).
    { destruct (lookup_lt_is_Some_2 (fst out) 0%nat) as [t0 H0].
      { unfold out. rewrite race_length, length_replicate. exact Hn. }
      pose proof (Forall_lookup_1 _ _ _ _ Hdone H0) as Hsettled.
      destruct (settled_cases _ _ Hsettled) as [[r ->] | [e ->]];
        [| exfalso; exact (Hnothrow _ _ H0)].
      destruct (success r) eqn:Hs.
      - pose proof (countWins_one _ _ _ H0 Hs). lia.
      - destruct (Hfailed _ _ H0 Hs) as [_ Htaken].
        rewrite <- Hlen. destruct new as [| row new]; [| simpl; lia].
        exfalso. apply Htaken. apply findPositionFor_none.
        unfold positionsFor in *. rewrite Hpos, app_nil_r. exact Hfree. }
    destruct (countWins_some _ Hnew) as (i & t & Hi & Ht).
    pose proof (Forall_lookup_1 _ _ _ _ Hdone Hi) as Hsettled.
    destruct (settled_cases _ _ Hsettled) as [[r ->] | [e ->]];
      [| discriminate Ht].
    exists i, r. split; [exact Hi | exact Ht]. }
  destruct Hwinner as (i & r & Hi & Hs).
  pose proof (Hids i r Hi) as Hrow. rewrite Hs in Hrow.
  destruct Hrow as (row & -> & Hid).
  exists row, i, r. split; [exact Hpos |].
  split; [apply Forall_cons in Hfor as [Hpair _]; exact Hpair |].
  split; [exact Hi |]. split; [exact Hs |]. split; [exact Hid |].
  intros j r' Hj Hne.
  destruct (success r') eqn:Hs'.
  - exfalso. apply Hne. exact (Honly j i r' r Hj Hi Hs' Hs).
  - split; [reflexivity | apply (Hfailed j r' Hj Hs')].
Qed.

(** ** One position per deployment and signal, whatever the interleaving *)



Lemma sample_collaborators_answer :
  cooperative sampleEnv sampleSignal sampleDeployment (5000 # 100).
Proof.
  split; intros;
    try (eexists; split; [reflexivity | try (vm_compute; split; try reflexivity)]);
    try (eexists; reflexivity); try reflexivity.
  intros value Hvalue. inversion Hvalue; subst. reflexivity.
Defined.

